(** * TSApredictor: bounding boxes, arena, critical orbits and the local
      cell-mapping propagator of [main.cpp], embedded in Rocq. *)

From Stdlib Require Import ZArith QArith Qround Qabs Reals Lra Lia Psatz Bool.
From stdpp Require Import base option list gmap.

Set Default Proof Using "Type".

(** ** The floating type [NTYP]

    [main.cpp] selects [NTYP] with a [#define] among [double],
    [long double] and [__float128].  The embedding keeps the type abstract
    behind the operations the program uses, and instantiates it with the
    exact reals (for statements about exact real arithmetic) and with the
    rationals (to run the code). *)

Class NTYP_ops (NTYP : Type) := {
  nofZ : Z -> NTYP;
  nadd : NTYP -> NTYP -> NTYP;
  nsub : NTYP -> NTYP -> NTYP;
  nmul : NTYP -> NTYP -> NTYP;
  ndiv : NTYP -> NTYP -> NTYP;
  nltb : NTYP -> NTYP -> bool;
  nleb : NTYP -> NTYP -> bool;
  nfloor : NTYP -> Z;
  nsqrt : NTYP -> NTYP
}.

Declare Scope ntyp_scope.
Delimit Scope ntyp_scope with ntyp.
Infix "+" := nadd : ntyp_scope.
Infix "-" := nsub : ntyp_scope.
Infix "*" := nmul : ntyp_scope.
Infix "/" := ndiv : ntyp_scope.
Infix "<?" := nltb : ntyp_scope.
Infix "<=?" := nleb : ntyp_scope.
Notation "a >? b" := (nltb b a) : ntyp_scope.
Notation "a >=? b" := (nleb b a) : ntyp_scope.

(** ** structs *)

Record PlaneRect (NTYP : Type) := mkPlaneRect {
  px0 : NTYP; px1 : NTYP; py0 : NTYP; py1 : NTYP
}.
Arguments mkPlaneRect {NTYP}.
Arguments px0 {NTYP}. Arguments px1 {NTYP}.
Arguments py0 {NTYP}. Arguments py1 {NTYP}.

Record ScreenRect := mkScreenRect {
  sx0 : Z; sx1 : Z; sy0 : Z; sy1 : Z
}.

Record Complex (NTYP : Type) := mkComplex { re : NTYP; im : NTYP }.
Arguments mkComplex {NTYP}.
Arguments re {NTYP}. Arguments im {NTYP}.

(** The module-scope seed interval and the factor [A] read by the
    bounding-box evaluators. *)
Record Seeds (NTYP : Type) := mkSeeds {
  seedC0re : NTYP; seedC1re : NTYP; seedC0im : NTYP; seedC1im : NTYP;
  FAKTORAre : NTYP; FAKTORAim : NTYP
}.
Arguments mkSeeds {NTYP}.
Arguments seedC0re {NTYP}. Arguments seedC1re {NTYP}.
Arguments seedC0im {NTYP}. Arguments seedC1im {NTYP}.
Arguments FAKTORAre {NTYP}. Arguments FAKTORAim {NTYP}.

Inductive FUNC := FUNC_Z2C | FUNC_Z2AZC | FUNC_Z3AZC | FUNC_Z4AZC | FUNC_Z5AZC | FUNC_Z6AZC.

Section BoundingBox.
Context {NTYP : Type} {ops : NTYP_ops NTYP}.
Local Open Scope ntyp_scope.

Definition minimumD (a b : NTYP) : NTYP := if a <? b then a else b.
Definition maximumD (a b : NTYP) : NTYP := if a >? b then a else b.

Definition minimumD4 (a b c d : NTYP) : NTYP :=
  let m := a in
  let m := if b <? m then b else m in
  let m := if c <? m then c else m in
  let m := if d <? m then d else m in
  m.

Definition maximumD4 (a b c d : NTYP) : NTYP :=
  let m := a in
  let m := if b >? m then b else m in
  let m := if c >? m then c else m in
  let m := if d >? m then d else m in
  m.

Variable s : Seeds NTYP.

Notation "'#' n" := (nofZ n) (at level 5, n at level 0, format "'#' n").

(** z^2+c *)
Definition getBoundingBoxfA_z2c (A : PlaneRect NTYP) : PlaneRect NTYP :=
  let x0 := px0 A in let x1 := px1 A in let y0 := py0 A in let y1 := py1 A in
  {| px0 := minimumD (x0*x0) (x1*x1) - maximumD (y0*y0) (y1*y1) + seedC0re s;
     px1 := maximumD (x0*x0) (x1*x1) - minimumD (y0*y0) (y1*y1) + seedC1re s;
     py0 := #2 * minimumD4 (x0*y0) (x0*y1) (x1*y0) (x1*y1) + seedC0im s;
     py1 := #2 * maximumD4 (x0*y0) (x0*y1) (x1*y0) (x1*y1) + seedC1im s |}.

(** z^2+A*z+c *)
Definition getBoundingBoxfA_z2azc (A : PlaneRect NTYP) : PlaneRect NTYP :=
  let x0 := px0 A in let x1 := px1 A in let y0 := py0 A in let y1 := py1 A in
  let Are := FAKTORAre s in let Aim := FAKTORAim s in
  {| px0 := seedC0re s + minimumD (Are*x0) (Are*x1) + minimumD (x0*x0) (x1*x1)
            - maximumD (Aim*y0) (Aim*y1) - maximumD (y0*y0) (y1*y1);
     px1 := seedC1re s + maximumD (Are*x0) (Are*x1) + maximumD (x0*x0) (x1*x1)
            - minimumD (Aim*y0) (Aim*y1) - minimumD (y0*y0) (y1*y1);
     py0 := seedC0im s + minimumD (Aim*x0) (Aim*x1) + minimumD (Are*y0) (Are*y1)
            + #2 * minimumD4 (x0*y0) (x0*y1) (x1*y0) (x1*y1);
     py1 := seedC1im s + maximumD (Aim*x0) (Aim*x1) + maximumD (Are*y0) (Are*y1)
            + #2 * maximumD4 (x0*y0) (x0*y1) (x1*y0) (x1*y1) |}.

(** z^3+A*z+c *)
Definition getBoundingBoxfA_z3azc (A : PlaneRect NTYP) : PlaneRect NTYP :=
  let x0 := px0 A in let x1 := px1 A in let y0 := py0 A in let y1 := py1 A in
  let Are := FAKTORAre s in let Aim := FAKTORAim s in
  {| px0 := minimumD (Are*x0) (Are*x1) - maximumD (Aim*y0) (Aim*y1) + x0*x0*x0
            - (#3 * maximumD4 (x0 * minimumD (y0*y0) (y1*y1))
                              (x0 * maximumD (y0*y0) (y1*y1))
                              (x1 * minimumD (y0*y0) (y1*y1))
                              (x1 * maximumD (y0*y0) (y1*y1)))
            + seedC0re s;
     px1 := maximumD (Are*x0) (Are*x1) - minimumD (Aim*y0) (Aim*y1) + x1*x1*x1
            - (#3 * minimumD4 (x0 * minimumD (y0*y0) (y1*y1))
                              (x0 * maximumD (y0*y0) (y1*y1))
                              (x1 * minimumD (y0*y0) (y1*y1))
                              (x1 * maximumD (y0*y0) (y1*y1)))
            + seedC1re s;
     py0 := minimumD (Are*y0) (Are*y1) + minimumD (Aim*x0) (Aim*x1)
            + #3 * minimumD4 (minimumD (x0*x0) (x1*x1) * y0)
                             (minimumD (x0*x0) (x1*x1) * y1)
                             (maximumD (x0*x0) (x1*x1) * y0)
                             (maximumD (x0*x0) (x1*x1) * y1)
            - (y1*y1*y1) + seedC0im s;
     py1 := maximumD (Are*y0) (Are*y1) + maximumD (Aim*x0) (Aim*x1)
            + #3 * maximumD4 (minimumD (x0*x0) (x1*x1) * y0)
                             (minimumD (x0*x0) (x1*x1) * y1)
                             (maximumD (x0*x0) (x1*x1) * y0)
                             (maximumD (x0*x0) (x1*x1) * y1)
            - (y0*y0*y0) + seedC1im s |}.

(** z^4+A*z+c *)
Definition getBoundingBoxfA_z4azc (A : PlaneRect NTYP) : PlaneRect NTYP :=
  let x0 := px0 A in let x1 := px1 A in let y0 := py0 A in let y1 := py1 A in
  let Are := FAKTORAre s in let Aim := FAKTORAim s in
  let X2lo := minimumD (x0*x0) (x1*x1) in let X2hi := maximumD (x0*x0) (x1*x1) in
  let Y2lo := minimumD (y0*y0) (y1*y1) in let Y2hi := maximumD (y0*y0) (y1*y1) in
  {| px0 := minimumD4 (Are*x0) (Are*x1) (Are*x0) (Are*x1)
            - maximumD4 (Aim*y0) (Aim*y1) (Aim*y0) (Aim*y1)
            + minimumD (x0*x0*x0*x0) (x1*x1*x1*x1)
            - (#6 * maximumD4 (X2lo*Y2lo) (X2lo*Y2hi) (X2hi*Y2lo) (X2hi*Y2hi))
            + minimumD (y0*y0*y0*y0) (y1*y1*y1*y1) + seedC0re s;
     px1 := maximumD4 (Are*x0) (Are*x1) (Are*x0) (Are*x1)
            - minimumD4 (Aim*y0) (Aim*y1) (Aim*y0) (Aim*y1)
            + maximumD (x0*x0*x0*x0) (x1*x1*x1*x1)
            - (#6 * minimumD4 (X2lo*Y2lo) (X2lo*Y2hi) (X2hi*Y2lo) (X2hi*Y2hi))
            + maximumD (y0*y0*y0*y0) (y1*y1*y1*y1) + seedC1re s;
     py0 := minimumD4 (Are*y0) (Are*y1) (Are*y0) (Are*y1)
            + minimumD4 (Aim*x0) (Aim*x1) (Aim*x0) (Aim*x1)
            + #4 * minimumD4 ((x0*x0*x0)*y0) ((x0*x0*x0)*y1) ((x1*x1*x1)*y0) ((x1*x1*x1)*y1)
            - (#4 * maximumD4 (x0*(y0*y0*y0)) (x0*(y1*y1*y1)) (x1*(y0*y0*y0)) (x1*(y1*y1*y1)))
            + seedC0im s;
     py1 := maximumD4 (Are*y0) (Are*y1) (Are*y0) (Are*y1)
            + maximumD4 (Aim*x0) (Aim*x1) (Aim*x0) (Aim*x1)
            + #4 * maximumD4 ((x0*x0*x0)*y0) ((x0*x0*x0)*y1) ((x1*x1*x1)*y0) ((x1*x1*x1)*y1)
            - (#4 * minimumD4 (x0*(y0*y0*y0)) (x0*(y1*y1*y1)) (x1*(y0*y0*y0)) (x1*(y1*y1*y1)))
            + seedC1im s |}.

(** z^5+A*z+c *)
Definition getBoundingBoxfA_z5azc (A : PlaneRect NTYP) : PlaneRect NTYP :=
  let x0 := px0 A in let x1 := px1 A in let y0 := py0 A in let y1 := py1 A in
  let Are := FAKTORAre s in let Aim := FAKTORAim s in
  let X2lo := minimumD (x0*x0) (x1*x1) in let X2hi := maximumD (x0*x0) (x1*x1) in
  let Y2lo := minimumD (y0*y0) (y1*y1) in let Y2hi := maximumD (y0*y0) (y1*y1) in
  let X4lo := minimumD (x0*x0*x0*x0) (x1*x1*x1*x1) in
  let X4hi := maximumD (x0*x0*x0*x0) (x1*x1*x1*x1) in
  let Y4lo := minimumD (y0*y0*y0*y0) (y1*y1*y1*y1) in
  let Y4hi := maximumD (y0*y0*y0*y0) (y1*y1*y1*y1) in
  {| px0 := minimumD4 (Are*x0) (Are*x1) (Are*x0) (Are*x1)
            - maximumD4 (Aim*y0) (Aim*y1) (Aim*y0) (Aim*y1)
            + x0*x0*x0*x0*x0
            - (#2 * (#5 * maximumD4 ((x0*x0*x0)*Y2lo) ((x0*x0*x0)*Y2hi)
                                    ((x1*x1*x1)*Y2lo) ((x1*x1*x1)*Y2hi)))
            + #5 * minimumD4 (x0*Y4lo) (x0*Y4hi) (x1*Y4lo) (x1*Y4hi)
            + seedC0re s;
     px1 := maximumD4 (Are*x0) (Are*x1) (Are*x0) (Are*x1)
            - minimumD4 (Aim*y0) (Aim*y1) (Aim*y0) (Aim*y1)
            + x1*x1*x1*x1*x1
            - (#2 * (#5 * minimumD4 ((x0*x0*x0)*Y2lo) ((x0*x0*x0)*Y2hi)
                                    ((x1*x1*x1)*Y2lo) ((x1*x1*x1)*Y2hi)))
            + #5 * maximumD4 (x0*Y4lo) (x0*Y4hi) (x1*Y4lo) (x1*Y4hi)
            + seedC1re s;
     py0 := minimumD4 (Are*y0) (Are*y1) (Are*y0) (Are*y1)
            + minimumD4 (Aim*x0) (Aim*x1) (Aim*x0) (Aim*x1)
            + #5 * minimumD4 (X4lo*y0) (X4lo*y1) (X4hi*y0) (X4hi*y1)
            - (#2 * (#5 * maximumD4 (X2lo*(y0*y0*y0)) (X2lo*(y1*y1*y1))
                                    (X2hi*(y0*y0*y0)) (X2hi*(y1*y1*y1))))
            + y0*y0*y0*y0*y0 + seedC0im s;
     py1 := maximumD4 (Are*y0) (Are*y1) (Are*y0) (Are*y1)
            + maximumD4 (Aim*x0) (Aim*x1) (Aim*x0) (Aim*x1)
            + #5 * maximumD4 (X4lo*y0) (X4lo*y1) (X4hi*y0) (X4hi*y1)
            - (#2 * (#5 * minimumD4 (X2lo*(y0*y0*y0)) (X2lo*(y1*y1*y1))
                                    (X2hi*(y0*y0*y0)) (X2hi*(y1*y1*y1))))
            + y1*y1*y1*y1*y1 + seedC1im s |}.

(** z^6+A*z+c *)
Definition getBoundingBoxfA_z6azc (A : PlaneRect NTYP) : PlaneRect NTYP :=
  let x0 := px0 A in let x1 := px1 A in let y0 := py0 A in let y1 := py1 A in
  let Are := FAKTORAre s in let Aim := FAKTORAim s in
  let X2lo := minimumD (x0*x0) (x1*x1) in let X2hi := maximumD (x0*x0) (x1*x1) in
  let Y2lo := minimumD (y0*y0) (y1*y1) in let Y2hi := maximumD (y0*y0) (y1*y1) in
  let X4lo := minimumD (x0*x0*x0*x0) (x1*x1*x1*x1) in
  let X4hi := maximumD (x0*x0*x0*x0) (x1*x1*x1*x1) in
  let Y4lo := minimumD (y0*y0*y0*y0) (y1*y1*y1*y1) in
  let Y4hi := maximumD (y0*y0*y0*y0) (y1*y1*y1*y1) in
  {| px0 := seedC0re s + minimumD (Are*x0) (Are*x1) - maximumD (Aim*y0) (Aim*y1)
            + minimumD (x0*x0*x0*x0*x0*x0) (x1*x1*x1*x1*x1*x1)
            - (#3 * (#5 * maximumD4 (X4lo*Y2lo) (X4lo*Y2hi) (X4hi*Y2lo) (X4hi*Y2hi)))
            + #3 * (#5 * minimumD4 (X2lo*Y4lo) (X2lo*Y4hi) (X2hi*Y4lo) (X2hi*Y4hi))
            - maximumD (y0*y0*y0*y0*y0*y0) (y1*y1*y1*y1*y1*y1);
     px1 := seedC1re s + maximumD (Are*x0) (Are*x1) - minimumD (Aim*y0) (Aim*y1)
            + maximumD (x0*x0*x0*x0*x0*x0) (x1*x1*x1*x1*x1*x1)
            - (#3 * (#5 * minimumD4 (X4lo*Y2lo) (X4lo*Y2hi) (X4hi*Y2lo) (X4hi*Y2hi)))
            + #3 * (#5 * maximumD4 (X2lo*Y4lo) (X2lo*Y4hi) (X2hi*Y4lo) (X2hi*Y4hi))
            - minimumD (y0*y0*y0*y0*y0*y0) (y1*y1*y1*y1*y1*y1);
     py0 := minimumD (Are*y0) (Are*y1) + minimumD (Aim*x0) (Aim*x1)
            + #6 * minimumD4 ((x0*x0*x0*x0*x0)*y0) ((x0*x0*x0*x0*x0)*y1)
                             ((x1*x1*x1*x1*x1)*y0) ((x1*x1*x1*x1*x1)*y1)
            - (#4 * (#5 * maximumD4 ((x0*x0*x0)*(y0*y0*y0)) ((x0*x0*x0)*(y1*y1*y1))
                                    ((x1*x1*x1)*(y0*y0*y0)) ((x1*x1*x1)*(y1*y1*y1))))
            + #6 * minimumD4 (x0*(y0*y0*y0*y0*y0)) (x0*(y1*y1*y1*y1*y1))
                             (x1*(y0*y0*y0*y0*y0)) (x1*(y1*y1*y1*y1*y1))
            + seedC0im s;
     py1 := maximumD (Are*y0) (Are*y1) + maximumD (Aim*x0) (Aim*x1)
            + #6 * maximumD4 ((x0*x0*x0*x0*x0)*y0) ((x0*x0*x0*x0*x0)*y1)
                             ((x1*x1*x1*x1*x1)*y0) ((x1*x1*x1*x1*x1)*y1)
            - (#4 * (#5 * minimumD4 ((x0*x0*x0)*(y0*y0*y0)) ((x0*x0*x0)*(y1*y1*y1))
                                    ((x1*x1*x1)*(y0*y0*y0)) ((x1*x1*x1)*(y1*y1*y1))))
            + #6 * maximumD4 (x0*(y0*y0*y0*y0*y0)) (x0*(y1*y1*y1*y1*y1))
                             (x1*(y0*y0*y0*y0*y0)) (x1*(y1*y1*y1*y1*y1))
            + seedC1im s |}.

End BoundingBox.

(** ** Complex and Polynom *)

Section Kernel.
Context {NTYP : Type} {ops : NTYP_ops NTYP}.
Local Open Scope ntyp_scope.

Definition Cadd (a b : Complex NTYP) : Complex NTYP :=
  {| re := re a + re b; im := im a + im b |}.

Definition Csub (a b : Complex NTYP) : Complex NTYP :=
  {| re := re a - re b; im := im a - im b |}.

(** [Complex::operator*]: [this] is the left operand, [a] the right one. *)
Definition Cmul (this a : Complex NTYP) : Complex NTYP :=
  {| re := re a * re this - im a * im this;
     im := im a * re this + re a * im this |}.

Definition Cdiv (a b : Complex NTYP) : Complex NTYP :=
  let n2 := re b * re b + im b * im b in
  {| re := (re a * re b + im a * im b) / n2;
     im := (im a * re b - re a * im b) / n2 |}.

Definition normQ (z : Complex NTYP) : NTYP := re z * re z + im z * im z.
Definition norm (z : Complex NTYP) : NTYP := nsqrt (re z * re z + im z * im z).

Definition Czero : Complex NTYP := {| re := nofZ 0; im := nofZ 0 |}.

(** [coeff] and [coeffnull] are the two arrays of [MAXDEGREE] entries. *)
Record Polynom := mkPolynom {
  grad : nat;
  coeff : list (Complex NTYP);
  coeffnull : list bool
}.

Definition MAXDEGREE : nat := 32.

(** two orbit points are identical if: *)
Definition ZEROEPSILON : NTYP := nofZ 1 / nofZ (10 ^ 15).
(** the number 0 is *)
Definition COEFFZEROLIMIT : NTYP := nofZ 1 / nofZ (10 ^ 40).

Definition clearCoeff : Polynom :=
  {| grad := 0; coeff := replicate MAXDEGREE Czero; coeffnull := replicate MAXDEGREE true |}.

Definition setCoeff (p : Polynom) (aidx : nat) (ac : Complex NTYP) : Polynom :=
  let coeff' := <[aidx := ac]> (coeff p) in
  if normQ ac <? COEFFZEROLIMIT
  then {| grad := grad p; coeff := coeff'; coeffnull := <[aidx := true]> (coeffnull p) |}
  else {| grad := if (grad p <? aidx)%nat then aidx else grad p;
          coeff := coeff'; coeffnull := <[aidx := false]> (coeffnull p) |}.

Definition coeff_at (p : Polynom) (i : nat) : Complex NTYP :=
  default Czero (coeff p !! i).

(** Horner: the loop [for (i=grad; i>0; i--)] as a recursion on [i]. *)
Fixpoint horner (p : Polynom) (az : Complex NTYP) (i : nat) (erg : Complex NTYP)
  : Complex NTYP :=
  match i with
  | O => erg
  | S i' => horner p az i' (Cadd (Cmul erg az) (coeff_at p i'))
  end.

Definition eval_arg_f (p : Polynom) (az : Complex NTYP) : Complex NTYP :=
  horner p az (grad p) (coeff_at p (grad p)).

(** [ableitenFA]: coefficients flagged zero are skipped. *)
Fixpoint ableiten_loop (infkt : Polynom) (n : nat) (i : nat) (ergabl : Polynom) : Polynom :=
  match n with
  | O => ergabl
  | S n' =>
      let ergabl' :=
        if default true (coeffnull infkt !! i) then ergabl
        else setCoeff ergabl (i - 1)
               (Cmul {| re := nofZ (Z.of_nat i); im := nofZ 0 |} (coeff_at infkt i)) in
      ableiten_loop infkt n' (S i) ergabl'
  end.

Definition ableitenFA (infkt : Polynom) : Polynom :=
  ableiten_loop infkt (grad infkt) 1 clearCoeff.

(** [setfunc]: the evaluator and the iterated polynomial of a function
    index; [cplxA] and [cplxC] are the module-scope coefficients. *)
Definition setfunc_fkt (afunc : FUNC) (cplxA cplxC : Complex NTYP) : Polynom :=
  let one := {| re := nofZ 1; im := nofZ 0 |} in
  let with_deg d :=
    setCoeff (setCoeff (setCoeff clearCoeff d one) 1 cplxA) 0 cplxC in
  match afunc with
  | FUNC_Z3AZC => with_deg 3%nat
  | FUNC_Z4AZC => with_deg 4%nat
  | FUNC_Z5AZC => with_deg 5%nat
  | FUNC_Z6AZC => with_deg 6%nat
  | FUNC_Z2AZC => with_deg 2%nat
  | FUNC_Z2C => setCoeff (setCoeff clearCoeff 2 one) 0 cplxC
  end.

Definition setfunc_bbox (afunc : FUNC) (s : Seeds NTYP)
  : PlaneRect NTYP -> PlaneRect NTYP :=
  match afunc with
  | FUNC_Z3AZC => getBoundingBoxfA_z3azc s
  | FUNC_Z4AZC => getBoundingBoxfA_z4azc s
  | FUNC_Z5AZC => getBoundingBoxfA_z5azc s
  | FUNC_Z6AZC => getBoundingBoxfA_z6azc s
  | FUNC_Z2AZC => getBoundingBoxfA_z2azc s
  | FUNC_Z2C => getBoundingBoxfA_z2c s
  end.

End Kernel.

Arguments Polynom NTYP : clear implicits.

(** ** Instances of [NTYP] *)

Definition Rltb (a b : R) : bool := if Rlt_dec a b then true else false.
Definition Rleb (a b : R) : bool := if Rle_dec a b then true else false.

(** The rationals, kept in lowest terms.  [nsqrt] is exact on squares of
    rationals and rounds down to a multiple of [2^-64] of the denominator
    otherwise, as a floating square root rounds. *)
Definition Qltb (a b : Q) : bool := match Qcompare a b with Lt => true | _ => false end.
Definition Qleb (a b : Q) : bool := match Qcompare a b with Gt => false | _ => true end.
Definition Qsqrt_down (q : Q) : Q :=
  let r := Qred q in
  let n := Qnum r in
  let d := Zpos (Qden r) in
  Qred (Qmake (Z.sqrt (n * d * 4 ^ 64)) (Z.to_pos (d * 2 ^ 64))).

#[export] Instance Q_ops : NTYP_ops Q := {|
  nofZ := inject_Z;
  nadd := fun a b => Qred (Qplus a b);
  nsub := fun a b => Qred (Qminus a b);
  nmul := fun a b => Qred (Qmult a b);
  ndiv := fun a b => Qred (Qdiv a b);
  nltb := Qltb; nleb := Qleb;
  nfloor := Qfloor;
  nsqrt := Qsqrt_down
|}.

#[export] Instance R_ops : NTYP_ops R := {|
  nofZ := IZR; nadd := Rplus; nsub := Rminus; nmul := Rmult; ndiv := Rdiv;
  nltb := Rltb; nleb := Rleb;
  nfloor := fun x => (up x - 1)%Z;
  nsqrt := sqrt
|}.

(** ** Outcomes of a run

    Every error path of [main.cpp] logs a message and calls [exit(99)].
    [Crash] stands for behaviour that C++ leaves undefined (an array index
    outside its allocation) and for [new] throwing; [OutOfFuel] only says
    that the fuel given to the model of a [while] loop was too small. *)

Inductive exit_reason :=
  | ArenaFull | Set32Unallocated | Set32Range | MaxmemReached | Maxmem2Reached
  | TooManyRoots | NoCriticalPoints | NoCriticalOrbit.

Inductive outcome (A : Type) :=
  | Ret (a : A)
  | Exit99 (why : exit_reason)
  | Crash
  | OutOfFuel.
Arguments Ret {A}. Arguments Exit99 {A}. Arguments Crash {A}. Arguments OutOfFuel {A}.

Definition obind {A B} (m : outcome A) (f : A -> outcome B) : outcome B :=
  match m with
  | Ret a => f a
  | Exit99 w => Exit99 w
  | Crash => Crash
  | OutOfFuel => OutOfFuel
  end.

Notation "'run' p ':=' m 'in' k" := (obind m (fun p => k))
  (at level 10, p pattern, m at level 200, k at level 200,
   format "'[v' 'run'  p  ':='  m  'in' '/' k ']'").

(** [for (i = lo; i <= hi; i++) body], [n] being the trip count. *)
Fixpoint for_range {S : Type} (n : nat) (i : Z) (body : Z -> S -> outcome S) (s : S)
  : outcome S :=
  match n with
  | O => Ret s
  | S n' => run s' := body i s in for_range n' (i + 1)%Z body s'
  end.

Definition for_upto {S : Type} (lo hi : Z) (body : Z -> S -> outcome S) (s : S)
  : outcome S :=
  for_range (Z.to_nat (hi - lo + 1)) lo body s.

(** The same loop with a pure body that may [break]: the search stops at
    the first index at which [hit] holds. *)
Fixpoint any_range (n : nat) (i : Z) (hit : Z -> bool) : bool :=
  match n with
  | O => false
  | S n' => if hit i then true else any_range n' (i + 1)%Z hit
  end.

Definition any_upto (lo hi : Z) (hit : Z -> bool) : bool :=
  any_range (Z.to_nat (hi - lo + 1)) lo hit.

(** ** Machine integers and constants *)

Open Scope Z_scope.

Definition int32 (z : Z) : Z := ((z + 2 ^ 31) mod 2 ^ 32 - 2 ^ 31)%Z.

Definition DDBYTE := Z.
Definition CHUNKSIZE : Z := 2 ^ 30.
Definition MAXZEROS : Z := 1024.
Definition SHIFTPERDDBYTE : Z := 5.
Definition SQUARE_GRAY : Z := 0.
Definition ALL32GRAY : DDBYTE := 0.
Definition SQUARE_POTW : Z := 1.
Definition DDBYTEMAX : DDBYTE := 4294967295.
Definition ALL32POTW : DDBYTE := DDBYTEMAX.
Definition MAXPTR : Z := 2048.

(** ** struct ArrayDDByteManager

    A [PDDBYTE] is a block of the manager (its index in [ptr]) and a word
    offset in it.  The words of all blocks live in one store, a finite map
    from such addresses to words; a word that was never written is absent.
    [NULL] is [None]. *)

Definition PDDBYTE : Type := nat * Z.
Abbreviation wordstore := (gmap (nat * Z) DDBYTE).

Definition ptr_add (p : PDDBYTE) (k : Z) : PDDBYTE := (p.1, (p.2 + k)%Z).

Record ArrayDDByteManager := mkMgr {
  current : option nat;
  allocatedIdx : Z;
  freeFromIdx : Z;
  allocatePerBlock : Z;
  anzptr : nat
}.

(** The constructor: [allocatePerBlock = floor(CHUNKSIZE / sizeof(DDBYTE))]. *)
Definition ArrayDDByteManager_new : ArrayDDByteManager :=
  {| current := None; allocatedIdx := 0; freeFromIdx := -1;
     allocatePerBlock := CHUNKSIZE / 4; anzptr := 0 |}.

(** [FreeAll] deletes every block: the store of the blocks is emptied. *)
Definition FreeAll (mgr : ArrayDDByteManager) (heap : wordstore)
  : ArrayDDByteManager * wordstore :=
  ({| current := None; allocatedIdx := allocatedIdx mgr;
      freeFromIdx := freeFromIdx mgr; allocatePerBlock := allocatePerBlock mgr;
      anzptr := 0 |}, ∅).

Definition getMemory (mgr : ArrayDDByteManager) (aanz : Z)
  : outcome (PDDBYTE * ArrayDDByteManager) :=
  if (Z.of_nat (anzptr mgr) >=? MAXPTR - 8)%Z then Exit99 ArenaFull
  else
    let fresh :=
      match current mgr with
      | None => true
      | Some _ => (freeFromIdx mgr + aanz + 2 >=? allocatedIdx mgr)%Z
      end in
    let mgr1 :=
      if fresh
      then {| current := Some (anzptr mgr); allocatedIdx := allocatePerBlock mgr;
              freeFromIdx := 0; allocatePerBlock := allocatePerBlock mgr;
              anzptr := S (anzptr mgr) |}
      else mgr in
    match current mgr1 with
    | None => Crash
    | Some blk =>
        Ret ((blk, freeFromIdx mgr1),
             {| current := current mgr1; allocatedIdx := allocatedIdx mgr1;
                freeFromIdx := (freeFromIdx mgr1 + aanz)%Z;
                allocatePerBlock := allocatePerBlock mgr1; anzptr := anzptr mgr1 |})
    end.

(** A sequence of [getMemory] calls on one manager. *)
Fixpoint getMemory_seq (mgr : ArrayDDByteManager) (reqs : list Z)
  : outcome (list PDDBYTE * ArrayDDByteManager) :=
  match reqs with
  | [] => Ret ([], mgr)
  | aanz :: reqs' =>
      run (p, mgr') := getMemory mgr aanz in
      run (ps, mgr'') := getMemory_seq mgr' reqs' in
      Ret (p :: ps, mgr'')
  end.

(** Writing and reading word [k] of an allocated range. *)
Definition store_word (heap : wordstore) (p : PDDBYTE) (k : Z) (v : DDBYTE) : wordstore :=
  <[ptr_add p k := v]> heap.

Definition load_word (heap : wordstore) (p : PDDBYTE) (k : Z) : DDBYTE :=
  default 0%Z (heap !! ptr_add p k).

(** Two word ranges, of [len] and [len'] words, do not overlap. *)
Definition ranges_disjoint (p : PDDBYTE) (len : Z) (q : PDDBYTE) (len' : Z) : Prop :=
  p.1 <> q.1 \/ p.2 + len <= q.2 \/ q.2 + len' <= p.2.

(** The range lies inside its block. *)
Definition range_in_block (mgr : ArrayDDByteManager) (p : PDDBYTE) (len : Z) : Prop :=
  0 <= p.2 /\ p.2 + len <= allocatePerBlock mgr.

(** ** The local cell-mapping propagator [cm_local] *)

Section CellMapping.
Context {NTYP : Type} {ops : NTYP_ops NTYP}.

Record PeriodicPoint := mkPeriodicPoint {
  pp : Complex NTYP;
  pp_mem0 : Z; pp_mem1 : Z;
  pp_y0 : Z; pp_y1 : Z
}.

(** [cycle] is the array the pointer refers to; [NULL] is the empty list. *)
Record Root := mkRoot {
  attractor : Complex NTYP;
  cycle : list PeriodicPoint;
  ps_basinrect : PlaneRect NTYP;
  interiorfound : Z;
  cyclelen : Z;
  cyclenumber : Z;
  multiplier : NTYP
}.

(** The module-scope variables [cm_local] reads. *)
Record Globals := mkGlobals {
  COMPLETE0 : NTYP;
  COMPLETE1 : NTYP;
  LEVEL0 : Z;
  LEVEL1 : Z;
  _ENCLOSEMENTWIDTH : Z;
  getBoundingBoxfA : PlaneRect NTYP -> PlaneRect NTYP
}.

(** What one pass of the [REFINEMENT] loop fixes before it propagates.
    [scaleRangePerPixel], [scalePixelPerRange] and [local] are module-scope
    in the source; they are written at the start of each pass and read
    only inside it. *)
Record Level := mkLevel {
  REFINEMENT : Z;
  SCREENWIDTH : Z;
  MAXMEM : Z;
  scaleRangePerPixel : NTYP;
  scalePixelPerRange : NTYP;
  enclosementall : ScreenRect;
  mem0 : Z;
  mem1 : Z;
  local : PlaneRect NTYP
}.

(** The arrays of one pass: the words of the rows (in the manager's
    blocks), the row pointers [ispotwY] and the flags [ywithgray]. *)
Record Store := mkStore {
  heap : wordstore;
  ispotwY : list (option PDDBYTE);
  ywithgray : list Z
}.

Variable G : Globals.

Definition scrcoord_as_lowerleft (scalePixelPerRange : NTYP) (a : NTYP) : Z :=
  nfloor ((a - COMPLETE0 G) * scalePixelPerRange)%ntyp.

Definition SQUARE_LIES_ENTIRELY_IN_LOCAL (local BBX : PlaneRect NTYP) : bool :=
  (px0 local <=? px0 BBX)%ntyp && (px1 BBX <=? px1 local)%ntyp &&
  (py0 local <=? py0 BBX)%ntyp && (py1 BBX <=? py1 local)%ntyp.

Definition SQUARE_LIES_ENTIRELY_IN_COMPLETE (BBX : PlaneRect NTYP) : bool :=
  (COMPLETE0 G <=? px0 BBX)%ntyp && (px1 BBX <=? COMPLETE1 G)%ntyp &&
  (COMPLETE0 G <=? py0 BBX)%ntyp && (py1 BBX <=? COMPLETE1 G)%ntyp.

Definition LOCALLENY (lv : Level) : Z :=
  sy1 (enclosementall lv) - sy0 (enclosementall lv) + 1.
Definition LOCALLENX (lv : Level) : Z := mem1 lv - mem0 lv + 1.

(** [ispotwY[YY - enclosementall.y0]] *)
Definition row_ptr (lv : Level) (st : Store) (YY : Z) : option PDDBYTE :=
  mjoin (ispotwY st !! Z.to_nat (YY - sy0 (enclosementall lv))).

Definition SET32_MY (lv : Level) (st : Store) (MM YY : Z) (FF32 : DDBYTE) : outcome Store :=
  if (MM >=? mem0 lv) && (MM <=? mem1 lv) &&
     (YY >=? sy0 (enclosementall lv)) && (YY <=? sy1 (enclosementall lv))
  then
    match row_ptr lv st YY with
    | Some p =>
        Ret {| heap := store_word (heap st) p (MM - mem0 lv) FF32;
               ispotwY := ispotwY st; ywithgray := ywithgray st |}
    | None => Exit99 Set32Unallocated
    end
  else Exit99 Set32Range.

Definition GET32_MY (lv : Level) (st : Store) (MM YY : Z) : DDBYTE :=
  if (YY >=? sy0 (enclosementall lv)) && (YY <=? sy1 (enclosementall lv))
  then
    match row_ptr lv st YY with
    | Some p =>
        if (MM >=? mem0 lv) && (MM <=? mem1 lv)
        then load_word (heap st) p (MM - mem0 lv)
        else ALL32POTW
    | None => ALL32POTW
    end
  else ALL32POTW.

(** [YY] is an absolute screen coordinate; [XX >> 5] an absolute word
    position. *)
Definition CELLCOLOR_XY (lv : Level) (st : Store) (XX YY : Z) : Z :=
  if (XX >=? sx0 (enclosementall lv)) && (XX <=? sx1 (enclosementall lv)) &&
     (YY >=? sy0 (enclosementall lv)) && (YY <=? sy1 (enclosementall lv))
  then
    let bmem := Z.shiftr XX SHIFTPERDDBYTE in
    let f32 := GET32_MY lv st bmem YY in
    let bbit := Z.rem XX (Z.shiftl 1 SHIFTPERDDBYTE) in
    Z.land (Z.shiftr f32 bbit) 1
  else SQUARE_POTW.

Definition TRIM (SCREENWIDTH WW : Z) : Z :=
  if WW <? 0 then 0
  else if WW >=? SCREENWIDTH then SCREENWIDTH - 1
  else WW.

(** The [ENCW]-padded, trimmed screen rectangle of one periodic point. *)
Definition point_rect (SW : Z) (spr : NTYP) (p : PeriodicPoint) : ScreenRect :=
  let xx := scrcoord_as_lowerleft spr (re (pp p)) in
  let yy := scrcoord_as_lowerleft spr (im (pp p)) in
  {| sx0 := TRIM SW (xx - _ENCLOSEMENTWIDTH G);
     sx1 := TRIM SW (xx + _ENCLOSEMENTWIDTH G);
     sy0 := TRIM SW (yy - _ENCLOSEMENTWIDTH G);
     sy1 := TRIM SW (yy + _ENCLOSEMENTWIDTH G) |}.

Definition grow_rect (encl scr : ScreenRect) : ScreenRect :=
  {| sx0 := if sx0 scr <? sx0 encl then sx0 scr else sx0 encl;
     sx1 := if sx1 scr >? sx1 encl then sx1 scr else sx1 encl;
     sy0 := if sy0 scr <? sy0 encl then sy0 scr else sy0 encl;
     sy1 := if sy1 scr >? sy1 encl then sy1 scr else sy1 encl |}.

(** First loop over [k < cyclelen]: the ranges of every periodic point and
    the overall enclosement. *)
Fixpoint setup_points (SW MAXMEM : Z) (spr : NTYP) (n : nat)
    (cyc : list PeriodicPoint) (encl : ScreenRect)
  : outcome (list PeriodicPoint * ScreenRect) :=
  match n with
  | O => Ret (cyc, encl)
  | S n' =>
      match cyc with
      | [] => Crash
      | p :: rest =>
          let scr := point_rect SW spr p in
          let encl' := grow_rect encl scr in
          let p' := {| pp := pp p;
                       pp_mem0 := Z.shiftr (sx0 scr) SHIFTPERDDBYTE;
                       pp_mem1 := Z.shiftr (sx1 scr) SHIFTPERDDBYTE;
                       pp_y0 := sy0 scr; pp_y1 := sy1 scr |} in
          if pp_mem1 p' >=? MAXMEM then Exit99 MaxmemReached
          else
            run (rest', encl'') := setup_points SW MAXMEM spr n' rest encl' in
            Ret (p' :: rest', encl'')
      end
  end.

(** [ywithgray[y - enclosementall.y0] = 1] for the rows of every point. *)
Definition mark_rows (y0 : Z) (pts : list PeriodicPoint) (yw : list Z) : list Z :=
  fold_left
    (fun yw p =>
       fold_left (fun yw y => <[Z.to_nat (y - y0) := 1]> yw)
                 (seqZ (pp_y0 p) (pp_y1 p - pp_y0 p + 1)) yw)
    pts yw.

(** [for (m = 0; m < LOCALLENX; m++) p[m] = v] *)
Definition fill_words (h : wordstore) (p : PDDBYTE) (lenx : Z) (v : DDBYTE) : wordstore :=
  fold_left (fun h m => store_word h p m v) (seqZ 0 lenx) h.

(** The allocation loop over [y < LOCALLENY], along [ywithgray]. *)
Fixpoint alloc_rows (yw : list Z) (lenx : Z) (startwith : DDBYTE)
    (mgr : ArrayDDByteManager) (h : wordstore)
  : outcome (list (option PDDBYTE) * ArrayDDByteManager * wordstore) :=
  match yw with
  | [] => Ret ([], mgr, h)
  | f :: yw' =>
      if f >? 0 then
        run (p, mgr') := getMemory mgr lenx in
        run (rows, mgr'', h'') :=
          alloc_rows yw' lenx startwith mgr' (fill_words h p lenx startwith) in
        Ret (Some p :: rows, mgr'', h'')
      else
        run (rows, mgr'', h'') := alloc_rows yw' lenx startwith mgr h in
        Ret (None :: rows, mgr'', h'')
  end.

(** Setting the enclosements of all periodic points to GRAY. *)
Fixpoint prime_points (lv : Level) (pts : list PeriodicPoint) (st : Store)
  : outcome Store :=
  match pts with
  | [] => Ret st
  | p :: rest =>
      run st' :=
        for_upto (pp_y0 p) (pp_y1 p)
          (fun y st => for_upto (pp_mem0 p) (pp_mem1 p)
                         (fun m st => SET32_MY lv st m y ALL32GRAY) st) st in
      prime_points lv rest st'
  end.

(** Everything a pass does before the propagation loop. *)
Definition level_setup (REFINEMENT : Z) (startwith : DDBYTE)
    (onecycle : Root) (mgr : ArrayDDByteManager) (h : wordstore)
  : outcome (Root * Level * Store * ArrayDDByteManager) :=
  let SW := int32 (Z.shiftl 1 REFINEMENT) in
  let MAXMEM := Z.shiftr SW SHIFTPERDDBYTE in
  let srp := ((COMPLETE1 G - COMPLETE0 G) / nofZ SW)%ntyp in
  let spr := (nofZ SW / (COMPLETE1 G - COMPLETE0 G))%ntyp in
  let encl0 := {| sx0 := SW; sx1 := 0; sy0 := SW; sy1 := 0 |} in
  let n := Z.to_nat (cyclelen onecycle) in
  run (cyc, encl) := setup_points SW MAXMEM spr n (cycle onecycle) encl0 in
  let m0 := Z.shiftr (sx0 encl) SHIFTPERDDBYTE in
  let m1 := Z.shiftr (sx1 encl) SHIFTPERDDBYTE in
  if m1 >=? MAXMEM then Exit99 Maxmem2Reached
  else
    let loc :=
      {| px0 := (nofZ (sx0 encl) * srp + COMPLETE0 G)%ntyp;
         px1 := (nofZ (sx1 encl + 1) * srp + COMPLETE0 G)%ntyp;
         py0 := (nofZ (sy0 encl) * srp + COMPLETE0 G)%ntyp;
         py1 := (nofZ (sy1 encl + 1) * srp + COMPLETE0 G)%ntyp |} in
    let onecycle' :=
      {| attractor := attractor onecycle; cycle := cyc; ps_basinrect := loc;
         interiorfound := interiorfound onecycle; cyclelen := cyclelen onecycle;
         cyclenumber := cyclenumber onecycle; multiplier := multiplier onecycle |} in
    let lv :=
      {| REFINEMENT := REFINEMENT; SCREENWIDTH := SW; MAXMEM := MAXMEM;
         scaleRangePerPixel := srp; scalePixelPerRange := spr;
         enclosementall := encl; mem0 := m0; mem1 := m1; local := loc |} in
    if LOCALLENY lv <? 0 then Crash
    else
      let yw := mark_rows (sy0 encl) (take n cyc)
                  (replicate (Z.to_nat (LOCALLENY lv)) 0) in
      let '(mgr1, h1) := FreeAll mgr h in
      run (rows, mgr2, h2) := alloc_rows yw (LOCALLENX lv) startwith mgr1 h1 in
      run st :=
        prime_points lv (take n cyc)
          {| heap := h2; ispotwY := rows; ywithgray := yw |} in
      Ret (onecycle', lv, st, mgr2).

(** *** One sweep of the propagation loop *)

(** The pixels the bounding box intersects: does one of them read POTW? *)
Definition hits_potw (lv : Level) (st : Store) (bbxfA : PlaneRect NTYP) : bool :=
  let spr := scalePixelPerRange lv in
  let scr :=
    {| sx0 := scrcoord_as_lowerleft spr (px0 bbxfA);
       sx1 := scrcoord_as_lowerleft spr (px1 bbxfA);
       sy0 := scrcoord_as_lowerleft spr (py0 bbxfA);
       sy1 := scrcoord_as_lowerleft spr (py1 bbxfA) |} in
  any_upto (sy0 scr) (sy1 scr)
    (fun by_ => any_upto (sx0 scr) (sx1 scr)
                  (fun bx => CELLCOLOR_XY lv st bx by_ =? SQUARE_POTW)).

(** The complex rectangle of pixel [(xc, y)]. *)
Definition cell_rect (lv : Level) (xc y : Z) : PlaneRect NTYP :=
  let A_y0 := (nofZ y * scaleRangePerPixel lv + COMPLETE0 G)%ntyp in
  let A_x0 := (nofZ xc * scaleRangePerPixel lv + COMPLETE0 G)%ntyp in
  {| px0 := A_x0; px1 := (A_x0 + scaleRangePerPixel lv)%ntyp;
     py0 := A_y0; py1 := (A_y0 + scaleRangePerPixel lv)%ntyp |}.

(** Is the GRAY cell [(xc, y)] to be flipped to POTW? *)
Definition cell_escapes (lv : Level) (st : Store) (xc y : Z) : bool :=
  let bbxfA := getBoundingBoxfA G (cell_rect lv xc y) in
  if negb (SQUARE_LIES_ENTIRELY_IN_LOCAL (local lv) bbxfA) ||
     negb (SQUARE_LIES_ENTIRELY_IN_COMPLETE bbxfA)
  then true
  else hits_potw lv st bbxfA.

Record bitstate := mkBits { ff : DDBYTE; fneu : DDBYTE; fchanged : Z; graythere : Z }.

(** Body of [for (bit = 0; bit < 32; bit++)]. *)
Definition bit_body (lv : Level) (st : Store) (m y : Z) (bit : Z) (b : bitstate) : bitstate :=
  let tmpf := Z.land (ff b) 1 in
  let ff' := Z.shiftr (ff b) 1 in
  if tmpf =? SQUARE_POTW
  then {| ff := ff'; fneu := fneu b; fchanged := fchanged b; graythere := graythere b |}
  else
    let xcoord0 := Z.shiftl m SHIFTPERDDBYTE in
    let xc := xcoord0 + bit in
    if cell_escapes lv st xc y
    then {| ff := ff'; fneu := Z.lor (fneu b) (Z.shiftl 1 bit); fchanged := 1;
            graythere := 1 |}
    else {| ff := ff'; fneu := fneu b; fchanged := fchanged b; graythere := 1 |}.

Fixpoint bit_loop (lv : Level) (st : Store) (m y : Z) (n : nat) (bit : Z) (b : bitstate)
  : bitstate :=
  match n with
  | O => b
  | S n' => bit_loop lv st m y n' (bit + 1) (bit_body lv st m y bit b)
  end.

(** The state of a sweep: the arrays, [changed] and the row's [graythere]. *)
Definition word_body (lv : Level) (y : Z) (m : Z) (s : Store * Z * Z)
  : outcome (Store * Z * Z) :=
  let '(st, changed, gray) := s in
  let ff0 := GET32_MY lv st m y in
  if ff0 =? ALL32POTW then Ret (st, changed, gray)
  else
    let b := bit_loop lv st m y 32 0
               {| ff := ff0; fneu := ff0; fchanged := 0; graythere := gray |} in
    if fchanged b >? 0 then
      run st' := SET32_MY lv st m y (fneu b) in
      Ret (st', 1, graythere b)
    else Ret (st, changed, graythere b).

Definition row_body (lv : Level) (y : Z) (s : Store * Z) : outcome (Store * Z) :=
  let '(st, changed) := s in
  let idx := Z.to_nat (y - sy0 (enclosementall lv)) in
  if default 0 (ywithgray st !! idx) <=? 0 then Ret (st, changed)
  else
    run (st', changed', gray) :=
      for_upto (mem0 lv) (mem1 lv) (word_body lv y) (st, changed, 0) in
    let st'' :=
      if gray <=? 0
      then {| heap := heap st'; ispotwY := ispotwY st';
              ywithgray := <[idx := 0]> (ywithgray st') |}
      else st' in
    Ret (st'', changed').

(** One execution of the body of [while (changed>0)]: the new arrays and
    [changed]. *)
Definition sweep (lv : Level) (st : Store) : outcome (Store * Z) :=
  for_upto (sy0 (enclosementall lv)) (sy1 (enclosementall lv)) (row_body lv) (st, 0).

(** [while (changed>0)], [changed] being 1 at the start. *)
Fixpoint while_changed (fuel : nat) (lv : Level) (st : Store) : outcome Store :=
  match fuel with
  | O => OutOfFuel
  | S fuel' =>
      run (st', changed) := sweep lv st in
      if changed >? 0 then while_changed fuel' lv st' else Ret st'
  end.

(** *** The decision scan *)

Definition row_has_gray (h : wordstore) (lenx : Z) (row : option PDDBYTE) : bool :=
  match row with
  | None => false
  | Some p => any_upto 0 (lenx - 1) (fun m => negb (load_word h p m =? ALL32POTW))
  end.

Definition interiorpresentat (lv : Level) (st : Store) : Z :=
  if existsb (row_has_gray (heap st) (LOCALLENX lv)) (take (Z.to_nat (LOCALLENY lv)) (ispotwY st))
  then REFINEMENT lv else 0.

(** *** The loop over the refinement levels *)

(** One pass of the loop up to the fixed point of the propagation. *)
Definition level_pass (fuel : nat) (REFINEMENT : Z) (startwith : DDBYTE)
    (onecycle : Root) (mgr : ArrayDDByteManager) (h : wordstore)
  : outcome (Root * Level * Store * ArrayDDByteManager) :=
  run (onecycle', lv, st, mgr') := level_setup REFINEMENT startwith onecycle mgr h in
  run st' := while_changed fuel lv st in
  Ret (onecycle', lv, st', mgr').

Fixpoint level_loop (fuel : nat) (n : nat) (REFINEMENT : Z) (startwith : DDBYTE)
    (onecycle : Root) (mgr : ArrayDDByteManager) (h : wordstore)
  : outcome (Z * Root * ArrayDDByteManager * wordstore) :=
  match n with
  | O => Ret (0, onecycle, mgr, h)
  | S n' =>
      run (onecycle', lv, st', mgr') := level_pass fuel REFINEMENT startwith onecycle mgr h in
      let found := interiorpresentat lv st' in
      if found >? 0 then Ret (found, onecycle', mgr', heap st')
      else level_loop fuel n' (REFINEMENT + 1) startwith onecycle' mgr' (heap st')
  end.

Definition set_interiorfound (r : Root) (v : Z) : Root :=
  {| attractor := attractor r; cycle := cycle r; ps_basinrect := ps_basinrect r;
     interiorfound := v; cyclelen := cyclelen r; cyclenumber := cyclenumber r;
     multiplier := multiplier r |}.

Definition cm_local (fuel : nat) (onecycle : Root) (startwith : DDBYTE)
  : outcome (Z * Root) :=
  let onecycle0 := set_interiorfound onecycle 0 in
  run (found, onecycle', mgr, h) :=
    level_loop fuel (Z.to_nat (LEVEL1 G - LEVEL0 G + 1)) (LEVEL0 G) startwith
      onecycle0 ArrayDDByteManager_new ∅ in
  let onecycle'' := set_interiorfound onecycle' found in
  let '(_, _) := FreeAll mgr h in
  Ret (found, onecycle'').

(** *** Vocabulary for the properties of the propagation *)

(** Sum of [f] over the [len] integers from [lo]. *)
Definition sum_range (lo len : Z) (f : Z -> nat) : nat :=
  sum_list (f <$> seqZ lo len).

Definition is_potw (w : DDBYTE) (bit : Z) : bool := Z.testbit w bit.

(** Number of GRAY bits among the 32 of a word. *)
Definition zeros32 (w : DDBYTE) : nat :=
  sum_range 0 32 (fun bit => if is_potw w bit then 0%nat else 1%nat).

(** Number of GRAY bits in the words [mem0..mem1] of the rows of the
    enclosement (a row without memory reads [ALL32POTW]). *)
Definition gray_bits (lv : Level) (st : Store) : nat :=
  sum_range (sy0 (enclosementall lv)) (LOCALLENY lv) (fun y =>
    sum_range (mem0 lv) (LOCALLENX lv) (fun m => zeros32 (GET32_MY lv st m y))).

(** Number of bits of the grid that differ between two states. *)
Definition flips (lv : Level) (st st' : Store) : nat :=
  sum_range (sy0 (enclosementall lv)) (LOCALLENY lv) (fun y =>
    sum_range (mem0 lv) (LOCALLENX lv) (fun m =>
      sum_range 0 32 (fun bit =>
        if Bool.eqb (is_potw (GET32_MY lv st m y) bit)
                    (is_potw (GET32_MY lv st' m y) bit)
        then 0%nat else 1%nat))).

(** Every POTW bit of [st] is POTW in [st']. *)
Definition potw_subset (lv : Level) (st st' : Store) : Prop :=
  forall m y bit,
    is_potw (GET32_MY lv st m y) bit = true ->
    is_potw (GET32_MY lv st' m y) bit = true.

(** At least one word of a row with memory differs from [ALL32POTW]. *)
Definition has_gray_word (lv : Level) (st : Store) : Prop :=
  exists (y : nat) (p : PDDBYTE) (m : Z),
    (y < Z.to_nat (LOCALLENY lv))%nat /\ ispotwY st !! y = Some (Some p) /\
    0 <= m < LOCALLENX lv /\ load_word (heap st) p m <> ALL32POTW.

(** The grid of refinement level [L] at the fixed point of its
    propagation, computed on its own (fresh manager, empty store). *)
Definition grid_at (fuel : nat) (L : Z) (startwith : DDBYTE) (onecycle : Root)
  : outcome (Level * Store) :=
  run (_, lv, st, _) := level_pass fuel L startwith onecycle ArrayDDByteManager_new ∅ in
  Ret (lv, st).

(** The pass of level [L] reaches its fixed point with, respectively
    without, such a word. *)
Definition gray_at (fuel : nat) (startwith : DDBYTE) (onecycle : Root) (L : Z) : Prop :=
  exists lv st, grid_at fuel L startwith onecycle = Ret (lv, st) /\ has_gray_word lv st.
Definition no_gray_at (fuel : nat) (startwith : DDBYTE) (onecycle : Root) (L : Z) : Prop :=
  exists lv st, grid_at fuel L startwith onecycle = Ret (lv, st) /\ ~ has_gray_word lv st.

(** Rows with memory, and the bits they hold. *)
Definition allocated_rows (st : Store) : nat :=
  length (filter is_Some (ispotwY st)).
Definition allocated_bits (lv : Level) (st : Store) : nat :=
  (32 * Z.to_nat (LOCALLENX lv) * allocated_rows st)%nat.

(** Pixel area of [enclosementall]. *)
Definition enclosement_area (lv : Level) : Z :=
  (sx1 (enclosementall lv) - sx0 (enclosementall lv) + 1) * LOCALLENY lv.

(** The shape of the arrays of a pass: one pointer per row of the
    enclosement, and rows that do not overlap (when they hold words at
    all). *)
Record store_ok (lv : Level) (st : Store) : Prop := {
  ok_rows : length (ispotwY st) = Z.to_nat (LOCALLENY lv);
  ok_flags : length (ywithgray st) = Z.to_nat (LOCALLENY lv);
  ok_disjoint : 0 < LOCALLENX lv -> forall i j p q,
    i <> j -> ispotwY st !! i = Some (Some p) -> ispotwY st !! j = Some (Some q) ->
    ranges_disjoint p (LOCALLENX lv) q (LOCALLENX lv)
}.

(** The sweeps of one pass: [sweeps_to lv st tr st'] when the loop started
    in [st] runs through the states [tr], each after a sweep that changed
    something, and stops in [st'] after a sweep that changed nothing. *)
Inductive sweeps_to (lv : Level) : Store -> list Store -> Store -> Prop :=
  | sweeps_done st st' :
      sweep lv st = Ret (st', 0) -> sweeps_to lv st [] st'
  | sweeps_more st st' changed tr st'' :
      sweep lv st = Ret (st', changed) -> changed > 0 ->
      sweeps_to lv st' tr st'' -> sweeps_to lv st (st' :: tr) st''.

Fixpoint total_flips (lv : Level) (st : Store) (tr : list Store) : nat :=
  match tr with
  | [] => 0
  | st' :: tr' => (flips lv st st' + total_flips lv st' tr')%nat
  end.

End CellMapping.

Arguments PeriodicPoint NTYP : clear implicits.
Arguments Root NTYP : clear implicits.
Arguments Globals NTYP : clear implicits.
Arguments Level NTYP : clear implicits.

(** ** getLagrange

    [getLagrange] computes in [double], whatever [NTYP] is: [res] is a
    [double], the moduli are [NTYP] values added to it and dividing it, and
    [ceil], [log] and the cast to [int] are those of [double].  The
    operations it uses are the fields of [DOUBLE_ops]; the parameter [f]
    only gives the loop bound [f.grad], the coefficients are read from
    the module-scope polynomial [fkt] (the program calls it on [fkt]). *)

Class DOUBLE_ops (NTYP D : Type) := {
  d_one : D;                 (* the literal 1.0 *)
  d_two : D;                 (* the literal 2.0 *)
  d_addN : D -> NTYP -> D;   (* res += x *)
  d_divN : D -> NTYP -> D;   (* res /= x *)
  d_log : D -> D;
  d_div : D -> D -> D;
  d_ceil : D -> D;
  d_int : D -> Z             (* (int) x *)
}.

Section Lagrange.
Context {NTYP D : Type} {ops : NTYP_ops NTYP} {dops : DOUBLE_ops NTYP D}.

(** [for (i = 0; i <= f.grad; i++) res += fkt.coeff[i].norm()] *)
Fixpoint lagrange_sum (fkt : Polynom NTYP) (n : nat) (i : nat) (res : D) : D :=
  match n with
  | O => res
  | S n' => lagrange_sum fkt n' (S i) (d_addN res (norm (coeff_at fkt i)))
  end.

Definition getLagrange (fkt f : Polynom NTYP) : Z :=
  let res := lagrange_sum fkt (S (grad f)) 0 d_one in
  let res := d_divN res (norm (coeff_at fkt (grad fkt))) in
  let expo := d_int (d_ceil (d_div (d_log (d_ceil res)) (d_log d_two))) in
  int32 (Z.shiftl 1 expo).

End Lagrange.

Section LagrangeVocabulary.
Local Open Scope R_scope.

(** [ceil] of a real, as an integer. *)
Definition Rceil (x : R) : Z := (1 - up (- x))%Z.

(** The conversion of a real to [int]: the fraction is dropped. *)
Definition Rtrunc (x : R) : Z :=
  if Rle_dec 0 x then (up x - 1)%Z else Rceil x.

(** [y] is [x] up to the relative error [u]. *)
Definition close (u x y : R) : Prop := Rabs (y - x) <= u * Rabs x.



End LagrangeVocabulary.

(** Exact arithmetic. *)
#[export] Instance R_double : DOUBLE_ops R R := {|
  d_one := 1%R; d_two := 2%R;
  d_addN := Rplus; d_divN := Rdiv;
  d_log := ln; d_div := Rdiv;
  d_ceil := fun x => IZR (Rceil x);
  d_int := Rtrunc
|}.

Section Accuracy.
Context {NTYP D : Type} {ops : NTYP_ops NTYP} {dops : DOUBLE_ops NTYP D}.
Local Open Scope R_scope.


(** The modulus of a coefficient, and the sum of the moduli of the
    coefficients up to the degree, as real numbers. *)
Definition cabs (nval : NTYP -> R) (z : Complex NTYP) : R :=
  sqrt (nval (re z) * nval (re z) + nval (im z) * nval (im z)).

Definition cabs_sum (nval : NTYP -> R) (p : Polynom NTYP) : R :=
  fold_right Rplus 0 (map (fun i => cabs nval (coeff_at p i)) (seq 0 (S (grad p)))).

(** [(1 + sum |a_i|) / |a_d|] *)
Definition lagrange_quotient (nval : NTYP -> R) (p : Polynom NTYP) : R :=
  (1 + cabs_sum nval p) / cabs nval (coeff_at p (grad p)).

End Accuracy.

(** ** Critical points and critical orbits *)

Section CriticalOrbits.
Context {NTYP : Type} {ops : NTYP_ops NTYP}.
Local Open Scope Z_scope.

(** Conversion of a floating value to [int]: the fraction is dropped. *)
Definition ntrunc (a : NTYP) : Z :=
  if (a <? nofZ 0)%ntyp then - nfloor (nofZ 0 - a)%ntyp else nfloor a.

(** The module-scope iteration cap (25000 in the source). *)
Variable MAXIT : Z.

(** [newton]: [Some (i, z)] when step [i] moved by less than the epsilon,
    [None] for the return value 0 ([erg] is then left alone). *)
Fixpoint newton_loop (polyf polyabl : Polynom NTYP) (n : nat) (i : Z) (z : Complex NTYP)
  : option (Z * Complex NTYP) :=
  match n with
  | O => None
  | S n' =>
      let zletzt := z in
      let f := eval_arg_f polyf z in
      let fabl := eval_arg_f polyabl z in
      let z' := Csub z (Cdiv f fabl) in
      let d := Csub z' zletzt in
      if (normQ d <? ZEROEPSILON)%ntyp then Some (i, z')
      else newton_loop polyf polyabl n' (i + 1) z'
  end.

Definition newton (polyf polyabl : Polynom NTYP) (astart : Complex NTYP)
  : option (Z * Complex NTYP) :=
  newton_loop polyf polyabl (Z.to_nat (MAXIT - 1)) 1 astart.

(** [Root::clear] *)
Definition Root_clear (r : Root NTYP) : Root NTYP :=
  {| attractor := attractor r; cycle := []; ps_basinrect := ps_basinrect r;
     interiorfound := 0; cyclelen := 0; cyclenumber := cyclenumber r;
     multiplier := nofZ 0 |}.

(** An entry of the zero-initialised table [zero]. *)
Definition Root_blank : Root NTYP :=
  {| attractor := Czero; cycle := [];
     ps_basinrect := {| px0 := nofZ 0; px1 := nofZ 0; py0 := nofZ 0; py1 := nofZ 0 |};
     interiorfound := 0; cyclelen := 0; cyclenumber := 0; multiplier := nofZ 0 |}.

Definition close_to (a b : Complex NTYP) : bool :=
  (normQ (Csub a b) <? ZEROEPSILON)%ntyp.

(** [getNullstellenIdx]: the table [zero] is the list of its first
    [nbr_of_cp] entries. *)
Definition getNullstellenIdx (zero : list (Root NTYP)) (aw : Complex NTYP)
  : outcome (list (Root NTYP) * Z) :=
  match list_find (fun r => close_to (attractor r) aw = true) zero with
  | Some (i, _) => Ret (zero, Z.of_nat i)
  | None =>
      if Z.of_nat (length zero) >? MAXZEROS - 8 then Exit99 TooManyRoots
      else
        let r := Root_clear Root_blank in
        Ret (zero ++ [ {| attractor := aw; cycle := cycle r;
                          ps_basinrect := ps_basinrect r;
                          interiorfound := interiorfound r; cyclelen := cyclelen r;
                          cyclenumber := cyclenumber r; multiplier := multiplier r |} ],
             Z.of_nat (length zero))
  end.

(** [for (i = lo; i <= hi; i += d) body], the body answering whether it
    breaks; [n] bounds the number of trips. *)
Fixpoint for_step {S : Type} (n : nat) (i hi d : Z)
    (body : Z -> S -> outcome (S * bool)) (s : S) : outcome S :=
  if i <=? hi then
    match n with
    | O => OutOfFuel
    | S n' =>
        run (s', brk) := body i s in
        if brk : bool then Ret s' else for_step n' (i + d) hi d body s'
    end
  else Ret s.

Definition LEN : Z := 1024.

(** The seeding square of [ps_find_critical_points]. *)
Definition ESCAPEQ (COMPLETE1 : NTYP) : NTYP := (COMPLETE1 * COMPLETE1)%ntyp.
Definition SCRRE0 (COMPLETE1 : NTYP) : Z := int32 (ntrunc (nofZ (-3) * ESCAPEQ COMPLETE1)%ntyp).
Definition SCRIM0 (COMPLETE1 : NTYP) : Z := int32 (ntrunc (nofZ (-3) * ESCAPEQ COMPLETE1)%ntyp).
Definition SCRIM1 (COMPLETE1 : NTYP) : Z := int32 (ntrunc (nofZ 3 * ESCAPEQ COMPLETE1)%ntyp).
Definition seed_step (COMPLETE1 : NTYP) : NTYP :=
  (nofZ (int32 (SCRIM1 COMPLETE1 - SCRIM0 COMPLETE1)) / nofZ LEN)%ntyp.

(** The starting point of pixel [(x, y)]. *)
Definition seed_start (COMPLETE1 : NTYP) (x y : Z) : Complex NTYP :=
  {| re := (nofZ x * seed_step COMPLETE1 + nofZ (SCRRE0 COMPLETE1))%ntyp;
     im := (nofZ y * seed_step COMPLETE1 + nofZ (SCRIM0 COMPLETE1))%ntyp |}.

(** The macro [SUCHE(X0,Y0,X1,Y1)]. *)
Definition SUCHE (fktforcp ablforcp : Polynom NTYP) (COMPLETE1 : NTYP)
    (X0 Y0 X1 Y1 : Z) (zero : list (Root NTYP)) : outcome (list (Root NTYP)) :=
  let yd := if Y0 >? Y1 then -1 else 1 in
  let xd := if X0 >? X1 then -1 else 1 in
  let full (zero : list (Root NTYP)) : bool :=
    Z.of_nat (length zero) >=? Z.of_nat (grad fktforcp) in
  for_step (Z.to_nat (Y1 - Y0 + 1)) Y0 Y1 yd
    (fun y zero =>
       run zero' :=
         for_step (Z.to_nat (X1 - X0 + 1)) X0 X1 xd
           (fun x zero =>
              match newton fktforcp ablforcp (seed_start COMPLETE1 x y) with
              | Some (it, nulls) =>
                  if it >? 0 then
                    run (zero', _) := getNullstellenIdx zero nulls in
                    Ret (zero', full zero')
                  else Ret (zero, false)
              | None => Ret (zero, false)
              end) zero in
       Ret (zero', full zero'))
    zero.

(** [ps_find_critical_points]: the critical points found, [nbr_of_cp]
    being the length of the list. *)
Definition ps_find_critical_points (fkt : Polynom NTYP) (COMPLETE1 : NTYP)
  : outcome (list (Root NTYP)) :=
  let fktforcp := ableitenFA fkt in
  let ablforcp := ableitenFA fktforcp in
  let more (zero : list (Root NTYP)) : bool :=
    Z.of_nat (length zero) <? Z.of_nat (grad fktforcp) in
  let suche := SUCHE fktforcp ablforcp COMPLETE1 in
  run zero := suche 0 0 0 (LEN - 1) [] in
  run zero := if more zero then suche 0 (LEN - 1) (LEN - 1) (LEN - 1) zero else Ret zero in
  run zero := if more zero then suche (LEN - 1) (LEN - 1) (LEN - 1) 0 zero else Ret zero in
  if more zero then suche (LEN - 1) 0 0 0 zero else Ret zero.

(** The orbit of [zn]: the points stored, and whether it escaped. *)
Fixpoint orbit_loop (fkt : Polynom NTYP) (escapeQ : NTYP) (n : nat) (zn : Complex NTYP)
  : list (Complex NTYP) * bool :=
  match n with
  | O => ([], false)
  | S n' =>
      if (normQ zn >? escapeQ)%ntyp then ([zn], true)
      else
        let '(orbit, esc) := orbit_loop fkt escapeQ n' (eval_arg_f fkt zn) in
        (zn :: orbit, esc)
  end.

(** The largest [i <= orbitlen-2] whose point is the last point of the
    orbit, up to the epsilon ([cyclestart]). *)
Fixpoint find_cyclestart (orbit : list (Complex NTYP)) (last_ : Complex NTYP) (n : nat)
  : option nat :=
  match n with
  | O => None
  | S i =>
      if close_to (default Czero (orbit !! i)) last_ then Some i
      else find_cyclestart orbit last_ i
  end.

(** Has an earlier critical point already found the cycle of [z]? *)
Definition cycle_known (earlier : list (Root NTYP)) (z : Complex NTYP) : bool :=
  existsb (fun r =>
             existsb (fun p => close_to (pp p) z)
                     (take (Z.to_nat (cyclelen r)) (cycle r)))
          earlier.

Definition blank_point (z : Complex NTYP) : PeriodicPoint NTYP :=
  {| pp := z; pp_mem0 := 0; pp_mem1 := 0; pp_y0 := 0; pp_y1 := 0 |}.

(** What the body of the loop over [cp] does to [zero[cp]], [cyclenumber]
    and [returnvalue]; [earlier] are the entries below [cp]. *)
Definition orbit_of_cp (fkt polyabl : Polynom NTYP) (escapeQ : NTYP)
    (earlier : list (Root NTYP)) (r : Root NTYP) (cyclenumber returnvalue : Z)
  : Root NTYP * Z * Z :=
  let '(orbit, esc) := orbit_loop fkt escapeQ (Z.to_nat MAXIT) (attractor r) in
  if esc then (Root_clear r, cyclenumber, returnvalue)
  else
    let orbitlen := length orbit in
    let cycleend := (orbitlen - 1)%nat in
    let last_ := default Czero (orbit !! cycleend) in
    match find_cyclestart orbit last_ (orbitlen - 1) with
    | None => (Root_clear r, cyclenumber, returnvalue)
    | Some cyclestart =>
        if cycle_known earlier last_ then (Root_clear r, cyclenumber, returnvalue)
        else
          let pts := drop (S cyclestart) orbit in
          let mult :=
            fold_left (fun m z => Cmul m (eval_arg_f polyabl z)) pts
                      {| re := nofZ 1; im := nofZ 0 |} in
          let multiplier := norm mult in
          let repelling := (multiplier >? nofZ 100001 / nofZ 100000)%ntyp in
          ({| attractor := attractor r;
              cycle := if repelling then []
                       else (blank_point <$> pts) ++ replicate 8 (blank_point Czero);
              ps_basinrect := ps_basinrect r;
              interiorfound := if repelling then 0 else interiorfound r;
              cyclelen := if repelling then 0 else Z.of_nat (length pts);
              cyclenumber := cyclenumber;
              multiplier := multiplier |},
           cyclenumber + 1, returnvalue + 1)
    end.

Fixpoint orbits_loop (fkt polyabl : Polynom NTYP) (escapeQ : NTYP)
    (done todo : list (Root NTYP)) (cyclenumber returnvalue : Z)
  : list (Root NTYP) * Z :=
  match todo with
  | [] => (done, returnvalue)
  | r :: todo' =>
      let '(r', cyclenumber', returnvalue') :=
        orbit_of_cp fkt polyabl escapeQ done r cyclenumber returnvalue in
      orbits_loop fkt polyabl escapeQ (done ++ [r']) todo' cyclenumber' returnvalue'
  end.

(** [ps_construct_critical_orbits]: the table afterwards and the value
    returned. *)
Definition ps_construct_critical_orbits (fkt : Polynom NTYP) (COMPLETE1 : NTYP)
    (zero : list (Root NTYP)) : list (Root NTYP) * Z :=
  let escapeQ := (COMPLETE1 * COMPLETE1)%ntyp in
  orbits_loop fkt (ableitenFA fkt) escapeQ [] zero 1 0.

(** The check of [main] on that value: [exit(99)] on no critical orbit. *)
Definition main_orbit_check (fkt : Polynom NTYP) (COMPLETE1 : NTYP)
    (zero : list (Root NTYP)) : outcome (list (Root NTYP)) :=
  let '(zero', n) := ps_construct_critical_orbits fkt COMPLETE1 zero in
  if n <=? 0 then Exit99 NoCriticalOrbit else Ret zero'.

(** The orbit of a critical point stays bounded and closes up. *)
Definition bounded_periodic (fkt : Polynom NTYP) (COMPLETE1 : NTYP) (z0 : Complex NTYP)
  : bool :=
  let '(orbit, esc) := orbit_loop fkt (COMPLETE1 * COMPLETE1)%ntyp (Z.to_nat MAXIT) z0 in
  negb esc &&
  bool_decide (is_Some (find_cyclestart orbit
                          (default Czero (orbit !! (length orbit - 1)%nat))
                          (length orbit - 1))).

End CriticalOrbits.

(** ** Vocabulary of the properties *)

Section RectangleVocabulary.
Local Open Scope R_scope.

(** An interval that does not contain zero in its interior. *)
Definition one_sided (a b : R) : Prop := 0 <= a \/ b <= 0.

End RectangleVocabulary.

Section EnclosureVocabulary.
Local Open Scope R_scope.

Definition in_rect (A : PlaneRect R) (z : Complex R) : Prop :=
  px0 A <= re z <= px1 A /\ py0 A <= im z <= py1 A.

(** The seed interval contains [c], and the factor is [A], as [main]
    sets them ([seedC0 = seedC1 = c]). *)
Definition seeds_cover (s : Seeds R) (cplxA cplxC : Complex R) : Prop :=
  seedC0re s <= re cplxC <= seedC1re s /\
  seedC0im s <= im cplxC <= seedC1im s /\
  FAKTORAre s = re cplxA /\ FAKTORAim s = im cplxA.

Definition axis_free (A : PlaneRect R) : Prop :=
  one_sided (px0 A) (px1 A) /\ one_sided (py0 A) (py1 A).

Definition degree_of (f : FUNC) : nat :=
  match f with
  | FUNC_Z2C | FUNC_Z2AZC => 2 | FUNC_Z3AZC => 3 | FUNC_Z4AZC => 4
  | FUNC_Z5AZC => 5 | FUNC_Z6AZC => 6
  end.

Definition encloses (fA : PlaneRect R) (w : Complex R) : Prop :=
  px0 fA <= re w <= px1 fA /\ py0 fA <= im w <= py1 fA.

End EnclosureVocabulary.

Section SweepVocabulary.
Context {NTYP : Type} {ops : NTYP_ops NTYP}.
Variable G : Globals NTYP.
Implicit Types (lv : Level NTYP) (st : Store).

(** What the bit loop has done after [k] bits of the word [ff0]. *)
Record bits_inv (ff0 : DDBYTE) (k : Z) (b : bitstate) : Prop := {
  bi_ff : ff b = Z.shiftr ff0 k;
  bi_mono : forall i, Z.testbit ff0 i = true -> Z.testbit (fneu b) i = true;
  bi_changed :
    (fchanged b = 0 /\ fneu b = ff0) \/
    (fchanged b = 1 /\
     exists i, 0 <= i < k /\ Z.testbit ff0 i = false /\ Z.testbit (fneu b) i = true)
}.

(** The grid reads the same in two states. *)
Definition same_grid lv st st' : Prop :=
  forall M Y, GET32_MY lv st' M Y = GET32_MY lv st M Y.

(** The effect of a part of a sweep on the arrays and on [changed]. *)
Record progress lv (st : Store) (ch : Z) (st' : Store) (ch' : Z) : Prop := {
  pr_rows : ispotwY st' = ispotwY st;
  pr_subset : potw_subset lv st st';
  pr_changed :
    (ch' = ch /\ same_grid lv st st') \/
    (ch' = 1 /\ (gray_bits lv st' < gray_bits lv st)%nat)
}.

End SweepVocabulary.

Section ArenaVocabulary.
Implicit Types (mgr : ArrayDDByteManager) (p q : PDDBYTE).

(** The current block is the last one and its free index is sound. *)
Definition mgr_wf mgr : Prop :=
  match current mgr with
  | Some b => S b = anzptr mgr /\ 0 <= freeFromIdx mgr /\
              allocatedIdx mgr = allocatePerBlock mgr
  | None => True
  end.

(** [q] can only be handed out by [mgr] in the future. *)
Definition fresh_for mgr q : Prop :=
  0 <= q.2 /\
  ((anzptr mgr <= q.1)%nat \/ (current mgr = Some q.1 /\ freeFromIdx mgr <= q.2)).

End ArenaVocabulary.

Section SetupVocabulary.
Context {NTYP : Type} {ops : NTYP_ops NTYP}.
Variable G : Globals NTYP.
Implicit Types (lv : Level NTYP) (st : Store).

(** [a] contains [b]. *)
Definition rect_within (b a : ScreenRect) : Prop :=
  sx0 a <= sx0 b /\ sx1 b <= sx1 a /\ sy0 a <= sy0 b /\ sy1 b <= sy1 a.

(** The record [setup_points] writes for a periodic point. *)
Definition point_record (SW : Z) (spr : NTYP) (p : PeriodicPoint NTYP) : PeriodicPoint NTYP :=
  let scr := point_rect G SW spr p in
  {| pp := pp p;
     pp_mem0 := Z.shiftr (sx0 scr) SHIFTPERDDBYTE;
     pp_mem1 := Z.shiftr (sx1 scr) SHIFTPERDDBYTE;
     pp_y0 := sy0 scr; pp_y1 := sy1 scr |}.

(** The enclosement never leaves the screen. *)
Definition on_screen (SW : Z) (encl : ScreenRect) : Prop :=
  0 <= sx0 encl /\ sx1 encl <= SW - 1 /\ 0 <= sy0 encl /\ sy1 encl <= SW - 1.

Definition same_tables st st' : Prop :=
  ispotwY st' = ispotwY st /\ ywithgray st' = ywithgray st.

End SetupVocabulary.

Section SetupFacts.
Context {NTYP : Type} {ops : NTYP_ops NTYP}.
Variable G : Globals NTYP.
Implicit Types (lv : Level NTYP) (st : Store).

(** What a pass has fixed when [level_setup] returns. *)
Record setup_facts (L : Z) (onecycle onecycle' : Root NTYP) lv st : Prop := {
  sf_ok : store_ok lv st;
  sf_level : REFINEMENT lv = L;
  sf_width : SCREENWIDTH lv = int32 (Z.shiftl 1 L);
  sf_maxmem : MAXMEM lv = Z.shiftr (SCREENWIDTH lv) SHIFTPERDDBYTE;
  sf_mem0 : mem0 lv = Z.shiftr (sx0 (enclosementall lv)) SHIFTPERDDBYTE;
  sf_mem1 : mem1 lv = Z.shiftr (sx1 (enclosementall lv)) SHIFTPERDDBYTE;
  sf_mem1_max : mem1 lv < MAXMEM lv;
  sf_leny : 0 <= LOCALLENY lv;
  sf_len : (Z.to_nat (cyclelen onecycle) <= length (cycle onecycle))%nat;
  sf_cycle :
    cycle onecycle' =
      (point_record G (SCREENWIDTH lv) (scalePixelPerRange lv)
         <$> take (Z.to_nat (cyclelen onecycle)) (cycle onecycle))
      ++ drop (Z.to_nat (cyclelen onecycle)) (cycle onecycle);
  sf_root :
    attractor onecycle' = attractor onecycle /\
    interiorfound onecycle' = interiorfound onecycle /\
    cyclelen onecycle' = cyclelen onecycle /\
    cyclenumber onecycle' = cyclenumber onecycle /\
    multiplier onecycle' = multiplier onecycle /\
    ps_basinrect onecycle' = local lv;
  sf_points : forall p, p ∈ take (Z.to_nat (cyclelen onecycle)) (cycle onecycle) ->
    rect_within (point_rect G (SCREENWIDTH lv) (scalePixelPerRange lv) p) (enclosementall lv) /\
    Z.shiftr (sx1 (point_rect G (SCREENWIDTH lv) (scalePixelPerRange lv) p)) SHIFTPERDDBYTE
      < MAXMEM lv;
  sf_encl :
    rect_within {| sx0 := SCREENWIDTH lv; sx1 := 0; sy0 := SCREENWIDTH lv; sy1 := 0 |}
      (enclosementall lv);
  sf_screen : 1 <= SCREENWIDTH lv -> on_screen (SCREENWIDTH lv) (enclosementall lv)
}.

End SetupFacts.

Definition outcome_rel {A B} (R : A -> B -> Prop) (o1 : outcome A) (o2 : outcome B) : Prop :=
  match o1, o2 with
  | Ret a, Ret b => R a b
  | Exit99 w1, Exit99 w2 => w1 = w2
  | Crash, Crash => True
  | OutOfFuel, OutOfFuel => True
  | _, _ => False
  end.

Section EquivalenceVocabulary.
Context {NTYP : Type} {ops : NTYP_ops NTYP}.
Variable G : Globals NTYP.
Implicit Types (lv : Level NTYP) (st : Store) (r : Root NTYP).

(** Same periodic points. *)
Definition root_equiv r1 r2 : Prop :=
  cyclelen r1 = cyclelen r2 /\ pp <$> cycle r1 = pp <$> cycle r2.

(** Same blocks; the stale indices only differ while there is no block. *)
Definition mgr_equiv (m1 m2 : ArrayDDByteManager) : Prop :=
  current m1 = current m2 /\ anzptr m1 = anzptr m2 /\
  allocatePerBlock m1 = allocatePerBlock m2 /\
  (is_Some (current m1) -> m1 = m2).

Definition pass_equiv (x y : Root NTYP * Level NTYP * Store * ArrayDDByteManager) : Prop :=
  x.1.1.2 = y.1.1.2 /\ x.1.2 = y.1.2 /\ root_equiv x.1.1.1 y.1.1.1 /\
  allocatePerBlock x.2 = allocatePerBlock y.2.

End EquivalenceVocabulary.

Section LoopVocabulary.
Context {NTYP : Type} {ops : NTYP_ops NTYP}.
Variable G : Globals NTYP.
Implicit Types (lv : Level NTYP) (st : Store) (r : Root NTYP).

(** What [cm_local] leaves untouched in a [Root]. *)
Definition root_frame r r' : Prop :=
  attractor r' = attractor r /\ cyclelen r' = cyclelen r /\
  cyclenumber r' = cyclenumber r /\ multiplier r' = multiplier r /\
  pp <$> cycle r' = pp <$> cycle r.

(** The value the loop over [n] levels from [L] leaves in [interiorpresentat]. *)
Definition levels_result fuel sw r0 (L : Z) (n : nat) (found : Z) : Prop :=
  (found = 0 /\ forall k, L <= k < L + Z.of_nat n -> no_gray_at G fuel sw r0 k) \/
  (L <= found < L + Z.of_nat n /\ gray_at G fuel sw r0 found /\
   forall k, L <= k < found -> no_gray_at G fuel sw r0 k).

(** With enough fuel for the grid of every level, the loop returns. *)
Definition setup_within fuel sw r0 (k : Z) : Prop :=
  exists r lv st m,
    level_setup G k sw r0 ArrayDDByteManager_new ∅ = Ret (r, lv, st, m) /\
    (gray_bits lv st < fuel)%nat.

End LoopVocabulary.

(** ** Example data

    The basilica [z^2 - 1] over the rationals: its Lagrange bound is 4 and
    its critical point 0 runs into the cycle [0 -> -1 -> 0]. *)

Definition basilica_seeds : Seeds Q :=
  {| seedC0re := (-1)%Q; seedC1re := (-1)%Q; seedC0im := 0%Q; seedC1im := 0%Q;
     FAKTORAre := 0%Q; FAKTORAim := 0%Q |}.

Definition basilica_globals (level0 level1 encw : Z) : Globals Q :=
  {| COMPLETE0 := inject_Z (-4); COMPLETE1 := inject_Z 4;
     LEVEL0 := level0; LEVEL1 := level1; _ENCLOSEMENTWIDTH := encw;
     getBoundingBoxfA := setfunc_bbox FUNC_Z2C basilica_seeds |}.

Definition basilica_point (x : Q) : PeriodicPoint Q :=
  {| pp := {| re := x; im := 0%Q |}; pp_mem0 := 0; pp_mem1 := 0; pp_y0 := 0; pp_y1 := 0 |}.

Definition basilica_cycle : Root Q :=
  {| attractor := {| re := 0%Q; im := 0%Q |};
     cycle := [basilica_point 0%Q; basilica_point (-1)%Q];
     ps_basinrect := {| px0 := 0%Q; px1 := 0%Q; py0 := 0%Q; py1 := 0%Q |};
     interiorfound := 0; cyclelen := 2; cyclenumber := 1; multiplier := 0%Q |}.

(** Is the outcome a returned value? *)
Definition returns {A : Type} (m : outcome A) : bool :=
  match m with Ret _ => true | _ => false end.

(** The number of bits the propagation of level [L] flips, next to the
    pixel area of the enclosement of that level. *)
Definition flips_and_area {NTYP : Type} {ops : NTYP_ops NTYP} (G : Globals NTYP)
    (fuel : nat) (L : Z) (startwith : DDBYTE) (onecycle : Root NTYP) : option (Z * Z) :=
  match level_setup G L startwith onecycle ArrayDDByteManager_new ∅ with
  | Ret (_, lv, st0, _) =>
      match while_changed G fuel lv st0 with
      | Ret st' => Some (Z.of_nat (gray_bits lv st0 - gray_bits lv st'), enclosement_area lv)
      | _ => None
      end
  | _ => None
  end.


(** An arithmetic that is exact except for the quotient of two [double]s,
    which it rounds upwards by the relative error [2^-53]; and the
    polynomial [z^2]. *)
Definition R_double_up : DOUBLE_ops R R := {|
  d_one := 1%R; d_two := 2%R;
  d_addN := Rplus; d_divN := Rdiv;
  d_log := ln; d_div := fun a b => (a / b * (1 + / 2 ^ 53))%R;
  d_ceil := fun x => IZR (Rceil x);
  d_int := Rtrunc
|}.

Definition unit_square : Polynom R :=
  setCoeff clearCoeff 2 {| re := 1%R; im := 0%R |}.

(** [z^2 - 2] over the rationals; its Lagrange bound is 4, its critical
    point 0 runs into the repelling fixed point 2. *)
Definition z2_minus_2 : Polynom Q :=
  setfunc_fkt FUNC_Z2C Czero {| re := (-2)%Q; im := 0%Q |}.

(** A rectangle with the origin between its left and right side, and the
    seeds of [z^2]. *)
Definition straddling_rect : PlaneRect R :=
  {| px0 := (-1)%R; px1 := 1%R; py0 := 0%R; py1 := 0%R |}.

Definition zero_seeds : Seeds R :=
  {| seedC0re := 0%R; seedC1re := 0%R; seedC0im := 0%R; seedC1im := 0%R;
     FAKTORAre := 0%R; FAKTORAim := 0%R |}.

(** ** Values of polynomials *)

Section PolynomialValues.
Context {NTYP : Type} {ops : NTYP_ops NTYP}.

(** [z^n], by repeated [operator*]. *)
Fixpoint Cpow (z : Complex NTYP) (n : nat) : Complex NTYP :=
  match n with
  | O => {| re := nofZ 1; im := nofZ 0 |}
  | S n' => Cmul (Cpow z n') z
  end.

(** The sum of [coeff[j] * z^j] over [j < n]. *)
Fixpoint poly_sum (p : Polynom NTYP) (z : Complex NTYP) (n : nat) : Complex NTYP :=
  match n with
  | O => Czero
  | S n' => Cadd (poly_sum p z n') (Cmul (coeff_at p n') (Cpow z n'))
  end.

(** The sum of [(k+1) * coeff[k+1] * z^k] over [k < n]: the value of the
    formal derivative. *)
Fixpoint deriv_sum (p : Polynom NTYP) (z : Complex NTYP) (n : nat) : Complex NTYP :=
  match n with
  | O => Czero
  | S n' =>
      Cadd (deriv_sum p z n')
           (Cmul (Cmul {| re := nofZ (Z.of_nat (S n')); im := nofZ 0 |} (coeff_at p (S n')))
                 (Cpow z n'))
  end.

(** The flag of coefficient [i] tells whether it is zero: a flagged
    coefficient is 0 and an unflagged one is not below the limit. *)
Definition flags_exact (p : Polynom NTYP) : Prop :=
  forall i, (i <= grad p)%nat ->
    (coeffnull p !! i = Some true /\ coeff_at p i = Czero) \/
    (coeffnull p !! i = Some false /\
     nltb (normQ (coeff_at p i)) COEFFZEROLIMIT = false).

(** The arrays have [MAXDEGREE] entries and [grad] is an index. *)
Definition arrays_ok (p : Polynom NTYP) : Prop :=
  length (coeff p) = MAXDEGREE /\ length (coeffnull p) = MAXDEGREE /\
  (grad p < MAXDEGREE)%nat.

End PolynomialValues.


Section DerivativeVocabulary.
Context {NTYP : Type} {ops : NTYP_ops NTYP}.

(** [Complex(i,0) * infkt.coeff[i]] *)
Definition dcoef (p : Polynom NTYP) (i : nat) : Complex NTYP :=
  Cmul {| re := nofZ (Z.of_nat i); im := nofZ 0 |} (coeff_at p i).

(** Coefficient [i] is not skipped by [ableitenFA]. *)
Definition unflagged (p : Polynom NTYP) (i : nat) : bool :=
  negb (default true (coeffnull p !! i)).

End DerivativeVocabulary.

(** A coefficient whose flag tells whether it is zero. *)
Definition exact_coeff (c : Complex R) : Prop :=
  c = Czero \/ nltb (normQ c) COEFFZEROLIMIT = false.


(** ** Vocabulary for the table of critical points *)

Section SeedingVocabulary.
Context {NTYP : Type} {ops : NTYP_ops NTYP}.
Variable MAXIT : Z.

(** [(x, y)] is a pixel of the left edge or of the top row of the seeding
    square. *)
Definition on_walk (x y : Z) : Prop :=
  (x = 0 /\ 0 <= y <= LEN - 1) \/ (y = LEN - 1 /\ 0 <= x <= LEN - 1).

(** A cleared entry whose attractor Newton's iteration returned from a
    pixel in [P]. *)
Definition found_from (fktforcp ablforcp : Polynom NTYP) (COMPLETE1 : NTYP)
    (P : Z -> Z -> Prop) (r : Root NTYP) : Prop :=
  cyclelen r = 0 /\ cycle r = [] /\
  exists x y it, P x y /\
    newton MAXIT fktforcp ablforcp (seed_start COMPLETE1 x y) = Some (it, attractor r).

(** No entry is within the epsilon of a later one. *)
Definition pairwise_apart (zero : list (Root NTYP)) : Prop :=
  forall i j ri rj, (i < j)%nat -> zero !! i = Some ri -> zero !! j = Some rj ->
    close_to (attractor ri) (attractor rj) = false.

(** The table during a search over the pixels in [P]: cleared entries
    found by Newton, pairwise apart, and no more than the degree (or
    one). *)
Definition table_ok (f f' : Polynom NTYP) (C1 : NTYP) (P : Z -> Z -> Prop)
    (zero : list (Root NTYP)) : Prop :=
  Forall (found_from f f' C1 P) zero /\ pairwise_apart zero /\
  (length zero <= Nat.max 1 (grad f))%nat.

End SeedingVocabulary.


(** ** Vocabulary for the table of critical orbits *)

Section OrbitVocabulary.
Context {NTYP : Type} {ops : NTYP_ops NTYP}.

(** What [ps_construct_critical_orbits] leaves in an entry: no cycle, or
    a cycle of [cyclelen >= 1] points (in an array of [cyclelen + 8]
    records) that is not repelling, does not leave the escape radius,
    whose points are each the image of the one before, and whose first
    point is the image of a point within the epsilon of the last one. *)
Definition cycle_shape (fkt : Polynom NTYP) (escapeQ : NTYP) (r : Root NTYP) : Prop :=
  (cyclelen r = 0 /\ cycle r = []) \/
  (1 <= cyclelen r /\
   length (cycle r) = (Z.to_nat (cyclelen r) + 8)%nat /\
   nltb (ndiv (nofZ 100001) (nofZ 100000)) (multiplier r) = false /\
   (forall k p q, (S k < Z.to_nat (cyclelen r))%nat ->
      cycle r !! k = Some p -> cycle r !! S k = Some q ->
      pp q = eval_arg_f fkt (pp p)) /\
   (forall k p, (k < Z.to_nat (cyclelen r))%nat -> cycle r !! k = Some p ->
      nltb escapeQ (normQ (pp p)) = false) /\
   (exists w p0 pl,
      cycle r !! 0%nat = Some p0 /\
      cycle r !! (Z.to_nat (cyclelen r) - 1)%nat = Some pl /\
      close_to w (pp pl) = true /\ pp p0 = eval_arg_f fkt w)).

(** The last point of the cycle of a later entry is not within the
    epsilon of a point of the cycle of an earlier entry. *)
Definition cycles_apart (zero : list (Root NTYP)) : Prop :=
  forall i j ri rj p pl, (i < j)%nat ->
    zero !! i = Some ri -> zero !! j = Some rj ->
    0 < cyclelen rj ->
    p ∈ take (Z.to_nat (cyclelen ri)) (cycle ri) ->
    cycle rj !! (Z.to_nat (cyclelen rj) - 1)%nat = Some pl ->
    close_to (pp p) (pp pl) = false.

End OrbitVocabulary.


(** ** Vocabulary for the grid at the fixed point *)

Section TrapVocabulary.
Context {NTYP : Type} {ops : NTYP_ops NTYP}.
Variable G : Globals NTYP.

(** None of the 32 bits of the word is GRAY. *)
Definition no_gray_bits (w : DDBYTE) : Prop :=
  forall bit, 0 <= bit < 32 -> Z.testbit w bit = true.

(** A row whose flag [ywithgray] is off holds no GRAY bit. *)
Definition flags_sound (lv : Level NTYP) (st : Store) : Prop :=
  forall y, sy0 (enclosementall lv) <= y <= sy1 (enclosementall lv) ->
    default 0 (ywithgray st !! Z.to_nat (y - sy0 (enclosementall lv))) <= 0 ->
    forall m, no_gray_bits (GET32_MY lv st m y).

(** No GRAY cell of the grid is due to be flipped. *)
Definition trapped (lv : Level NTYP) (st : Store) : Prop :=
  forall m y bit, 0 <= bit < 32 ->
    Z.testbit (GET32_MY lv st m y) bit = false ->
    cell_escapes G lv st (Z.shiftl m SHIFTPERDDBYTE + bit) y = false.

(** [(X, Y)] is a pixel of the rectangle. *)
Definition in_screen_rect (r : ScreenRect) (X Y : Z) : Prop :=
  sx0 r <= X <= sx1 r /\ sy0 r <= Y <= sy1 r.

End TrapVocabulary.


(** ** Vocabulary for the words of the grid *)

(** Every word that was stored is a 32-bit value. *)
Definition words_in_range (h : wordstore) : Prop :=
  forall a v, h !! a = Some v -> 0 <= v <= DDBYTEMAX.

(** The outcome is a returned value that passes the test. *)
Definition returns_with {A : Type} (m : outcome A) (b : A -> bool) : bool :=
  match m with Ret a => b a | _ => false end.


(** ** Example data: a screen of 4 pixels over the square of 2 *)

Definition small_globals : Globals R :=
  {| COMPLETE0 := (-2)%R; COMPLETE1 := 2%R; LEVEL0 := 2; LEVEL1 := 2;
     _ENCLOSEMENTWIDTH := 1;
     getBoundingBoxfA := fun A => A |}.

Definition small_level : Level R :=
  {| REFINEMENT := 2; SCREENWIDTH := 4; MAXMEM := 0;
     scaleRangePerPixel := ((2 - -2) / IZR 4)%R;
     scalePixelPerRange := (IZR 4 / (2 - -2))%R;
     enclosementall := {| sx0 := 0; sx1 := 3; sy0 := 0; sy1 := 3 |};
     mem0 := 0; mem1 := 0;
     local := {| px0 := (-2)%R; px1 := 2%R; py0 := (-2)%R; py1 := 2%R |} |}.


(** ** main: do the enclosements of different cycles overlap *)

Section OverlapCheck.
Context {NTYP : Type} {ops : NTYP_ops NTYP}.
Local Open Scope ntyp_scope.

(** The test on two [ps_basinrect]s; the source writes the four ways of
    lying apart and sets [overlapping] in the [else] branch. *)
Definition lies_apart (a b : PlaneRect NTYP) : bool :=
  (px1 a <? px0 b) || (px0 a >? px1 b) || (py1 a <? py0 b) || (py0 a >? py1 b).

(** The two loops over [i] and [k] below [nbr_of_cp], each left by [break]
    once [overlapping] is set; the table [zero] is the list of its first
    [nbr_of_cp] entries. *)
Definition overlapping (zero : list (Root NTYP)) : Z :=
  let nbr_of_cp := Z.of_nat (length zero) in
  if any_upto 0 (nbr_of_cp - 1) (fun i =>
       match zero !! Z.to_nat i with
       | None => false
       | Some zi =>
           if ((cyclelen zi <=? 0) || (interiorfound zi <=? 0))%Z then false
           else
             any_upto 0 (nbr_of_cp - 1) (fun k =>
               match zero !! Z.to_nat k with
               | None => false
               | Some zk =>
                   if ((i =? k) || (cyclelen zk <=? 0) || (interiorfound zk <=? 0))%Z
                   then false
                   else negb (lies_apart (ps_basinrect zi) (ps_basinrect zk))
               end)
       end)
  then 1%Z else 0%Z.

End OverlapCheck.

(** A cycle that was analysed and for which interior was found. *)
Definition interior_cycle {NTYP : Type} (r : Root NTYP) : Prop :=
  0 < cyclelen r /\ 0 < interiorfound r.

(** The closed rectangles share a point. *)
Definition rects_meet (a b : PlaneRect R) : Prop :=
  exists z : Complex R, in_rect a z /\ in_rect b z.

(** A rectangle with its corners in order. *)
Definition rect_ordered (a : PlaneRect R) : Prop :=
  (px0 a <= px1 a)%R /\ (py0 a <= py1 a)%R.

(** Two entries with interior whose rectangles [[0,2]^2] and [[1,3]^2]
    overlap. *)
Definition square_entry (lo hi : R) : Root R :=
  {| attractor := {| re := lo; im := lo |}; cycle := [];
     ps_basinrect := {| px0 := lo; px1 := hi; py0 := lo; py1 := hi |};
     interiorfound := 10; cyclelen := 1; cyclenumber := 1; multiplier := 0%R |}.


(** ** Function names: [upper], [getfuncidx] and the [switch] of [setfunc]

    A C string is the list of its characters before the terminating 0. *)

Section FunctionNames.
Import Stdlib.Strings.String.

Definition funcname : list (list Ascii.ascii) :=
  list_ascii_of_string <$>
    ["Z2C"%string; "Z2AZC"%string; "Z3AZC"%string; "Z4AZC"%string; "Z5AZC"%string;
     "Z6AZC"%string].

End FunctionNames.

Definition FUNCANZ : Z := 6.

(** [if ((s[i]>='a')&&(s[i]<='z')) s[i]=s[i]-'a'+'A'] *)
Definition upper_char (c : Ascii.ascii) : Ascii.ascii :=
  let n := Z.of_N (Ascii.N_of_ascii c) in
  if (n >=? 97) && (n <=? 122) then Ascii.ascii_of_N (Z.to_N (n - 97 + 65)) else c.

(** The loop of [upper], from [i = strlen(s)-1] down to 0, after [n]
    positions are left to do. *)
Fixpoint upper_loop (n : nat) (s : list Ascii.ascii) : list Ascii.ascii :=
  match n with
  | O => s
  | S i => upper_loop i (<[i := upper_char (default Ascii.zero (s !! i))]> s)
  end.

Definition upper (s : list Ascii.ascii) : list Ascii.ascii := upper_loop (length s) s.

(** [!strcmp(a, b)] *)
Fixpoint streq (a b : list Ascii.ascii) : bool :=
  match a, b with
  | [], [] => true
  | x :: a', y :: b' => Ascii.eqb x y && streq a' b'
  | _, _ => false
  end.

(** The loop of [getfuncidx] over [funcname[i]], from index [i]. *)
Fixpoint getfuncidx_from (names : list (list Ascii.ascii)) (i : Z) (s : list Ascii.ascii)
  : Z :=
  match names with
  | [] => -1
  | nm :: rest => if streq s nm then i else getfuncidx_from rest (i + 1) s
  end.

Definition getfuncidx (s : list Ascii.ascii) : Z := getfuncidx_from funcname 0 s.

(** The [switch (afunc)] of [setfunc], with its [default] branch. *)
Definition setfunc_case (afunc : Z) : FUNC :=
  if afunc =? 2 then FUNC_Z3AZC
  else if afunc =? 3 then FUNC_Z4AZC
  else if afunc =? 4 then FUNC_Z5AZC
  else if afunc =? 5 then FUNC_Z6AZC
  else if afunc =? 1 then FUNC_Z2AZC
  else FUNC_Z2C.

(** The enumerators [FUNC_Z2C=0, ..., FUNC_Z6AZC=5]. *)
Definition func_index (f : FUNC) : Z :=
  match f with
  | FUNC_Z2C => 0 | FUNC_Z2AZC => 1 | FUNC_Z3AZC => 2
  | FUNC_Z4AZC => 3 | FUNC_Z5AZC => 4 | FUNC_Z6AZC => 5
  end.

(** A character outside ['a'..'z']. *)
Definition not_lower (c : Ascii.ascii) : Prop :=
  ~ (97 <= Z.of_N (Ascii.N_of_ascii c) <= 122).

(** The argument [z3azc] of [FUNC=]. *)
Definition name_z3azc : list Ascii.ascii :=
  Ascii.ascii_of_N <$> [122%N; 51%N; 97%N; 122%N; 99%N].


(** ** Vocabulary: rectangles that are points *)

(** The rectangle that holds the point [z] only. *)
Definition point_box {NTYP : Type} (z : Complex NTYP) : PlaneRect NTYP :=
  {| px0 := re z; px1 := re z; py0 := im z; py1 := im z |}.

(** The seeds name the one parameter [c] and the factor [A]. *)
Definition seeds_exact (s : Seeds R) (cplxA cplxC : Complex R) : Prop :=
  seedC0re s = re cplxC /\ seedC1re s = re cplxC /\
  seedC0im s = im cplxC /\ seedC1im s = im cplxC /\
  FAKTORAre s = re cplxA /\ FAKTORAim s = im cplxA.


(** [z^2 + c] with [c = 3/10 + 3/25 i]: the point [3/10 + 3/10 i] is an
    attracting fixed point (its multiplier is [3/5 + 3/5 i]). *)
Definition fixpoint_seeds : Seeds Q :=
  {| seedC0re := (3 # 10)%Q; seedC1re := (3 # 10)%Q;
     seedC0im := (3 # 25)%Q; seedC1im := (3 # 25)%Q;
     FAKTORAre := 0%Q; FAKTORAim := 0%Q |}.

Definition fixpoint_globals (level0 level1 encw : Z) : Globals Q :=
  {| COMPLETE0 := inject_Z (-4); COMPLETE1 := inject_Z 4;
     LEVEL0 := level0; LEVEL1 := level1; _ENCLOSEMENTWIDTH := encw;
     getBoundingBoxfA := setfunc_bbox FUNC_Z2C fixpoint_seeds |}.

Definition fixpoint_cycle : Root Q :=
  {| attractor := {| re := (3 # 10)%Q; im := (3 # 10)%Q |};
     cycle := [{| pp := {| re := (3 # 10)%Q; im := (3 # 10)%Q |};
                  pp_mem0 := 0; pp_mem1 := 0; pp_y0 := 0; pp_y1 := 0 |}];
     ps_basinrect := {| px0 := 0%Q; px1 := 0%Q; py0 := 0%Q; py1 := 0%Q |};
     interiorfound := 0; cyclelen := 1; cyclenumber := 1; multiplier := 0%Q |}.

(** The outcomes of a pass that stops in the set-up of its level with
    one of the two [Maxmem reached] exits or an array index outside its
    array. *)
Definition aborts {A : Type} (o : outcome A) : Prop :=
  o = Exit99 MaxmemReached \/ o = Exit99 Maxmem2Reached \/ o = Crash.

(** * Properties *)

(** ** Bounding boxes over the exact reals *)

Section BoundingBoxReal.
Local Open Scope R_scope.

Lemma minimumD_R_le (a b : R) : minimumD a b <= a /\ minimumD a b <= b.
Proof. unfold minimumD; cbn; unfold Rltb; destruct (Rlt_dec a b); split; lra. Qed.

Lemma maximumD_R_ge (a b : R) : a <= maximumD a b /\ b <= maximumD a b.
Proof. unfold maximumD; cbn; unfold Rltb; destruct (Rlt_dec b a); split; lra. Qed.

Lemma minimumD4_R_le (a b c d : R) :
  minimumD4 a b c d <= a /\ minimumD4 a b c d <= b /\
  minimumD4 a b c d <= c /\ minimumD4 a b c d <= d.
Proof.
  unfold minimumD4; cbn; unfold Rltb.
  destruct (Rlt_dec b a); cbn;
    match goal with |- context [Rlt_dec c ?m] => destruct (Rlt_dec c m); cbn end;
    match goal with |- context [Rlt_dec d ?m] => destruct (Rlt_dec d m); cbn end;
    repeat split; lra.
Qed.

Lemma maximumD4_R_ge (a b c d : R) :
  a <= maximumD4 a b c d /\ b <= maximumD4 a b c d /\
  c <= maximumD4 a b c d /\ d <= maximumD4 a b c d.
Proof.
  unfold maximumD4; cbn; unfold Rltb.
  destruct (Rlt_dec a b); cbn;
    match goal with |- context [Rlt_dec ?m c] => destruct (Rlt_dec m c); cbn end;
    match goal with |- context [Rlt_dec ?m d] => destruct (Rlt_dec m d); cbn end;
    repeat split; lra.
Qed.

(** The product of two intervals lies between the extreme endpoint products. *)
Lemma interval_mul (u v a b c d : R) :
  a <= u <= b -> c <= v <= d ->
  minimumD4 (a*c) (a*d) (b*c) (b*d) <= u * v <= maximumD4 (a*c) (a*d) (b*c) (b*d).
Proof.
  intros Hu Hv.
  pose proof (minimumD4_R_le (a*c) (a*d) (b*c) (b*d)) as (L1 & L2 & L3 & L4).
  pose proof (maximumD4_R_ge (a*c) (a*d) (b*c) (b*d)) as (U1 & U2 & U3 & U4).
  destruct (Rle_dec 0 v) as [Hv0|Hv0]; destruct (Rle_dec 0 a) as [Ha|Ha];
    destruct (Rle_dec 0 b) as [Hb|Hb]; split; nra.
Qed.

Lemma scale2_bounds (k x a b : R) :
  a <= x <= b ->
  minimumD (k*a) (k*b) <= k * x <= maximumD (k*a) (k*b).
Proof.
  intros Hx.
  pose proof (minimumD_R_le (k*a) (k*b)) as [L1 L2].
  pose proof (maximumD_R_ge (k*a) (k*b)) as [U1 U2].
  destruct (Rle_dec 0 k); split; nra.
Qed.

Lemma sq_bounds (x a b : R) :
  one_sided a b -> a <= x <= b ->
  0 <= minimumD (a*a) (b*b) /\
  minimumD (a*a) (b*b) <= x * x <= maximumD (a*a) (b*b).
Proof.
  intros Hs Hx.
  pose proof (minimumD_R_le (a*a) (b*b)) as [L1 L2].
  pose proof (maximumD_R_ge (a*a) (b*b)) as [U1 U2].
  assert (0 <= minimumD (a*a) (b*b)).
  { unfold minimumD; cbn; unfold Rltb; destruct (Rlt_dec (a*a) (b*b)); nra. }
  destruct Hs; repeat split; nra.
Qed.

Lemma cube_mono (x y : R) : x <= y -> x*x*x <= y*y*y.
Proof.
  intros H.
  assert (0 <= (y - x) * ((x + y/2) * (x + y/2) + 3/4 * (y * y))) by
    (apply Rmult_le_pos; nra).
  nra.
Qed.

Lemma pow4_bounds (x a b : R) :
  one_sided a b -> a <= x <= b ->
  minimumD (a*a*a*a) (b*b*b*b) <= x*x*x*x <= maximumD (a*a*a*a) (b*b*b*b).
Proof.
  intros Hs Hx.
  pose proof (minimumD_R_le (a*a*a*a) (b*b*b*b)) as [L1 L2].
  pose proof (maximumD_R_ge (a*a*a*a) (b*b*b*b)) as [U1 U2].
  assert (Hsq : forall p q, 0 <= p <= q -> p*p <= q*q) by (intros; nra).
  destruct Hs.
  - assert (a*a <= x*x <= b*b) by nra.
    assert ((a*a)*(a*a) <= (x*x)*(x*x)) by (apply Hsq; nra).
    assert ((x*x)*(x*x) <= (b*b)*(b*b)) by (apply Hsq; nra).
    split; nra.
  - assert (b*b <= x*x <= a*a) by nra.
    assert ((b*b)*(b*b) <= (x*x)*(x*x)) by (apply Hsq; nra).
    assert ((x*x)*(x*x) <= (a*a)*(a*a)) by (apply Hsq; nra).
    split; nra.
Qed.

Lemma pow5_mono (x y : R) : x <= y -> x*x*x*x*x <= y*y*y*y*y.
Proof.
  intros H.
  assert (Hc := cube_mono x y H).
  destruct (Rle_dec 0 x) as [Hx|Hx].
  - assert (x*x <= y*y) by nra.
    assert (0 <= x*x*x) by (assert (0 <= x*x) by nra; nra).
    assert ((x*x*x)*(x*x) <= (y*y*y)*(y*y)) by (apply Rmult_le_compat; nra).
    nra.
  - destruct (Rle_dec 0 y) as [Hy|Hy].
    + assert (x*x*x <= 0) by (assert (0 <= x*x) by nra; nra).
      assert (0 <= y*y*y) by (assert (0 <= y*y) by nra; nra).
      assert ((x*x*x)*(x*x) <= 0) by nra.
      assert (0 <= (y*y*y)*(y*y)) by nra.
      nra.
    + assert (y*y <= x*x) by nra.
      assert (0 <= -(y*y*y)) by (assert (0 <= y*y) by nra; nra).
      assert ((-(y*y*y))*(y*y) <= (-(x*x*x))*(x*x)) by (apply Rmult_le_compat; nra).
      nra.
Qed.

Lemma pow6_bounds (x a b : R) :
  one_sided a b -> a <= x <= b ->
  minimumD (a*a*a*a*a*a) (b*b*b*b*b*b) <= x*x*x*x*x*x
    <= maximumD (a*a*a*a*a*a) (b*b*b*b*b*b).
Proof.
  intros Hs Hx.
  pose proof (minimumD_R_le (a*a*a*a*a*a) (b*b*b*b*b*b)) as [L1 L2].
  pose proof (maximumD_R_ge (a*a*a*a*a*a) (b*b*b*b*b*b)) as [U1 U2].
  assert (Hcu : forall p q, 0 <= p <= q -> p*p*p <= q*q*q)
    by (intros; apply cube_mono; lra).
  destruct Hs.
  - assert (a*a <= x*x <= b*b) by nra.
    assert ((a*a)*(a*a)*(a*a) <= (x*x)*(x*x)*(x*x)) by (apply Hcu; nra).
    assert ((x*x)*(x*x)*(x*x) <= (b*b)*(b*b)*(b*b)) by (apply Hcu; nra).
    split; nra.
  - assert (b*b <= x*x <= a*a) by nra.
    assert ((b*b)*(b*b)*(b*b) <= (x*x)*(x*x)*(x*x)) by (apply Hcu; nra).
    assert ((x*x)*(x*x)*(x*x) <= (a*a)*(a*a)*(a*a)) by (apply Hcu; nra).
    split; nra.
Qed.

End BoundingBoxReal.

Section BoundingBoxEnclosure.
Local Open Scope R_scope.

Lemma setCoeff_coeff (p : Polynom R) i c :
  coeff (setCoeff p i c) = <[i := c]> (coeff p).
Proof. unfold setCoeff. destruct (nltb _ _); reflexivity. Qed.

Lemma setCoeff_grad_small (p : Polynom R) i c :
  (i <= grad p)%nat -> grad (setCoeff p i c) = grad p.
Proof.
  intros H. unfold setCoeff. destruct (nltb _ _); cbn [grad]; [reflexivity|].
  destruct (Nat.ltb_spec (grad p) i); [lia | reflexivity].
Qed.

Lemma setCoeff_one d :
  setCoeff (clearCoeff (NTYP:=R)) d {| re := 1; im := 0 |} =
  {| grad := if (0 <? d)%nat then d else 0%nat;
     coeff := <[d := {| re := 1; im := 0 |}]> (replicate MAXDEGREE Czero);
     coeffnull := <[d := false]> (replicate MAXDEGREE true) |}.
Proof.
  unfold setCoeff.
  replace (nltb (normQ {| re := 1; im := 0 |}) COEFFZEROLIMIT) with false; [reflexivity|].
  unfold normQ, COEFFZEROLIMIT; cbn. unfold Rltb.
  destruct (Rlt_dec _ _) as [H|]; [exfalso | reflexivity].
  assert (HN : 1 <= IZR (10 ^ 40)) by (apply IZR_le; vm_compute; discriminate).
  assert (HI : IZR (10 ^ 40) * / IZR (10 ^ 40) = 1) by (apply Rinv_r; lra).
  assert (0 < / IZR (10 ^ 40)) by (apply Rinv_0_lt_compat; lra).
  unfold Rdiv in H. nra.
Qed.

Lemma setfunc_fkt_grad f cA cC : grad (setfunc_fkt f cA cC) = degree_of f.
Proof.
  destruct f; unfold setfunc_fkt; rewrite setCoeff_one;
    repeat (rewrite setCoeff_grad_small
              by (rewrite ?setCoeff_grad_small by (cbn; lia); cbn; lia));
    reflexivity.
Qed.

Lemma setfunc_fkt_coeff f cA cC :
  coeff (setfunc_fkt f cA cC) =
  let base := <[degree_of f := {| re := 1; im := 0 |}]> (replicate MAXDEGREE Czero) in
  <[0%nat := cC]> (match f with FUNC_Z2C => base | _ => <[1%nat := cA]> base end).
Proof.
  destruct f; unfold setfunc_fkt; rewrite !setCoeff_coeff; reflexivity.
Qed.

#[local] Arguments minimumD : simpl never.
#[local] Arguments maximumD : simpl never.
#[local] Arguments minimumD4 : simpl never.
#[local] Arguments maximumD4 : simpl never.

Ltac eval_poly :=
  unfold encloses, eval_arg_f; rewrite setfunc_fkt_grad;
  cbn [degree_of horner]; unfold coeff_at; rewrite !setfunc_fkt_coeff; cbn.

Lemma z2c_encloses s cA cC A z :
  seeds_cover s cA cC -> axis_free A -> in_rect A z ->
  encloses (getBoundingBoxfA_z2c s A) (eval_arg_f (setfunc_fkt FUNC_Z2C cA cC) z).
Proof.
  intros (Hcr & Hci & HAr & HAi) [Hsx Hsy] [Hx Hy].
  destruct z as [x y], A as [x0 x1 y0 y1], cC as [cr ci], cA as [ar ai], s as [c0r c1r c0i c1i fr fi];
    cbn in Hcr, Hci, HAr, HAi, Hsx, Hsy, Hx, Hy; subst fr fi.
  eval_poly.
  pose proof (sq_bounds x x0 x1 Hsx Hx) as (_ & ?).
  pose proof (sq_bounds y y0 y1 Hsy Hy) as (_ & ?).
  pose proof (interval_mul x y x0 x1 y0 y1 Hx Hy).
  repeat split; lra.
Qed.

Ltac open_rect z A cC cA s :=
  intros (Hcr & Hci & HAr & HAi) [Hsx Hsy] [Hx Hy];
  destruct z as [x y], A as [x0 x1 y0 y1], cC as [cr ci], cA as [ar ai],
           s as [c0r c1r c0i c1i fr fi];
  cbn in Hcr, Hci, HAr, HAi, Hsx, Hsy, Hx, Hy; subst;
  eval_poly.

Ltac scale_facts ar ai x y x0 x1 y0 y1 Hx Hy :=
  pose proof (scale2_bounds ar x x0 x1 Hx);
  pose proof (scale2_bounds ai y y0 y1 Hy);
  pose proof (scale2_bounds ar y y0 y1 Hy);
  pose proof (scale2_bounds ai x x0 x1 Hx);
  pose proof (interval_mul ar x ar ar x0 x1 (conj (Rle_refl ar) (Rle_refl ar)) Hx);
  pose proof (interval_mul ai y ai ai y0 y1 (conj (Rle_refl ai) (Rle_refl ai)) Hy);
  pose proof (interval_mul ar y ar ar y0 y1 (conj (Rle_refl ar) (Rle_refl ar)) Hy);
  pose proof (interval_mul ai x ai ai x0 x1 (conj (Rle_refl ai) (Rle_refl ai)) Hx).

Lemma z2azc_encloses s cA cC A z :
  seeds_cover s cA cC -> axis_free A -> in_rect A z ->
  encloses (getBoundingBoxfA_z2azc s A) (eval_arg_f (setfunc_fkt FUNC_Z2AZC cA cC) z).
Proof.
  open_rect z A cC cA s.
  scale_facts ar ai x y x0 x1 y0 y1 Hx Hy.
  pose proof (sq_bounds x x0 x1 Hsx Hx) as (_ & ?).
  pose proof (sq_bounds y y0 y1 Hsy Hy) as (_ & ?).
  pose proof (interval_mul x y x0 x1 y0 y1 Hx Hy).
  repeat split; lra.
Qed.

Lemma z3azc_encloses s cA cC A z :
  seeds_cover s cA cC -> axis_free A -> in_rect A z ->
  encloses (getBoundingBoxfA_z3azc s A) (eval_arg_f (setfunc_fkt FUNC_Z3AZC cA cC) z).
Proof.
  open_rect z A cC cA s.
  scale_facts ar ai x y x0 x1 y0 y1 Hx Hy.
  pose proof (sq_bounds x x0 x1 Hsx Hx) as (_ & HX2).
  pose proof (sq_bounds y y0 y1 Hsy Hy) as (_ & HY2).
  pose proof (cube_mono x0 x (proj1 Hx)). pose proof (cube_mono x x1 (proj2 Hx)).
  pose proof (cube_mono y0 y (proj1 Hy)). pose proof (cube_mono y y1 (proj2 Hy)).
  pose proof (interval_mul x (y*y) _ _ _ _ Hx HY2).
  pose proof (interval_mul (x*x) y _ _ _ _ HX2 Hy).
  repeat split; lra.
Qed.

Lemma z4azc_encloses s cA cC A z :
  seeds_cover s cA cC -> axis_free A -> in_rect A z ->
  encloses (getBoundingBoxfA_z4azc s A) (eval_arg_f (setfunc_fkt FUNC_Z4AZC cA cC) z).
Proof.
  open_rect z A cC cA s.
  scale_facts ar ai x y x0 x1 y0 y1 Hx Hy.
  pose proof (sq_bounds x x0 x1 Hsx Hx) as (_ & HX2).
  pose proof (sq_bounds y y0 y1 Hsy Hy) as (_ & HY2).
  pose proof (pow4_bounds x x0 x1 Hsx Hx).
  pose proof (pow4_bounds y y0 y1 Hsy Hy).
  assert (HX3 : x0*x0*x0 <= x*x*x <= x1*x1*x1) by (split; apply cube_mono; lra).
  assert (HY3 : y0*y0*y0 <= y*y*y <= y1*y1*y1) by (split; apply cube_mono; lra).
  pose proof (interval_mul (x*x) (y*y) _ _ _ _ HX2 HY2).
  pose proof (interval_mul (x*x*x) y _ _ _ _ HX3 Hy).
  pose proof (interval_mul x (y*y*y) _ _ _ _ Hx HY3).
  repeat split; lra.
Qed.

Lemma z5azc_encloses s cA cC A z :
  seeds_cover s cA cC -> axis_free A -> in_rect A z ->
  encloses (getBoundingBoxfA_z5azc s A) (eval_arg_f (setfunc_fkt FUNC_Z5AZC cA cC) z).
Proof.
  open_rect z A cC cA s.
  scale_facts ar ai x y x0 x1 y0 y1 Hx Hy.
  pose proof (sq_bounds x x0 x1 Hsx Hx) as (_ & HX2).
  pose proof (sq_bounds y y0 y1 Hsy Hy) as (_ & HY2).
  pose proof (pow4_bounds x x0 x1 Hsx Hx) as HX4.
  pose proof (pow4_bounds y y0 y1 Hsy Hy) as HY4.
  assert (HX3 : x0*x0*x0 <= x*x*x <= x1*x1*x1) by (split; apply cube_mono; lra).
  assert (HY3 : y0*y0*y0 <= y*y*y <= y1*y1*y1) by (split; apply cube_mono; lra).
  pose proof (pow5_mono x0 x (proj1 Hx)). pose proof (pow5_mono x x1 (proj2 Hx)).
  pose proof (pow5_mono y0 y (proj1 Hy)). pose proof (pow5_mono y y1 (proj2 Hy)).
  pose proof (interval_mul (x*x*x) (y*y) _ _ _ _ HX3 HY2).
  pose proof (interval_mul x (y*y*y*y) _ _ _ _ Hx HY4).
  pose proof (interval_mul (x*x*x*x) y _ _ _ _ HX4 Hy).
  pose proof (interval_mul (x*x) (y*y*y) _ _ _ _ HX2 HY3).
  repeat split; lra.
Qed.

Lemma z6azc_encloses s cA cC A z :
  seeds_cover s cA cC -> axis_free A -> in_rect A z ->
  encloses (getBoundingBoxfA_z6azc s A) (eval_arg_f (setfunc_fkt FUNC_Z6AZC cA cC) z).
Proof.
  open_rect z A cC cA s.
  scale_facts ar ai x y x0 x1 y0 y1 Hx Hy.
  pose proof (sq_bounds x x0 x1 Hsx Hx) as (_ & HX2).
  pose proof (sq_bounds y y0 y1 Hsy Hy) as (_ & HY2).
  pose proof (pow4_bounds x x0 x1 Hsx Hx) as HX4.
  pose proof (pow4_bounds y y0 y1 Hsy Hy) as HY4.
  pose proof (pow6_bounds x x0 x1 Hsx Hx).
  pose proof (pow6_bounds y y0 y1 Hsy Hy).
  assert (HX3 : x0*x0*x0 <= x*x*x <= x1*x1*x1) by (split; apply cube_mono; lra).
  assert (HY3 : y0*y0*y0 <= y*y*y <= y1*y1*y1) by (split; apply cube_mono; lra).
  assert (HX5 : x0*x0*x0*x0*x0 <= x*x*x*x*x <= x1*x1*x1*x1*x1)
    by (split; apply pow5_mono; lra).
  assert (HY5 : y0*y0*y0*y0*y0 <= y*y*y*y*y <= y1*y1*y1*y1*y1)
    by (split; apply pow5_mono; lra).
  pose proof (interval_mul (x*x*x*x) (y*y) _ _ _ _ HX4 HY2).
  pose proof (interval_mul (x*x) (y*y*y*y) _ _ _ _ HX2 HY4).
  pose proof (interval_mul (x*x*x*x*x) y _ _ _ _ HX5 Hy).
  pose proof (interval_mul (x*x*x) (y*y*y) _ _ _ _ HX3 HY3).
  pose proof (interval_mul x (y*y*y*y*y) _ _ _ _ Hx HY5).
  repeat split; lra.
Qed.

End BoundingBoxEnclosure.

(** ** Sums over integer ranges *)

Section Sums.

Lemma sum_list_fmap_le {A} (f g : A -> nat) (l : list A) :
  (forall x, x ∈ l -> (f x <= g x)%nat) ->
  (sum_list (f <$> l) <= sum_list (g <$> l))%nat.
Proof.
  induction l as [|a l IH]; intros H; cbn; [lia|].
  assert (f a <= g a)%nat by (apply H; left).
  assert (sum_list (f <$> l) <= sum_list (g <$> l))%nat
    by (apply IH; intros x Hx; apply H; right; exact Hx).
  lia.
Qed.

Lemma sum_list_fmap_lt {A} (f g : A -> nat) (l : list A) (a : A) :
  (forall x, x ∈ l -> (f x <= g x)%nat) -> a ∈ l -> (f a < g a)%nat ->
  (sum_list (f <$> l) < sum_list (g <$> l))%nat.
Proof.
  induction l as [|b l IH]; intros H Ha Hlt; [inversion Ha|].
  cbn. assert (f b <= g b)%nat by (apply H; left).
  assert (Hl : forall x, x ∈ l -> (f x <= g x)%nat) by (intros x Hx; apply H; right; exact Hx).
  apply elem_of_cons in Ha as [->|Ha].
  - pose proof (sum_list_fmap_le f g l Hl). lia.
  - pose proof (IH Hl Ha Hlt). lia.
Qed.

Lemma sum_range_le lo len (f g : Z -> nat) :
  (forall i, lo <= i < lo + len -> (f i <= g i)%nat) ->
  (sum_range lo len f <= sum_range lo len g)%nat.
Proof.
  intros H. apply sum_list_fmap_le. intros x Hx. apply H.
  apply elem_of_seqZ in Hx. lia.
Qed.

Lemma sum_range_lt lo len (f g : Z -> nat) (a : Z) :
  (forall i, lo <= i < lo + len -> (f i <= g i)%nat) ->
  lo <= a < lo + len -> (f a < g a)%nat ->
  (sum_range lo len f < sum_range lo len g)%nat.
Proof.
  intros H Ha Hlt. apply (sum_list_fmap_lt f g _ a); [|apply elem_of_seqZ; lia|exact Hlt].
  intros x Hx. apply H. apply elem_of_seqZ in Hx. lia.
Qed.

Lemma sum_range_ext lo len (f g : Z -> nat) :
  (forall i, lo <= i < lo + len -> f i = g i) ->
  sum_range lo len f = sum_range lo len g.
Proof.
  intros H. apply Nat.le_antisymm; apply sum_range_le; intros i Hi; rewrite (H i Hi); lia.
Qed.

Lemma sum_range_plus lo len (f g : Z -> nat) :
  sum_range lo len (fun i => (f i + g i)%nat) = (sum_range lo len f + sum_range lo len g)%nat.
Proof.
  unfold sum_range. induction (seqZ lo len) as [|a l IH]; cbn; [reflexivity|].
  rewrite IH. lia.
Qed.

Lemma sum_range_bound lo len (f : Z -> nat) (c : nat) :
  (forall i, lo <= i < lo + len -> (f i <= c)%nat) ->
  (sum_range lo len f <= Z.to_nat len * c)%nat.
Proof.
  intros H. unfold sum_range.
  assert (Hl : forall x, x ∈ seqZ lo len -> (f x <= c)%nat)
    by (intros x Hx; apply H; apply elem_of_seqZ in Hx; lia).
  assert (Hlen : length (seqZ lo len) = Z.to_nat len) by apply length_seqZ.
  revert Hl Hlen. generalize (Z.to_nat len). induction (seqZ lo len) as [|a l IH]; intros n Hl Hlen.
  - cbn. lia.
  - cbn in *. destruct n as [|n]; [discriminate|].
    assert (f a <= c)%nat by (apply Hl; left).
    assert (sum_list (f <$> l) <= n * c)%nat.
    { apply IH; [intros x Hx; apply Hl; right; exact Hx | lia]. }
    lia.
Qed.

Lemma sum_range_zero lo len (f : Z -> nat) :
  (forall i, lo <= i < lo + len -> f i = 0%nat) -> sum_range lo len f = 0%nat.
Proof.
  intros H. pose proof (sum_range_bound lo len f 0 (fun i Hi => eq_ind_r (fun n => (n <= 0)%nat) (Nat.le_refl 0) (H i Hi))).
  lia.
Qed.

End Sums.

(** ** Bits of a word *)

Section Bits.

Lemma land_1_testbit (x : Z) : Z.land x 1 = Z.b2z (Z.testbit x 0).
Proof.
  change 1 with (Z.ones 1). rewrite Z.land_ones by lia.
  rewrite Z.bit0_mod. reflexivity.
Qed.

Lemma testbit_lor_shiftl (w bit i : Z) :
  0 <= bit ->
  Z.testbit (Z.lor w (Z.shiftl 1 bit)) i = Z.testbit w i || (i =? bit).
Proof.
  intros Hb. rewrite Z.lor_spec. f_equal.
  rewrite Z.shiftl_1_l.
  destruct (Z.eqb_spec i bit) as [->|Hne].
  - apply Z.pow2_bits_true; lia.
  - apply Z.pow2_bits_false; congruence.
Qed.

Lemma zeros32_le (w w' : DDBYTE) :
  (forall bit, 0 <= bit < 32 -> is_potw w bit = true -> is_potw w' bit = true) ->
  (zeros32 w' <= zeros32 w)%nat.
Proof.
  intros H. apply sum_range_le. intros i Hi.
  specialize (H i ltac:(lia)).
  destruct (is_potw w i), (is_potw w' i); try lia; discriminate (H eq_refl).
Qed.

Lemma zeros32_lt (w w' : DDBYTE) (b : Z) :
  (forall bit, 0 <= bit < 32 -> is_potw w bit = true -> is_potw w' bit = true) ->
  0 <= b < 32 -> is_potw w b = false -> is_potw w' b = true ->
  (zeros32 w' < zeros32 w)%nat.
Proof.
  intros H Hb H0 H1. apply (sum_range_lt _ _ _ _ b); [|lia|rewrite H0, H1; lia].
  intros i Hi. specialize (H i ltac:(lia)).
  destruct (is_potw w i), (is_potw w' i); try lia; discriminate (H eq_refl).
Qed.

Lemma zeros32_bound (w : DDBYTE) : (zeros32 w <= 32)%nat.
Proof.
  unfold zeros32.
  pose proof (sum_range_bound 0 32 (fun bit => if is_potw w bit then 0%nat else 1%nat) 1) as H.
  cbn in H. apply H. intros i _. destruct (is_potw w i); lia.
Qed.

Lemma zeros32_ALL32POTW : zeros32 ALL32POTW = 0%nat.
Proof. reflexivity. Qed.

End Bits.

(** ** Loops in the outcome monad *)

Section Loops.
Context {S : Type}.

Lemma for_range_total (I : S -> Prop) (R : S -> S -> Prop)
    (body : Z -> S -> outcome S) n i s :
  (forall s, R s s) -> (forall a b c, R a b -> R b c -> R a c) ->
  (forall j s, i <= j < i + Z.of_nat n -> I s ->
     exists s', body j s = Ret s' /\ I s' /\ R s s') ->
  I s -> exists s', for_range n i body s = Ret s' /\ I s' /\ R s s'.
Proof.
  intros Hrefl Htrans. revert i s. induction n as [|n IH]; intros i s Hbody Hs.
  - exists s. cbn. auto.
  - cbn [for_range]. destruct (Hbody i s ltac:(lia) Hs) as (s1 & -> & Hs1 & HR1).
    cbn [obind].
    destruct (IH (i + 1) s1) as (s2 & E2 & Hs2 & HR2); [|assumption|].
    + intros j s0 Hj. apply Hbody. lia.
    + exists s2. eauto.
Qed.

Lemma for_upto_total (I : S -> Prop) (R : S -> S -> Prop)
    (body : Z -> S -> outcome S) lo hi s :
  (forall s, R s s) -> (forall a b c, R a b -> R b c -> R a c) ->
  (forall j s, lo <= j <= hi -> I s ->
     exists s', body j s = Ret s' /\ I s' /\ R s s') ->
  I s -> exists s', for_upto lo hi body s = Ret s' /\ I s' /\ R s s'.
Proof.
  intros Hrefl Htrans Hbody Hs. unfold for_upto.
  apply for_range_total; auto. intros j s0 Hj. apply Hbody. lia.
Qed.

Lemma for_range_partial (I : S -> Prop) (R : S -> S -> Prop)
    (body : Z -> S -> outcome S) n i s s' :
  (forall s, R s s) -> (forall a b c, R a b -> R b c -> R a c) ->
  (forall j s s', i <= j < i + Z.of_nat n -> I s -> body j s = Ret s' -> I s' /\ R s s') ->
  I s -> for_range n i body s = Ret s' -> I s' /\ R s s'.
Proof.
  intros Hrefl Htrans. revert i s. induction n as [|n IH]; intros i s Hbody Hs E.
  - cbn in E. injection E as <-. auto.
  - cbn [for_range] in E. destruct (body i s) as [s1| | |] eqn:E1; try discriminate.
    cbn [obind] in E.
    destruct (Hbody i s s1 ltac:(lia) Hs E1) as [Hs1 HR1].
    destruct (IH (i + 1) s1) as [Hs2 HR2]; auto.
    + intros j s0 s0' Hj. apply Hbody. lia.
    + eauto.
Qed.

Lemma for_upto_partial (I : S -> Prop) (R : S -> S -> Prop)
    (body : Z -> S -> outcome S) lo hi s s' :
  (forall s, R s s) -> (forall a b c, R a b -> R b c -> R a c) ->
  (forall j s s', lo <= j <= hi -> I s -> body j s = Ret s' -> I s' /\ R s s') ->
  I s -> for_upto lo hi body s = Ret s' -> I s' /\ R s s'.
Proof.
  intros Hrefl Htrans Hbody Hs. unfold for_upto.
  apply for_range_partial; auto. intros j s0 s0' Hj. apply Hbody. lia.
Qed.

End Loops.

Lemma any_range_true n i hit :
  any_range n i hit = true <-> exists j, i <= j < i + Z.of_nat n /\ hit j = true.
Proof.
  revert i. induction n as [|n IH]; intros i; cbn.
  - split; [discriminate | intros (j & Hj & _); lia].
  - destruct (hit i) eqn:Hi.
    + split; [intros _; exists i; split; [lia|assumption] | reflexivity].
    + rewrite IH. split; intros (j & Hj & Hh).
      * exists j. split; [lia|assumption].
      * exists j. split; [|assumption].
        destruct (Z.eq_dec j i) as [->|]; [congruence | lia].
Qed.

Lemma any_upto_true lo hi hit :
  any_upto lo hi hit = true <-> exists j, lo <= j <= hi /\ hit j = true.
Proof.
  unfold any_upto. rewrite any_range_true.
  split; intros (j & Hj & Hh); exists j; (split; [lia|assumption]).
Qed.

(** Boolean range tests to linear arithmetic. *)
Ltac bools :=
  repeat match goal with
         | H : _ && _ = true |- _ => apply andb_prop in H; destruct H
         | H : _ && _ = false |- _ => apply andb_false_iff in H; destruct H
         | H : (_ >=? _) = true |- _ => apply Z.geb_le in H
         | H : (_ <=? _) = true |- _ => apply Z.leb_le in H
         | H : (_ >? _) = true |- _ => apply Z.gtb_lt in H
         | H : (_ <? _) = true |- _ => apply Z.ltb_lt in H
         | H : (_ =? _) = true |- _ => apply Z.eqb_eq in H
         | H : (_ >=? _) = false |- _ => rewrite Z.geb_leb in H; apply Z.leb_gt in H
         | H : (_ <=? _) = false |- _ => apply Z.leb_gt in H
         | H : (_ >? _) = false |- _ => rewrite Z.gtb_ltb in H; apply Z.ltb_ge in H
         | H : (_ <? _) = false |- _ => apply Z.ltb_ge in H
         | H : (_ =? _) = false |- _ => apply Z.eqb_neq in H
         end.

(** ** Reading and writing the grid *)

Section GridAccess.
Context {NTYP : Type} {ops : NTYP_ops NTYP}.
Implicit Types (lv : Level NTYP) (st : Store).

Lemma load_store_same h p k v : load_word (store_word h p k v) p k = v.
Proof. unfold load_word, store_word. rewrite lookup_insert_eq. reflexivity. Qed.

Lemma load_store_other h p k v q k' :
  ptr_add p k <> ptr_add q k' -> load_word (store_word h p k v) q k' = load_word h q k'.
Proof. intros H. unfold load_word, store_word. rewrite lookup_insert_ne by exact H. reflexivity. Qed.

Lemma ptr_add_disjoint p q len k k' :
  ranges_disjoint p len q len -> 0 <= k < len -> 0 <= k' < len ->
  ptr_add p k <> ptr_add q k'.
Proof.
  intros [H|[H|H]] Hk Hk'; unfold ptr_add; intros E; injection E as E1 E2;
    [contradiction | lia | lia].
Qed.

Lemma GET32_MY_ext lv st st' M Y :
  heap st' = heap st -> ispotwY st' = ispotwY st ->
  GET32_MY lv st' M Y = GET32_MY lv st M Y.
Proof. intros Hh Hp. unfold GET32_MY, row_ptr. rewrite Hh, Hp. reflexivity. Qed.

Lemma GET32_MY_gray_row lv st M Y :
  GET32_MY lv st M Y <> ALL32POTW ->
  (mem0 lv <= M <= mem1 lv) /\
  (sy0 (enclosementall lv) <= Y <= sy1 (enclosementall lv)) /\
  is_Some (row_ptr lv st Y).
Proof.
  unfold GET32_MY. intros H.
  destruct (_ && _) eqn:EY; [|contradiction].
  destruct (row_ptr lv st Y) as [p|]; [|contradiction].
  destruct ((M >=? mem0 lv) && _) eqn:EM; [|contradiction].
  bools. repeat split; try eauto; lia.
Qed.

Lemma SET32_MY_total lv st M Y v :
  mem0 lv <= M <= mem1 lv ->
  sy0 (enclosementall lv) <= Y <= sy1 (enclosementall lv) ->
  is_Some (row_ptr lv st Y) ->
  exists st', SET32_MY lv st M Y v = Ret st'.
Proof.
  intros HM HY [p Hp]. unfold SET32_MY.
  replace (_ && _ && _ && _) with true by (symmetry; repeat (apply andb_true_intro; split); lia).
  rewrite Hp. eauto.
Qed.

Lemma SET32_MY_frame lv st M Y v st' :
  SET32_MY lv st M Y v = Ret st' ->
  ispotwY st' = ispotwY st /\ ywithgray st' = ywithgray st /\
  (mem0 lv <= M <= mem1 lv) /\
  (sy0 (enclosementall lv) <= Y <= sy1 (enclosementall lv)).
Proof.
  unfold SET32_MY. destruct (_ && _ && _ && _) eqn:E; [|discriminate].
  destruct (row_ptr lv st Y); [|discriminate]. intros [= <-]. cbn.
  bools. repeat split; lia.
Qed.

Lemma SET32_MY_ok lv st M Y v st' :
  store_ok lv st -> SET32_MY lv st M Y v = Ret st' -> store_ok lv st'.
Proof.
  intros [H1 H2 H3] E. destruct (SET32_MY_frame _ _ _ _ _ _ E) as (Hp & Hy & _).
  split; rewrite ?Hp, ?Hy; assumption.
Qed.

Lemma GET32_MY_SET32_MY lv st M Y v st' M' Y' :
  store_ok lv st -> SET32_MY lv st M Y v = Ret st' ->
  GET32_MY lv st' M' Y' =
    if decide (M' = M /\ Y' = Y) then v else GET32_MY lv st M' Y'.
Proof.
  intros Hok E. pose proof (SET32_MY_frame _ _ _ _ _ _ E) as (Hp & _ & HM & HY).
  unfold SET32_MY in E. destruct (_ && _ && _ && _) eqn:EE; [|discriminate].
  destruct (row_ptr lv st Y) as [p|] eqn:Erow; [|discriminate].
  injection E as <-. unfold GET32_MY, row_ptr in *. cbn [heap ispotwY].
  destruct ((Y' >=? _) && _) eqn:EY'.
  2:{ case_decide as Hd; [|reflexivity]. destruct Hd as [-> ->]. bools; lia. }
  destruct (mjoin (ispotwY st !! Z.to_nat (Y' - _))) as [q|] eqn:Erow'.
  2:{ case_decide as Hd; [|reflexivity]. destruct Hd as [-> ->]. congruence. }
  destruct ((M' >=? _) && _) eqn:EM'.
  2:{ case_decide as Hd; [|reflexivity]. destruct Hd as [-> ->]. bools; lia. }
  bools. case_decide as Hd.
  - destruct Hd as [-> ->]. rewrite Erow in Erow'. injection Erow' as ->.
    apply load_store_same.
  - apply load_store_other.
    destruct (Z.eq_dec Y' Y) as [->|HneY].
    + rewrite Erow in Erow'. injection Erow' as ->.
      unfold ptr_add. intros [= ?]. apply Hd. split; [lia|reflexivity].
    + apply (ptr_add_disjoint _ _ (LOCALLENX lv)); unfold LOCALLENX; try lia.
      destruct (ispotwY st !! Z.to_nat (Y - _)) as [[p'|]|] eqn:E1; try discriminate.
      destruct (ispotwY st !! Z.to_nat (Y' - _)) as [[q'|]|] eqn:E2; try discriminate.
      cbn in Erow, Erow'. injection Erow as ->. injection Erow' as ->.
      eapply (ok_disjoint _ _ Hok); [unfold LOCALLENX; lia| |exact E1|exact E2]. lia.
Qed.

End GridAccess.

(** ** One sweep: progress and monotonicity *)

Section SweepProps.
Context {NTYP : Type} {ops : NTYP_ops NTYP}.
Variable G : Globals NTYP.
Implicit Types (lv : Level NTYP) (st : Store).

Lemma bit_body_inv lv st m y ff0 k b :
  0 <= k -> bits_inv ff0 k b -> bits_inv ff0 (k + 1) (bit_body G lv st m y k b).
Proof.
  intros Hk [Hff Hmono Hch]. unfold bit_body.
  rewrite land_1_testbit, Hff, Z.shiftr_spec by lia. rewrite Z.add_0_l.
  rewrite Z.shiftr_shiftr by lia.
  destruct (Z.testbit ff0 k) eqn:Hbit; cbn [Z.b2z].
  - change (1 =? SQUARE_POTW) with true. cbn iota.
    split; cbn; [reflexivity | assumption |].
    destruct Hch as [?|(? & i & ? & ?)]; [left; assumption|right].
    split; [assumption|]. exists i. split; [lia|assumption].
  - change (0 =? SQUARE_POTW) with false. cbn iota.
    destruct (cell_escapes G lv st _ y).
    + split; cbn; [reflexivity | |].
      * intros i Hi. rewrite testbit_lor_shiftl by lia. rewrite (Hmono i Hi). reflexivity.
      * right. split; [reflexivity|]. exists k. split; [lia|]. split; [assumption|].
        rewrite testbit_lor_shiftl by lia. rewrite Z.eqb_refl. apply orb_true_r.
    + split; cbn; [reflexivity | assumption |].
      destruct Hch as [?|(? & i & ? & ?)]; [left; assumption|right].
      split; [assumption|]. exists i. split; [lia|assumption].
Qed.

Lemma bit_loop_inv lv st m y ff0 n k b :
  0 <= k -> bits_inv ff0 k b ->
  bits_inv ff0 (k + Z.of_nat n) (bit_loop G lv st m y n k b).
Proof.
  revert k b. induction n as [|n IH]; intros k b Hk Hinv.
  - cbn. rewrite Z.add_0_r. assumption.
  - cbn [bit_loop]. replace (k + Z.of_nat (S n)) with ((k + 1) + Z.of_nat n) by lia.
    apply IH; [lia|]. apply bit_body_inv; assumption.
Qed.

Lemma bit_loop_word lv st m y ff0 g :
  bits_inv ff0 32
    (bit_loop G lv st m y 32 0 {| ff := ff0; fneu := ff0; fchanged := 0; graythere := g |}).
Proof.
  change 32 with (0 + Z.of_nat 32) at 1. apply bit_loop_inv; [lia|].
  split; cbn; [rewrite Z.shiftr_0_r; reflexivity | auto | left; auto].
Qed.

Lemma gray_bits_same lv st st' : same_grid lv st st' -> gray_bits lv st' = gray_bits lv st.
Proof.
  intros H. unfold gray_bits. apply sum_range_ext. intros y _.
  apply sum_range_ext. intros m _. rewrite H. reflexivity.
Qed.

Lemma potw_subset_refl lv st : potw_subset lv st st.
Proof. intros m y b H. exact H. Qed.

Lemma potw_subset_trans lv st1 st2 st3 :
  potw_subset lv st1 st2 -> potw_subset lv st2 st3 -> potw_subset lv st1 st3.
Proof. intros H1 H2 m y b H. apply H2, H1, H. Qed.

Lemma gray_bits_mono lv st st' :
  potw_subset lv st st' -> (gray_bits lv st' <= gray_bits lv st)%nat.
Proof.
  intros H. unfold gray_bits. apply sum_range_le. intros y _.
  apply sum_range_le. intros m _. apply zeros32_le. intros b _. apply H.
Qed.

Lemma flips_gray_bits lv st st' :
  potw_subset lv st st' ->
  (flips lv st st' + gray_bits lv st' = gray_bits lv st)%nat.
Proof.
  intros H. unfold flips, gray_bits.
  rewrite <- sum_range_plus. apply sum_range_ext. intros y _.
  rewrite <- sum_range_plus. apply sum_range_ext. intros m _.
  unfold zeros32. rewrite <- sum_range_plus. apply sum_range_ext. intros b _.
  specialize (H m y b).
  destruct (is_potw (GET32_MY lv st m y) b), (is_potw (GET32_MY lv st' m y) b);
    cbn; try reflexivity. discriminate (H eq_refl).
Qed.

Lemma progress_refl lv st ch : progress lv st ch st ch.
Proof.
  split; [reflexivity | apply potw_subset_refl | left; split; [reflexivity|intros ? ?; reflexivity]].
Qed.

Lemma progress_trans lv st1 c1 st2 c2 st3 c3 :
  progress lv st1 c1 st2 c2 -> progress lv st2 c2 st3 c3 -> progress lv st1 c1 st3 c3.
Proof.
  intros [R1 S1 C1] [R2 S2 C2]. split.
  - congruence.
  - eapply potw_subset_trans; eassumption.
  - destruct C2 as [[-> E2]|[-> L2]].
    + destruct C1 as [[-> E1]|[-> L1]].
      * left. split; [reflexivity|]. intros M Y. rewrite E2, E1. reflexivity.
      * right. split; [reflexivity|]. rewrite (gray_bits_same _ _ _ E2). exact L1.
    + right. split; [reflexivity|]. pose proof (gray_bits_mono _ _ _ S1). lia.
Qed.

Lemma word_body_spec lv y m st ch g :
  store_ok lv st ->
  exists st' ch' g',
    word_body G lv y m (st, ch, g) = Ret (st', ch', g') /\
    store_ok lv st' /\ progress lv st ch st' ch'.
Proof.
  intros Hok. unfold word_body.
  destruct (GET32_MY lv st m y =? ALL32POTW) eqn:Epotw.
  { do 3 eexists. split; [reflexivity|]. split; [assumption|apply progress_refl]. }
  apply Z.eqb_neq in Epotw.
  pose proof (bit_loop_word lv st m y (GET32_MY lv st m y) g) as [_ Hmono Hch].
  set (b := bit_loop _ _ _ _ _ _ _ _) in *.
  destruct (fchanged b >? 0) eqn:Ech.
  2:{ do 3 eexists. split; [reflexivity|]. split; [assumption|apply progress_refl]. }
  destruct Hch as [[Hz _]|(_ & i & Hi & Hi0 & Hi1)]; [rewrite Hz in Ech; discriminate|].
  destruct (GET32_MY_gray_row _ _ _ _ Epotw) as (HM & HY & Hrow).
  destruct (SET32_MY_total lv st m y (fneu b) HM HY Hrow) as (st' & Eset).
  rewrite Eset. cbn [obind]. do 3 eexists. split; [reflexivity|].
  pose proof (SET32_MY_frame _ _ _ _ _ _ Eset) as (Hp & _).
  assert (Hget : forall M Y, GET32_MY lv st' M Y =
            if decide (M = m /\ Y = y) then fneu b else GET32_MY lv st M Y)
    by (intros; eapply GET32_MY_SET32_MY; eassumption).
  assert (Hsub : potw_subset lv st st').
  { intros M Y bit Hb. rewrite Hget. case_decide as Hd; [|exact Hb].
    destruct Hd as [-> ->]. apply Hmono, Hb. }
  split; [eapply SET32_MY_ok; eassumption|].
  split; [exact Hp | exact Hsub |]. right. split; [reflexivity|].
  unfold gray_bits, LOCALLENY, LOCALLENX.
  apply (sum_range_lt _ _ _ _ y); [|lia|].
  - intros Y _. apply sum_range_le. intros M _. apply zeros32_le. intros bit _. apply Hsub.
  - apply (sum_range_lt _ _ _ _ m); [|lia|].
    + intros M _. apply zeros32_le. intros bit _. apply Hsub.
    + apply (zeros32_lt _ _ i); [intros bit _; apply Hsub | lia | exact Hi0 |].
      rewrite Hget. rewrite decide_True by auto. exact Hi1.
Qed.

Lemma row_body_spec lv y st ch :
  store_ok lv st ->
  exists st' ch',
    row_body G lv y (st, ch) = Ret (st', ch') /\
    store_ok lv st' /\ progress lv st ch st' ch'.
Proof.
  intros Hok. unfold row_body.
  destruct (_ <=? 0) eqn:Eflag.
  { do 2 eexists. split; [reflexivity|]. split; [assumption|apply progress_refl]. }
  destruct (for_upto_total
              (fun s : Store * Z * Z => store_ok lv s.1.1)
              (fun s s' : Store * Z * Z => progress lv s.1.1 s.1.2 s'.1.1 s'.1.2)
              (word_body G lv y) (mem0 lv) (mem1 lv) (st, ch, 0))
    as ([[st1 ch1] g1] & E & Hok1 & Hpr1).
  - intros s. apply progress_refl.
  - intros a b c. apply progress_trans.
  - intros m [[s c] g] _ Hs. cbn in Hs.
    destruct (word_body_spec lv y m s c g Hs) as (s' & c' & g' & E & Hs' & Hp).
    exists (s', c', g'). auto.
  - exact Hok.
  - rewrite E. cbn [obind]. cbn in Hok1, Hpr1.
    do 2 eexists. split; [reflexivity|].
    destruct (g1 <=? 0); [|split; assumption].
    destruct Hok1 as [H1 H2 H3]. split.
    + split; cbn; [assumption | rewrite length_insert; assumption | assumption].
    + eapply progress_trans; [exact Hpr1|].
      split; cbn; [reflexivity | intros M Y b Hb; exact Hb |].
      left. split; [reflexivity|]. intros M Y. reflexivity.
Qed.

Lemma sweep_spec lv st :
  store_ok lv st ->
  exists st' ch,
    sweep G lv st = Ret (st', ch) /\ store_ok lv st' /\ progress lv st 0 st' ch.
Proof.
  intros Hok. unfold sweep.
  destruct (for_upto_total
              (fun s : Store * Z => store_ok lv s.1)
              (fun s s' : Store * Z => progress lv s.1 s.2 s'.1 s'.2)
              (row_body G lv) (sy0 (enclosementall lv)) (sy1 (enclosementall lv)) (st, 0))
    as ([st1 ch1] & E & Hok1 & Hpr1).
  - intros s. apply progress_refl.
  - intros a b c. apply progress_trans.
  - intros y [s c] _ Hs. cbn in Hs.
    destruct (row_body_spec lv y s c Hs) as (s' & c' & E & Hs' & Hp).
    exists (s', c'). auto.
  - exact Hok.
  - exists st1, ch1. auto.
Qed.

End SweepProps.

(** ** The propagation loop terminates *)

Section Termination.
Context {NTYP : Type} {ops : NTYP_ops NTYP}.
Variable G : Globals NTYP.
Implicit Types (lv : Level NTYP) (st : Store).

Lemma sweeps_exist lv n st :
  store_ok lv st -> (gray_bits lv st < n)%nat ->
  exists tr st',
    sweeps_to G lv st tr st' /\ store_ok lv st' /\ potw_subset lv st st' /\
    ispotwY st' = ispotwY st /\
    (total_flips lv st tr + gray_bits lv st' = gray_bits lv st)%nat /\
    (length tr <= gray_bits lv st)%nat.
Proof.
  revert st. induction n as [|n IH]; intros st Hok Hn; [lia|].
  destruct (sweep_spec G lv st Hok) as (st1 & ch & E & Hok1 & [Hrows Hsub Hch]).
  destruct Hch as [[-> Hsame]|[-> Hlt]].
  - exists [], st1. split; [constructor; exact E|].
    split; [assumption|]. split; [assumption|]. split; [assumption|].
    cbn. rewrite (gray_bits_same _ _ _ Hsame). lia.
  - destruct (IH st1 Hok1 ltac:(lia)) as (tr & st' & Hrun & Hok' & Hsub' & Hrows' & Hsum & Hlen).
    exists (st1 :: tr), st'. split; [econstructor; [exact E|lia|exact Hrun]|].
    split; [assumption|]. split; [eapply potw_subset_trans; eassumption|].
    split; [congruence|].
    pose proof (flips_gray_bits lv st st1 Hsub). cbn [total_flips length]. lia.
Qed.

Lemma sweeps_to_while lv st tr st' :
  sweeps_to G lv st tr st' ->
  forall fuel, (length tr < fuel)%nat -> while_changed G fuel lv st = Ret st'.
Proof.
  induction 1 as [st st' E|st st1 ch tr st' E Hch Hrun IH]; intros fuel Hf.
  - destruct fuel as [|fuel]; [cbn in Hf; lia|]. cbn. rewrite E. reflexivity.
  - destruct fuel as [|fuel]; [cbn in Hf; lia|]. cbn [while_changed]. rewrite E. cbn [obind].
    replace (ch >? 0) with true by (symmetry; apply Z.gtb_lt; lia).
    apply IH. cbn in Hf. lia.
Qed.

Lemma while_changed_sweeps lv fuel st st' :
  store_ok lv st ->
  while_changed G fuel lv st = Ret st' -> exists tr, sweeps_to G lv st tr st'.
Proof.
  revert st. induction fuel as [|fuel IH]; intros st Hok E; [discriminate|].
  cbn [while_changed] in E.
  destruct (sweep_spec G lv st Hok) as (st1 & ch & Es & Hok1 & [_ _ Hc]).
  rewrite Es in E. cbn [obind] in E. destruct (ch >? 0) eqn:Ech.
  - destruct (IH _ Hok1 E) as (tr & Hrun). exists (st1 :: tr).
    econstructor; [exact Es | apply Z.gtb_lt in Ech; lia | exact Hrun].
  - injection E as <-. exists [].
    destruct Hc as [[-> _]|[-> _]]; [constructor; exact Es | discriminate].
Qed.

Lemma sweeps_to_facts lv st tr st' :
  store_ok lv st -> sweeps_to G lv st tr st' ->
  store_ok lv st' /\ potw_subset lv st st' /\ ispotwY st' = ispotwY st /\
  (total_flips lv st tr + gray_bits lv st' = gray_bits lv st)%nat.
Proof.
  intros Hok Hrun. revert Hok.
  induction Hrun as [st st' E|st st1 ch tr st' E Hch Hrun IH]; intros Hok.
  - destruct (sweep_spec G lv st Hok) as (s & c & E' & Hok' & [Hrows Hsub Hc]).
    assert (Hs : s = st' /\ c = 0) by (rewrite E in E'; injection E'; auto).
    destruct Hs; subst s c.
    destruct Hc as [[_ Hsame]|[? _]]; [|discriminate].
    split; [assumption|]. split; [assumption|]. split; [assumption|].
    cbn. rewrite (gray_bits_same _ _ _ Hsame). lia.
  - destruct (sweep_spec G lv st Hok) as (s & c & E' & Hok' & [Hrows Hsub Hc]).
    assert (Hs : s = st1 /\ c = ch) by (rewrite E in E'; injection E'; auto).
    destruct Hs; subst s c.
    destruct (IH Hok') as (Hok'' & Hsub' & Hrows' & Hsum).
    split; [assumption|]. split; [eapply potw_subset_trans; eassumption|].
    split; [congruence|].
    pose proof (flips_gray_bits lv st st1 Hsub). cbn [total_flips]. lia.
Qed.

(** GRAY bits only live in rows that have memory. *)
Lemma row_sum_bound (c : nat) (l : list (option PDDBYTE)) (lo : Z) (f : Z -> nat) :
  (forall y, lo <= y < lo + Z.of_nat (length l) ->
     (f y <= if l !! Z.to_nat (y - lo) is Some (Some _) then c else 0)%nat) ->
  (sum_range lo (Z.of_nat (length l)) f <= c * length (filter is_Some l))%nat.
Proof.
  revert lo. induction l as [|r l IH]; intros lo H.
  - unfold sum_range. rewrite seqZ_nil by (cbn; lia). cbn. lia.
  - unfold sum_range. rewrite seqZ_cons by (cbn; lia).
    cbn [fmap list_fmap sum_list].
    replace (Z.pred (Z.of_nat (length (r :: l)))) with (Z.of_nat (length l)) by (cbn; lia).
    assert (Hr : (f lo <= if r is Some _ then c else 0)%nat).
    { specialize (H lo ltac:(cbn; lia)). replace (lo - lo) with 0 in H by lia. exact H. }
    assert (Hl : (sum_range (Z.succ lo) (Z.of_nat (length l)) f <= c * length (filter is_Some l))%nat).
    { apply IH. intros y Hy. specialize (H y ltac:(cbn; lia)).
      replace (Z.to_nat (y - lo)) with (S (Z.to_nat (y - Z.succ lo))) in H by lia.
      exact H. }
    unfold sum_range in Hl.
    rewrite filter_cons. change (Datatypes.id (f lo)) with (f lo).
    destruct r as [p|]; destruct (decide _) as [Hd|Hd]; cbn [length];
      rewrite ?Nat.mul_succ_r; try lia;
      first [ exfalso; apply Hd; eauto | destruct Hd as [? Hd]; discriminate Hd ].
Qed.

Lemma gray_bits_allocated lv st :
  store_ok lv st -> (gray_bits lv st <= allocated_bits lv st)%nat.
Proof.
  intros [Hrows _ _]. unfold gray_bits, allocated_bits, allocated_rows.
  destruct (Z_lt_le_dec (LOCALLENY lv) 0) as [Hneg|Hpos].
  { unfold sum_range. rewrite (seqZ_nil (sy0 (enclosementall lv)) (LOCALLENY lv)) by lia.
    apply Nat.le_0_l. }
  replace (LOCALLENY lv) with (Z.of_nat (length (ispotwY st))) by lia.
  apply row_sum_bound. intros y Hy.
  destruct (ispotwY st !! Z.to_nat (y - _)) as [[p|]|] eqn:E.
  - rewrite Nat.mul_comm. apply sum_range_bound. intros m _. apply zeros32_bound.
  - rewrite sum_range_zero; [lia|]. intros m _.
    unfold GET32_MY, row_ptr. rewrite E. cbn. destruct (_ && _); reflexivity.
  - rewrite sum_range_zero; [lia|]. intros m _.
    unfold GET32_MY, row_ptr. rewrite E. cbn. destruct (_ && _); reflexivity.
Qed.

End Termination.

(** ** The arena: ranges handed out between two [FreeAll] do not overlap *)

Section Arena.
Implicit Types (mgr : ArrayDDByteManager) (p q : PDDBYTE).

Lemma getMemory_spec mgr a p mgr' :
  mgr_wf mgr -> 0 <= a -> getMemory mgr a = Ret (p, mgr') ->
  mgr_wf mgr' /\ fresh_for mgr p /\
  allocatePerBlock mgr' = allocatePerBlock mgr /\
  current mgr' = Some p.1 /\ S p.1 = anzptr mgr' /\ p.2 + a = freeFromIdx mgr' /\
  (a <= allocatePerBlock mgr -> p.2 + a <= allocatePerBlock mgr) /\
  (forall q, fresh_for mgr' q -> fresh_for mgr q).
Proof.
  intros Hwf Ha E. unfold getMemory in E.
  destruct (_ >=? _); [discriminate|].
  unfold mgr_wf in Hwf.
  assert (Hfresh_case :
    forall q, 0 <= q.2 ->
      (S (anzptr mgr) <= q.1)%nat \/ (Some (anzptr mgr) = Some q.1 /\ 0 + a <= q.2) ->
      fresh_for mgr q).
  { intros q Hq [H|[[= H] H']]; (split; [exact Hq|]); left; lia. }
  destruct (current mgr) as [b|] eqn:Ecur.
  - destruct (_ >=? allocatedIdx mgr) eqn:Efull; cbn in E.
    + injection E as <- <-. unfold mgr_wf, fresh_for; cbn.
      split; [lia|]. split; [split; [lia|left; lia]|].
      split; [reflexivity|]. split; [reflexivity|]. split; [reflexivity|].
      split; [reflexivity|]. split; [lia|].
      intros q [Hq H]. apply Hfresh_case; assumption.
    + rewrite Ecur in E. injection E as <- <-. unfold mgr_wf, fresh_for; cbn. rewrite Ecur.
      destruct Hwf as (H1 & H2 & H3). bools.
      split; [lia|]. split; [split; [lia|right; split; [reflexivity|lia]]|].
      split; [reflexivity|]. split; [reflexivity|]. split; [lia|].
      split; [reflexivity|]. split; [lia|].
      intros q (Hq & [H|[H H']]); (split; [exact Hq|]);
        [left; lia | right; split; [exact H|lia]].
  - cbn in E. injection E as <- <-. unfold mgr_wf, fresh_for; cbn.
    split; [lia|]. split; [split; [lia|left; lia]|].
    split; [reflexivity|]. split; [reflexivity|]. split; [reflexivity|].
    split; [reflexivity|]. split; [lia|].
    intros q [Hq H]. apply Hfresh_case; assumption.
Qed.

Lemma fresh_disjoint mgr' p a q b :
  current mgr' = Some p.1 -> S p.1 = anzptr mgr' -> p.2 + a = freeFromIdx mgr' ->
  fresh_for mgr' q -> ranges_disjoint p a q b.
Proof.
  intros Hc Hn Hf (_ & [H|[H H']]); unfold ranges_disjoint.
  - left. lia.
  - right. left. lia.
Qed.

Lemma ranges_disjoint_sym p a q b : ranges_disjoint p a q b -> ranges_disjoint q b p a.
Proof. unfold ranges_disjoint. intros [H|[H|H]]; auto. Qed.

Lemma getMemory_seq_spec reqs : forall mgr ptrs mgr',
  mgr_wf mgr -> Forall (fun a => 0 <= a <= allocatePerBlock mgr) reqs ->
  getMemory_seq mgr reqs = Ret (ptrs, mgr') ->
  length ptrs = length reqs /\
  (forall i q, ptrs !! i = Some q -> fresh_for mgr q) /\
  (forall i q b, ptrs !! i = Some q -> reqs !! i = Some b -> range_in_block mgr q b) /\
  (forall i j p q a b, i <> j ->
     ptrs !! i = Some p -> ptrs !! j = Some q ->
     reqs !! i = Some a -> reqs !! j = Some b -> ranges_disjoint p a q b).
Proof.
  induction reqs as [|a reqs IH]; intros mgr ptrs mgr' Hwf Hreqs E.
  - cbn in E. injection E as <- <-. repeat split; intros; try discriminate; reflexivity.
  - cbn [getMemory_seq] in E.
    destruct (getMemory mgr a) as [[p mgr1]| | |] eqn:Eg; try discriminate. cbn [obind] in E.
    destruct (getMemory_seq mgr1 reqs) as [[ps mgr2]| | |] eqn:Es; try discriminate.
    cbn [obind] in E. injection E as <- <-.
    apply Forall_cons in Hreqs as [Ha Hreqs].
    destruct (getMemory_spec _ _ _ _ Hwf (proj1 Ha) Eg)
      as (Hwf1 & Hfp & Hapb & Hc & Hn & Hf & Hin & Hmono).
    destruct (IH mgr1 ps mgr2 Hwf1) as (Hlen & Hfresh & Hblk & Hdis); [|exact Es|].
    { rewrite Hapb. exact Hreqs. }
    split; [cbn; lia|]. split; [|split].
    + intros [|i] q Hq; cbn in Hq; [injection Hq as <-; exact Hfp|].
      apply Hmono. eapply Hfresh; eassumption.
    + intros [|i] q b Hq Hb; cbn in Hq, Hb.
      * injection Hq as <-. injection Hb as <-. destruct Hfp as [? _].
        split; [assumption|]. apply Hin. lia.
      * pose proof (Hblk i q b Hq Hb) as [? ?]. split; [assumption|lia].
    + intros [|i] [|j] p' q' a' b' Hne Hp Hq Ha' Hb'; cbn in Hp, Hq, Ha', Hb'.
      * contradiction.
      * injection Hp as <-. injection Ha' as <-.
        eapply fresh_disjoint; try eassumption. eapply Hfresh; eassumption.
      * injection Hq as <-. injection Hb' as <-. apply ranges_disjoint_sym.
        eapply fresh_disjoint; try eassumption. eapply Hfresh; eassumption.
      * eapply (Hdis i j); try eassumption. congruence.
Qed.

Lemma ranges_disjoint_words p a q b k k' :
  ranges_disjoint p a q b -> 0 <= k < a -> 0 <= k' < b -> ptr_add p k <> ptr_add q k'.
Proof.
  intros [H|[H|H]] Hk Hk'; unfold ptr_add; intros E; injection E as E1 E2;
    [contradiction | lia | lia].
Qed.

End Arena.

(** ** Setting up a pass *)

Section LevelSetup.
Context {NTYP : Type} {ops : NTYP_ops NTYP}.
Variable G : Globals NTYP.
Implicit Types (lv : Level NTYP) (st : Store).

Lemma TRIM_range SW w : 1 <= SW -> 0 <= TRIM SW w <= SW - 1.
Proof.
  intros H. unfold TRIM.
  destruct (w <? 0) eqn:E1; [lia|]. destruct (w >=? SW) eqn:E2; bools; lia.
Qed.

Lemma TRIM_mono SW a b : 1 <= SW -> a <= b -> TRIM SW a <= TRIM SW b.
Proof.
  intros H Hab. unfold TRIM.
  destruct (a <? 0) eqn:E1, (b <? 0) eqn:E2, (a >=? SW) eqn:E3, (b >=? SW) eqn:E4;
    bools; lia.
Qed.

Lemma grow_rect_within encl scr :
  rect_within encl (grow_rect encl scr) /\ rect_within scr (grow_rect encl scr).
Proof.
  unfold rect_within, grow_rect; cbn.
  destruct (sx0 scr <? sx0 encl) eqn:E1, (sx1 scr >? sx1 encl) eqn:E2,
           (sy0 scr <? sy0 encl) eqn:E3, (sy1 scr >? sy1 encl) eqn:E4; bools; lia.
Qed.

Lemma rect_within_trans a b c : rect_within a b -> rect_within b c -> rect_within a c.
Proof. unfold rect_within. lia. Qed.

Lemma setup_points_spec SW MAXMEM spr n : forall cyc encl cyc' encl',
  setup_points G SW MAXMEM spr n cyc encl = Ret (cyc', encl') ->
  (n <= length cyc)%nat /\
  cyc' = (point_record G SW spr <$> take n cyc) ++ drop n cyc /\
  rect_within encl encl' /\
  (forall p, p ∈ take n cyc ->
     rect_within (point_rect G SW spr p) encl' /\
     Z.shiftr (sx1 (point_rect G SW spr p)) SHIFTPERDDBYTE < MAXMEM).
Proof.
  induction n as [|n IH]; intros cyc encl cyc' encl' E.
  - cbn in E. injection E as <- <-. cbn. rewrite take_0, drop_0.
    split; [lia|]. split; [reflexivity|]. split; [unfold rect_within; lia|].
    intros p Hp; inversion Hp.
  - cbn [setup_points] in E. destruct cyc as [|p rest]; [discriminate|].
    cbn zeta in E. destruct (_ >=? MAXMEM) eqn:Emax; [discriminate|].
    destruct (setup_points _ _ _ _ _ _ _) as [[rest' encl'']| | |] eqn:Erec; try discriminate.
    cbn [obind] in E. injection E as <- <-.
    destruct (IH _ _ _ _ Erec) as (Hlen & Hcyc & Hwithin & Hpts).
    destruct (grow_rect_within encl (point_rect G SW spr p)) as [Hg1 Hg2].
    split; [cbn; lia|]. split; [cbn; rewrite Hcyc; reflexivity|].
    split; [eapply rect_within_trans; eassumption|].
    intros q Hq. cbn in Hq. apply elem_of_cons in Hq as [->|Hq].
    + split; [eapply rect_within_trans; eassumption|]. cbn [pp_mem1] in Emax. bools. lia.
    + apply Hpts, Hq.
Qed.

Lemma point_rect_range SW spr p :
  1 <= SW ->
  0 <= sx0 (point_rect G SW spr p) <= SW - 1 /\ 0 <= sx1 (point_rect G SW spr p) <= SW - 1 /\
  0 <= sy0 (point_rect G SW spr p) <= SW - 1 /\ 0 <= sy1 (point_rect G SW spr p) <= SW - 1.
Proof. intros H. unfold point_rect; cbn. repeat split; apply TRIM_range; exact H. Qed.

Lemma setup_points_bounds SW MAXMEM spr n : forall cyc encl cyc' encl',
  1 <= SW -> on_screen SW encl ->
  setup_points G SW MAXMEM spr n cyc encl = Ret (cyc', encl') -> on_screen SW encl'.
Proof.
  induction n as [|n IH]; intros cyc encl cyc' encl' HSW Hon E.
  - cbn in E. injection E as <- <-. exact Hon.
  - cbn [setup_points] in E. destruct cyc as [|p rest]; [discriminate|].
    cbn zeta in E. destruct (_ >=? MAXMEM); [discriminate|].
    destruct (setup_points _ _ _ _ _ _ _) as [[rest' encl'']| | |] eqn:Erec; try discriminate.
    cbn [obind] in E. injection E as <- <-.
    eapply IH; [exact HSW| |exact Erec].
    destruct (point_rect_range SW spr p HSW) as (H1 & H2 & H3 & H4).
    destruct Hon as (K1 & K2 & K3 & K4).
    unfold on_screen, grow_rect; cbn [sx0 sx1 sy0 sy1].
    repeat match goal with |- context [if ?b then _ else _] => destruct b end; lia.
Qed.

Lemma mark_list_spec (f : Z -> nat) (ys : list Z) : forall (yw : list Z),
  let yw' := fold_left (fun yw y => <[f y := 1]> yw) ys yw in
  length yw' = length yw /\
  (forall i, yw !! i = Some 1 -> yw' !! i = Some 1) /\
  (forall y, y ∈ ys -> (f y < length yw)%nat -> yw' !! f y = Some 1).
Proof.
  induction ys as [|y ys IH]; intros yw; cbn.
  - split; [reflexivity|]. split; [auto|]. intros y Hy. inversion Hy.
  - destruct (IH (<[f y := 1]> yw)) as (Hlen & Hkeep & Hset). cbn in Hlen, Hkeep, Hset.
    rewrite length_insert in Hlen, Hset.
    split; [exact Hlen|]. split.
    + intros i Hi. apply Hkeep.
      destruct (decide (i = f y)) as [->|Hne].
      * rewrite list_lookup_insert_eq; [reflexivity|]. eapply lookup_lt_Some; eassumption.
      * rewrite list_lookup_insert_ne by congruence. exact Hi.
    + intros z Hz Hlt. apply elem_of_cons in Hz as [->|Hz].
      * apply Hkeep. rewrite list_lookup_insert_eq; [reflexivity|exact Hlt].
      * apply Hset; assumption.
Qed.

Lemma mark_rows_spec (y0 : Z) (pts : list (PeriodicPoint NTYP)) : forall (yw : list Z),
  length (mark_rows y0 pts yw) = length yw /\
  (forall i, yw !! i = Some 1 -> mark_rows y0 pts yw !! i = Some 1) /\
  (forall p y, p ∈ pts -> pp_y0 p <= y <= pp_y1 p ->
     (Z.to_nat (y - y0) < length yw)%nat ->
     mark_rows y0 pts yw !! Z.to_nat (y - y0) = Some 1).
Proof.
  induction pts as [|p pts IH]; intros yw; unfold mark_rows; cbn [fold_left].
  - split; [reflexivity|]. split; [auto|]. intros p y Hp. inversion Hp.
  - set (yw1 := fold_left _ (seqZ _ _) yw).
    destruct (mark_list_spec (fun y => Z.to_nat (y - y0))
                (seqZ (pp_y0 p) (pp_y1 p - pp_y0 p + 1)) yw) as (Hlen1 & Hkeep1 & Hset1).
    fold yw1 in Hlen1, Hkeep1, Hset1.
    destruct (IH yw1) as (Hlen & Hkeep & Hset). unfold mark_rows in Hlen, Hkeep, Hset.
    split; [lia|]. split; [intros i Hi; apply Hkeep, Hkeep1, Hi|].
    intros q y Hq Hy Hlt. apply elem_of_cons in Hq as [->|Hq].
    + apply Hkeep, Hset1; [apply elem_of_seqZ; lia | exact Hlt].
    + apply (Hset q y); [assumption | assumption | lia].
Qed.

Lemma alloc_rows_spec lenx startwith (yw : list Z) : forall mgr h rows mgr' h',
  mgr_wf mgr -> 0 <= lenx ->
  alloc_rows yw lenx startwith mgr h = Ret (rows, mgr', h') ->
  mgr_wf mgr' /\ length rows = length yw /\
  (forall i f, yw !! i = Some f -> f > 0 -> is_Some (mjoin (rows !! i))) /\
  (forall i q, rows !! i = Some (Some q) -> fresh_for mgr q) /\
  (forall i j p q, i <> j -> rows !! i = Some (Some p) -> rows !! j = Some (Some q) ->
     ranges_disjoint p lenx q lenx).
Proof.
  induction yw as [|f yw IH]; intros mgr h rows mgr' h' Hwf Hlen E.
  - cbn in E. injection E as <- <- <-.
    split; [assumption|]. split; [reflexivity|].
    split; [intros i f Hf; discriminate|]. split; intros; discriminate.
  - cbn [alloc_rows] in E. destruct (f >? 0) eqn:Ef.
    + destruct (getMemory mgr lenx) as [[p mgr1]| | |] eqn:Eg; try discriminate.
      cbn [obind] in E.
      destruct (alloc_rows yw _ _ mgr1 _) as [[[rows1 mgr2] h2]| | |] eqn:Er; try discriminate.
      cbn [obind] in E. injection E as <- <- <-.
      destruct (getMemory_spec _ _ _ _ Hwf Hlen Eg)
        as (Hwf1 & Hfp & _ & Hc & Hn & Hf & _ & Hmono).
      destruct (IH _ _ _ _ _ Hwf1 Hlen Er) as (Hwf2 & Hl & Hflag & Hfresh & Hdis).
      split; [assumption|]. split; [cbn; lia|]. split; [|split].
      * intros [|i] g Hg Hpos; cbn in *; [eauto|]. eapply Hflag; eassumption.
      * intros [|i] q Hq; cbn in Hq; [injection Hq as <-; exact Hfp|].
        apply Hmono. eapply Hfresh; eassumption.
      * intros [|i] [|j] p' q' Hne Hp Hq; cbn in Hp, Hq.
        -- contradiction.
        -- injection Hp as <-. eapply fresh_disjoint; try eassumption.
           eapply Hfresh; eassumption.
        -- injection Hq as <-. apply ranges_disjoint_sym.
           eapply fresh_disjoint; try eassumption. eapply Hfresh; eassumption.
        -- eapply (Hdis i j); try eassumption. congruence.
    + destruct (alloc_rows yw _ _ mgr _) as [[[rows1 mgr2] h2]| | |] eqn:Er; try discriminate.
      cbn [obind] in E. injection E as <- <- <-.
      destruct (IH _ _ _ _ _ Hwf Hlen Er) as (Hwf2 & Hl & Hflag & Hfresh & Hdis).
      split; [assumption|]. split; [cbn; lia|]. split; [|split].
      * intros [|i] g Hg Hpos; cbn in *; [|eapply Hflag; eassumption].
        injection Hg as <-. bools. lia.
      * intros [|i] q Hq; cbn in Hq; [discriminate|]. eapply Hfresh; eassumption.
      * intros [|i] [|j] p' q' Hne Hp Hq; cbn in Hp, Hq; try discriminate.
        eapply (Hdis i j); try eassumption. congruence.
Qed.

Lemma same_tables_refl st : same_tables st st.
Proof. split; reflexivity. Qed.

Lemma same_tables_trans a b c : same_tables a b -> same_tables b c -> same_tables a c.
Proof. intros [? ?] [? ?]. split; congruence. Qed.

Lemma set_words_sound lv y lo hi v st st' :
  store_ok lv st ->
  for_upto lo hi (fun m s => SET32_MY lv s m y v) st = Ret st' ->
  store_ok lv st' /\ same_tables st st'.
Proof.
  intros Hok E.
  apply (for_upto_partial (store_ok lv) same_tables
           (fun m s => SET32_MY lv s m y v) lo hi st st');
    [apply same_tables_refl | apply same_tables_trans | | exact Hok | exact E].
  intros m s0 s0' _ Hs0 Em. split; [eapply SET32_MY_ok; eassumption|].
  destruct (SET32_MY_frame _ _ _ _ _ _ Em) as (? & ? & _). split; assumption.
Qed.

Lemma set_rect_sound lv ylo yhi lo hi v st st' :
  store_ok lv st ->
  for_upto ylo yhi (fun y s => for_upto lo hi (fun m s => SET32_MY lv s m y v) s) st
    = Ret st' ->
  store_ok lv st' /\ same_tables st st'.
Proof.
  intros Hok E.
  apply (for_upto_partial (store_ok lv) same_tables
           (fun y s => for_upto lo hi (fun m s => SET32_MY lv s m y v) s) ylo yhi st st');
    [apply same_tables_refl | apply same_tables_trans | | exact Hok | exact E].
  intros y s0 s0' _ Hs0 Ey. eapply set_words_sound; eassumption.
Qed.

Lemma prime_points_sound lv (pts : list (PeriodicPoint NTYP)) : forall st st',
  store_ok lv st -> prime_points lv pts st = Ret st' ->
  store_ok lv st' /\ same_tables st st'.
Proof.
  induction pts as [|p pts IH]; intros st st' Hok E.
  - cbn in E. injection E as <-. split; [assumption|apply same_tables_refl].
  - cbn [prime_points] in E.
    destruct (for_upto (pp_y0 p) _ _ _) as [st1| | |] eqn:E1; try discriminate.
    cbn [obind] in E.
    destruct (set_rect_sound _ _ _ _ _ _ _ _ Hok E1) as (Hok1 & Ht1).
    destruct (IH _ _ Hok1 E) as (Hok' & Ht'). split; [assumption|].
    eapply same_tables_trans; eassumption.
Qed.

Lemma prime_points_total lv (pts : list (PeriodicPoint NTYP)) : forall st,
  store_ok lv st ->
  (forall p y m, p ∈ pts -> pp_y0 p <= y <= pp_y1 p -> pp_mem0 p <= m <= pp_mem1 p ->
     mem0 lv <= m <= mem1 lv /\
     sy0 (enclosementall lv) <= y <= sy1 (enclosementall lv) /\
     is_Some (row_ptr lv st y)) ->
  exists st', prime_points lv pts st = Ret st'.
Proof.
  induction pts as [|p pts IH]; intros st Hok Hpts.
  - exists st. reflexivity.
  - cbn [prime_points].
    destruct (for_upto_total (fun s => store_ok lv s /\ ispotwY s = ispotwY st)
                (fun _ _ => True)
                (fun y s => for_upto (pp_mem0 p) (pp_mem1 p)
                              (fun m s => SET32_MY lv s m y ALL32GRAY) s)
                (pp_y0 p) (pp_y1 p) st) as (st1 & E1 & [Hok1 Hp1] & _); auto.
    + intros y s Hy [Hs Hps].
      destruct (for_upto_total (fun s => store_ok lv s /\ ispotwY s = ispotwY st)
                  (fun _ _ => True)
                  (fun m s => SET32_MY lv s m y ALL32GRAY)
                  (pp_mem0 p) (pp_mem1 p) s) as (s1 & Es1 & Hs1 & _); auto.
      * intros m s0 Hm [Hs0 Hps0].
        destruct (Hpts p y m ltac:(left) Hy Hm) as (HM & HY & Hrow).
        destruct (SET32_MY_total lv s0 m y ALL32GRAY HM HY) as (s0' & Es0).
        { unfold row_ptr in *. rewrite Hps0. exact Hrow. }
        exists s0'. split; [exact Es0|]. split; [|exact I].
        split; [eapply SET32_MY_ok; eassumption|].
        destruct (SET32_MY_frame _ _ _ _ _ _ Es0) as (? & _). congruence.
      * exists s1. auto.
    + rewrite E1. cbn [obind]. apply IH; [exact Hok1|].
      intros q y m Hq Hy Hm. destruct (Hpts q y m ltac:(right; exact Hq) Hy Hm) as (? & ? & Hrow).
      split; [assumption|]. split; [assumption|]. unfold row_ptr in *. rewrite Hp1. exact Hrow.
Qed.

End LevelSetup.

Section LevelSetupSpec.
Context {NTYP : Type} {ops : NTYP_ops NTYP}.
Variable G : Globals NTYP.
Implicit Types (lv : Level NTYP) (st : Store).

Lemma alloc_rows_length lenx startwith (yw : list Z) : forall mgr h rows mgr' h',
  alloc_rows yw lenx startwith mgr h = Ret (rows, mgr', h') -> length rows = length yw.
Proof.
  induction yw as [|f yw IH]; intros mgr h rows mgr' h' E.
  - cbn in E. injection E as <- <- <-. reflexivity.
  - cbn [alloc_rows] in E. destruct (f >? 0).
    + destruct (getMemory mgr lenx) as [[p mgr1]| | |]; try discriminate. cbn [obind] in E.
      destruct (alloc_rows yw _ _ mgr1 _) as [[[rows1 mgr2] h2]| | |] eqn:Er; try discriminate.
      cbn [obind] in E. injection E as <- <- <-. cbn. erewrite IH; eauto.
    + destruct (alloc_rows yw _ _ mgr _) as [[[rows1 mgr2] h2]| | |] eqn:Er; try discriminate.
      cbn [obind] in E. injection E as <- <- <-. cbn. erewrite IH; eauto.
Qed.

Lemma level_setup_spec L startwith onecycle mgr h onecycle' lv st mgr' :
  level_setup G L startwith onecycle mgr h = Ret (onecycle', lv, st, mgr') ->
  setup_facts G L onecycle onecycle' lv st.
Proof.
  unfold level_setup. intros E.
  destruct (setup_points _ _ _ _ _ _ _) as [[cyc encl]| | |] eqn:Esp; try discriminate.
  cbn [obind] in E. destruct (_ >=? _) eqn:Emax; [discriminate|].
  destruct (_ <? 0) eqn:Eleny; [discriminate|].
  cbn [FreeAll] in E.
  destruct (alloc_rows _ _ _ _ _) as [[[rows mgr2] h2]| | |] eqn:Ear; try discriminate.
  cbn [obind] in E.
  destruct (prime_points _ _ _) as [st1| | |] eqn:Epp; try discriminate.
  cbn [obind] in E. injection E as <- <- <- <-.
  destruct (setup_points_spec G _ _ _ _ _ _ _ _ Esp) as (Hlen & Hcyc & Hwithin & Hpts).
  set (lv := {| REFINEMENT := L |}) in *.
  set (yw := mark_rows _ _ _) in *.
  assert (Hyw : length yw = Z.to_nat (LOCALLENY lv)).
  { subst yw. match goal with |- length (mark_rows ?a ?b ?c) = _ =>
      rewrite (proj1 (mark_rows_spec a b c)) end. apply length_replicate. }
  assert (Hok0 : store_ok lv {| heap := h2; ispotwY := rows; ywithgray := yw |}).
  { split; cbn [ispotwY ywithgray].
    - erewrite alloc_rows_length by exact Ear. exact Hyw.
    - exact Hyw.
    - intros Hlenx.
      eapply alloc_rows_spec in Ear as (_ & _ & _ & _ & Hdis); [|exact I|lia].
      exact Hdis. }
  destruct (prime_points_sound _ _ _ _ Hok0 Epp) as (Hok1 & _).
  split; try reflexivity; try assumption.
  - cbn. bools. lia.
  - bools. lia.
  - cbn. repeat split; reflexivity.
  - cbn [SCREENWIDTH enclosementall lv]. intros HSW.
    eapply setup_points_bounds; [exact HSW| |exact Esp].
    unfold on_screen; cbn. lia.
Qed.

End LevelSetupSpec.

(** ** The decision scan *)

Section Decision.
Context {NTYP : Type} {ops : NTYP_ops NTYP}.
Implicit Types (lv : Level NTYP) (st : Store).

Lemma row_has_gray_true h lenx row :
  row_has_gray h lenx row = true <->
  exists p m, row = Some p /\ 0 <= m < lenx /\ load_word h p m <> ALL32POTW.
Proof.
  unfold row_has_gray. destruct row as [p|].
  - rewrite any_upto_true. split.
    + intros (m & Hm & Hne). exists p, m. split; [reflexivity|]. split; [lia|].
      apply negb_true_iff, Z.eqb_neq in Hne. exact Hne.
    + intros (q & m & [= <-] & Hm & Hne). exists m. split; [lia|].
      apply negb_true_iff, Z.eqb_neq. exact Hne.
  - split; [discriminate|]. intros (p & m & H & _). discriminate.
Qed.

Lemma interiorpresentat_gray lv st :
  has_gray_word lv st -> interiorpresentat lv st = REFINEMENT lv.
Proof.
  intros (y & p & m & Hy & Hrow & Hm & Hne). unfold interiorpresentat.
  replace (existsb _ _) with true; [reflexivity|]. symmetry.
  apply existsb_exists. exists (Some p). split.
  - apply list_elem_of_In, list_elem_of_lookup. exists y.
    rewrite lookup_take_lt by lia. exact Hrow.
  - apply row_has_gray_true. eauto.
Qed.

Lemma interiorpresentat_none lv st :
  ~ has_gray_word lv st -> interiorpresentat lv st = 0.
Proof.
  intros Hno. unfold interiorpresentat.
  destruct (existsb _ _) eqn:E; [|reflexivity]. exfalso. apply Hno.
  apply existsb_exists in E as (row & Hin & Hrow).
  apply list_elem_of_In, list_elem_of_lookup in Hin as (y & Hy).
  apply row_has_gray_true in Hrow as (p & m & -> & Hm & Hne).
  apply lookup_take_Some in Hy as [Hy Hlt].
  exists y, p, m. auto.
Qed.

End Decision.

(** ** A pass does not depend on what earlier passes left behind *)

Lemma outcome_rel_bind {A B A' B'} (R : A -> B -> Prop) (R' : A' -> B' -> Prop)
    o1 o2 (f : A -> outcome A') (g : B -> outcome B') :
  outcome_rel R o1 o2 -> (forall a b, R a b -> outcome_rel R' (f a) (g b)) ->
  outcome_rel R' (obind o1 f) (obind o2 g).
Proof. destruct o1, o2; cbn; try contradiction; auto. Qed.

Lemma outcome_rel_eq {A} (R : A -> A -> Prop) (o : outcome A) :
  (forall a, R a a) -> outcome_rel R o o.
Proof. destruct o; cbn; auto. Qed.

Lemma outcome_rel_weaken {A B} (R R' : A -> B -> Prop) o1 o2 :
  (forall a b, R a b -> R' a b) -> outcome_rel R o1 o2 -> outcome_rel R' o1 o2.
Proof. destruct o1, o2; cbn; auto. Qed.

Section Independence.
Context {NTYP : Type} {ops : NTYP_ops NTYP}.
Variable G : Globals NTYP.
Implicit Types (lv : Level NTYP) (st : Store) (r : Root NTYP).

Lemma getMemory_equiv m1 m2 a :
  mgr_equiv m1 m2 ->
  outcome_rel (fun x y => x = y) (getMemory m1 a) (getMemory m2 a).
Proof.
  intros (Hc & Hn & Ha & Heq). unfold getMemory. rewrite <- Hn.
  destruct (_ >=? _); [reflexivity|].
  destruct (current m1) as [b|] eqn:E1.
  - rewrite <- (Heq ltac:(eauto)). rewrite E1. apply outcome_rel_eq. auto.
  - rewrite <- Hc. cbn. rewrite Ha, Hn. reflexivity.
Qed.

Lemma alloc_rows_equiv lenx startwith (yw : list Z) : forall m1 m2 h,
  mgr_equiv m1 m2 ->
  outcome_rel (fun x y => x.1.1 = y.1.1 /\ x.2 = y.2 /\ mgr_equiv x.1.2 y.1.2)
    (alloc_rows yw lenx startwith m1 h) (alloc_rows yw lenx startwith m2 h).
Proof.
  induction yw as [|f yw IH]; intros m1 m2 h Hm.
  - cbn. auto.
  - cbn [alloc_rows]. destruct (f >? 0).
    + pose proof (getMemory_equiv m1 m2 lenx Hm) as Hg.
      destruct (getMemory m1 lenx) as [[p1 m1']| | |], (getMemory m2 lenx) as [[p2 m2']| | |];
        cbn in Hg; try contradiction; try (cbn; auto; fail).
      injection Hg as <- <-. cbn [obind].
      apply outcome_rel_eq. intros [[rows m] h']. cbn.
      split; [reflexivity|]. split; [reflexivity|]. repeat split; reflexivity.
    + eapply outcome_rel_bind; [apply IH; exact Hm|].
      intros [[rows1 m1'] h1'] [[rows2 m2'] h2'] (H1 & H2 & H3). cbn in *. subst.
      auto.
Qed.

Lemma point_rect_pp SW spr (p q : PeriodicPoint NTYP) :
  pp p = pp q -> point_rect G SW spr p = point_rect G SW spr q.
Proof. intros H. unfold point_rect. rewrite H. reflexivity. Qed.

Lemma setup_points_equiv SW MM spr n : forall (c1 c2 : list (PeriodicPoint NTYP)) encl,
  pp <$> c1 = pp <$> c2 ->
  outcome_rel (fun x y => x.2 = y.2 /\ take n x.1 = take n y.1 /\ pp <$> x.1 = pp <$> y.1)
    (setup_points G SW MM spr n c1 encl) (setup_points G SW MM spr n c2 encl).
Proof.
  induction n as [|n IH]; intros c1 c2 encl Hpp.
  - cbn. rewrite !take_0. auto.
  - cbn [setup_points]. destruct c1 as [|p1 r1], c2 as [|p2 r2]; try discriminate; [exact I|].
    cbn in Hpp. injection Hpp as Hp Hr.
    rewrite (point_rect_pp _ _ _ _ Hp), Hp. cbn zeta.
    destruct (_ >=? MM); [reflexivity|].
    eapply outcome_rel_bind; [apply IH; exact Hr|].
    intros [c1' e1] [c2' e2] (He & Ht & Hpp'). cbn in *. subst.
    split; [reflexivity|]. split; [rewrite Ht; reflexivity|]. rewrite Hpp'. reflexivity.
Qed.

Lemma level_setup_equiv L startwith r1 r2 m1 m2 h1 h2 :
  root_equiv r1 r2 -> allocatePerBlock m1 = allocatePerBlock m2 ->
  outcome_rel pass_equiv
    (level_setup G L startwith r1 m1 h1) (level_setup G L startwith r2 m2 h2).
Proof.
  intros [Hn Hpp] Ha. unfold level_setup. rewrite Hn.
  eapply outcome_rel_bind; [apply setup_points_equiv; exact Hpp|].
  intros [c1 e1] [c2 e2] (He & Ht & Hpp'). cbn in He, Ht, Hpp'. subst e2.
  destruct (_ >=? _); [reflexivity|].
  destruct (_ <? 0); [exact I|].
  cbn [FreeAll]. rewrite Ht.
  eapply outcome_rel_bind.
  { apply alloc_rows_equiv. repeat split; cbn; auto. intros [? ?]; discriminate. }
  intros [[rows1 m1'] h1'] [[rows2 m2'] h2'] (H1 & H2 & H3). cbn in H1, H2, H3. subst.
  eapply (outcome_rel_bind (fun x y => x = y)); [apply outcome_rel_eq; intros; reflexivity|].
  intros st1 st2 <-. cbn.
  unfold pass_equiv, root_equiv. cbn.
  split; [reflexivity|]. split; [reflexivity|]. split; [auto|]. apply H3.
Qed.

Lemma level_pass_equiv fuel L startwith r1 r2 m1 m2 h1 h2 :
  root_equiv r1 r2 -> allocatePerBlock m1 = allocatePerBlock m2 ->
  outcome_rel pass_equiv
    (level_pass G fuel L startwith r1 m1 h1) (level_pass G fuel L startwith r2 m2 h2).
Proof.
  intros Hr Ha. unfold level_pass.
  eapply outcome_rel_bind; [apply level_setup_equiv; eassumption|].
  intros [[[r1' lv1] st1] m1'] [[[r2' lv2] st2] m2'] (H1 & H2 & H3 & H4).
  cbn in H1, H2, H3, H4. subst.
  eapply (outcome_rel_bind (fun x y => x = y)); [apply outcome_rel_eq; intros; reflexivity|].
  intros s1 s2 <-. cbn. unfold pass_equiv. cbn. auto.
Qed.

End Independence.

(** ** The loop over the levels *)

Section LevelLoop.
Context {NTYP : Type} {ops : NTYP_ops NTYP}.
Variable G : Globals NTYP.
Implicit Types (lv : Level NTYP) (st : Store) (r : Root NTYP).

Lemma root_frame_refl r : root_frame r r.
Proof. repeat split. Qed.

Lemma root_frame_trans r1 r2 r3 : root_frame r1 r2 -> root_frame r2 r3 -> root_frame r1 r3.
Proof. intros (?&?&?&?&?) (?&?&?&?&?). repeat split; congruence. Qed.

Lemma root_frame_equiv r r' : root_frame r r' -> root_equiv r' r.
Proof. intros (?&?&?&?&?). split; assumption. Qed.

Lemma root_equiv_trans r1 r2 r3 : root_equiv r1 r2 -> root_equiv r2 r3 -> root_equiv r1 r3.
Proof. intros [? ?] [? ?]. split; congruence. Qed.

Lemma setup_facts_frame L r r' lv st :
  setup_facts G L r r' lv st -> root_frame r r' /\ interiorfound r' = interiorfound r.
Proof.
  intros F. destruct (sf_root _ _ _ _ _ _ F) as (Ha & Hi & Hl & Hn & Hm & _).
  split; [|exact Hi]. repeat split; try assumption.
  rewrite (sf_cycle _ _ _ _ _ _ F), fmap_app, <- list_fmap_compose.
  rewrite <- (take_drop (Z.to_nat (cyclelen r)) (cycle r)) at 3.
  rewrite fmap_app. reflexivity.
Qed.

Lemma getMemory_apb m a p m' :
  getMemory m a = Ret (p, m') -> allocatePerBlock m' = allocatePerBlock m.
Proof.
  unfold getMemory. destruct (_ >=? _); [discriminate|].
  destruct (current m) as [b|] eqn:E.
  - destruct (_ >=? _); cbn; [intros [= <- <-]; reflexivity|].
    rewrite E. intros [= <- <-]. reflexivity.
  - cbn. intros [= <- <-]. reflexivity.
Qed.

Lemma alloc_rows_apb lenx sw (yw : list Z) : forall m h rows m' h',
  alloc_rows yw lenx sw m h = Ret (rows, m', h') ->
  allocatePerBlock m' = allocatePerBlock m.
Proof.
  induction yw as [|f yw IH]; intros m h rows m' h' E.
  - cbn in E. injection E as <- <- <-. reflexivity.
  - cbn [alloc_rows] in E. destruct (f >? 0).
    + destruct (getMemory m lenx) as [[p m1]| | |] eqn:Eg; try discriminate. cbn [obind] in E.
      destruct (alloc_rows yw _ _ m1 _) as [[[rows1 m2] h2]| | |] eqn:Er; try discriminate.
      cbn [obind] in E. injection E as <- <- <-.
      rewrite (IH _ _ _ _ _ Er). eapply getMemory_apb; eassumption.
    + destruct (alloc_rows yw _ _ m _) as [[[rows1 m2] h2]| | |] eqn:Er; try discriminate.
      cbn [obind] in E. injection E as <- <- <-. eapply IH; eassumption.
Qed.

Lemma level_setup_apb L sw r m h r' lv st m' :
  level_setup G L sw r m h = Ret (r', lv, st, m') ->
  allocatePerBlock m' = allocatePerBlock m.
Proof.
  unfold level_setup. intros E.
  destruct (setup_points _ _ _ _ _ _ _) as [[cyc encl]| | |]; try discriminate.
  cbn [obind] in E. destruct (_ >=? _); [discriminate|].
  destruct (_ <? 0); [discriminate|]. cbn [FreeAll] in E.
  destruct (alloc_rows _ _ _ _ _) as [[[rows mgr2] h2]| | |] eqn:Ear; try discriminate.
  cbn [obind] in E. destruct (prime_points _ _ _); try discriminate.
  cbn [obind] in E. injection E as <- <- <- <-.
  apply alloc_rows_apb in Ear. exact Ear.
Qed.

Lemma level_pass_inv fuel L sw r m h r' lv st' m' :
  level_pass G fuel L sw r m h = Ret (r', lv, st', m') ->
  exists st, level_setup G L sw r m h = Ret (r', lv, st, m') /\
             while_changed G fuel lv st = Ret st'.
Proof.
  unfold level_pass. intros E.
  destruct (level_setup _ _ _ _ _ _) as [[[[r1 lv1] st1] m1]| | |]; try discriminate.
  cbn [obind] in E. destruct (while_changed _ _ _ _) as [s| | |] eqn:Ew; try discriminate.
  cbn in E. injection E as <- <- <- <-. exists st1. split; [reflexivity|exact Ew].
Qed.

Lemma interiorpresentat_cases lv st :
  (has_gray_word lv st /\ interiorpresentat lv st = REFINEMENT lv) \/
  (~ has_gray_word lv st /\ interiorpresentat lv st = 0).
Proof.
  destruct (existsb (row_has_gray (heap st) (LOCALLENX lv))
              (take (Z.to_nat (LOCALLENY lv)) (ispotwY st))) eqn:E.
  - left. assert (H : has_gray_word lv st).
    { apply existsb_exists in E as (row & Hin & Hrow).
      apply list_elem_of_In, list_elem_of_lookup in Hin as (y & Hy).
      apply row_has_gray_true in Hrow as (p & m & -> & Hm & Hne).
      apply lookup_take_Some in Hy as [Hy Hlt]. exists y, p, m. auto. }
    split; [exact H | apply interiorpresentat_gray, H].
  - right. assert (H : ~ has_gray_word lv st).
    { intros (y & p & m & Hy & Hrow & Hm & Hne).
      apply not_true_iff_false in E. apply E.
      apply existsb_exists. exists (Some p). split.
      - apply list_elem_of_In, list_elem_of_lookup. exists y.
        rewrite lookup_take_lt by lia. exact Hrow.
      - apply row_has_gray_true. eauto. }
    split; [exact H | apply interiorpresentat_none, H].
Qed.

(** A pass of the loop is the pass of that level taken on its own. *)
Lemma threaded_grid_at fuel L sw r0 r m h r' lv st' m' :
  root_equiv r r0 -> allocatePerBlock m = allocatePerBlock ArrayDDByteManager_new ->
  level_pass G fuel L sw r m h = Ret (r', lv, st', m') ->
  grid_at G fuel L sw r0 = Ret (lv, st').
Proof.
  intros Hr Ha E. unfold grid_at.
  pose proof (level_pass_equiv G fuel L sw r r0 m ArrayDDByteManager_new h ∅ Hr Ha) as H.
  rewrite E in H.
  destruct (level_pass G fuel L sw r0 _ _) as [[[[r1 lv1] st1] m1]| | |]; cbn in H;
    try contradiction.
  destruct H as (H1 & H2 & _). cbn in H1, H2. subst. reflexivity.
Qed.

Lemma level_loop_sound fuel sw r0 n : forall L r m h found r' m' h',
  root_equiv r r0 -> allocatePerBlock m = allocatePerBlock ArrayDDByteManager_new ->
  0 < L ->
  level_loop G fuel n L sw r m h = Ret (found, r', m', h') ->
  root_frame r r' /\ interiorfound r' = interiorfound r /\
  levels_result G fuel sw r0 L n found.
Proof.
  induction n as [|n IH]; intros L r m h found r' m' h' Hr Ha HL E.
  - cbn in E. injection E as <- <- <- <-.
    split; [apply root_frame_refl|]. split; [reflexivity|].
    left. split; [reflexivity|]. intros k Hk. lia.
  - cbn [level_loop] in E.
    destruct (level_pass G fuel L sw r m h) as [[[[r1 lv] st1] m1]| | |] eqn:Ep;
      try discriminate.
    cbn [obind] in E.
    pose proof (threaded_grid_at _ _ _ _ _ _ _ _ _ _ _ Hr Ha Ep) as Hgrid.
    destruct (level_pass_inv _ _ _ _ _ _ _ _ _ _ Ep) as (st0 & Es & Ew).
    pose proof (level_setup_spec G _ _ _ _ _ _ _ _ _ Es) as F.
    destruct (setup_facts_frame _ _ _ _ _ F) as [Hfr Hif].
    pose proof (sf_level _ _ _ _ _ _ F) as Hlevel.
    destruct (interiorpresentat_cases lv st1) as [[Hg Hip]|[Hg Hip]]; rewrite Hip in E.
    + rewrite Hlevel in E. replace (L >? 0) with true in E by (symmetry; apply Z.gtb_lt; lia).
      injection E as <- <- <- <-.
      split; [exact Hfr|]. split; [exact Hif|].
      right. split; [lia|]. split; [exists lv, st1; auto|]. intros k Hk. lia.
    + change (0 >? 0) with false in E. cbn iota in E.
      destruct (IH (L + 1) r1 m1 (heap st1) found r' m' h') as (Hfr' & Hif' & Hres).
      * eapply root_equiv_trans; [apply root_frame_equiv; exact Hfr | exact Hr].
      * rewrite (level_setup_apb _ _ _ _ _ _ _ _ _ Es). exact Ha.
      * lia.
      * exact E.
      * split; [eapply root_frame_trans; eassumption|]. split; [congruence|].
        assert (Hhere : no_gray_at G fuel sw r0 L) by (exists lv, st1; auto).
        destruct Hres as [[-> Hall]|(Hrange & Hgray & Hbefore)].
        -- left. split; [reflexivity|]. intros k Hk.
           destruct (Z.eq_dec k L) as [->|]; [exact Hhere|]. apply Hall. lia.
        -- right. split; [lia|]. split; [exact Hgray|]. intros k Hk.
           destruct (Z.eq_dec k L) as [->|]; [exact Hhere|]. apply Hbefore. lia.
Qed.

Lemma level_loop_frame fuel sw n : forall L r m h found r' m' h',
  level_loop G fuel n L sw r m h = Ret (found, r', m', h') ->
  root_frame r r' /\ interiorfound r' = interiorfound r.
Proof.
  induction n as [|n IH]; intros L r m h found r' m' h' E.
  - cbn in E. injection E as <- <- <- <-. split; [apply root_frame_refl|reflexivity].
  - cbn [level_loop] in E.
    destruct (level_pass G fuel L sw r m h) as [[[[r1 lv] st1] m1]| | |] eqn:Ep;
      try discriminate.
    cbn [obind] in E.
    destruct (level_pass_inv _ _ _ _ _ _ _ _ _ _ Ep) as (st0 & Es & Ew).
    pose proof (level_setup_spec G _ _ _ _ _ _ _ _ _ Es) as F.
    destruct (setup_facts_frame _ _ _ _ _ F) as [Hfr Hif].
    destruct (_ >? 0).
    + injection E as <- <- <- <-. auto.
    + destruct (IH _ _ _ _ _ _ _ _ E) as [Hfr' Hif'].
      split; [eapply root_frame_trans; eassumption | congruence].
Qed.

Lemma level_loop_total fuel sw r0 n : forall L r m h,
  root_equiv r r0 -> allocatePerBlock m = allocatePerBlock ArrayDDByteManager_new ->
  (forall k, L <= k < L + Z.of_nat n -> setup_within G fuel sw r0 k) ->
  exists out, level_loop G fuel n L sw r m h = Ret out.
Proof.
  induction n as [|n IH]; intros L r m h Hr Ha Hall.
  - cbn. eauto.
  - cbn [level_loop].
    destruct (Hall L ltac:(lia)) as (rc & lv & st & mc & Ec & Hfuel).
    pose proof (level_setup_equiv G L sw r r0 m ArrayDDByteManager_new h ∅ Hr Ha) as He.
    rewrite Ec in He.
    destruct (level_setup G L sw r m h) as [[[[r1 lv1] st1] m1]| | |] eqn:Es; cbn in He;
      try contradiction.
    destruct He as (H1 & H2 & _). cbn in H1, H2. subst lv1 st1.
    pose proof (level_setup_spec G _ _ _ _ _ _ _ _ _ Es) as F.
    destruct (sweeps_exist G lv _ st (sf_ok _ _ _ _ _ _ F) (Nat.lt_succ_diag_r _))
      as (tr & st' & Hrun & _ & _ & _ & _ & Hlen).
    pose proof (sweeps_to_while G lv st tr st' Hrun fuel ltac:(lia)) as Ew.
    unfold level_pass. rewrite Es. cbn [obind]. rewrite Ew. cbn [obind].
    destruct (_ >? 0); [eauto|].
    apply IH.
    + eapply root_equiv_trans; [|exact Hr].
      apply root_frame_equiv. apply (setup_facts_frame _ _ _ _ _ F).
    + rewrite (level_setup_apb _ _ _ _ _ _ _ _ _ Es). exact Ha.
    + intros k Hk. apply Hall. lia.
Qed.

Lemma fuel_bound sw r0 n : forall L,
  (forall k, L <= k < L + Z.of_nat n ->
     exists res, level_setup G k sw r0 ArrayDDByteManager_new ∅ = Ret res) ->
  exists fuel0, forall fuel k, (fuel0 <= fuel)%nat -> L <= k < L + Z.of_nat n ->
    setup_within G fuel sw r0 k.
Proof.
  induction n as [|n IH]; intros L Hall.
  - exists 0%nat. intros fuel k _ Hk. lia.
  - destruct (IH (L + 1)) as (f1 & Hf1); [intros k Hk; apply Hall; lia|].
    destruct (Hall L ltac:(lia)) as ([[[r lv] st] m] & E).
    exists (Nat.max f1 (S (gray_bits lv st))). intros fuel k Hfuel Hk.
    destruct (Z.eq_dec k L) as [->|Hne].
    + exists r, lv, st, m. split; [exact E|lia].
    + apply Hf1; lia.
Qed.

End LevelLoop.

Lemma returns_Ret {A : Type} (m : outcome A) (P : A -> Prop) :
  returns m = true -> (forall a, m = Ret a -> P a) -> exists a, m = Ret a /\ P a.
Proof. destruct m as [a| | |]; try discriminate. intros _ H. exists a. auto. Qed.

(** * Main results *)

Section ArenaClaim.

(** C10: between two [FreeAll] calls on one manager, the ranges that
    distinct [getMemory] calls hand out (for requests of at most one
    block) lie inside their blocks and are pairwise disjoint, so storing a
    word of one range leaves every word of any other range as it was. *)
Theorem getMemory_ranges_pairwise_disjoint mgr0 h0 reqs ptrs mgr' :
  Forall (fun a => 0 <= a <= allocatePerBlock mgr0) reqs ->
  getMemory_seq (FreeAll mgr0 h0).1 reqs = Ret (ptrs, mgr') ->
  forall i j p q a b,
    i <> j -> ptrs !! i = Some p -> ptrs !! j = Some q ->
    reqs !! i = Some a -> reqs !! j = Some b ->
    range_in_block mgr0 p a /\ range_in_block mgr0 q b /\
    ranges_disjoint p a q b /\
    forall heap k v k', 0 <= k < a -> 0 <= k' < b ->
      load_word (store_word heap p k v) q k' = load_word heap q k'.
Proof.
  intros Hreqs E i j p q a b Hij Hp Hq Ha Hb.
  assert (Hwf : mgr_wf (FreeAll mgr0 h0).1) by exact I.
  destruct (getMemory_seq_spec reqs _ _ _ Hwf Hreqs E) as (_ & _ & Hblk & Hdis).
  pose proof (Hdis i j p q a b Hij Hp Hq Ha Hb) as Hd.
  split; [exact (Hblk i p a Hp Ha)|]. split; [exact (Hblk j q b Hq Hb)|].
  split; [exact Hd|]. intros heap k v k' Hk Hk'.
  apply load_store_other. eapply ranges_disjoint_words; eassumption.
Qed.

Lemma getMemory_ranges_pairwise_disjoint_example :
  ranges_disjoint (0%nat, 0) 3 (0%nat, 3) 5 /\
  load_word (store_word ∅ (0%nat, 0) 2 7) (0%nat, 3) 0 = 0.
Proof.
  assert (Hreqs : Forall (fun a => 0 <= a <= allocatePerBlock ArrayDDByteManager_new) [3; 5]).
  { repeat (constructor; [split; apply Z.leb_le; reflexivity|]). constructor. }
  assert (Hrun : getMemory_seq (FreeAll ArrayDDByteManager_new ∅).1 [3; 5] =
                 Ret ([(0%nat, 0); (0%nat, 3)],
                      {| current := Some 0%nat; allocatedIdx := CHUNKSIZE / 4;
                         freeFromIdx := 8; allocatePerBlock := CHUNKSIZE / 4;
                         anzptr := 1 |})) by reflexivity.
  destruct (getMemory_ranges_pairwise_disjoint _ _ _ _ _ Hreqs Hrun
              0%nat 1%nat (0%nat, 0) (0%nat, 3) 3 5)
    as (_ & _ & Hd & Hw); try reflexivity; [discriminate|].
  split; [exact Hd|]. apply Hw; lia.
Defined.

End ArenaClaim.

(** ** The sweeps of a pass, one by one *)

Section Traces.
Context {NTYP : Type} {ops : NTYP_ops NTYP}.
Variable G : Globals NTYP.
Implicit Types (lv : Level NTYP) (st : Store).

Lemma flips_same lv st st' : same_grid lv st st' -> flips lv st st' = 0%nat.
Proof.
  intros H.
  assert (Hsub : potw_subset lv st st') by (intros m y b Hb; rewrite H; exact Hb).
  pose proof (flips_gray_bits lv st st' Hsub) as E.
  rewrite (gray_bits_same lv st st' H) in E. lia.
Qed.

Lemma sweep_step lv st st' ch :
  store_ok lv st -> sweep G lv st = Ret (st', ch) ->
  store_ok lv st' /\ potw_subset lv st st' /\
  (ch > 0 -> (0 < flips lv st st')%nat) /\ (ch = 0 -> flips lv st st' = 0%nat).
Proof.
  intros Hok E. destruct (sweep_spec G lv st Hok) as (s & c & E' & Hok' & Hpr).
  rewrite E in E'. injection E' as <- <-.
  split; [exact Hok'|]. split; [apply (pr_subset _ _ _ _ _ Hpr)|].
  pose proof (flips_gray_bits lv st st' (pr_subset _ _ _ _ _ Hpr)) as Hf.
  destruct (pr_changed _ _ _ _ _ Hpr) as [[-> Hsame]|[-> Hlt]].
  - split; [lia|]. intros _. apply flips_same, Hsame.
  - split; [lia|discriminate].
Qed.

Lemma sweeps_to_steps lv st tr st' :
  store_ok lv st -> sweeps_to G lv st tr st' ->
  (forall i j s s', (i <= j)%nat ->
     (st :: tr ++ [st']) !! i = Some s -> (st :: tr ++ [st']) !! j = Some s' ->
     potw_subset lv s s') /\
  (forall i s s', (st :: tr) !! i = Some s -> tr !! i = Some s' ->
     (0 < flips lv s s')%nat) /\
  (forall s, last (st :: tr) = Some s -> flips lv s st' = 0%nat).
Proof.
  intros Hok Hrun. induction Hrun as [st st' E|st st1 ch tr st' E Hch Hrun IH].
  - destruct (sweep_step lv st st' 0 Hok E) as (_ & Hsub & _ & Hzero).
    split; [|split].
    + intros [|[|i]] [|[|j]] s s' Hij Hi Hj; cbn in Hi, Hj; try discriminate; try lia;
        injection Hi as <-; injection Hj as <-;
        [apply potw_subset_refl | exact Hsub | apply potw_subset_refl].
    + intros i s s' _ Hs'. destruct i; discriminate.
    + intros s [= <-]. apply Hzero. reflexivity.
  - destruct (sweep_step lv st st1 ch Hok E) as (Hok1 & Hsub & Hpos & _).
    destruct (IH Hok1) as (IH1 & IH2 & IH3).
    split; [|split].
    + intros [|i] [|j] s s' Hij Hi Hj; cbn in Hi, Hj.
      * injection Hi as <-. injection Hj as <-. apply potw_subset_refl.
      * injection Hi as <-. eapply potw_subset_trans; [exact Hsub|].
        apply (IH1 0%nat j st1 s'); [lia|reflexivity|exact Hj].
      * lia.
      * apply (IH1 i j); [lia|exact Hi|exact Hj].
    + intros [|i] s s' Hi Hi'; cbn in Hi, Hi'.
      * injection Hi as <-. injection Hi' as <-. apply Hpos. exact Hch.
      * apply (IH2 i); assumption.
    + intros s Hs. apply IH3. rewrite last_cons in Hs.
      destruct (last (st1 :: tr)) eqn:El; [exact Hs|].
      apply last_None in El. discriminate.
Qed.

End Traces.

Section PropagationClaims.
Context {NTYP : Type} {ops : NTYP_ops NTYP}.
Variable G : Globals NTYP.
Implicit Types (lv : Level NTYP) (st : Store).

(** C3: within the propagation of one refinement level, started from the
    grid that [level_setup] leaves after priming the rectangles of the
    periodic points, the loop runs through a sequence of sweeps, and along
    that sequence every bit that is POTW stays POTW: the POTW cells after
    any sweep contain the POTW cells of every earlier state. *)
Theorem propagation_bits_monotone L startwith onecycle mgr h onecycle' lv st0 mgr' :
  level_setup G L startwith onecycle mgr h = Ret (onecycle', lv, st0, mgr') ->
  exists tr st',
    sweeps_to G lv st0 tr st' /\
    (forall fuel, (length tr < fuel)%nat -> while_changed G fuel lv st0 = Ret st') /\
    forall i j s s', (i <= j)%nat ->
      (st0 :: tr ++ [st']) !! i = Some s -> (st0 :: tr ++ [st']) !! j = Some s' ->
      potw_subset lv s s'.
Proof.
  intros E. pose proof (sf_ok _ _ _ _ _ _ (level_setup_spec G _ _ _ _ _ _ _ _ _ E)) as Hok.
  destruct (sweeps_exist G lv _ st0 Hok (Nat.lt_succ_diag_r _)) as (tr & st' & Hrun & _).
  exists tr, st'. split; [exact Hrun|]. split.
  - intros fuel Hfuel. eapply sweeps_to_while; eassumption.
  - apply (sweeps_to_steps G lv st0 tr st' Hok Hrun).
Qed.

(** C4: the propagation loop of a level terminates.  Each sweep that
    reports a change has turned at least one GRAY bit into POTW, the sweep
    that reports none has changed no bit and ends the loop, and all sweeps
    together flip at most as many bits as the words of the rows with memory
    hold. *)
Theorem propagation_terminates L startwith onecycle mgr h onecycle' lv st0 mgr' :
  level_setup G L startwith onecycle mgr h = Ret (onecycle', lv, st0, mgr') ->
  exists tr st',
    sweeps_to G lv st0 tr st' /\
    (forall fuel, (length tr < fuel)%nat -> while_changed G fuel lv st0 = Ret st') /\
    (forall i s s', (st0 :: tr) !! i = Some s -> tr !! i = Some s' ->
       (0 < flips lv s s')%nat) /\
    (forall s, last (st0 :: tr) = Some s -> flips lv s st' = 0%nat) /\
    (total_flips lv st0 tr <= allocated_bits lv st0)%nat.
Proof.
  intros E. pose proof (sf_ok _ _ _ _ _ _ (level_setup_spec G _ _ _ _ _ _ _ _ _ E)) as Hok.
  destruct (sweeps_exist G lv _ st0 Hok (Nat.lt_succ_diag_r _))
    as (tr & st' & Hrun & _ & _ & _ & Hflips & _).
  destruct (sweeps_to_steps G lv st0 tr st' Hok Hrun) as (_ & Hpos & Hlast).
  exists tr, st'. split; [exact Hrun|]. split.
  { intros fuel Hfuel. eapply sweeps_to_while; eassumption. }
  split; [exact Hpos|]. split; [exact Hlast|].
  pose proof (gray_bits_allocated lv st0 Hok). lia.
Qed.

Lemma flips_and_area_sound fuel L startwith onecycle f a :
  flips_and_area G fuel L startwith onecycle = Some (f, a) ->
  exists res tr st',
    level_setup G L startwith onecycle ArrayDDByteManager_new ∅ = Ret res /\
    sweeps_to G res.1.1.2 res.1.2 tr st' /\
    enclosement_area res.1.1.2 = a /\
    Z.of_nat (total_flips res.1.1.2 res.1.2 tr) = f.
Proof.
  unfold flips_and_area. intros H.
  destruct (level_setup _ _ _ _ _ _) as [[[[r lv] st0] m]| | |] eqn:E; try discriminate.
  destruct (while_changed _ _ _ _) as [st'| | |] eqn:Ew; try discriminate.
  injection H as Hf Ha.
  pose proof (sf_ok _ _ _ _ _ _ (level_setup_spec _ _ _ _ _ _ _ _ _ _ E)) as Hok.
  destruct (while_changed_sweeps _ lv _ st0 st' Hok Ew) as [tr Hrun].
  destruct (sweeps_to_facts _ lv st0 tr st' Hok Hrun) as (_ & _ & _ & Hsum).
  exists (r, lv, st0, m), tr, st'. cbn [fst snd].
  split; [reflexivity|]. split; [exact Hrun|]. split; [exact Ha|]. lia.
Qed.

End PropagationClaims.

Lemma int32_pow2 L : 0 <= L <= 30 -> int32 (Z.shiftl 1 L) = 2 ^ L.
Proof.
  intros H. rewrite Z.shiftl_1_l. unfold int32.
  assert (0 < 2 ^ L) by (apply Z.pow_pos_nonneg; lia).
  assert (2 ^ L <= 2 ^ 30) by (apply Z.pow_le_mono_r; lia).
  rewrite Z.mod_small by lia. lia.
Qed.

Section CellMappingClaims.
Context {NTYP : Type} {ops : NTYP_ops NTYP}.
Variable G : Globals NTYP.
Implicit Types (lv : Level NTYP) (st : Store) (r : Root NTYP).


(** C9: when [cm_local] returns, the attractor, the multiplier, the cycle
    length, the cycle number and the point [pp] of every record of the
    cycle array are those of the [Root] it was given, and the array has
    kept its length. *)
Theorem cm_local_keeps_cycle fuel onecycle startwith found onecycle' :
  cm_local G fuel onecycle startwith = Ret (found, onecycle') ->
  attractor onecycle' = attractor onecycle /\
  multiplier onecycle' = multiplier onecycle /\
  cyclelen onecycle' = cyclelen onecycle /\
  cyclenumber onecycle' = cyclenumber onecycle /\
  pp <$> cycle onecycle' = pp <$> cycle onecycle /\
  length (cycle onecycle') = length (cycle onecycle) /\
  interiorfound onecycle' = found.
Proof.
  unfold cm_local. intros E.
  destruct (level_loop _ _ _ _ _ _ _ _) as [[[[f r'] m] h]| | |] eqn:El; try discriminate.
  cbn in E. injection E as <- <-.
  destruct (level_loop_frame G _ _ _ _ _ _ _ _ _ _ _ El) as ((H1 & H2 & H3 & H4 & H5) & _).
  cbn in H1, H2, H3, H4, H5 |- *.
  repeat split; try assumption.
  rewrite <- (length_fmap pp), H5, length_fmap. reflexivity.
Qed.

End CellMappingClaims.

Section BasilicaRuns.

Lemma propagation_bits_monotone_example :
  exists res,
    level_setup (basilica_globals 8 8 1) 8 ALL32POTW basilica_cycle
      ArrayDDByteManager_new ∅ = Ret res /\
    exists tr st',
      sweeps_to (basilica_globals 8 8 1) res.1.1.2 res.1.2 tr st' /\
      potw_subset res.1.1.2 res.1.2 st'.
Proof.
  apply returns_Ret; [vm_compute; reflexivity|].
  intros [[[r lv] st] m] E.
  destruct (propagation_bits_monotone _ _ _ _ _ _ _ _ _ _ E) as (tr & st' & Hrun & _ & Hmono).
  exists tr, st'. split; [exact Hrun|]. cbn [fst snd].
  apply (Hmono 0%nat (S (length tr))); [lia|reflexivity|].
  change (st :: tr ++ [st']) with ((st :: tr) ++ [st']).
  rewrite lookup_app_r by (cbn; lia). cbn [length]. rewrite Nat.sub_diag. reflexivity.
Defined.

Lemma propagation_terminates_example :
  exists res,
    level_setup (basilica_globals 8 8 1) 8 ALL32POTW basilica_cycle
      ArrayDDByteManager_new ∅ = Ret res /\
    exists tr st',
      sweeps_to (basilica_globals 8 8 1) res.1.1.2 res.1.2 tr st' /\
      (total_flips res.1.1.2 res.1.2 tr <= allocated_bits res.1.1.2 res.1.2)%nat.
Proof.
  apply returns_Ret; [vm_compute; reflexivity|].
  intros [[[r lv] st] m] E.
  destruct (propagation_terminates _ _ _ _ _ _ _ _ _ _ E)
    as (tr & st' & Hrun & _ & _ & _ & Hle).
  exists tr, st'. split; [exact Hrun|exact Hle].
Defined.

(** With [ENCW = 32] the enclosement of the two periodic points has 97 x 65
    pixels, its rows hold 4 words each, and the propagation flips 7676
    bits. *)
Lemma flips_exceed_enclosement_area :
  exists res tr st',
    level_setup (basilica_globals 8 8 32) 8 ALL32POTW basilica_cycle
      ArrayDDByteManager_new ∅ = Ret res /\
    sweeps_to (basilica_globals 8 8 32) res.1.1.2 res.1.2 tr st' /\
    enclosement_area res.1.1.2 = 6305 /\
    Z.of_nat (total_flips res.1.1.2 res.1.2 tr) = 7676.
Proof. apply (flips_and_area_sound _ 100). vm_compute. reflexivity. Qed.


Lemma cm_local_keeps_cycle_example :
  exists res,
    cm_local (basilica_globals 8 8 1) 100 basilica_cycle ALL32POTW = Ret res /\
    pp <$> cycle res.2 = pp <$> cycle basilica_cycle.
Proof.
  apply returns_Ret; [vm_compute; reflexivity|].
  intros [found r] E.
  destruct (cm_local_keeps_cycle _ _ _ _ _ _ E) as (_ & _ & _ & _ & Hpp & _).
  exact Hpp.
Defined.

(** The rows of the two periodic points are written into their records. *)
Lemma cm_local_writes_cycle_records :
  exists found onecycle',
    cm_local (basilica_globals 8 8 1) 100 basilica_cycle ALL32POTW
      = Ret (found, onecycle') /\
    pp_y0 <$> cycle basilica_cycle = [0; 0] /\
    pp_y0 <$> cycle onecycle' = [127; 127] /\
    cycle onecycle' <> cycle basilica_cycle.
Proof.
  eexists. eexists. split; [vm_compute; reflexivity|].
  split; [reflexivity|]. split; [reflexivity|]. intros H. discriminate H.
Qed.

End BasilicaRuns.

Section BoundingBoxClaim.
Local Open Scope R_scope.

(** The rectangles the propagation hands to the evaluator are cells of a
    grid of even width that is centred at the origin: none of them has
    the origin strictly between its sides. *)
Lemma cell_rect_axis_free (G : Globals R) (lv : Level R) (xc y h : Z) :
  COMPLETE0 G = - COMPLETE1 G -> 0 < COMPLETE1 G ->
  SCREENWIDTH lv = (2 * h)%Z -> (0 < h)%Z ->
  scaleRangePerPixel lv = (COMPLETE1 G - COMPLETE0 G) / IZR (SCREENWIDTH lv) ->
  axis_free (cell_rect G lv xc y).
Proof.
  intros HC0 HC1 HSW Hh Hsrp.
  assert (Hh' : 0 < IZR h) by (apply IZR_lt; exact Hh).
  assert (Hs : scaleRangePerPixel lv = COMPLETE1 G / IZR h).
  { rewrite Hsrp, HSW, HC0, mult_IZR. field. lra. }
  assert (Hpos : 0 < scaleRangePerPixel lv).
  { rewrite Hs. apply Rdiv_lt_0_compat; assumption. }
  assert (Hc : COMPLETE0 G = - (IZR h * scaleRangePerPixel lv)).
  { rewrite Hs, HC0. field. lra. }
  assert (Haxis : forall k : Z,
             one_sided (IZR k * scaleRangePerPixel lv + COMPLETE0 G)
                       (IZR k * scaleRangePerPixel lv + COMPLETE0 G + scaleRangePerPixel lv)).
  { intros k. rewrite Hc. unfold one_sided.
    destruct (Z_lt_le_dec k h) as [Hlt|Hge].
    - right. assert (IZR k + 1 <= IZR h).
      { rewrite <- plus_IZR. apply IZR_le. lia. }
      nra.
    - left. apply IZR_le in Hge. nra. }
  split; cbn; apply Haxis.
Qed.

(** C1: for a plane rectangle [A] that does not have the origin strictly
    between its left and right or between its lower and upper side, and
    every [z] in [A], the rectangle each of the six evaluators computes in
    exact real arithmetic encloses [p(z)], [p] being the polynomial of the
    same function selector. *)
Theorem bounding_box_encloses (f : FUNC) s cA cC A z :
  seeds_cover s cA cC -> axis_free A -> in_rect A z ->
  encloses (setfunc_bbox f s A) (eval_arg_f (setfunc_fkt f cA cC) z).
Proof.
  intros Hs HA Hz. destruct f; cbn [setfunc_bbox].
  - apply z2c_encloses; assumption.
  - apply z2azc_encloses; assumption.
  - apply z3azc_encloses; assumption.
  - apply z4azc_encloses; assumption.
  - apply z5azc_encloses; assumption.
  - apply z6azc_encloses; assumption.
Qed.

Lemma bounding_box_encloses_example :
  encloses
    (getBoundingBoxfA_z2c
       {| seedC0re := -1; seedC1re := -1; seedC0im := 0; seedC1im := 0;
          FAKTORAre := 0; FAKTORAim := 0 |}
       {| px0 := 0; px1 := 1; py0 := 0; py1 := 1 |})
    (eval_arg_f (setfunc_fkt FUNC_Z2C Czero {| re := -1; im := 0 |})
       {| re := 1; im := 1 |}).
Proof.
  apply (bounding_box_encloses FUNC_Z2C).
  - unfold seeds_cover; cbn. repeat split; lra.
  - unfold axis_free, one_sided; cbn. split; left; lra.
  - unfold in_rect; cbn. split; lra.
Defined.

(** For [A = [-1, 1] x [0, 0]], [z = 0] and [p(z) = z^2]: the left side of
    the computed rectangle is [min (1, 1) - 0 = 1], to the right of
    [p(0) = 0]. *)
Lemma z2c_misses_square_of_zero :
  px0 straddling_rect <= px1 straddling_rect /\
  py0 straddling_rect <= py1 straddling_rect /\
  in_rect straddling_rect Czero /\ seeds_cover zero_seeds Czero Czero /\
  re (eval_arg_f (setfunc_fkt FUNC_Z2C Czero Czero) Czero) = 0 /\
  px0 (getBoundingBoxfA_z2c zero_seeds straddling_rect) = 1 /\
  ~ encloses (getBoundingBoxfA_z2c zero_seeds straddling_rect)
      (eval_arg_f (setfunc_fkt FUNC_Z2C Czero Czero) Czero).
Proof.
  assert (Hre : re (eval_arg_f (setfunc_fkt FUNC_Z2C Czero Czero) Czero) = 0).
  { unfold eval_arg_f. rewrite setfunc_fkt_grad. cbn [degree_of horner].
    unfold coeff_at. rewrite !setfunc_fkt_coeff. cbn. lra. }
  assert (Hx0 : px0 (getBoundingBoxfA_z2c zero_seeds straddling_rect) = 1).
  { cbn. unfold minimumD, maximumD; cbn. unfold Rltb.
    repeat match goal with |- context [Rlt_dec ?a ?b] => destruct (Rlt_dec a b) end; lra. }
  split; [cbn; lra|]. split; [cbn; lra|].
  split; [unfold in_rect; cbn; split; lra|].
  split; [unfold seeds_cover; cbn; repeat split; lra|].
  split; [exact Hre|]. split; [exact Hx0|].
  intros [[H _] _]. rewrite Hre, Hx0 in H. lra.
Qed.

End BoundingBoxClaim.

(** ** The Lagrange bound *)

Section LagrangeProps.
Local Open Scope R_scope.

Lemma Rceil_spec x : IZR (Rceil x) - 1 < x <= IZR (Rceil x).
Proof.
  unfold Rceil. rewrite minus_IZR. destruct (archimed (- x)) as [H1 H2]. split; lra.
Qed.

Lemma Rceil_unique x (n : Z) : IZR n - 1 < x <= IZR n -> Rceil x = n.
Proof.
  intros [H1 H2]. destruct (Rceil_spec x) as [K1 K2].
  assert (IZR (Rceil x) - 1 < IZR n) by lra.
  assert (IZR n - 1 < IZR (Rceil x)) by lra.
  assert (Rceil x - 1 < n)%Z by (apply lt_IZR; rewrite minus_IZR; assumption).
  assert (n - 1 < Rceil x)%Z by (apply lt_IZR; rewrite minus_IZR; assumption).
  lia.
Qed.





Lemma ln2_pos : 0 < ln 2.
Proof. rewrite <- ln_1. apply ln_increasing; lra. Qed.


End LagrangeProps.

(** ** The Lagrange bound in floating-point arithmetic *)

Section RoundingBasics.
Local Open Scope R_scope.


Lemma close_zero u y : close u 0 y -> y = 0.
Proof.
  unfold close. rewrite Rabs_R0, Rmult_0_r. intros H.
  unfold Rabs in H. destruct (Rcase_abs (y - 0)); lra.
Qed.






Lemma Rceil_IZR (n : Z) : Rceil (IZR n) = n.
Proof. apply Rceil_unique. lra. Qed.

Lemma Rtrunc_IZR (n : Z) : Rtrunc (IZR n) = n.
Proof.
  unfold Rtrunc. destruct (Rle_dec 0 (IZR n)); [|apply Rceil_IZR].
  destruct (archimed (IZR n)) as [H1 H2].
  assert (Hup : (n + 1)%Z = up (IZR n)).
  { apply tech_up; rewrite plus_IZR; lra. }
  lia.
Qed.

End RoundingBasics.

Section RoundedLagrange.
Context {NTYP D : Type} {ops : NTYP_ops NTYP} {dops : DOUBLE_ops NTYP D}.
Variables (u : R) (nval : NTYP -> R) (dval : D -> R).
Local Open Scope R_scope.





End RoundedLagrange.

Section LogarithmBounds.
Local Open Scope R_scope.









End LogarithmBounds.

Section RoundedLogarithm.
Context {NTYP D : Type} {ops : NTYP_ops NTYP} {dops : DOUBLE_ops NTYP D}.
Variables (u : R) (nval : NTYP -> R) (dval : D -> R).
Local Open Scope R_scope.




End RoundedLogarithm.

Section RoundedBound.
Context {NTYP D : Type} {ops : NTYP_ops NTYP} {dops : DOUBLE_ops NTYP D}.
Variables (u : R) (nval : NTYP -> R) (dval : D -> R).
Local Open Scope R_scope.





End RoundedBound.

Section ExactArithmetic.
Local Open Scope R_scope.






End ExactArithmetic.

Section LeastPowers.



End LeastPowers.

Section HalfSquare.
Context {NTYP D : Type} {ops : NTYP_ops NTYP} {dops : DOUBLE_ops NTYP D}.
Local Open Scope R_scope.



End HalfSquare.

Section LagrangeClaim.
Context {NTYP D : Type} {ops : NTYP_ops NTYP} {dops : DOUBLE_ops NTYP D}.
Local Open Scope R_scope.


End LagrangeClaim.

Section RoundedUpwards.
Local Open Scope R_scope.



(** The exception of the rounded bound is met: for [z^2] the quotient is
    2, and an arithmetic that rounds [log 2 / log 2] upwards returns 4. *)
Lemma getLagrange_rounded_upwards :
  lagrange_quotient (fun x : R => x) unit_square = 2 /\
  @getLagrange R R R_ops R_double_up unit_square unit_square = 4%Z /\
  getLagrange unit_square unit_square = 2%Z.
Proof.
  assert (E : unit_square =
              {| grad := 2;
                 coeff := <[2%nat := {| re := 1; im := 0 |}]> (replicate MAXDEGREE Czero);
                 coeffnull := <[2%nat := false]> (replicate MAXDEGREE true) |}).
  { unfold unit_square. rewrite setCoeff_one. reflexivity. }
  assert (Hn0 : sqrt (0 * 0 + 0 * 0) = 0).
  { replace (0 * 0 + 0 * 0) with 0 by lra. apply sqrt_0. }
  assert (Hn1 : sqrt (1 * 1 + 0 * 0) = 1).
  { replace (1 * 1 + 0 * 0) with 1 by lra. apply sqrt_1. }
  assert (Hres : forall dops : DOUBLE_ops R R,
            @d_one _ _ dops = 1 -> @d_addN _ _ dops = Rplus -> @d_divN _ _ dops = Rdiv ->
            @d_divN _ _ dops
              (@lagrange_sum R R R_ops dops unit_square (S (grad unit_square)) 0 d_one)
              (norm (coeff_at unit_square (grad unit_square))) = 2).
  { intros dops E1 E2 E3. rewrite E. cbn [grad lagrange_sum].
    rewrite E1, E2, E3. unfold coeff_at, norm. cbn. rewrite Hn0, Hn1. lra. }
  assert (Hc2 : Rceil 2 = 2%Z) by apply (Rceil_IZR 2).
  pose proof ln2_pos as Hb.
  split; [|split].
  - unfold lagrange_quotient, cabs_sum, cabs. rewrite E.
    unfold coeff_at. cbn. rewrite Hn0, Hn1. lra.
  - unfold getLagrange.
    rewrite (Hres R_double_up eq_refl eq_refl eq_refl). cbn [d_int d_ceil d_div d_log d_two R_double_up].
    rewrite Hc2.
    replace (ln 2 / ln 2) with 1 by (field; lra).
    assert (Hu : 0 < / 2 ^ 53 < 1).
    { split; [apply Rinv_0_lt_compat, pow_lt; lra|].
      rewrite <- Rinv_1. apply Rinv_lt_contravar; lra. }
    rewrite (Rceil_unique (1 * (1 + / 2 ^ 53)) 2) by lra.
    rewrite Rtrunc_IZR. reflexivity.
  - unfold getLagrange.
    rewrite (Hres R_double eq_refl eq_refl eq_refl). cbn [d_int d_ceil d_div d_log d_two R_double].
    rewrite Hc2.
    replace (ln 2 / ln 2) with 1 by (field; lra).
    rewrite (Rceil_IZR 1), Rtrunc_IZR. reflexivity.
Qed.

End RoundedUpwards.

Section LagrangeExamples.
Local Open Scope R_scope.



End LagrangeExamples.

(** ** Critical points and critical orbits *)

Section CriticalOrbitProps.
Context {NTYP : Type} {ops : NTYP_ops NTYP}.
Variable MAXIT : Z.
Implicit Types (r : Root NTYP) (zero done todo earlier : list (Root NTYP)).

Lemma cycle_known_cyclelen earlier z :
  cycle_known earlier z = true -> exists r, r ∈ earlier /\ 0 < cyclelen r.
Proof.
  unfold cycle_known. intros H. apply existsb_exists in H as (r & Hin & Hr).
  exists r. split; [apply list_elem_of_In; exact Hin|].
  apply existsb_exists in Hr as (p & Hp & _).
  destruct (Z.to_nat (cyclelen r)) eqn:E; [rewrite take_0 in Hp; destruct Hp|lia].
Qed.

(** What one trip of the loop over the critical points does to the
    count. *)
Lemma orbit_of_cp_count fkt polyabl C1 earlier r cn rv r' cn' rv' :
  orbit_of_cp MAXIT fkt polyabl (C1 * C1)%ntyp earlier r cn rv = (r', cn', rv') ->
  attractor r' = attractor r /\
  (rv' = rv \/ rv' = rv + 1) /\
  (rv' = rv + 1 -> bounded_periodic MAXIT fkt C1 (attractor r) = true) /\
  (0 < cyclelen r' -> rv' = rv + 1) /\
  (bounded_periodic MAXIT fkt C1 (attractor r) = true ->
   rv' = rv + 1 \/ exists r0, r0 ∈ earlier /\ 0 < cyclelen r0).
Proof.
  unfold orbit_of_cp, bounded_periodic.
  destruct (orbit_loop fkt _ (Z.to_nat MAXIT) (attractor r)) as [orbit esc].
  destruct esc; cbn [negb andb].
  { intros [= <- <- <-]. cbn [Root_clear attractor cyclelen].
    split; [reflexivity|]. split; [left; reflexivity|]. split; [lia|].
    split; [lia|discriminate]. }
  destruct (find_cyclestart _ _ _) as [cyclestart|] eqn:Ef.
  - destruct (cycle_known _ _) eqn:Ek.
    + intros [= <- <- <-]. cbn [Root_clear attractor cyclelen].
      split; [reflexivity|]. split; [left; reflexivity|]. split; [lia|].
      split; [lia|]. intros _. right. eapply cycle_known_cyclelen, Ek.
    + intros [= <- <- <-]. cbn [attractor cyclelen].
      split; [reflexivity|]. split; [right; reflexivity|].
      split; [intros _; apply bool_decide_eq_true; eauto|].
      split; [reflexivity|]. intros _. left. reflexivity.
  - intros [= <- <- <-]. cbn [Root_clear attractor cyclelen].
    split; [reflexivity|]. split; [left; reflexivity|]. split; [lia|].
    split; [lia|]. intros H. apply bool_decide_eq_true in H. destruct H; discriminate.
Qed.

Lemma orbits_loop_count fkt polyabl C1 todo : forall done cn rv zero' n,
  orbits_loop MAXIT fkt polyabl (C1 * C1)%ntyp done todo cn rv = (zero', n) ->
  0 <= rv -> (forall r0, r0 ∈ done -> 0 < cyclelen r0 -> 0 < rv) ->
  (0 < n <->
   0 < rv \/ exists r, r ∈ todo /\ bounded_periodic MAXIT fkt C1 (attractor r) = true) /\
  (forall r0, r0 ∈ zero' -> 0 < cyclelen r0 -> 0 < n).
Proof.
  induction todo as [|r todo IH]; intros done cn rv zero' n E Hrv Hinv.
  - cbn in E. injection E as <- <-. split; [|exact Hinv].
    split; [auto|]. intros [H|(r & Hr & _)]; [exact H|inversion Hr].
  - cbn [orbits_loop] in E.
    destruct (orbit_of_cp _ _ _ _ _ _ _ _) as [[r1 cn1] rv1] eqn:Ecp.
    destruct (orbit_of_cp_count _ _ _ _ _ _ _ _ _ _ Ecp) as (_ & Hstep & Hacc & Hlen & Hbp).
    destruct (IH _ _ _ _ _ E) as [Hiff Hall].
    + lia.
    + intros r0 Hr0 Hc. apply elem_of_app in Hr0 as [Hr0|Hr0].
      * specialize (Hinv r0 Hr0 Hc). lia.
      * apply list_elem_of_singleton in Hr0 as ->. specialize (Hlen Hc). lia.
    + split; [|exact Hall]. rewrite Hiff. split.
      * intros [H|(r2 & Hr2 & Hb)].
        -- destruct Hstep as [->| ->]; [left; exact H|].
           destruct (Z_lt_le_dec 0 rv); [left; assumption|].
           right. exists r. split; [left|apply Hacc; reflexivity].
        -- right. exists r2. split; [right; exact Hr2|exact Hb].
      * intros [H|(r2 & Hr2 & Hb)]; [left; lia|].
        apply elem_of_cons in Hr2 as [->|Hr2].
        -- left. destruct (Hbp Hb) as [->|(r0 & Hr0 & Hc)]; [lia|].
           specialize (Hinv r0 Hr0 Hc). lia.
        -- right. exists r2. auto.
Qed.

Lemma for_step_done {S : Type} n i hi d (body : Z -> S -> outcome (S * bool)) s :
  hi < i -> for_step n i hi d body s = Ret s.
Proof.
  intros H. destruct n; cbn [for_step];
    (replace (i <=? hi) with false by (symmetry; apply Z.leb_gt; exact H)); reflexivity.
Qed.

Lemma for_step_trip {S : Type} n i hi d (body : Z -> S -> outcome (S * bool)) s :
  i <= hi ->
  for_step (Datatypes.S n) i hi d body s =
  run (s', brk) := body i s in
  if brk : bool then Ret s' else for_step n (i + d) hi d body s'.
Proof.
  intros H. cbn [for_step].
  replace (i <=? hi) with true by (symmetry; apply Z.leb_le; exact H). reflexivity.
Qed.

(** The third and the fourth walk of [ps_find_critical_points] leave
    their loops at once. *)
Lemma SUCHE_right_edge fktforcp ablforcp C1 zero :
  SUCHE MAXIT fktforcp ablforcp C1 (LEN - 1) (LEN - 1) (LEN - 1) 0 zero = Ret zero.
Proof. unfold SUCHE. apply for_step_done. unfold LEN. lia. Qed.

Lemma SUCHE_bottom_edge fktforcp ablforcp C1 zero :
  SUCHE MAXIT fktforcp ablforcp C1 (LEN - 1) 0 0 0 zero = Ret zero.
Proof.
  unfold SUCHE. change (Z.to_nat (0 - 0 + 1)) with 1%nat.
  change (0 >? 0) with false. cbn iota.
  rewrite for_step_trip by lia.
  rewrite (for_step_done _ (LEN - 1) 0) by (unfold LEN; lia). cbn [obind].
  destruct (_ >=? _); [reflexivity|]. apply for_step_done. lia.
Qed.

End CriticalOrbitProps.

Section CriticalOrbitClaims.
Context {NTYP : Type} {ops : NTYP_ops NTYP}.
Variable MAXIT : Z.

(** C7: [ps_construct_critical_orbits] returns a positive count exactly
    when the orbit of some critical point stays bounded and closes up,
    whether or not its cycle is repelling; a critical point that is left
    with a cycle ([cyclelen > 0]) makes the count positive, and [main]
    leaves with the no-critical-orbit error exactly when the count is
    not positive. *)
Theorem critical_orbit_count_positive (fkt : Polynom NTYP) (C1 : NTYP)
    (zero : list (Root NTYP)) :
  (0 < (ps_construct_critical_orbits MAXIT fkt C1 zero).2 <->
   exists r, r ∈ zero /\ bounded_periodic MAXIT fkt C1 (attractor r) = true) /\
  ((exists r', r' ∈ (ps_construct_critical_orbits MAXIT fkt C1 zero).1 /\ 0 < cyclelen r') ->
   0 < (ps_construct_critical_orbits MAXIT fkt C1 zero).2) /\
  (main_orbit_check MAXIT fkt C1 zero = Exit99 NoCriticalOrbit <->
   (ps_construct_critical_orbits MAXIT fkt C1 zero).2 <= 0).
Proof.
  unfold main_orbit_check.
  destruct (ps_construct_critical_orbits MAXIT fkt C1 zero) as [zero' n] eqn:E.
  unfold ps_construct_critical_orbits in E. cbn [fst snd].
  destruct (orbits_loop_count MAXIT _ _ _ _ _ _ _ _ _ E ltac:(lia)) as [Hiff Hall].
  { intros r0 Hr0. inversion Hr0. }
  split; [|split].
  - rewrite Hiff. split; [intros [H|H]; [lia|exact H]|auto].
  - intros (r' & Hr' & Hc). eapply Hall; eassumption.
  - destruct (n <=? 0) eqn:En; bools; split; try discriminate; try reflexivity; lia.
Qed.

(** C5: the seeding walks of [ps_find_critical_points] after the second
    one start no Newton iteration: the loop of the right edge and the loop
    of the bottom edge are left before their first trip, whatever the
    polynomial and the roots found so far. *)
Theorem seeding_walks_right_and_bottom_are_empty (fktforcp ablforcp : Polynom NTYP)
    (C1 : NTYP) (zero : list (Root NTYP)) :
  SUCHE MAXIT fktforcp ablforcp C1 (LEN - 1) (LEN - 1) (LEN - 1) 0 zero = Ret zero /\
  SUCHE MAXIT fktforcp ablforcp C1 (LEN - 1) 0 0 0 zero = Ret zero.
Proof. split; [apply SUCHE_right_edge | apply SUCHE_bottom_edge]. Qed.

End CriticalOrbitClaims.

Section CriticalOrbitRuns.

(** The only critical point of [z^2 - 2] runs into the fixed point 2,
    whose multiplier 4 is beyond the limit; no cycle is kept, yet the count
    is 1 and [main] goes on. *)
Lemma repelling_cycle_is_counted :
  exists zero zero',
    ps_find_critical_points 25000 z2_minus_2 4%Q = Ret zero /\
    ps_construct_critical_orbits 25000 z2_minus_2 4%Q zero = (zero', 1) /\
    multiplier <$> zero' = [4%Q] /\ cyclelen <$> zero' = [0] /\
    main_orbit_check 25000 z2_minus_2 4%Q zero = Ret zero'.
Proof.
  eexists. eexists. split; [vm_compute; reflexivity|].
  match goal with |- ?a = _ /\ _ =>
    assert (E : a = ([{| attractor := Czero; cycle := []; ps_basinrect := ps_basinrect Root_blank;
                         interiorfound := 0; cyclelen := 0; cyclenumber := 1;
                         multiplier := 4%Q |}], 1)) by (vm_compute; reflexivity)
  end.
  split; [exact E|]. split; [reflexivity|]. split; [reflexivity|].
  unfold main_orbit_check. rewrite E. reflexivity.
Qed.

(** For the Lagrange bound 4 the seeds start at [-48 = -3 * 4^2]. *)
Lemma seeds_start_at_3_R_squared :
  SCRRE0 4%Q = -48 /\ SCRIM0 4%Q = -48 /\ SCRIM1 4%Q = 48 /\
  seed_start 4%Q 0 0 = {| re := (-48)%Q; im := (-48)%Q |}.
Proof. vm_compute. repeat split. Qed.

End CriticalOrbitRuns.


(** ** Complex arithmetic and polynomials over the reals *)

Section ComplexReal.
Local Open Scope R_scope.
Implicit Types (a b c z : Complex R).

Lemma Complex_eq a b : re a = re b -> im a = im b -> a = b.
Proof. destruct a, b; cbn; intros -> ->; reflexivity. Qed.

Lemma Cmul_comm a b : Cmul a b = Cmul b a.
Proof. apply Complex_eq; cbn; ring. Qed.

Lemma Cmul_assoc a b c : Cmul (Cmul a b) c = Cmul a (Cmul b c).
Proof. apply Complex_eq; cbn; ring. Qed.

Lemma Cmul_add_l a b c : Cmul (Cadd a b) c = Cadd (Cmul a c) (Cmul b c).
Proof. apply Complex_eq; cbn; ring. Qed.

Lemma Cadd_assoc a b c : Cadd (Cadd a b) c = Cadd a (Cadd b c).
Proof. apply Complex_eq; cbn; ring. Qed.

Lemma Cadd_comm a b : Cadd a b = Cadd b a.
Proof. apply Complex_eq; cbn; ring. Qed.

Lemma Cadd_zero_r a : Cadd a Czero = a.
Proof. apply Complex_eq; cbn; ring. Qed.

Lemma Cadd_zero_l a : Cadd Czero a = a.
Proof. apply Complex_eq; cbn; ring. Qed.

Lemma Cmul_one_r a : Cmul a {| re := 1; im := 0 |} = a.
Proof. apply Complex_eq; cbn; ring. Qed.

Lemma Cmul_zero_l a : Cmul Czero a = Czero.
Proof. apply Complex_eq; cbn; ring. Qed.

Lemma Cmul_zero_r a : Cmul a Czero = Czero.
Proof. apply Complex_eq; cbn; ring. Qed.

Lemma normQ_nonneg a : 0 <= normQ a.
Proof. unfold normQ; cbn. nra. Qed.

Lemma normQ_zero a : normQ a = 0 <-> a = Czero.
Proof.
  split.
  - unfold normQ; cbn. intros H. apply Complex_eq; cbn; nra.
  - intros ->. unfold normQ; cbn. ring.
Qed.

Lemma horner_sum (p : Polynom R) z i : forall erg,
  horner p z i erg = Cadd (Cmul erg (Cpow z i)) (poly_sum p z i).
Proof.
  induction i as [|i IH]; intros erg; cbn [horner Cpow poly_sum].
  - rewrite Cmul_one_r, Cadd_zero_r. reflexivity.
  - rewrite IH. rewrite Cmul_add_l. rewrite Cadd_assoc.
    rewrite (Cadd_comm (Cmul (coeff_at p i) _)).
    rewrite (Cmul_assoc erg z), (Cmul_comm z (Cpow z i)). reflexivity.
Qed.

End ComplexReal.

Section ComplexClaims.
Local Open Scope R_scope.

(** X1: over the reals, [Polynom::eval_arg_f] (Horner's scheme from
    [coeff[grad]] down) returns the sum of [coeff[j] * z^j] for
    [j = 0 .. grad]. *)
Theorem eval_arg_f_is_sum (p : Polynom R) (z : Complex R) :
  eval_arg_f p z = poly_sum p z (S (grad p)).
Proof.
  unfold eval_arg_f. rewrite horner_sum. cbn [poly_sum]. apply Cadd_comm.
Qed.

(** X2: over the reals, [operator/] undoes [operator*] and the other way
    round, for a divisor other than 0, and [normQ] of a product is the
    product of the [normQ]s. *)
Theorem Cdiv_inverts_Cmul (a b : Complex R) :
  normQ b <> 0 ->
  Cdiv (Cmul a b) b = a /\ Cmul (Cdiv a b) b = a /\
  normQ (Cmul a b) = normQ a * normQ b.
Proof.
  unfold normQ; cbn. intros Hb.
  split; [|split].
  - apply Complex_eq; cbn; field; exact Hb.
  - apply Complex_eq; cbn; field; exact Hb.
  - ring.
Qed.

Lemma Cdiv_inverts_Cmul_example :
  Cdiv (Cmul {| re := 1; im := 2 |} {| re := 0; im := 1 |}) {| re := 0; im := 1 |}
    = {| re := 1; im := 2 |}.
Proof.
  apply (Cdiv_inverts_Cmul {| re := 1; im := 2 |} {| re := 0; im := 1 |}).
  unfold normQ; cbn. lra.
Defined.

End ComplexClaims.


(** ** The derivative [ableitenFA] *)

Section Derivative.
Context {NTYP : Type} {ops : NTYP_ops NTYP}.
Implicit Types (p erg : Polynom NTYP).

Lemma setCoeff_lengths erg i c :
  length (coeff (setCoeff erg i c)) = length (coeff erg) /\
  length (coeffnull (setCoeff erg i c)) = length (coeffnull erg).
Proof. unfold setCoeff. destruct (nltb _ _); cbn; rewrite !length_insert; auto. Qed.

Lemma setCoeff_coeff_at erg i c k :
  (i < length (coeff erg))%nat ->
  coeff_at (setCoeff erg i c) k = if decide (k = i) then c else coeff_at erg k.
Proof.
  intros Hi. unfold coeff_at, setCoeff.
  destruct (nltb _ _); cbn [coeff]; case_decide as Hk.
  - subst. rewrite list_lookup_insert_eq by exact Hi. reflexivity.
  - rewrite list_lookup_insert_ne by congruence. reflexivity.
  - subst. rewrite list_lookup_insert_eq by exact Hi. reflexivity.
  - rewrite list_lookup_insert_ne by congruence. reflexivity.
Qed.

Lemma setCoeff_grad erg i c :
  grad (setCoeff erg i c) =
  if nltb (normQ c) COEFFZEROLIMIT then grad erg else Nat.max (grad erg) i.
Proof.
  unfold setCoeff. destruct (nltb _ _); cbn [grad]; [reflexivity|].
  destruct (Nat.ltb_spec (grad erg) i); lia.
Qed.

(** The state of the loop of [ableitenFA] before index [i]. *)
Lemma ableiten_loop_spec p n : forall i erg,
  (1 <= i)%nat -> (i + n <= MAXDEGREE)%nat ->
  length (coeff erg) = MAXDEGREE ->
  (forall k, coeff_at erg k =
             if decide (S k < i /\ unflagged p (S k) = true)%nat then dcoef p (S k) else Czero) ->
  (S (grad erg) < i \/ grad erg = 0)%nat ->
  (forall k, (S k < i)%nat -> unflagged p (S k) = true ->
     nltb (normQ (dcoef p (S k))) COEFFZEROLIMIT = false -> (k <= grad erg)%nat) ->
  let q := ableiten_loop p n i erg in
  length (coeff q) = MAXDEGREE /\
  (forall k, coeff_at q k =
             if decide (S k < i + n /\ unflagged p (S k) = true)%nat
             then dcoef p (S k) else Czero) /\
  (S (grad q) < i + n \/ grad q = 0)%nat /\
  (forall k, (S k < i + n)%nat -> unflagged p (S k) = true ->
     nltb (normQ (dcoef p (S k))) COEFFZEROLIMIT = false -> (k <= grad q)%nat).
Proof.
  induction n as [|n IH]; intros i erg Hi Hmax Hlen Hco Hgr Hcov; cbn [ableiten_loop].
  - rewrite Nat.add_0_r. auto.
  - replace (i + S n)%nat with (S i + n)%nat by lia.
    destruct (default true (coeffnull p !! i)) eqn:Eflag.
    + assert (Hfi : unflagged p i = false) by (unfold unflagged; rewrite Eflag; reflexivity).
      apply IH; [lia|lia|exact Hlen| |lia|].
      * intros k. rewrite Hco.
        destruct (decide (S k < i /\ unflagged p (S k) = true)%nat) as [[Ha Hb]|Ha],
                 (decide (S k < S i /\ unflagged p (S k) = true)%nat) as [[Hc Hd]|Hc];
          try reflexivity; exfalso.
        -- apply Hc. split; [lia|exact Hb].
        -- destruct (decide (S k = i)) as [E|Hne]; [rewrite E, Hfi in Hd; discriminate|].
           apply Ha. split; [lia|exact Hd].
      * intros k Hk Hf Hs. apply Hcov; [|assumption|assumption].
        destruct (decide (S k = i)) as [E|Hne]; [rewrite E, Hfi in Hf; discriminate|lia].
    + assert (Hfi : unflagged p i = true) by (unfold unflagged; rewrite Eflag; reflexivity).
      fold (dcoef p i).
      apply IH; [lia|lia| | | |].
      * rewrite (proj1 (setCoeff_lengths _ _ _)). exact Hlen.
      * intros k. rewrite setCoeff_coeff_at by lia.
        destruct (decide (k = i - 1)%nat) as [Hk|Hk].
        -- subst k. replace (S (i - 1)) with i by lia.
           rewrite decide_True; [reflexivity|]. split; [lia|exact Hfi].
        -- rewrite Hco.
           destruct (decide (S k < i /\ unflagged p (S k) = true)%nat) as [[Ha Hb]|Ha],
                    (decide (S k < S i /\ unflagged p (S k) = true)%nat) as [[Hc Hd]|Hc];
             try reflexivity; exfalso.
           ++ apply Hc. split; [lia|exact Hb].
           ++ apply Ha. split; [lia|exact Hd].
      * rewrite setCoeff_grad. destruct (nltb _ _); lia.
      * intros k Hk Hf Hs. rewrite setCoeff_grad.
        destruct (decide (S k = i)) as [E|Hne].
        -- subst i. rewrite Hs. replace (S k - 1)%nat with k by lia. lia.
        -- assert (k <= grad erg)%nat by (apply Hcov; [lia|assumption|assumption]).
           destruct (nltb (normQ (dcoef p i)) COEFFZEROLIMIT); lia.
Qed.

Lemma ableitenFA_spec p :
  (grad p < MAXDEGREE)%nat ->
  length (coeff (ableitenFA p)) = MAXDEGREE /\
  (forall k, coeff_at (ableitenFA p) k =
             if decide (k < grad p /\ unflagged p (S k) = true)%nat
             then dcoef p (S k) else Czero) /\
  (grad (ableitenFA p) < grad p \/ grad (ableitenFA p) = 0)%nat /\
  (forall k, (k < grad p)%nat -> unflagged p (S k) = true ->
     nltb (normQ (dcoef p (S k))) COEFFZEROLIMIT = false -> (k <= grad (ableitenFA p))%nat).
Proof.
  intros Hg. unfold ableitenFA.
  assert (Hzero : forall k, coeff_at (clearCoeff (NTYP:=NTYP)) k = Czero).
  { intros k. unfold coeff_at, clearCoeff; cbn [coeff].
    destruct (replicate MAXDEGREE Czero !! k) eqn:E; [|reflexivity].
    apply lookup_replicate in E as [-> _]. reflexivity. }
  destruct (ableiten_loop_spec p (grad p) 1 clearCoeff) as (H1 & H2 & H3 & H4).
  - lia.
  - lia.
  - apply length_replicate.
  - intros k. rewrite decide_False by lia. apply Hzero.
  - right. reflexivity.
  - intros k Hk. lia.
  - split; [exact H1|]. split; [|split].
    + intros k. rewrite H2.
      destruct (decide (S k < 1 + grad p /\ unflagged p (S k) = true)%nat) as [[Ha Hb]|Ha],
               (decide (k < grad p /\ unflagged p (S k) = true)%nat) as [[Hc Hd]|Hc];
        try reflexivity; exfalso.
      * apply Hc. split; [lia|exact Hb].
      * apply Ha. split; [lia|exact Hd].
    + lia.
    + intros k Hk. apply H4. lia.
Qed.

End Derivative.


Section DerivativeReal.
Local Open Scope R_scope.

Lemma Rltb_true a b : Rltb a b = true <-> a < b.
Proof.
  unfold Rltb. destruct (Rlt_dec a b); split; intro K;
    first [assumption | reflexivity | discriminate | contradiction].
Qed.

Lemma Rltb_false a b : Rltb a b = false <-> ~ a < b.
Proof.
  unfold Rltb. destruct (Rlt_dec a b); split; intro K;
    first [assumption | reflexivity | discriminate | contradiction].
Qed.

Lemma limit_pos : 0 < COEFFZEROLIMIT (NTYP:=R).
Proof.
  unfold COEFFZEROLIMIT; cbn. apply Rdiv_lt_0_compat; [lra|].
  apply IZR_lt. reflexivity.
Qed.

Lemma epsilon_pos : 0 < ZEROEPSILON (NTYP:=R).
Proof.
  unfold ZEROEPSILON; cbn. apply Rdiv_lt_0_compat; [lra|].
  apply IZR_lt. reflexivity.
Qed.

Lemma normQ_dcoef (p : Polynom R) (i : nat) :
  normQ (dcoef p i) = IZR (Z.of_nat i) * IZR (Z.of_nat i) * normQ (coeff_at p i).
Proof. unfold dcoef, normQ; cbn. ring. Qed.

Lemma poly_sum_tail (q : Polynom R) z m n :
  (m <= n)%nat -> (forall k, (m <= k < n)%nat -> coeff_at q k = Czero) ->
  poly_sum q z n = poly_sum q z m.
Proof.
  intros Hmn Hz. induction n as [|n IH].
  - assert (m = 0)%nat as -> by lia. reflexivity.
  - destruct (decide (m = S n)) as [->|Hne]; [reflexivity|].
    cbn [poly_sum]. rewrite (Hz n) by lia. rewrite Cmul_zero_l, Cadd_zero_r.
    apply IH; [lia|]. intros k Hk. apply Hz. lia.
Qed.

Lemma poly_sum_deriv (p q : Polynom R) z n :
  (forall k, (k < n)%nat -> coeff_at q k = dcoef p (S k)) ->
  poly_sum q z n = deriv_sum p z n.
Proof.
  intros H. induction n as [|n IH]; [reflexivity|].
  cbn [poly_sum deriv_sum]. rewrite IH by (intros k Hk; apply H; lia).
  rewrite (H n) by lia. reflexivity.
Qed.

Lemma ableitenFA_value (p : Polynom R) (z : Complex R) :
  (grad p < MAXDEGREE)%nat -> flags_exact p ->
  eval_arg_f (ableitenFA p) z = deriv_sum p z (grad p).
Proof.
  intros Hg Hex. destruct (ableitenFA_spec p Hg) as (_ & Hco & Hgr & Hcov).
  assert (Hq : forall k, (k < grad p)%nat -> coeff_at (ableitenFA p) k = dcoef p (S k)).
  { intros k Hk. rewrite Hco.
    destruct (decide (k < grad p /\ unflagged p (S k) = true)%nat) as [_|Hn]; [reflexivity|].
    destruct (Hex (S k) ltac:(lia)) as [[Hf Hz]|[Hf _]].
    - unfold dcoef. rewrite Hz. symmetry. apply Cmul_zero_r.
    - exfalso. apply Hn. split; [exact Hk|]. unfold unflagged. rewrite Hf. reflexivity. }
  unfold eval_arg_f. rewrite horner_sum.
  rewrite Cadd_comm.
  change (Cadd (poly_sum (ableitenFA p) z (grad (ableitenFA p))) _)
    with (poly_sum (ableitenFA p) z (S (grad (ableitenFA p)))).
  destruct (Nat.eq_dec (grad p) 0%nat) as [E0|Hpos].
  - rewrite E0. destruct Hgr as [Hgr|Hgr]; [lia|]. rewrite Hgr.
    cbn [poly_sum deriv_sum]. rewrite Hco, decide_False by lia.
    rewrite Cmul_zero_l. apply Cadd_zero_r.
  - rewrite <- (poly_sum_deriv p (ableitenFA p) z (grad p) Hq).
    symmetry. apply poly_sum_tail; [lia|].
    intros k Hk. rewrite Hco.
    destruct (decide (k < grad p /\ unflagged p (S k) = true)%nat) as [[_ Hf]|_];
      [|reflexivity].
    exfalso.
    assert (k <= grad (ableitenFA p))%nat; [|lia].
    apply Hcov; [lia|exact Hf|].
    destruct (Hex (S k) ltac:(lia)) as [[Hf' _]|[_ Hs]].
    { unfold unflagged in Hf. rewrite Hf' in Hf. discriminate. }
    apply Rltb_false. apply Rltb_false in Hs. rewrite normQ_dcoef.
    pose proof (normQ_nonneg (coeff_at p (S k))).
    assert (1 <= IZR (Z.of_nat (S k))) by (apply IZR_le; lia).
    intros Hlt. apply Hs.
    set (n := IZR (Z.of_nat (S k))) in *. set (x := normQ (coeff_at p (S k))) in *.
    assert (1 <= n * n) by nra.
    assert (0 <= (n * n - 1) * x) by (apply Rmult_le_pos; lra).
    nra.
Qed.

End DerivativeReal.


Section DerivativeFlags.
Context {NTYP : Type} {ops : NTYP_ops NTYP}.
Implicit Types (p erg : Polynom NTYP).

Lemma setCoeff_coeffnull erg i c :
  coeffnull (setCoeff erg i c) =
  <[i := nltb (normQ c) COEFFZEROLIMIT]> (coeffnull erg).
Proof. unfold setCoeff. destruct (nltb _ _); reflexivity. Qed.

(** The flags [ableitenFA] leaves: a coefficient it has set is flagged by
    its size, every other one keeps the flag of [clearCoeff]. *)
Lemma ableiten_loop_flags p n : forall i erg,
  (1 <= i)%nat -> (i + n <= MAXDEGREE)%nat ->
  length (coeffnull erg) = MAXDEGREE ->
  (forall k, (k < MAXDEGREE)%nat ->
     coeffnull erg !! k =
     Some (if decide (S k < i /\ unflagged p (S k) = true)%nat
           then nltb (normQ (dcoef p (S k))) COEFFZEROLIMIT else true)) ->
  let q := ableiten_loop p n i erg in
  length (coeffnull q) = MAXDEGREE /\
  (forall k, (k < MAXDEGREE)%nat ->
     coeffnull q !! k =
     Some (if decide (S k < i + n /\ unflagged p (S k) = true)%nat
           then nltb (normQ (dcoef p (S k))) COEFFZEROLIMIT else true)).
Proof.
  induction n as [|n IH]; intros i erg Hi Hmax Hlen Hfl; cbn [ableiten_loop].
  - rewrite Nat.add_0_r. auto.
  - replace (i + S n)%nat with (S i + n)%nat by lia.
    destruct (default true (coeffnull p !! i)) eqn:Eflag.
    + assert (Hfi : unflagged p i = false) by (unfold unflagged; rewrite Eflag; reflexivity).
      apply IH; [lia|lia|exact Hlen|].
      intros k Hk. rewrite Hfl by exact Hk. f_equal.
      destruct (decide (S k < i /\ unflagged p (S k) = true)%nat) as [[Ha Hb]|Ha],
               (decide (S k < S i /\ unflagged p (S k) = true)%nat) as [[Hc Hd]|Hc];
        try reflexivity; exfalso.
      * apply Hc. split; [lia|exact Hb].
      * destruct (decide (S k = i)) as [E|Hne]; [rewrite E, Hfi in Hd; discriminate|].
        apply Ha. split; [lia|exact Hd].
    + assert (Hfi : unflagged p i = true) by (unfold unflagged; rewrite Eflag; reflexivity).
      fold (dcoef p i).
      apply IH; [lia|lia| |].
      * rewrite (proj2 (setCoeff_lengths _ _ _)). exact Hlen.
      * intros k Hk. rewrite setCoeff_coeffnull.
        destruct (decide (k = i - 1)%nat) as [Hki|Hki].
        -- subst k. rewrite list_lookup_insert_eq by lia.
           replace (S (i - 1)) with i by lia.
           rewrite decide_True; [reflexivity|]. split; [lia|exact Hfi].
        -- rewrite list_lookup_insert_ne by congruence. rewrite Hfl by exact Hk. f_equal.
           destruct (decide (S k < i /\ unflagged p (S k) = true)%nat) as [[Ha Hb]|Ha],
                    (decide (S k < S i /\ unflagged p (S k) = true)%nat) as [[Hc Hd]|Hc];
             try reflexivity; exfalso.
           ++ apply Hc. split; [lia|exact Hb].
           ++ apply Ha. split; [lia|exact Hd].
Qed.

Lemma ableitenFA_flags p :
  (grad p < MAXDEGREE)%nat ->
  length (coeffnull (ableitenFA p)) = MAXDEGREE /\
  (forall k, (k < MAXDEGREE)%nat ->
     coeffnull (ableitenFA p) !! k =
     Some (if decide (k < grad p /\ unflagged p (S k) = true)%nat
           then nltb (normQ (dcoef p (S k))) COEFFZEROLIMIT else true)).
Proof.
  intros Hg. unfold ableitenFA.
  destruct (ableiten_loop_flags p (grad p) 1 clearCoeff) as (H1 & H2).
  - lia.
  - lia.
  - apply length_replicate.
  - intros k Hk. rewrite decide_False by lia. cbn [clearCoeff coeffnull].
    apply lookup_replicate. auto.
  - split; [exact H1|]. intros k Hk. rewrite H2 by exact Hk. f_equal.
    destruct (decide (S k < 1 + grad p /\ unflagged p (S k) = true)%nat) as [[Ha Hb]|Ha],
             (decide (k < grad p /\ unflagged p (S k) = true)%nat) as [[Hc Hd]|Hc];
      try reflexivity; exfalso.
    + apply Hc. split; [lia|exact Hb].
    + apply Ha. split; [lia|exact Hd].
Qed.

End DerivativeFlags.

Section DerivativeExact.
Local Open Scope R_scope.

Lemma dcoef_not_small (p : Polynom R) (i : nat) :
  (1 <= i)%nat ->
  nltb (normQ (coeff_at p i)) COEFFZEROLIMIT = false ->
  nltb (normQ (dcoef p i)) COEFFZEROLIMIT = false.
Proof.
  intros Hi Hs. apply Rltb_false. apply Rltb_false in Hs. rewrite normQ_dcoef.
  pose proof (normQ_nonneg (coeff_at p i)).
  assert (1 <= IZR (Z.of_nat i)) by (apply IZR_le; lia).
  intros Hlt. apply Hs.
  set (n := IZR (Z.of_nat i)) in *. set (x := normQ (coeff_at p i)) in *.
  assert (1 <= n * n) by nra.
  assert (0 <= (n * n - 1) * x) by (apply Rmult_le_pos; lra).
  nra.
Qed.

(** The derivative of a polynomial with exact flags has exact flags. *)
Lemma ableitenFA_exact (p : Polynom R) :
  (grad p < MAXDEGREE)%nat -> flags_exact p ->
  (grad (ableitenFA p) < MAXDEGREE)%nat /\ flags_exact (ableitenFA p).
Proof.
  intros Hg Hex.
  destruct (ableitenFA_spec p Hg) as (_ & Hco & Hgr & _).
  destruct (ableitenFA_flags p Hg) as (_ & Hfl).
  split; [lia|].
  intros i Hi. rewrite Hfl by lia. rewrite Hco.
  destruct (decide (i < grad p /\ unflagged p (S i) = true)%nat) as [[Ha Hb]|Ha].
  - right. destruct (Hex (S i) ltac:(lia)) as [[Hf _]|[_ Hs]].
    { unfold unflagged in Hb. rewrite Hf in Hb. discriminate. }
    pose proof (dcoef_not_small p (S i) ltac:(lia) Hs) as Hd.
    rewrite Hd. auto.
  - left. auto.
Qed.

End DerivativeExact.


Section SetfuncReal.
Local Open Scope R_scope.

Lemma one_not_small : nltb (normQ {| re := 1; im := 0 |}) (COEFFZEROLIMIT (NTYP:=R)) = false.
Proof.
  apply Rltb_false. unfold normQ; cbn. unfold COEFFZEROLIMIT; cbn.
  assert (Hbig : 10 <= IZR (10 ^ 40)) by (apply IZR_le; vm_compute; discriminate).
  assert (Hinv : 1 / IZR (10 ^ 40) * IZR (10 ^ 40) = 1) by (field; lra).
  nra.
Qed.

Lemma zero_small : nltb (normQ Czero) (COEFFZEROLIMIT (NTYP:=R)) = true.
Proof.
  apply Rltb_true. pose proof limit_pos. unfold normQ, Czero; cbn in *. lra.
Qed.

Lemma setfunc_fkt_coeffnull f cA cC :
  coeffnull (setfunc_fkt f cA cC) =
  let base := <[degree_of f := false]> (replicate MAXDEGREE true) in
  <[0%nat := nltb (normQ cC) COEFFZEROLIMIT]>
    (match f with
     | FUNC_Z2C => base
     | _ => <[1%nat := nltb (normQ cA) COEFFZEROLIMIT]> base
     end).
Proof.
  pose proof one_not_small as H1.
  destruct f; unfold setfunc_fkt; rewrite !setCoeff_coeffnull;
    change (nltb (normQ {| re := nofZ 1; im := nofZ 0 |}) COEFFZEROLIMIT)
      with (nltb (normQ {| re := 1; im := 0 |}) (COEFFZEROLIMIT (NTYP:=R)));
    rewrite H1; reflexivity.
Qed.

Lemma exact_coeff_flag c :
  exact_coeff c ->
  (nltb (normQ c) COEFFZEROLIMIT = true /\ c = Czero) \/
  nltb (normQ c) COEFFZEROLIMIT = false.
Proof. intros [->|H]; [left; split; [apply zero_small|reflexivity]|right; exact H]. Qed.

Lemma setfunc_fkt_exact f cA cC :
  exact_coeff cA -> exact_coeff cC ->
  (grad (setfunc_fkt f cA cC) < MAXDEGREE)%nat /\ flags_exact (setfunc_fkt f cA cC).
Proof.
  intros HA HC. rewrite setfunc_fkt_grad.
  split; [unfold MAXDEGREE; destruct f; cbn; lia|].
  intros i Hi. rewrite setfunc_fkt_grad in Hi. unfold coeff_at.
  rewrite setfunc_fkt_coeffnull, setfunc_fkt_coeff. cbn zeta.
  apply exact_coeff_flag in HA, HC.
  pose proof one_not_small as H1.
  destruct f; cbn [degree_of] in Hi;
    do 7 (destruct i as [|i]; [cbn;
      first [ solve [left; split; reflexivity]
            | solve [right; split; [reflexivity|exact H1]]
            | solve [destruct HC as [[Hb Hc]|Hb];
                     [left; split; [f_equal; exact Hb|exact Hc]
                     |right; split; [f_equal; exact Hb|exact Hb]]]
            | solve [destruct HA as [[Hb Hc]|Hb];
                     [left; split; [f_equal; exact Hb|exact Hc]
                     |right; split; [f_equal; exact Hb|exact Hb]]] ] |]);
    lia.
Qed.

End SetfuncReal.


Section PolynomialClaims.
Local Open Scope R_scope.

(** X3: over the reals, the polynomial [setfunc] stores in [fkt]
    evaluates to [z^d + A*z + c], [d] being the degree of the selected
    function, and to [z^2 + c] for [FUNC_Z2C]. *)
Theorem setfunc_polynomial_value (f : FUNC) (cA cC z : Complex R) :
  eval_arg_f (setfunc_fkt f cA cC) z =
  match f with
  | FUNC_Z2C => Cadd (Cpow z 2) cC
  | _ => Cadd (Cadd (Cpow z (degree_of f)) (Cmul cA z)) cC
  end.
Proof.
  destruct f; apply Complex_eq;
    unfold eval_arg_f; rewrite setfunc_fkt_grad; cbn [degree_of horner];
    unfold coeff_at; rewrite !setfunc_fkt_coeff; cbn; ring.
Qed.

(** X5: over the reals, for a polynomial whose flags are exact (a flagged
    coefficient is 0, an unflagged one is not below [COEFFZEROLIMIT]),
    [ableitenFA] yields a polynomial that evaluates to the formal
    derivative, the sum of [(k+1) * coeff[k+1] * z^k], and whose flags are
    exact again, so that the same holds for the second derivative. *)
Theorem ableitenFA_is_derivative (p : Polynom R) (z : Complex R) :
  (grad p < MAXDEGREE)%nat -> flags_exact p ->
  eval_arg_f (ableitenFA p) z = deriv_sum p z (grad p) /\
  flags_exact (ableitenFA p) /\
  eval_arg_f (ableitenFA (ableitenFA p)) z
    = deriv_sum (ableitenFA p) z (grad (ableitenFA p)).
Proof.
  intros Hg Hex. destruct (ableitenFA_exact p Hg Hex) as [Hg' Hex'].
  split; [apply ableitenFA_value; assumption|].
  split; [exact Hex'|]. apply ableitenFA_value; assumption.
Qed.

Lemma ableitenFA_is_derivative_example :
  eval_arg_f
    (ableitenFA (setfunc_fkt FUNC_Z3AZC {| re := 1; im := 0 |} Czero))
    {| re := 2; im := 0 |}
  = deriv_sum (setfunc_fkt FUNC_Z3AZC {| re := 1; im := 0 |} Czero)
      {| re := 2; im := 0 |} 3.
Proof.
  destruct (setfunc_fkt_exact FUNC_Z3AZC {| re := 1; im := 0 |} Czero) as [Hg Hex].
  - right. apply one_not_small.
  - left. reflexivity.
  - destruct (ableitenFA_is_derivative _ {| re := 2; im := 0 |} Hg Hex) as (H & _).
    rewrite setfunc_fkt_grad in H. exact H.
Defined.

End PolynomialClaims.

Section DerivativeClaims.
Context {NTYP : Type} {ops : NTYP_ops NTYP}.

(** X4: for a polynomial of degree below [MAXDEGREE], coefficient [k] of
    the polynomial [ableitenFA] builds is [(k+1) * coeff[k+1]] when
    [k < grad] and [coeff[k+1]] is not flagged as zero, and 0 otherwise (a
    flagged coefficient is skipped whatever its value); its degree is
    below that of the input, or 0. *)
Theorem ableitenFA_coefficients (p : Polynom NTYP) :
  (grad p < MAXDEGREE)%nat ->
  (forall k, coeff_at (ableitenFA p) k =
             if decide (k < grad p /\ unflagged p (S k) = true)%nat
             then dcoef p (S k) else Czero) /\
  (grad (ableitenFA p) < grad p \/ grad (ableitenFA p) = 0)%nat /\
  length (coeff (ableitenFA p)) = MAXDEGREE /\
  length (coeffnull (ableitenFA p)) = MAXDEGREE.
Proof.
  intros Hg. destruct (ableitenFA_spec p Hg) as (Hlen & Hco & Hgr & _).
  destruct (ableitenFA_flags p Hg) as (Hlen' & _). auto.
Qed.

End DerivativeClaims.

Lemma ableitenFA_coefficients_example :
  coeff_at (ableitenFA (setfunc_fkt FUNC_Z2C Czero {| re := (-1)%Q; im := 0%Q |})) 1
  = {| re := 2%Q; im := 0%Q |}.
Proof.
  destruct (ableitenFA_coefficients
              (setfunc_fkt FUNC_Z2C Czero {| re := (-1)%Q; im := 0%Q |})) as (H & _).
  - vm_compute. lia.
  - rewrite H. reflexivity.
Defined.


(** ** Newton's iteration and the table of roots *)

Section NewtonProps.
Context {NTYP : Type} {ops : NTYP_ops NTYP}.
Variable MAXIT : Z.
Implicit Types (z : Complex NTYP) (zero : list (Root NTYP)).

Lemma newton_loop_result polyf polyabl n : forall i0 z0 i z,
  newton_loop polyf polyabl n i0 z0 = Some (i, z) ->
  i0 <= i < i0 + Z.of_nat n /\
  exists zp,
    z = Csub zp (Cdiv (eval_arg_f polyf zp) (eval_arg_f polyabl zp)) /\
    nltb (normQ (Csub z zp)) ZEROEPSILON = true.
Proof.
  induction n as [|n IH]; intros i0 z0 i z E; [discriminate|].
  cbn [newton_loop] in E. cbn zeta in E.
  destruct (nltb _ _) eqn:Eeps.
  - injection E as <- <-. split; [lia|]. exists z0. auto.
  - destruct (IH _ _ _ _ E) as [Hi Hz]. split; [lia|exact Hz].
Qed.

Lemma getNullstellenIdx_found zero aw i r :
  list_find (fun r => close_to (attractor r) aw = true) zero = Some (i, r) ->
  getNullstellenIdx zero aw = Ret (zero, Z.of_nat i).
Proof. unfold getNullstellenIdx. intros ->. reflexivity. Qed.

Lemma getNullstellenIdx_cases zero aw zero' i :
  getNullstellenIdx zero aw = Ret (zero', i) ->
  (zero' = zero /\
   exists r, zero !! Z.to_nat i = Some r /\ close_to (attractor r) aw = true /\
             0 <= i < Z.of_nat (length zero) /\
             forall j r', (j < Z.to_nat i)%nat -> zero !! j = Some r' ->
                          close_to (attractor r') aw = false) \/
  (exists r, zero' = zero ++ [r] /\ attractor r = aw /\ cyclelen r = 0 /\ cycle r = [] /\
             i = Z.of_nat (length zero) /\ Z.of_nat (length zero) <= MAXZEROS - 8 /\
             forall r', r' ∈ zero -> close_to (attractor r') aw = false).
Proof.
  unfold getNullstellenIdx.
  destruct (list_find _ zero) as [[k r]|] eqn:Ef.
  - intros [= <- <-]. left. split; [reflexivity|].
    apply list_find_Some in Ef as (Hk & Hr & Hbefore).
    exists r. rewrite Nat2Z.id. split; [exact Hk|]. split; [exact Hr|].
    split; [apply lookup_lt_Some in Hk; lia|].
    intros j r' Hj Hr'. specialize (Hbefore j r' Hr' Hj).
    destruct (close_to (attractor r') aw); [contradiction|reflexivity].
  - destruct (_ >? _) eqn:Efull; [discriminate|].
    intros [= <- <-]. right. eexists. split; [reflexivity|]. cbn.
    split; [reflexivity|]. split; [reflexivity|]. split; [reflexivity|].
    split; [reflexivity|]. split; [bools; lia|].
    intros r' Hr'. apply list_find_None in Ef.
    rewrite Forall_forall in Ef. specialize (Ef r' Hr').
    destruct (close_to (attractor r') aw); [contradiction|reflexivity].
Qed.

Lemma getNullstellenIdx_full zero aw :
  getNullstellenIdx zero aw = Exit99 TooManyRoots <->
  (forall r, r ∈ zero -> close_to (attractor r) aw = false) /\
  MAXZEROS - 8 < Z.of_nat (length zero).
Proof.
  unfold getNullstellenIdx.
  destruct (list_find _ zero) as [[k r]|] eqn:Ef.
  - split; [discriminate|]. intros [Hnone _].
    apply list_find_Some in Ef as (Hk & Hr & _).
    apply list_elem_of_lookup_2 in Hk. rewrite (Hnone r Hk) in Hr. discriminate.
  - assert (Hnone : forall r, r ∈ zero -> close_to (attractor r) aw = false).
    { intros r' Hr'. apply list_find_None in Ef.
      rewrite Forall_forall in Ef. specialize (Ef r' Hr').
      destruct (close_to (attractor r') aw); [contradiction|reflexivity]. }
    destruct (_ >? _) eqn:Efull; bools.
    + split; [intros _; split; [exact Hnone|lia]|reflexivity].
    + split; [discriminate|]. intros [_ H]. lia.
Qed.

End NewtonProps.


Section NewtonReal.
Local Open Scope R_scope.

Lemma Csub_self (a : Complex R) : Csub a a = Czero.
Proof. apply Complex_eq; cbn; ring. Qed.

Lemma close_to_refl (a : Complex R) : close_to a a = true.
Proof.
  unfold close_to. rewrite Csub_self. apply Rltb_true.
  pose proof epsilon_pos. unfold normQ, Czero; cbn in *. lra.
Qed.

Lemma Cdiv_zero (b : Complex R) : Cdiv Czero b = Czero.
Proof. apply Complex_eq; cbn; unfold Rdiv; ring. Qed.

Lemma Csub_zero (a : Complex R) : Csub a Czero = a.
Proof. apply Complex_eq; cbn; ring. Qed.

(** X6: over the reals, a pair [(i, z)] returned by [newton] has
    [1 <= i < MAXIT] and [z] is one Newton step [zp - f(zp)/f'(zp)] away
    from a point [zp] with [|z - zp|^2 < ZEROEPSILON]; started at a zero of
    [f] where [f'] is not 0, [newton] returns it at step 1 (for
    [MAXIT > 1]); and with
    [MAXIT <= 1] it returns 0 (no result). *)
Theorem newton_returns_small_step (MAXIT : Z) (polyf polyabl : Polynom R)
    (astart : Complex R) :
  (forall i z, newton MAXIT polyf polyabl astart = Some (i, z) ->
     (1 <= i < MAXIT)%Z /\
     exists zp,
       z = Csub zp (Cdiv (eval_arg_f polyf zp) (eval_arg_f polyabl zp)) /\
       normQ (Csub z zp) < ZEROEPSILON) /\
  (eval_arg_f polyf astart = Czero -> normQ (eval_arg_f polyabl astart) <> 0 ->
   (1 < MAXIT)%Z ->
   newton MAXIT polyf polyabl astart = Some (1%Z, astart)) /\
  ((MAXIT <= 1)%Z -> newton MAXIT polyf polyabl astart = None).
Proof.
  unfold newton. split; [|split].
  - intros i z E. destruct (newton_loop_result _ _ _ _ _ _ _ E) as [Hi (zp & Hz & Hs)].
    split; [lia|]. exists zp. split; [exact Hz|]. apply Rltb_true. exact Hs.
  - intros Hroot _ Hit.
    destruct (Z.to_nat (MAXIT - 1)) as [|n] eqn:En; [lia|].
    cbn [newton_loop]. cbn zeta. rewrite Hroot, Cdiv_zero, Csub_zero.
    change (nltb (normQ (Csub astart astart)) ZEROEPSILON) with (close_to astart astart).
    rewrite close_to_refl. reflexivity.
  - intros Hit. replace (Z.to_nat (MAXIT - 1)) with 0%nat by lia. reflexivity.
Qed.

Lemma newton_returns_small_step_example :
  newton 25000 (setfunc_fkt FUNC_Z2C Czero {| re := -1; im := 0 |})
    (setfunc_fkt FUNC_Z2C Czero {| re := 1; im := 0 |}) {| re := 1; im := 0 |}
  = Some (1%Z, {| re := 1; im := 0 |}).
Proof.
  apply newton_returns_small_step.
  - apply Complex_eq; unfold eval_arg_f; rewrite setfunc_fkt_grad; cbn [degree_of horner];
      unfold coeff_at; rewrite !setfunc_fkt_coeff; cbn; ring.
  - unfold eval_arg_f; rewrite setfunc_fkt_grad; cbn [degree_of horner];
      unfold coeff_at; rewrite !setfunc_fkt_coeff; unfold normQ; cbn. lra.
  - lia.
Defined.

(** X7: over the reals, when [getNullstellenIdx] returns index [i], the
    table has an entry [i] whose attractor is within [ZEROEPSILON] of the
    root asked for, the entries it had are unchanged (at most one cleared
    entry is appended, and only when no entry was within [ZEROEPSILON]),
    the table stays within [MAXZEROS - 7] entries, and asking again for the
    same root returns the same index and leaves the table as it is. *)
Theorem getNullstellenIdx_lookup_insert (zero zero' : list (Root R)) (aw : Complex R)
    (i : Z) :
  getNullstellenIdx zero aw = Ret (zero', i) ->
  (exists r, zero' !! Z.to_nat i = Some r /\ close_to (attractor r) aw = true) /\
  (0 <= i < Z.of_nat (length zero'))%Z /\
  (zero' = zero \/
   (exists r, zero' = zero ++ [r] /\ attractor r = aw /\ cyclelen r = 0%Z /\ cycle r = []) /\
   forall r', r' ∈ zero -> close_to (attractor r') aw = false) /\
  ((Z.of_nat (length zero) <= MAXZEROS - 7)%Z ->
   (Z.of_nat (length zero') <= MAXZEROS - 7)%Z) /\
  getNullstellenIdx zero' aw = Ret (zero', i).
Proof.
  intros E. destruct (getNullstellenIdx_cases _ _ _ _ E)
    as [[-> (r & Hr & Hc & Hi & Hfirst)]|(r & -> & Ha & Hl & Hcy & -> & Hcap & Hnone)].
  - split; [eauto|]. split; [exact Hi|]. split; [left; reflexivity|].
    split; [auto|exact E].
  - split.
    { exists r. rewrite Nat2Z.id, lookup_app_r, Nat.sub_diag by lia.
      split; [reflexivity|]. rewrite Ha. apply close_to_refl. }
    split; [rewrite length_app; cbn; lia|].
    split; [right; split; [exists r; auto|exact Hnone]|].
    split; [rewrite length_app; cbn; lia|].
    rewrite (getNullstellenIdx_found (zero ++ [r]) aw (length zero) r); [reflexivity|].
    apply list_find_Some. split; [|split].
    + rewrite lookup_app_r, Nat.sub_diag by lia. reflexivity.
    + rewrite Ha. apply close_to_refl.
    + intros j r' Hj Hlt. rewrite lookup_app_l in Hj by exact Hlt.
      apply list_elem_of_lookup_2 in Hj. rewrite (Hnone r' Hj). discriminate.
Qed.

Lemma getNullstellenIdx_lookup_insert_example :
  getNullstellenIdx (NTYP:=R) [] Czero =
    Ret ([ {| attractor := Czero; cycle := []; ps_basinrect := ps_basinrect Root_blank;
              interiorfound := 0; cyclelen := 0; cyclenumber := 0; multiplier := 0 |} ], 0%Z)
  /\ exists r, [ {| attractor := Czero; cycle := []; ps_basinrect := ps_basinrect Root_blank;
                    interiorfound := 0; cyclelen := 0; cyclenumber := 0;
                    multiplier := 0 |} ] !! 0%nat = Some r /\
               close_to (attractor r) (Czero (NTYP:=R)) = true.
Proof.
  assert (E : getNullstellenIdx (NTYP:=R) [] Czero =
    Ret ([ {| attractor := Czero; cycle := []; ps_basinrect := ps_basinrect Root_blank;
              interiorfound := 0; cyclelen := 0; cyclenumber := 0; multiplier := 0 |} ], 0%Z))
    by reflexivity.
  split; [exact E|].
  destruct (getNullstellenIdx_lookup_insert _ _ _ _ E) as (H & _). exact H.
Defined.

End NewtonReal.


(** ** The search for the critical points *)

Section Seeding.
Context {NTYP : Type} {ops : NTYP_ops NTYP}.
Variable MAXIT : Z.
Implicit Types (zero : list (Root NTYP)).

Lemma for_step_up {S : Type} (I F : S -> Prop) (body : Z -> S -> outcome (S * bool)) hi n :
  forall i s,
  hi - i + 1 <= Z.of_nat n ->
  (forall s, I s -> F s) ->
  (forall j s, i <= j <= hi -> I s ->
     exists s' b, body j s = Ret (s', b) /\ if b : bool then F s' else I s') ->
  I s -> exists s', for_step n i hi 1 body s = Ret s' /\ F s'.
Proof.
  induction n as [|n IH]; intros i s Hn HIF Hbody Hs.
  - cbn [for_step]. replace (i <=? hi) with false by (symmetry; apply Z.leb_gt; lia).
    eauto.
  - cbn [for_step]. destruct (i <=? hi) eqn:Ei; [|eauto]. bools.
    destruct (Hbody i s ltac:(lia) Hs) as (s' & b & E & Hb). rewrite E. cbn [obind].
    destruct b; [eauto|].
    apply IH; [lia|exact HIF| |exact Hb].
    intros j s0 Hj. apply Hbody. lia.
Qed.

Lemma for_step_down {S : Type} (body : Z -> S -> outcome (S * bool)) n i hi d s :
  hi < i -> for_step n i hi d body s = Ret s.
Proof.
  intros H. destruct n; cbn [for_step];
    (replace (i <=? hi) with false by (symmetry; apply Z.leb_gt; exact H)); reflexivity.
Qed.

Lemma pairwise_apart_snoc zero r :
  pairwise_apart zero ->
  (forall r', r' ∈ zero -> close_to (attractor r') (attractor r) = false) ->
  pairwise_apart (zero ++ [r]).
Proof.
  intros Hp Hnew i j ri rj Hij Hi Hj.
  destruct (lt_dec j (length zero)) as [Hlt|Hge].
  - rewrite lookup_app_l in Hi, Hj by lia. exact (Hp i j ri rj Hij Hi Hj).
  - assert (j = length zero) as ->.
    { apply lookup_lt_Some in Hj. rewrite length_app in Hj. cbn in Hj. lia. }
    rewrite lookup_app_r, Nat.sub_diag in Hj by lia. injection Hj as <-.
    rewrite lookup_app_l in Hi by lia. apply Hnew.
    eapply list_elem_of_lookup_2; eassumption.
Qed.

Lemma SUCHE_spec f f' C1 (P : Z -> Z -> Prop) X0 Y0 X1 Y1 zero :
  (forall x y, X0 <= x <= X1 -> Y0 <= y <= Y1 -> P x y) ->
  Z.of_nat (grad f) <= MAXZEROS - 8 ->
  table_ok MAXIT f f' C1 P zero ->
  (length zero < grad f \/ length zero = 0)%nat ->
  exists zero', SUCHE MAXIT f f' C1 X0 Y0 X1 Y1 zero = Ret zero' /\
                table_ok MAXIT f f' C1 P zero'.
Proof.
  intros HP Hcap Hok Hlen. unfold SUCHE.
  set (I := fun z => table_ok MAXIT f f' C1 P z /\ (length z < grad f \/ length z = 0)%nat).
  set (F := table_ok MAXIT f f' C1 P).
  assert (HIF : forall z, I z -> F z) by (intros z [H _]; exact H).
  assert (Hfull : forall z, F z ->
            if Z.of_nat (length z) >=? Z.of_nat (grad f) then F z else I z).
  { intros z Hz. destruct (_ >=? _) eqn:E; [exact Hz|]. bools. split; [exact Hz|lia]. }
  assert (Hinner : forall y, Y0 <= y <= Y1 -> forall x z, X0 <= x <= X1 -> I z ->
            exists z' b,
              match newton MAXIT f f' (seed_start C1 x y) with
              | Some (it, nulls) =>
                  if it >? 0 then
                    run (zero', _) := getNullstellenIdx z nulls in
                    Ret (zero', Z.of_nat (length zero') >=? Z.of_nat (grad f))
                  else Ret (z, false)
              | None => Ret (z, false)
              end = Ret (z', b) /\ if b : bool then F z' else I z').
  { intros y Hy x z Hx Hz.
    destruct (newton MAXIT f f' (seed_start C1 x y)) as [[it nulls]|] eqn:En;
      [|exists z, false; auto].
    destruct (it >? 0); [|exists z, false; auto].
    destruct Hz as [(Hall & Hap & Hmax) Hl].
    destruct (getNullstellenIdx z nulls) as [[z' i]| | |] eqn:Eg.
    - cbn [obind]. do 2 eexists. split; [reflexivity|]. apply Hfull.
      destruct (getNullstellenIdx_cases _ _ _ _ Eg)
        as [[-> _]|(r & -> & Ha & Hc & Hcy & _ & _ & Hnone)].
      + repeat split; assumption.
      + split; [|split].
        * apply Forall_app. split; [exact Hall|]. apply Forall_singleton.
          split; [exact Hc|]. split; [exact Hcy|]. exists x, y, it.
          split; [apply HP; assumption|]. rewrite Ha. exact En.
        * apply pairwise_apart_snoc; [exact Hap|]. rewrite Ha. exact Hnone.
        * rewrite length_app. cbn. lia.
    - exfalso. unfold getNullstellenIdx in Eg. destruct (list_find _ _) as [[? ?]|];
        [discriminate|]. destruct (_ >? _) eqn:Efull; [|discriminate].
      bools. unfold MAXZEROS in *. lia.
    - exfalso. unfold getNullstellenIdx in Eg. destruct (list_find _ _) as [[? ?]|];
        [discriminate|]. destruct (_ >? _); discriminate.
    - exfalso. unfold getNullstellenIdx in Eg. destruct (list_find _ _) as [[? ?]|];
        [discriminate|]. destruct (_ >? _); discriminate. }
  destruct (Y0 >? Y1) eqn:EY; bools.
  { rewrite for_step_down by lia. exists zero. auto. }
  apply (for_step_up I F); [lia|exact HIF| |split; assumption].
  intros y z Hy Hz.
  destruct (X0 >? X1) eqn:EX; bools.
  - rewrite for_step_down by lia. cbn [obind]. do 2 eexists. split; [reflexivity|].
    apply Hfull, HIF, Hz.
  - destruct (for_step_up I F
                (fun x zero =>
                   match newton MAXIT f f' (seed_start C1 x y) with
                   | Some (it, nulls) =>
                       if it >? 0 then
                         run (zero', _) := getNullstellenIdx zero nulls in
                         Ret (zero', Z.of_nat (length zero') >=? Z.of_nat (grad f))
                       else Ret (zero, false)
                   | None => Ret (zero, false)
                   end) X1 (Z.to_nat (X1 - X0 + 1)) X0 z) as (z' & E & Hz');
      [lia|exact HIF| |exact Hz|].
    + intros x z0 Hx Hz0. apply (Hinner y Hy x z0 Hx Hz0).
    + rewrite E. cbn [obind]. do 2 eexists. split; [reflexivity|]. apply Hfull, Hz'.
Qed.

Lemma ps_find_critical_points_spec (fkt : Polynom NTYP) (C1 : NTYP) :
  Z.of_nat (grad (ableitenFA fkt)) <= MAXZEROS - 8 ->
  exists zero,
    ps_find_critical_points MAXIT fkt C1 = Ret zero /\
    Forall (found_from MAXIT (ableitenFA fkt) (ableitenFA (ableitenFA fkt)) C1 on_walk) zero /\
    pairwise_apart zero /\
    (length zero <= Nat.max 1 (grad (ableitenFA fkt)))%nat.
Proof.
  intros Hcap. unfold ps_find_critical_points.
  set (f := ableitenFA fkt) in *. set (f' := ableitenFA f).
  assert (Hmore : forall z, table_ok MAXIT f f' C1 on_walk z ->
            forall X0 Y0 X1 Y1,
              (forall x y, X0 <= x <= X1 -> Y0 <= y <= Y1 -> on_walk x y) ->
              exists z',
                (if Z.of_nat (length z) <? Z.of_nat (grad f)
                 then SUCHE MAXIT f f' C1 X0 Y0 X1 Y1 z else Ret z) = Ret z' /\
                table_ok MAXIT f f' C1 on_walk z').
  { intros z Hz X0 Y0 X1 Y1 HP. destruct (_ <? _) eqn:E; [|eauto]. bools.
    apply SUCHE_spec; [exact HP|exact Hcap|exact Hz|lia]. }
  destruct (SUCHE_spec f f' C1 on_walk 0 0 0 (LEN - 1) []) as (z1 & E1 & H1).
  { intros x y Hx Hy. left. lia. }
  { exact Hcap. }
  { split; [constructor|]. split; [intros i j ri rj _ Hi; discriminate|cbn; lia]. }
  { right. reflexivity. }
  rewrite E1. cbn [obind].
  destruct (Hmore z1 H1 0 (LEN - 1) (LEN - 1) (LEN - 1)) as (z2 & E2 & H2).
  { intros x y Hx Hy. right. lia. }
  rewrite E2. cbn [obind].
  destruct (Hmore z2 H2 (LEN - 1) (LEN - 1) (LEN - 1) 0) as (z3 & E3 & H3).
  { intros x y Hx Hy. unfold LEN in *. lia. }
  rewrite E3. cbn [obind].
  destruct (Hmore z3 H3 (LEN - 1) 0 0 0) as (z4 & E4 & H4).
  { intros x y Hx Hy. unfold LEN in *. lia. }
  exists z4. split; [exact E4|exact H4].
Qed.

(** X8: for a polynomial of degree below [MAXDEGREE],
    [ps_find_critical_points] returns (it takes no exit), and the table it
    leaves holds cleared entries ([cyclelen = 0], no cycle) whose
    attractors Newton's iteration on the derivative returned from a pixel
    of the left edge or of the top row, no entry within [ZEROEPSILON] of a
    later one, and at most as many entries as the degree of the derivative
    (one when that degree is 0). *)
Theorem ps_find_critical_points_table (fkt : Polynom NTYP) (C1 : NTYP) :
  (grad fkt < MAXDEGREE)%nat ->
  exists zero,
    ps_find_critical_points MAXIT fkt C1 = Ret zero /\
    Forall (found_from MAXIT (ableitenFA fkt) (ableitenFA (ableitenFA fkt)) C1 on_walk) zero /\
    pairwise_apart zero /\
    (length zero <= Nat.max 1 (grad (ableitenFA fkt)))%nat.
Proof.
  intros Hg. apply ps_find_critical_points_spec.
  destruct (ableitenFA_spec fkt Hg) as (_ & _ & Hgr & _).
  unfold MAXDEGREE, MAXZEROS in *. lia.
Qed.

End Seeding.

Lemma ps_find_critical_points_table_example :
  exists zero,
    ps_find_critical_points 25000
      (setfunc_fkt FUNC_Z2C Czero {| re := (-1)%Q; im := 0%Q |}) 4%Q = Ret zero /\
    (length zero <= 1)%nat.
Proof.
  destruct (ps_find_critical_points_table 25000
              (setfunc_fkt FUNC_Z2C Czero {| re := (-1)%Q; im := 0%Q |}) 4%Q)
    as (zero & E & _ & _ & Hlen).
  - vm_compute. lia.
  - exists zero. split; [exact E|].
    change (grad (ableitenFA (setfunc_fkt FUNC_Z2C Czero {| re := (-1)%Q; im := 0%Q |})))
      with 1%nat in Hlen. exact Hlen.
Defined.


(** ** The critical orbits *)

Section Orbits.
Context {NTYP : Type} {ops : NTYP_ops NTYP}.
Variable MAXIT : Z.
Implicit Types (r : Root NTYP) (zero done todo earlier : list (Root NTYP)).

Lemma orbit_loop_spec fkt e n : forall z orbit esc,
  orbit_loop fkt e n z = (orbit, esc) ->
  (forall i a b, orbit !! i = Some a -> orbit !! S i = Some b -> b = eval_arg_f fkt a) /\
  (esc = false -> length orbit = n /\
     forall a, a ∈ orbit -> nltb e (normQ a) = false) /\
  (forall a, orbit !! 0%nat = Some a -> a = z).
Proof.
  induction n as [|n IH]; intros z orbit esc E; cbn [orbit_loop] in E.
  - injection E as <- <-. split; [intros i a b Hi; discriminate|].
    split; [intros _; split; [reflexivity|intros a Ha; inversion Ha]|].
    intros a Ha. discriminate.
  - destruct (nltb e (normQ z)) eqn:Eesc.
    + injection E as <- <-. split.
      { intros [|i] a b Hi Hj; cbn in Hj; discriminate. }
      split; [discriminate|]. intros a [= <-]. reflexivity.
    + destruct (orbit_loop fkt e n (eval_arg_f fkt z)) as [orbit' esc'] eqn:Erec.
      injection E as <- <-. destruct (IH _ _ _ Erec) as (Hstep & Hbound & Hhead).
      split; [|split].
      * intros [|i] a b Hi Hj; cbn in Hi, Hj.
        -- injection Hi as <-. apply Hhead. exact Hj.
        -- eapply Hstep; eassumption.
      * intros Hesc. destruct (Hbound Hesc) as [Hlen Hall]. split; [cbn; lia|].
        intros a Ha. apply elem_of_cons in Ha as [->|Ha]; [exact Eesc|apply Hall, Ha].
      * intros a [= <-]. reflexivity.
Qed.

Lemma find_cyclestart_spec (orbit : list (Complex NTYP)) last_ n : forall cs,
  find_cyclestart orbit last_ n = Some cs ->
  (cs < n)%nat /\ close_to (default Czero (orbit !! cs)) last_ = true.
Proof.
  induction n as [|n IH]; intros cs E; cbn [find_cyclestart] in E; [discriminate|].
  destruct (close_to _ _) eqn:Ec.
  - injection E as <-. split; [lia|exact Ec].
  - destruct (IH _ E). split; [lia|assumption].
Qed.

Lemma Root_clear_shape fkt e r : cycle_shape fkt e (Root_clear r).
Proof. left. split; reflexivity. Qed.

(** One trip of the loop over the critical points. *)
Lemma orbit_of_cp_shape fkt polyabl e earlier r cn rv r' cn' rv' :
  orbit_of_cp MAXIT fkt polyabl e earlier r cn rv = (r', cn', rv') ->
  attractor r' = attractor r /\ ps_basinrect r' = ps_basinrect r /\
  cycle_shape fkt e r' /\ (rv' = rv \/ rv' = rv + 1) /\
  (0 < cyclelen r' ->
   forall r0 p pl, r0 ∈ earlier -> p ∈ take (Z.to_nat (cyclelen r0)) (cycle r0) ->
     cycle r' !! (Z.to_nat (cyclelen r') - 1)%nat = Some pl ->
     close_to (pp p) (pp pl) = false).
Proof.
  unfold orbit_of_cp.
  destruct (orbit_loop fkt e (Z.to_nat MAXIT) (attractor r)) as [orbit esc] eqn:Eorb.
  destruct (orbit_loop_spec _ _ _ _ _ _ Eorb) as (Hstep & Hbound & _).
  assert (Hclear : forall cn0 rv0,
            (Root_clear r, cn0, rv0) = (r', cn', rv') -> rv0 = rv ->
            attractor r' = attractor r /\ ps_basinrect r' = ps_basinrect r /\
            cycle_shape fkt e r' /\ (rv' = rv \/ rv' = rv + 1) /\
            (0 < cyclelen r' ->
             forall r0 p pl, r0 ∈ earlier -> p ∈ take (Z.to_nat (cyclelen r0)) (cycle r0) ->
               cycle r' !! (Z.to_nat (cyclelen r') - 1)%nat = Some pl ->
               close_to (pp p) (pp pl) = false)).
  { intros cn0 rv0 [= <- <- <-] ->. cbn.
    split; [reflexivity|]. split; [reflexivity|]. split; [left; auto|].
    split; [left; reflexivity|]. lia. }
  destruct esc; [intros E; eapply Hclear; [exact E|reflexivity]|].
  destruct (Hbound eq_refl) as [Hlen Hin].
  destruct (find_cyclestart _ _ _) as [cs|] eqn:Ecs;
    [|intros E; eapply Hclear; [exact E|reflexivity]].
  destruct (cycle_known _ _) eqn:Eknown; [intros E; eapply Hclear; [exact E|reflexivity]|].
  apply find_cyclestart_spec in Ecs as [Hcs Hclose].
  set (pts := drop (S cs) orbit) in *.
  assert (Hpts : length pts = (length orbit - S cs)%nat) by (unfold pts; apply length_drop).
  assert (Hpos : (1 <= length pts)%nat) by lia.
  assert (Hlk : forall k, pts !! k = orbit !! (S cs + k)%nat) by (intros k; apply lookup_drop).
  set (last_ := default Czero (orbit !! (length orbit - 1)%nat)) in *.
  assert (Hlast : pts !! (length pts - 1)%nat = Some last_).
  { rewrite Hlk. replace (S cs + (length pts - 1))%nat with (length orbit - 1)%nat by lia.
    unfold last_. destruct (orbit !! (length orbit - 1)%nat) eqn:El; [reflexivity|].
    apply lookup_ge_None in El. lia. }
  assert (Hcyc : forall (tl : list (PeriodicPoint NTYP)) k, (k < length pts)%nat ->
            ((blank_point <$> pts) ++ tl) !! k = blank_point <$> (pts !! k)).
  { intros tl k Hk. rewrite lookup_app_l by (rewrite length_fmap; exact Hk).
    apply list_lookup_fmap. }
  set (mult := norm _).
  destruct (nltb (ndiv (nofZ 100001) (nofZ 100000)) mult) eqn:Erep;
    intros [= <- <- <-]; cbn [attractor ps_basinrect cyclelen cycle multiplier].
  { split; [reflexivity|]. split; [reflexivity|].
    split; [left; auto|]. split; [right; reflexivity|]. lia. }
  split; [reflexivity|]. split; [reflexivity|].
  split; [|split; [right; reflexivity|]].
  - right. cbn [cyclelen cycle multiplier]. rewrite !Nat2Z.id. split; [lia|]. split.
    { rewrite length_app, length_fmap. cbn [length replicate]. reflexivity. }
    split; [exact Erep|]. split; [|split].
    + intros k p q Hk Hp Hq. rewrite Hcyc in Hp, Hq by lia.
      destruct (pts !! k) as [a|] eqn:Ea; [|discriminate].
      destruct (pts !! S k) as [b|] eqn:Eb; [|discriminate].
      cbn in Hp, Hq. injection Hp as <-. injection Hq as <-. cbn [pp blank_point].
      rewrite Hlk in Ea, Eb. replace (S cs + S k)%nat with (S (S cs + k)) in Eb by lia.
      eapply Hstep; eassumption.
    + intros k p Hk Hp. rewrite Hcyc in Hp by lia.
      destruct (pts !! k) as [a|] eqn:Ea; [|discriminate].
      cbn in Hp. injection Hp as <-. cbn [pp blank_point]. apply Hin.
      rewrite Hlk in Ea. eapply list_elem_of_lookup_2; eassumption.
    + destruct (orbit !! cs) as [w|] eqn:Ew; [|apply lookup_ge_None in Ew; lia].
      destruct (pts !! 0%nat) as [a|] eqn:Ea; [|apply lookup_ge_None in Ea; lia].
      exists w, (blank_point a), (blank_point last_).
      rewrite !Hcyc by lia. rewrite Ea, Hlast. cbn [fmap option_fmap option_map pp blank_point].
      split; [reflexivity|]. split; [reflexivity|]. split; [exact Hclose|].
      rewrite Hlk in Ea. replace (S cs + 0)%nat with (S cs) in Ea by lia.
      eapply Hstep; eassumption.
  - rewrite Nat2Z.id. intros _ r0 p pl Hr0 Hp Hpl. rewrite Hcyc, Hlast in Hpl by lia.
    cbn in Hpl. injection Hpl as <-. cbn [pp blank_point].
    unfold cycle_known in Eknown.
    destruct (close_to (pp p) last_) eqn:Ec; [|reflexivity].
    exfalso. apply not_true_iff_false in Eknown. apply Eknown.
    apply existsb_exists. exists r0. split; [apply list_elem_of_In; exact Hr0|].
    apply existsb_exists. exists p. split; [apply list_elem_of_In; exact Hp|exact Ec].
Qed.

Lemma orbits_loop_shape fkt polyabl e todo : forall done cn rv zero' n,
  orbits_loop MAXIT fkt polyabl e done todo cn rv = (zero', n) ->
  Forall (cycle_shape fkt e) done -> cycles_apart done ->
  length zero' = (length done + length todo)%nat /\
  attractor <$> zero' = (attractor <$> done) ++ (attractor <$> todo) /\
  ps_basinrect <$> zero' = (ps_basinrect <$> done) ++ (ps_basinrect <$> todo) /\
  Forall (cycle_shape fkt e) zero' /\ cycles_apart zero' /\
  rv <= n <= rv + Z.of_nat (length todo).
Proof.
  induction todo as [|r todo IH]; intros done cn rv zero' n E Hshape Hapart.
  - cbn in E. injection E as <- <-. cbn. rewrite !app_nil_r.
    repeat split; try assumption; lia.
  - cbn [orbits_loop] in E.
    destruct (orbit_of_cp _ _ _ _ _ _ _ _) as [[r1 cn1] rv1] eqn:Ecp.
    destruct (orbit_of_cp_shape _ _ _ _ _ _ _ _ _ _ Ecp) as (Ha & Hb & Hs & Hrv & Hnew).
    destruct (IH _ _ _ _ _ E) as (Hlen & Hatt & Hrect & Hall & Hap & Hn).
    + apply Forall_app. split; [exact Hshape|apply Forall_singleton, Hs].
    + intros i j ri rj p pl Hij Hi Hj Hpos Hp Hpl.
      destruct (lt_dec j (length done)) as [Hlt|Hge].
      * rewrite lookup_app_l in Hi, Hj by lia.
        exact (Hapart i j ri rj p pl Hij Hi Hj Hpos Hp Hpl).
      * assert (j = length done) as ->.
        { apply lookup_lt_Some in Hj. rewrite length_app in Hj. cbn in Hj. lia. }
        rewrite lookup_app_r, Nat.sub_diag in Hj by lia. injection Hj as <-.
        rewrite lookup_app_l in Hi by lia.
        eapply Hnew; [exact Hpos| |exact Hp|exact Hpl].
        eapply list_elem_of_lookup_2; eassumption.
    + rewrite length_app in Hlen. cbn in Hlen |- *.
      rewrite fmap_app in Hatt. rewrite fmap_app in Hrect. cbn in Hatt, Hrect.
      rewrite <- app_assoc in Hatt. rewrite <- app_assoc in Hrect. cbn in Hatt, Hrect.
      rewrite Ha in Hatt. rewrite Hb in Hrect.
      split; [lia|]. split; [exact Hatt|]. split; [exact Hrect|].
      split; [exact Hall|]. split; [exact Hap|]. lia.
Qed.

(** X9: [ps_construct_critical_orbits] keeps the number of entries, their
    attractors and their rectangles; every entry it leaves has no cycle
    ([cyclelen = 0]) or a cycle of [cyclelen >= 1] points in an array of
    [cyclelen + 8] records whose multiplier is not above 1.00001, whose
    points do not leave the escape radius, each being the image of the one
    before and the first the image of a point within [ZEROEPSILON] of the
    last; the last point of a later cycle is not within [ZEROEPSILON] of a
    point of an earlier one; and the value returned is between 0 and the
    number of entries. *)
Theorem ps_construct_critical_orbits_table (fkt : Polynom NTYP) (C1 : NTYP) zero zero' n :
  ps_construct_critical_orbits MAXIT fkt C1 zero = (zero', n) ->
  length zero' = length zero /\
  attractor <$> zero' = attractor <$> zero /\
  ps_basinrect <$> zero' = ps_basinrect <$> zero /\
  Forall (cycle_shape fkt (nmul C1 C1)) zero' /\
  cycles_apart zero' /\
  0 <= n <= Z.of_nat (length zero).
Proof.
  unfold ps_construct_critical_orbits. intros E.
  destruct (orbits_loop_shape _ _ _ _ _ _ _ _ _ E) as (H1 & H2 & H3 & H4 & H5 & H6).
  - constructor.
  - intros i j ri rj p pl _ Hi. discriminate.
  - cbn in H1, H2, H3. repeat split; try assumption; lia.
Qed.

End Orbits.

Lemma ps_construct_critical_orbits_table_example :
  exists zero' n,
    ps_construct_critical_orbits 25000
      (setfunc_fkt FUNC_Z2C Czero {| re := (-1)%Q; im := 0%Q |}) 4%Q
      [Root_blank] = (zero', n) /\
    length zero' = 1%nat /\ 0 <= n <= 1.
Proof.
  destruct (ps_construct_critical_orbits 25000
              (setfunc_fkt FUNC_Z2C Czero {| re := (-1)%Q; im := 0%Q |}) 4%Q
              [Root_blank]) as [zero' n] eqn:E.
  exists zero', n. split; [reflexivity|].
  destruct (ps_construct_critical_orbits_table _ _ _ _ _ _ E) as (H1 & _ & _ & _ & _ & H6).
  split; [exact H1|exact H6].
Defined.


(** ** The grid when the propagation starts *)

Section LoopsIndexed.
Context {S : Type}.

Lemma for_range_ind (P : Z -> S -> Prop) (body : Z -> S -> outcome S) n : forall i s s',
  P i s ->
  (forall j s s', i <= j < i + Z.of_nat n -> P j s -> body j s = Ret s' -> P (j + 1) s') ->
  for_range n i body s = Ret s' -> P (i + Z.of_nat n) s'.
Proof.
  induction n as [|n IH]; intros i s s' Hs Hbody E.
  - cbn in E. injection E as <-. rewrite Z.add_0_r. exact Hs.
  - cbn [for_range] in E. destruct (body i s) as [s1| | |] eqn:E1; try discriminate.
    cbn [obind] in E.
    replace (i + Z.of_nat (Datatypes.S n)) with ((i + 1) + Z.of_nat n) by lia.
    apply (IH (i + 1) s1 s'); [|intros j s0 s0' Hj; apply Hbody; lia|exact E].
    apply (Hbody i s s1); [lia|exact Hs|exact E1].
Qed.

Lemma for_upto_ind (P : Z -> S -> Prop) (body : Z -> S -> outcome S) lo hi s s' :
  lo <= hi + 1 ->
  P lo s ->
  (forall j s s', lo <= j <= hi -> P j s -> body j s = Ret s' -> P (j + 1) s') ->
  for_upto lo hi body s = Ret s' -> P (hi + 1) s'.
Proof.
  intros Hle Hs Hbody E. unfold for_upto in E.
  replace (hi + 1) with (lo + Z.of_nat (Z.to_nat (hi - lo + 1))) by lia.
  eapply for_range_ind; [exact Hs| |exact E].
  intros j s0 s0' Hj. apply Hbody. lia.
Qed.

Lemma for_upto_empty (body : Z -> S -> outcome S) lo hi s :
  hi < lo -> for_upto lo hi body s = Ret s.
Proof. intros H. unfold for_upto. replace (Z.to_nat (hi - lo + 1)) with 0%nat by lia. reflexivity. Qed.

End LoopsIndexed.

Section Priming.
Context {NTYP : Type} {ops : NTYP_ops NTYP}.
Variable G : Globals NTYP.
Implicit Types (lv : Level NTYP) (st : Store).

Lemma SET32_MY_gray lv st M Y st' :
  store_ok lv st -> SET32_MY lv st M Y ALL32GRAY = Ret st' ->
  GET32_MY lv st' M Y = ALL32GRAY /\
  (forall m y, GET32_MY lv st m y = ALL32GRAY -> GET32_MY lv st' m y = ALL32GRAY).
Proof.
  intros Hok E. split.
  - rewrite (GET32_MY_SET32_MY _ _ _ _ _ _ _ _ Hok E). rewrite decide_True by auto. reflexivity.
  - intros m y H. rewrite (GET32_MY_SET32_MY _ _ _ _ _ _ _ _ Hok E).
    case_decide; [reflexivity|exact H].
Qed.

Lemma set_words_gray lv y lo hi st st' :
  store_ok lv st ->
  for_upto lo hi (fun m s => SET32_MY lv s m y ALL32GRAY) st = Ret st' ->
  store_ok lv st' /\
  (forall m' y', GET32_MY lv st m' y' = ALL32GRAY -> GET32_MY lv st' m' y' = ALL32GRAY) /\
  (forall m, lo <= m <= hi -> GET32_MY lv st' m y = ALL32GRAY).
Proof.
  intros Hok E. destruct (Z_lt_le_dec hi lo) as [Hlt|Hle].
  { rewrite for_upto_empty in E by exact Hlt. injection E as <-.
    split; [exact Hok|]. split; [auto|]. intros m Hm. lia. }
  pose proof (for_upto_ind
    (fun j s => store_ok lv s /\
       (forall m' y', GET32_MY lv st m' y' = ALL32GRAY -> GET32_MY lv s m' y' = ALL32GRAY) /\
       (forall m, lo <= m < j -> GET32_MY lv s m y = ALL32GRAY))
    (fun m s => SET32_MY lv s m y ALL32GRAY) lo hi st st') as H.
  cbv beta in H. destruct H as (H1 & H2 & H3); [lia| | |exact E|].
  - split; [exact Hok|]. split; [auto|]. intros m Hm. lia.
  - intros j s s0 Hj (Hs & Hkeep & Hdone) Ej.
    destruct (SET32_MY_gray _ _ _ _ _ Hs Ej) as [Hnew Hold].
    split; [eapply SET32_MY_ok; eassumption|]. split; [auto|].
    intros m Hm. destruct (Z.eq_dec m j) as [->|Hne]; [exact Hnew|].
    apply Hold, Hdone. lia.
  - split; [exact H1|]. split; [exact H2|]. intros m Hm. apply H3. lia.
Qed.

Lemma set_rect_gray lv ylo yhi lo hi st st' :
  store_ok lv st ->
  for_upto ylo yhi
    (fun y s => for_upto lo hi (fun m s => SET32_MY lv s m y ALL32GRAY) s) st = Ret st' ->
  store_ok lv st' /\
  (forall m' y', GET32_MY lv st m' y' = ALL32GRAY -> GET32_MY lv st' m' y' = ALL32GRAY) /\
  (forall m y, lo <= m <= hi -> ylo <= y <= yhi -> GET32_MY lv st' m y = ALL32GRAY).
Proof.
  intros Hok E. destruct (Z_lt_le_dec yhi ylo) as [Hlt|Hle].
  { rewrite for_upto_empty in E by exact Hlt. injection E as <-.
    split; [exact Hok|]. split; [auto|]. intros m y _ Hy. lia. }
  pose proof (for_upto_ind
    (fun j s => store_ok lv s /\
       (forall m' y', GET32_MY lv st m' y' = ALL32GRAY -> GET32_MY lv s m' y' = ALL32GRAY) /\
       (forall m y, lo <= m <= hi -> ylo <= y < j -> GET32_MY lv s m y = ALL32GRAY))
    (fun y s => for_upto lo hi (fun m s => SET32_MY lv s m y ALL32GRAY) s)
    ylo yhi st st') as H.
  cbv beta in H. destruct H as (H1 & H2 & H3); [lia| | |exact E|].
  - split; [exact Hok|]. split; [auto|]. intros m y _ Hy. lia.
  - intros j s s0 Hj (Hs & Hkeep & Hdone) Ej.
    destruct (set_words_gray _ _ _ _ _ _ Hs Ej) as (Hs0 & Hold & Hnew).
    split; [exact Hs0|]. split; [auto|].
    intros m y Hm Hy. destruct (Z.eq_dec y j) as [->|Hne]; [apply Hnew; exact Hm|].
    apply Hold, Hdone; [exact Hm|lia].
  - split; [exact H1|]. split; [exact H2|]. intros m y Hm Hy. apply H3; [exact Hm|lia].
Qed.

Lemma prime_points_gray lv (pts : list (PeriodicPoint NTYP)) : forall st st',
  store_ok lv st -> prime_points lv pts st = Ret st' ->
  (forall m' y', GET32_MY lv st m' y' = ALL32GRAY -> GET32_MY lv st' m' y' = ALL32GRAY) /\
  (forall p m y, p ∈ pts -> pp_mem0 p <= m <= pp_mem1 p -> pp_y0 p <= y <= pp_y1 p ->
     GET32_MY lv st' m y = ALL32GRAY).
Proof.
  induction pts as [|p pts IH]; intros st st' Hok E.
  - cbn in E. injection E as <-. split; [auto|]. intros p m y Hp. inversion Hp.
  - cbn [prime_points] in E.
    destruct (for_upto (pp_y0 p) _ _ _) as [st1| | |] eqn:E1; try discriminate.
    cbn [obind] in E.
    destruct (set_rect_gray _ _ _ _ _ _ _ Hok E1) as (Hok1 & Hold1 & Hnew1).
    destruct (IH _ _ Hok1 E) as (Hold & Hnew).
    split; [auto|]. intros q m y Hq Hm Hy. apply elem_of_cons in Hq as [->|Hq].
    + apply Hold, Hnew1; assumption.
    + eapply Hnew; eassumption.
Qed.

Lemma alloc_rows_unallocated lenx startwith (yw : list Z) : forall mgr h rows mgr' h',
  alloc_rows yw lenx startwith mgr h = Ret (rows, mgr', h') ->
  forall i f, yw !! i = Some f -> f <= 0 -> rows !! i = Some None.
Proof.
  induction yw as [|f0 yw IH]; intros mgr h rows mgr' h' E i f Hi Hf; [discriminate|].
  cbn [alloc_rows] in E. destruct (f0 >? 0) eqn:Ef.
  - destruct (getMemory mgr lenx) as [[p mgr1]| | |]; try discriminate. cbn [obind] in E.
    destruct (alloc_rows yw _ _ mgr1 _) as [[[rows1 mgr2] h2]| | |] eqn:Er; try discriminate.
    cbn [obind] in E. injection E as <- <- <-.
    destruct i as [|i]; cbn in Hi |- *; [injection Hi as ->; bools; lia|].
    eapply IH; eassumption.
  - destruct (alloc_rows yw _ _ mgr _) as [[[rows1 mgr2] h2]| | |] eqn:Er; try discriminate.
    cbn [obind] in E. injection E as <- <- <-.
    destruct i as [|i]; cbn in Hi |- *; [reflexivity|]. eapply IH; eassumption.
Qed.

(** What [level_setup] has run through when it returns. *)
Lemma level_setup_inv L startwith onecycle mgr h onecycle' lv st mgr' :
  level_setup G L startwith onecycle mgr h = Ret (onecycle', lv, st, mgr') ->
  exists st_a,
    store_ok lv st_a /\
    prime_points lv (take (Z.to_nat (cyclelen onecycle)) (cycle onecycle')) st_a = Ret st /\
    (forall i f, ywithgray st_a !! i = Some f -> f <= 0 -> ispotwY st_a !! i = Some None).
Proof.
  unfold level_setup. intros E.
  destruct (setup_points _ _ _ _ _ _ _) as [[cyc encl]| | |] eqn:Esp; try discriminate.
  cbn [obind] in E. destruct (_ >=? _) eqn:Emax; [discriminate|].
  destruct (_ <? 0) eqn:Eleny; [discriminate|].
  cbn [FreeAll] in E.
  destruct (alloc_rows _ _ _ _ _) as [[[rows mgr2] h2]| | |] eqn:Ear; try discriminate.
  cbn [obind] in E.
  destruct (prime_points _ _ _) as [st1| | |] eqn:Epp; try discriminate.
  cbn [obind] in E. injection E as <- <- <- <-.
  set (lv := {| REFINEMENT := L |}) in *.
  set (yw := mark_rows _ _ _) in *.
  assert (Hyw : length yw = Z.to_nat (LOCALLENY lv)).
  { subst yw. match goal with |- length (mark_rows ?a ?b ?c) = _ =>
      rewrite (proj1 (mark_rows_spec a b c)) end. apply length_replicate. }
  exists {| heap := h2; ispotwY := rows; ywithgray := yw |}.
  split; [|split].
  - split; cbn [ispotwY ywithgray].
    + erewrite alloc_rows_length by exact Ear. exact Hyw.
    + exact Hyw.
    + intros Hlenx.
      eapply alloc_rows_spec in Ear as (_ & _ & _ & _ & Hdis); [|exact I|lia].
      exact Hdis.
  - cbn [cycle]. exact Epp.
  - cbn [ispotwY ywithgray]. intros i f Hi Hf.
    eapply alloc_rows_unallocated; eassumption.
Qed.

End Priming.


(** ** What the propagation leaves GRAY *)

Section Trapping.
Context {NTYP : Type} {ops : NTYP_ops NTYP}.
Variable G : Globals NTYP.
Implicit Types (lv : Level NTYP) (st : Store).

Lemma testbit_ALL32POTW bit : 0 <= bit < 32 -> Z.testbit ALL32POTW bit = true.
Proof. intros H. change ALL32POTW with (Z.ones 32). apply Z.ones_spec_low. exact H. Qed.

Lemma any_range_ext n (f g : Z -> bool) : forall i,
  (forall j, f j = g j) -> any_range n i f = any_range n i g.
Proof.
  induction n as [|n IH]; intros i H; [reflexivity|].
  cbn. rewrite H. destruct (g i); [reflexivity|]. apply IH, H.
Qed.

Lemma CELLCOLOR_XY_ext lv st st' X Y :
  heap st' = heap st -> ispotwY st' = ispotwY st ->
  CELLCOLOR_XY lv st' X Y = CELLCOLOR_XY lv st X Y.
Proof.
  intros Hh Hp. unfold CELLCOLOR_XY.
  rewrite (GET32_MY_ext lv st st' _ _ Hh Hp). reflexivity.
Qed.

Lemma cell_escapes_ext lv st st' xc y :
  heap st' = heap st -> ispotwY st' = ispotwY st ->
  cell_escapes G lv st' xc y = cell_escapes G lv st xc y.
Proof.
  intros Hh Hp. unfold cell_escapes, hits_potw, any_upto.
  destruct (_ || _); [reflexivity|].
  apply any_range_ext. intros by_. apply any_range_ext. intros bx.
  rewrite (CELLCOLOR_XY_ext lv st st' _ _ Hh Hp). reflexivity.
Qed.

Lemma bit_body_quiet lv st m y ff0 k b :
  0 <= k -> ff b = Z.shiftr ff0 k ->
  let b1 := bit_body G lv st m y k b in
  ff b1 = Z.shiftr ff0 (k + 1) /\
  (fchanged b1 <= 0 -> fchanged b <= 0 /\
     (Z.testbit ff0 k = false ->
      cell_escapes G lv st (Z.shiftl m SHIFTPERDDBYTE + k) y = false)) /\
  (graythere b1 <= 0 -> graythere b <= 0 /\ Z.testbit ff0 k = true).
Proof.
  intros Hk Hff. unfold bit_body.
  rewrite land_1_testbit, Hff, Z.shiftr_spec by lia. rewrite Z.add_0_l.
  rewrite Z.shiftr_shiftr by lia.
  destruct (Z.testbit ff0 k) eqn:Hbit; cbn [Z.b2z].
  - change (1 =? SQUARE_POTW) with true. cbn iota. cbn.
    split; [reflexivity|]. split; [intros H; split; [exact H|discriminate]|].
    intros H. split; [exact H|reflexivity].
  - change (0 =? SQUARE_POTW) with false. cbn iota.
    destruct (cell_escapes G lv st _ y) eqn:Ec; cbn.
    + split; [reflexivity|]. split; intros H; lia.
    + split; [reflexivity|]. split; [intros H; split; [exact H|reflexivity]|].
      intros H. lia.
Qed.

Lemma bit_loop_quiet lv st m y ff0 n : forall k b,
  0 <= k -> ff b = Z.shiftr ff0 k ->
  let b' := bit_loop G lv st m y n k b in
  (fchanged b' <= 0 -> fchanged b <= 0 /\
     forall i, k <= i < k + Z.of_nat n -> Z.testbit ff0 i = false ->
       cell_escapes G lv st (Z.shiftl m SHIFTPERDDBYTE + i) y = false) /\
  (graythere b' <= 0 -> graythere b <= 0 /\
     forall i, k <= i < k + Z.of_nat n -> Z.testbit ff0 i = true).
Proof.
  induction n as [|n IH]; intros k b Hk Hff; cbn zeta.
  - cbn. split; intros H; (split; [exact H|]); intros i Hi; lia.
  - cbn [bit_loop].
    destruct (bit_body_quiet lv st m y ff0 k b Hk Hff) as (Hff1 & Hc1 & Hg1).
    destruct (IH (k + 1) (bit_body G lv st m y k b) ltac:(lia) Hff1) as (Hc & Hg).
    split.
    + intros H. destruct (Hc H) as [H1 Hrest]. destruct (Hc1 H1) as [H0 Hk0].
      split; [exact H0|]. intros i Hi Hbit.
      destruct (Z.eq_dec i k) as [->|Hne]; [exact (Hk0 Hbit)|].
      apply Hrest; [lia|exact Hbit].
    + intros H. destruct (Hg H) as [H1 Hrest]. destruct (Hg1 H1) as [H0 Hk0].
      split; [exact H0|]. intros i Hi.
      destruct (Z.eq_dec i k) as [->|Hne]; [exact Hk0|]. apply Hrest. lia.
Qed.

(** One word: nothing changed means that no GRAY bit of the word is due,
    and no GRAY seen means that the word holds none. *)
Lemma word_body_quiet lv y m st c g st' c' g' :
  word_body G lv y m (st, c, g) = Ret (st', c', g') ->
  ywithgray st' = ywithgray st /\
  (g' <= 0 -> g <= 0 /\ no_gray_bits (GET32_MY lv st m y)) /\
  (c' <= 0 -> c <= 0 /\ st' = st /\
     forall bit, 0 <= bit < 32 -> Z.testbit (GET32_MY lv st m y) bit = false ->
       cell_escapes G lv st (Z.shiftl m SHIFTPERDDBYTE + bit) y = false).
Proof.
  unfold word_body. intros E.
  destruct (GET32_MY lv st m y =? ALL32POTW) eqn:Epotw.
  { injection E as <- <- <-. apply Z.eqb_eq in Epotw. rewrite Epotw.
    split; [reflexivity|]. split.
    - intros H. split; [exact H|]. intros bit Hb. apply testbit_ALL32POTW, Hb.
    - intros H. split; [exact H|]. split; [reflexivity|].
      intros bit Hb Hgray. rewrite testbit_ALL32POTW in Hgray by exact Hb. discriminate. }
  pose proof (bit_loop_quiet lv st m y (GET32_MY lv st m y) 32 0
                {| ff := GET32_MY lv st m y; fneu := GET32_MY lv st m y;
                   fchanged := 0; graythere := g |} ltac:(lia)
                ltac:(cbn; rewrite Z.shiftr_0_r; reflexivity)) as [Hc Hg].
  cbn zeta in Hc, Hg.
  remember (bit_loop G lv st m y 32 0
              {| ff := GET32_MY lv st m y; fneu := GET32_MY lv st m y;
                 fchanged := 0; graythere := g |}) as b eqn:Hb.
  clear Hb.
  destruct (fchanged b >? 0) eqn:Ech.
  - destruct (SET32_MY lv st m y (fneu b)) as [st1| | |] eqn:Eset; try discriminate.
    cbn [obind] in E. injection E as <- <- <-.
    destruct (SET32_MY_frame _ _ _ _ _ _ Eset) as (_ & Hy & _).
    split; [exact Hy|]. split; [|intros H; lia].
    intros H. destruct (Hg H) as [H0 Hbits]. cbn in H0.
    split; [exact H0|]. intros bit Hb. apply Hbits. cbn. lia.
  - injection E as <- <- <-. bools.
    split; [reflexivity|]. split.
    + intros H. destruct (Hg H) as [H0 Hbits]. cbn in H0.
      split; [exact H0|]. intros bit Hb. apply Hbits. cbn. lia.
    + intros H. split; [exact H|]. split; [reflexivity|].
      intros bit Hb Hgray. destruct (Hc Ech) as [_ Hq]. apply Hq; [cbn; lia|exact Hgray].
Qed.

Lemma no_gray_bits_mono lv st st' m y :
  potw_subset lv st st' -> no_gray_bits (GET32_MY lv st m y) ->
  no_gray_bits (GET32_MY lv st' m y).
Proof. intros Hsub H bit Hb. apply Hsub. unfold is_potw. apply H, Hb. Qed.

Lemma word_body_progress lv y m st c g st' c' g' :
  store_ok lv st -> word_body G lv y m (st, c, g) = Ret (st', c', g') ->
  store_ok lv st' /\ progress lv st c st' c'.
Proof.
  intros Hok E. destruct (word_body_spec G lv y m st c g Hok) as (s & c1 & g1 & E1 & H1 & H2).
  rewrite E in E1. injection E1 as <- <- <-. split; assumption.
Qed.

Lemma row_body_progress lv y st c st' c' :
  store_ok lv st -> row_body G lv y (st, c) = Ret (st', c') ->
  store_ok lv st' /\ progress lv st c st' c'.
Proof.
  intros Hok E. destruct (row_body_spec G lv y st c Hok) as (s & c1 & E1 & H1 & H2).
  rewrite E in E1. injection E1 as <- <-. split; assumption.
Qed.

(** The words of one row. *)
Lemma words_quiet lv y st c st' c' g' :
  store_ok lv st ->
  for_upto (mem0 lv) (mem1 lv) (word_body G lv y) (st, c, 0) = Ret (st', c', g') ->
  ywithgray st' = ywithgray st /\
  (g' <= 0 -> forall m, mem0 lv <= m <= mem1 lv -> no_gray_bits (GET32_MY lv st' m y)) /\
  (c' <= 0 -> c <= 0 /\ st' = st /\
     forall m bit, mem0 lv <= m <= mem1 lv -> 0 <= bit < 32 ->
       Z.testbit (GET32_MY lv st m y) bit = false ->
       cell_escapes G lv st (Z.shiftl m SHIFTPERDDBYTE + bit) y = false).
Proof.
  intros Hok E. destruct (Z_lt_le_dec (mem1 lv) (mem0 lv)) as [Hlt|Hle].
  { rewrite for_upto_empty in E by exact Hlt. injection E as <- <- <-.
    split; [reflexivity|]. split; [intros _ m Hm; lia|].
    intros H. split; [exact H|]. split; [reflexivity|]. intros m bit Hm. lia. }
  pose proof (for_upto_ind
    (fun j (s : Store * Z * Z) =>
       store_ok lv s.1.1 /\ ywithgray s.1.1 = ywithgray st /\
       (s.2 <= 0 -> forall m, mem0 lv <= m < j -> no_gray_bits (GET32_MY lv s.1.1 m y)) /\
       (s.1.2 <= 0 -> c <= 0 /\ s.1.1 = st /\
          forall m bit, mem0 lv <= m < j -> 0 <= bit < 32 ->
            Z.testbit (GET32_MY lv st m y) bit = false ->
            cell_escapes G lv st (Z.shiftl m SHIFTPERDDBYTE + bit) y = false))
    (word_body G lv y) (mem0 lv) (mem1 lv) (st, c, 0) (st', c', g')) as H.
  cbv beta in H. cbn [fst snd] in H.
  destruct H as (_ & Hy & Hg & Hc); [lia| | |exact E|].
  - split; [exact Hok|]. split; [reflexivity|]. split; [intros _ m Hm; lia|].
    intros H. split; [exact H|]. split; [reflexivity|]. intros m bit Hm. lia.
  - intros j [[s c1] g1] [[s2 c2] g2] Hj (Hs & Hyw & Hgray & Hquiet) Ej.
    cbn [fst snd] in *.
    destruct (word_body_progress _ _ _ _ _ _ _ _ _ Hs Ej) as (Hs2 & [_ Hsub _]).
    destruct (word_body_quiet _ _ _ _ _ _ _ _ _ Ej) as (Hyw2 & Hg2 & Hc2).
    split; [exact Hs2|]. split; [congruence|]. split.
    + intros H m Hm. destruct (Hg2 H) as [H1 Hword].
      eapply no_gray_bits_mono; [exact Hsub|].
      destruct (Z.eq_dec m j) as [->|Hne]; [exact Hword|]. apply Hgray; [exact H1|lia].
    + intros H. destruct (Hc2 H) as (H1 & -> & Hword).
      destruct (Hquiet H1) as (H0 & -> & Hrest).
      split; [exact H0|]. split; [reflexivity|]. intros m bit Hm Hb Hgray0.
      destruct (Z.eq_dec m j) as [->|Hne]; [apply Hword; assumption|].
      apply Hrest; [lia|exact Hb|exact Hgray0].
  - split; [exact Hy|]. split.
    + intros H m Hm. apply Hg; [exact H|lia].
    + intros H. destruct (Hc H) as (H0 & H1 & Hrest).
      split; [exact H0|]. split; [exact H1|]. intros m bit Hm. apply Hrest. lia.
Qed.

Lemma GET32_MY_outside lv st m y :
  ~ (mem0 lv <= m <= mem1 lv) -> GET32_MY lv st m y = ALL32POTW.
Proof.
  intros H. destruct (Z.eq_dec (GET32_MY lv st m y) ALL32POTW) as [E|E]; [exact E|].
  destruct (GET32_MY_gray_row _ _ _ _ E) as (Hm & _). contradiction.
Qed.

(** One row. *)
Lemma row_body_quiet lv y st c st' c' :
  store_ok lv st -> flags_sound lv st ->
  sy0 (enclosementall lv) <= y <= sy1 (enclosementall lv) ->
  row_body G lv y (st, c) = Ret (st', c') ->
  flags_sound lv st' /\
  (c' <= 0 -> c <= 0 /\ heap st' = heap st /\ ispotwY st' = ispotwY st /\
     forall m bit, 0 <= bit < 32 ->
       Z.testbit (GET32_MY lv st m y) bit = false ->
       cell_escapes G lv st (Z.shiftl m SHIFTPERDDBYTE + bit) y = false).
Proof.
  intros Hok Hfl Hy E.
  destruct (row_body_progress _ _ _ _ _ _ Hok E) as (Hok' & [Hrows Hsub _]).
  unfold row_body in E. destruct (_ <=? 0) eqn:Eflag.
  { injection E as <- <-. split; [exact Hfl|].
    intros H. split; [exact H|]. split; [reflexivity|]. split; [reflexivity|].
    intros m bit Hb Hgray. bools.
    rewrite (Hfl y Hy Eflag m bit Hb) in Hgray. discriminate. }
  destruct (for_upto _ _ _ _) as [[[st1 c1] g1]| | |] eqn:Ew; try discriminate.
  cbn [obind] in E.
  destruct (words_quiet _ _ _ _ _ _ _ Hok Ew) as (Hyw & Hg & Hc).
  assert (Hsub1 : potw_subset lv st st1 /\ ispotwY st1 = ispotwY st).
  { destruct (Z_lt_le_dec (mem1 lv) (mem0 lv)) as [Hlt|Hle].
    { rewrite for_upto_empty in Ew by exact Hlt. injection Ew as <- <- <-.
      split; [apply potw_subset_refl|reflexivity]. }
    pose proof (for_upto_ind
      (fun (_ : Z) (s : Store * Z * Z) =>
         store_ok lv s.1.1 /\ potw_subset lv st s.1.1 /\ ispotwY s.1.1 = ispotwY st)
      (word_body G lv y) (mem0 lv) (mem1 lv) (st, c, 0) (st1, c1, g1)) as H.
    cbv beta in H. cbn [fst snd] in H.
    destruct H as (_ & H1 & H2); [lia| | |exact Ew|split; assumption].
    - split; [exact Hok|]. split; [apply potw_subset_refl|reflexivity].
    - intros j [[s ca] ga] [[s2 cb] gb] _ (Hs & Hsa & Hra) Ej. cbn [fst snd] in *.
      destruct (word_body_progress _ _ _ _ _ _ _ _ _ Hs Ej) as (Hs2 & [Hr2 Hsub2 _]).
      split; [exact Hs2|]. split; [eapply potw_subset_trans; eassumption|congruence]. }
  destruct Hsub1 as [Hsub1 Hrows1].
  assert (Hget : forall m y0, GET32_MY lv st' m y0 = GET32_MY lv st1 m y0).
  { intros m y0. injection E as <- <-.
    destruct (g1 <=? 0); [apply GET32_MY_ext; reflexivity|reflexivity]. }
  split.
  - intros y2 Hy2 Hflag2 m. rewrite Hget.
    destruct (Z.eq_dec y2 y) as [->|Hne].
    + (* the row itself: its flag is off only when no GRAY was seen *)
      injection E as <- <-. destruct (g1 <=? 0) eqn:Eg.
      * bools. destruct (decide (mem0 lv <= m <= mem1 lv)) as [Hm|Hm].
        -- apply Hg; [exact Eg|exact Hm].
        -- rewrite GET32_MY_outside by exact Hm. intros bit Hb.
           apply testbit_ALL32POTW, Hb.
      * rewrite Hyw in Hflag2. bools. lia.
    + eapply no_gray_bits_mono; [exact Hsub1|]. apply Hfl; [exact Hy2|].
      injection E as <- <-. destruct (g1 <=? 0).
      * cbn [ywithgray] in Hflag2.
        rewrite list_lookup_insert_ne in Hflag2 by lia. rewrite Hyw in Hflag2. exact Hflag2.
      * rewrite Hyw in Hflag2. exact Hflag2.
  - intros H. assert (Hc' : c' = c1).
    { injection E as <- <-. reflexivity. }
    rewrite Hc' in H. destruct (Hc H) as (H0 & -> & Hrest).
    split; [exact H0|]. injection E as <- <-.
    split; [destruct (g1 <=? 0); reflexivity|].
    split; [destruct (g1 <=? 0); reflexivity|].
    intros m bit Hb Hgray.
    destruct (decide (mem0 lv <= m <= mem1 lv)) as [Hm|Hm].
    + apply Hrest; assumption.
    + rewrite GET32_MY_outside in Hgray by exact Hm.
      rewrite testbit_ALL32POTW in Hgray by exact Hb. discriminate.
Qed.

(** One sweep. *)
Lemma sweep_quiet lv st st' c' :
  store_ok lv st -> flags_sound lv st ->
  sweep G lv st = Ret (st', c') ->
  store_ok lv st' /\ flags_sound lv st' /\ (c' <= 0 -> trapped G lv st').
Proof.
  intros Hok Hfl E. unfold sweep in E.
  destruct (Z_lt_le_dec (sy1 (enclosementall lv)) (sy0 (enclosementall lv))) as [Hlt|Hle].
  { rewrite for_upto_empty in E by exact Hlt. injection E as <- <-.
    split; [exact Hok|]. split; [exact Hfl|]. intros _ m y bit Hb Hgray.
    assert (Hne : GET32_MY lv st m y <> ALL32POTW).
    { intros Heq. rewrite Heq, testbit_ALL32POTW in Hgray by exact Hb. discriminate. }
    destruct (GET32_MY_gray_row _ _ _ _ Hne) as (_ & Hy & _). lia. }
  pose proof (for_upto_ind
    (fun j (s : Store * Z) =>
       store_ok lv s.1 /\ flags_sound lv s.1 /\
       (s.2 <= 0 -> heap s.1 = heap st /\ ispotwY s.1 = ispotwY st /\
          forall y m bit, sy0 (enclosementall lv) <= y < j -> 0 <= bit < 32 ->
            Z.testbit (GET32_MY lv st m y) bit = false ->
            cell_escapes G lv st (Z.shiftl m SHIFTPERDDBYTE + bit) y = false))
    (row_body G lv) (sy0 (enclosementall lv)) (sy1 (enclosementall lv)) (st, 0) (st', c')) as H.
  cbv beta in H. cbn [fst snd] in H.
  destruct H as (Hok' & Hfl' & Hq); [lia| | |exact E|].
  - split; [exact Hok|]. split; [exact Hfl|]. intros _.
    split; [reflexivity|]. split; [reflexivity|]. intros y m bit Hy. lia.
  - intros j [s c1] [s2 c2] Hj (Hs & Hfs & Hquiet) Ej. cbn [fst snd] in *.
    destruct (row_body_progress _ _ _ _ _ _ Hs Ej) as (Hs2 & _).
    destruct (row_body_quiet _ _ _ _ _ _ Hs Hfs Hj Ej) as (Hfs2 & Hc2).
    split; [exact Hs2|]. split; [exact Hfs2|].
    intros H. destruct (Hc2 H) as (H1 & Hh & Hr & Hrow).
    destruct (Hquiet H1) as (Hh0 & Hr0 & Hrest).
    split; [congruence|]. split; [congruence|]. intros y m bit Hy Hb Hgray.
    destruct (Z.eq_dec y j) as [->|Hne]; [|apply Hrest; [lia|exact Hb|exact Hgray]].
    rewrite <- (cell_escapes_ext lv st s _ _ Hh0 Hr0). apply Hrow; [exact Hb|].
    rewrite (GET32_MY_ext lv st s _ _ Hh0 Hr0). exact Hgray.
  - split; [exact Hok'|]. split; [exact Hfl'|].
    intros H. destruct (Hq H) as (Hh & Hr & Hall). intros m y bit Hb Hgray.
    rewrite (GET32_MY_ext lv st st' _ _ Hh Hr) in Hgray.
    rewrite (cell_escapes_ext lv st st' _ _ Hh Hr).
    assert (Hne : GET32_MY lv st m y <> ALL32POTW).
    { intros Heq. rewrite Heq, testbit_ALL32POTW in Hgray by exact Hb. discriminate. }
    destruct (GET32_MY_gray_row _ _ _ _ Hne) as (_ & Hy & _).
    apply Hall; [lia|exact Hb|exact Hgray].
Qed.

Lemma while_changed_trapped lv fuel : forall st st',
  store_ok lv st -> flags_sound lv st ->
  while_changed G fuel lv st = Ret st' -> trapped G lv st'.
Proof.
  induction fuel as [|fuel IH]; intros st st' Hok Hfl E; [discriminate|].
  cbn [while_changed] in E.
  destruct (sweep G lv st) as [[st1 ch]| | |] eqn:Es; try discriminate.
  cbn [obind] in E.
  destruct (sweep_quiet _ _ _ _ Hok Hfl Es) as (Hok1 & Hfl1 & Hq).
  destruct (ch >? 0) eqn:Ech.
  - eapply IH; eassumption.
  - injection E as <-. bools. apply Hq. lia.
Qed.

(** The flags are sound when the propagation starts: a row that is not
    marked has no words. *)
Lemma level_setup_flags L startwith onecycle mgr h onecycle' lv st mgr' :
  level_setup G L startwith onecycle mgr h = Ret (onecycle', lv, st, mgr') ->
  store_ok lv st /\ flags_sound lv st.
Proof.
  intros E. destruct (level_setup_inv G _ _ _ _ _ _ _ _ _ E) as (st_a & Hok & Epp & Hnone).
  destruct (prime_points_sound _ _ _ _ Hok Epp) as (Hok' & [Hr Hy]).
  split; [exact Hok'|]. intros y Hyr Hflag m bit Hb.
  rewrite Hy in Hflag.
  destruct (ywithgray st_a !! Z.to_nat (y - sy0 (enclosementall lv))) as [f|] eqn:Ef.
  - cbn in Hflag. pose proof (Hnone _ _ Ef Hflag) as Hrow.
    unfold GET32_MY, row_ptr. rewrite Hr, Hrow. cbn.
    destruct (_ && _); apply testbit_ALL32POTW, Hb.
  - apply lookup_ge_None in Ef. destruct Hok as [_ Hlen _].
    unfold LOCALLENY in Hlen. lia.
Qed.

End Trapping.

Section TrappingClaim.
Context {NTYP : Type} {ops : NTYP_ops NTYP}.
Variable G : Globals NTYP.

(** X10: when the propagation loop of a level stops, every cell that is still
    GRAY is trapped: the bounding box of its image lies entirely in [local]
    and in the COMPLETE square, and every pixel the box intersects reads
    GRAY in the final grid. *)
Theorem gray_cells_are_trapped L startwith onecycle mgr h onecycle' lv st0 mgr' fuel st' :
  level_setup G L startwith onecycle mgr h = Ret (onecycle', lv, st0, mgr') ->
  while_changed G fuel lv st0 = Ret st' ->
  forall m y bit, 0 <= bit < 32 ->
    Z.testbit (GET32_MY lv st' m y) bit = false ->
    let bbxfA := getBoundingBoxfA G (cell_rect G lv (Z.shiftl m SHIFTPERDDBYTE + bit) y) in
    SQUARE_LIES_ENTIRELY_IN_LOCAL (local lv) bbxfA = true /\
    SQUARE_LIES_ENTIRELY_IN_COMPLETE G bbxfA = true /\
    forall bx by_,
      scrcoord_as_lowerleft G (scalePixelPerRange lv) (px0 bbxfA) <= bx
        <= scrcoord_as_lowerleft G (scalePixelPerRange lv) (px1 bbxfA) ->
      scrcoord_as_lowerleft G (scalePixelPerRange lv) (py0 bbxfA) <= by_
        <= scrcoord_as_lowerleft G (scalePixelPerRange lv) (py1 bbxfA) ->
      CELLCOLOR_XY lv st' bx by_ = SQUARE_GRAY.
Proof.
  intros Es Ew m y bit Hb Hgray.
  destruct (level_setup_flags G _ _ _ _ _ _ _ _ _ Es) as (Hok & Hfl).
  pose proof (while_changed_trapped G lv fuel st0 st' Hok Hfl Ew m y bit Hb Hgray) as Htr.
  cbn zeta. unfold cell_escapes in Htr.
  set (bbx := getBoundingBoxfA G _) in *.
  destruct (SQUARE_LIES_ENTIRELY_IN_LOCAL (local lv) bbx) eqn:E1; [|discriminate].
  destruct (SQUARE_LIES_ENTIRELY_IN_COMPLETE G bbx) eqn:E2; [|discriminate].
  cbn in Htr. split; [reflexivity|]. split; [reflexivity|].
  intros bx by_ Hx Hy.
  destruct (Z.eq_dec (CELLCOLOR_XY lv st' bx by_) SQUARE_POTW) as [Hp|Hp].
  - assert (Hhit : hits_potw G lv st' bbx = true).
    { unfold hits_potw. apply any_upto_true. exists by_. split; [exact Hy|].
      apply any_upto_true. exists bx. split; [exact Hx|]. apply Z.eqb_eq, Hp. }
    rewrite Hhit in Htr. discriminate.
  - unfold CELLCOLOR_XY in Hp |- *. destruct (_ && _ && _ && _); [|contradiction].
    cbn zeta in Hp |- *. rewrite land_1_testbit in Hp |- *.
    destruct (Z.testbit _ 0); [contradiction|reflexivity].
Qed.

End TrappingClaim.


Section PrimingClaim.
Context {NTYP : Type} {ops : NTYP_ops NTYP}.
Variable G : Globals NTYP.

Lemma shiftr_range a x b n :
  0 <= n -> a <= x <= b -> Z.shiftr a n <= Z.shiftr x n <= Z.shiftr b n.
Proof.
  intros Hn [H1 H2]. rewrite !Z.shiftr_div_pow2 by exact Hn.
  assert (0 < 2 ^ n) by (apply Z.pow_pos_nonneg; lia).
  split; apply Z.div_le_mono; lia.
Qed.

(** X11: when the propagation of a level starts, every pixel of the padded
    and trimmed screen rectangle of each of the first [cyclelen] periodic
    points reads GRAY. *)
Theorem level_setup_primes_enclosements
    L startwith onecycle mgr h onecycle' lv st0 mgr' p X Y :
  level_setup G L startwith onecycle mgr h = Ret (onecycle', lv, st0, mgr') ->
  p ∈ take (Z.to_nat (cyclelen onecycle)) (cycle onecycle) ->
  in_screen_rect (point_rect G (SCREENWIDTH lv) (scalePixelPerRange lv) p) X Y ->
  CELLCOLOR_XY lv st0 X Y = SQUARE_GRAY.
Proof.
  intros E Hp [HX HY].
  destruct (level_setup_inv G _ _ _ _ _ _ _ _ _ E) as (st_a & Hok & Epp & _).
  destruct (level_setup_spec G _ _ _ _ _ _ _ _ _ E)
    as [_ _ _ _ _ _ _ _ Hlen Hcyc Hroot Hpts _ _].
  destruct (Hpts p Hp) as [(W1 & W2 & W3 & W4) _].
  set (scr := point_rect G (SCREENWIDTH lv) (scalePixelPerRange lv) p) in *.
  assert (Htake : take (Z.to_nat (cyclelen onecycle)) (cycle onecycle') =
            point_record G (SCREENWIDTH lv) (scalePixelPerRange lv)
              <$> take (Z.to_nat (cyclelen onecycle)) (cycle onecycle)).
  { rewrite Hcyc. rewrite take_app_le; [|rewrite length_fmap, length_take; lia].
    apply take_ge. rewrite length_fmap, length_take. lia. }
  rewrite Htake in Epp.
  destruct (prime_points_gray _ _ _ _ Hok Epp) as [_ Hgray].
  assert (Hq : point_record G (SCREENWIDTH lv) (scalePixelPerRange lv) p ∈
                 point_record G (SCREENWIDTH lv) (scalePixelPerRange lv)
                   <$> take (Z.to_nat (cyclelen onecycle)) (cycle onecycle))
    by (apply list_elem_of_fmap_2; exact Hp).
  specialize (Hgray _ (Z.shiftr X SHIFTPERDDBYTE) Y Hq).
  cbn [point_record pp_mem0 pp_mem1 pp_y0 pp_y1] in Hgray. fold scr in Hgray.
  unfold CELLCOLOR_XY.
  replace (_ && _ && _ && _) with true
    by (symmetry; repeat (apply andb_true_intro; split); lia).
  cbn zeta. rewrite Hgray.
  - unfold ALL32GRAY. rewrite Z.shiftr_0_l. reflexivity.
  - apply shiftr_range; [unfold SHIFTPERDDBYTE; lia|exact HX].
  - exact HY.
Qed.

End PrimingClaim.

Section TrappingRuns.

Lemma level_setup_primes_enclosements_example :
  exists res,
    level_setup (basilica_globals 8 8 1) 8 ALL32POTW basilica_cycle
      ArrayDDByteManager_new ∅ = Ret res /\
    CELLCOLOR_XY res.1.1.2 res.1.2 128 128 = SQUARE_GRAY.
Proof.
  apply returns_Ret; [vm_compute; reflexivity|].
  intros [[[r lv] st] m] E. cbn [fst snd].
  destruct (level_setup_spec _ _ _ _ _ _ _ _ _ _ E)
    as [_ _ Hw _ _ _ _ _ _ _ _ _ _ _].
  assert (Hs : scalePixelPerRange lv = (inject_Z 256 / (inject_Z 4 - inject_Z (-4)))%ntyp).
  { revert E. unfold level_setup.
    destruct (setup_points _ _ _ _ _ _ _) as [[cyc encl]| | |]; try discriminate.
    cbn [obind]. destruct (_ >=? _); [discriminate|]. destruct (_ <? 0); [discriminate|].
    cbn [FreeAll]. destruct (alloc_rows _ _ _ _ _) as [[[rows mgr2] h2]| | |]; try discriminate.
    cbn [obind]. destruct (prime_points _ _ _) as [st1| | |]; try discriminate.
    cbn [obind]. intros [= <- <- <- <-]. reflexivity. }
  apply (level_setup_primes_enclosements _ _ _ _ _ _ _ _ _ _
           (basilica_point 0%Q) 128 128 E).
  - cbn. left.
  - rewrite Hw, Hs. vm_compute. repeat split; discriminate.
Defined.

End TrappingRuns.


(** ** The words of the grid are 32-bit values *)

Section WordRange.
Context {NTYP : Type} {ops : NTYP_ops NTYP}.
Variable G : Globals NTYP.
Implicit Types (lv : Level NTYP) (st : Store).

Lemma returns_with_Ret {A : Type} (m : outcome A) (b : A -> bool) (P : A -> Prop) :
  returns_with m b = true -> (forall a, m = Ret a -> b a = true -> P a) ->
  exists a, m = Ret a /\ P a.
Proof. destruct m as [a| | |]; try discriminate. intros Hb H. exists a. auto. Qed.

Lemma load_word_range h p k : words_in_range h -> 0 <= load_word h p k <= DDBYTEMAX.
Proof.
  intros H. unfold load_word. destruct (h !! ptr_add p k) as [v|] eqn:E; cbn.
  - exact (H _ _ E).
  - unfold DDBYTEMAX. lia.
Qed.

Lemma store_word_range h p k v :
  words_in_range h -> 0 <= v <= DDBYTEMAX -> words_in_range (store_word h p k v).
Proof.
  intros H Hv a w. unfold store_word.
  destruct (decide (a = ptr_add p k)) as [->|Hne].
  - rewrite lookup_insert_eq. intros [= <-]. exact Hv.
  - rewrite lookup_insert_ne by congruence. apply H.
Qed.

Lemma fill_words_range h p lenx v :
  words_in_range h -> 0 <= v <= DDBYTEMAX -> words_in_range (fill_words h p lenx v).
Proof.
  intros H Hv. unfold fill_words. revert h H.
  induction (seqZ 0 lenx) as [|m l IH]; intros h H; [exact H|].
  cbn. apply IH. apply store_word_range; assumption.
Qed.

Lemma alloc_rows_range lenx startwith (yw : list Z) : forall mgr h rows mgr' h',
  words_in_range h -> 0 <= startwith <= DDBYTEMAX ->
  alloc_rows yw lenx startwith mgr h = Ret (rows, mgr', h') -> words_in_range h'.
Proof.
  induction yw as [|f yw IH]; intros mgr h rows mgr' h' Hh Hs E.
  - cbn in E. injection E as <- <- <-. exact Hh.
  - cbn [alloc_rows] in E. destruct (f >? 0).
    + destruct (getMemory mgr lenx) as [[p mgr1]| | |]; try discriminate. cbn [obind] in E.
      destruct (alloc_rows yw _ _ mgr1 _) as [[[rows1 mgr2] h2]| | |] eqn:Er; try discriminate.
      cbn [obind] in E. injection E as <- <- <-.
      eapply IH; [|exact Hs|exact Er]. apply fill_words_range; assumption.
    + destruct (alloc_rows yw _ _ mgr _) as [[[rows1 mgr2] h2]| | |] eqn:Er; try discriminate.
      cbn [obind] in E. injection E as <- <- <-. eapply IH; eassumption.
Qed.

Lemma SET32_MY_range lv st M Y v st' :
  words_in_range (heap st) -> 0 <= v <= DDBYTEMAX ->
  SET32_MY lv st M Y v = Ret st' -> words_in_range (heap st').
Proof.
  intros H Hv. unfold SET32_MY. destruct (_ && _ && _ && _); [|discriminate].
  destruct (row_ptr lv st Y); [|discriminate]. intros [= <-]. cbn.
  apply store_word_range; assumption.
Qed.

Lemma for_upto_keeps {S : Type} (I : S -> Prop) (body : Z -> S -> outcome S) lo hi s s' :
  (forall j s s', I s -> body j s = Ret s' -> I s') ->
  I s -> for_upto lo hi body s = Ret s' -> I s'.
Proof.
  intros Hbody Hs E. unfold for_upto in E.
  apply (for_range_ind (fun _ => I) body (Z.to_nat (hi - lo + 1)) lo s s' Hs); [|exact E].
  intros j s0 s0' _. apply Hbody.
Qed.

Lemma prime_points_range lv (pts : list (PeriodicPoint NTYP)) : forall st st',
  words_in_range (heap st) -> prime_points lv pts st = Ret st' ->
  words_in_range (heap st').
Proof.
  induction pts as [|p pts IH]; intros st st' H E.
  - cbn in E. injection E as <-. exact H.
  - cbn [prime_points] in E.
    destruct (for_upto (pp_y0 p) _ _ _) as [st1| | |] eqn:E1; try discriminate.
    cbn [obind] in E. eapply IH; [|exact E].
    eapply (for_upto_keeps (fun s => words_in_range (heap s))); [|exact H|exact E1].
    intros y s s0 Hs Ey.
    eapply (for_upto_keeps (fun s => words_in_range (heap s))); [|exact Hs|exact Ey].
    intros m s1 s2 Hs1 Em. eapply SET32_MY_range; [exact Hs1| |exact Em].
    unfold ALL32GRAY, DDBYTEMAX. lia.
Qed.

Lemma level_setup_range L startwith onecycle mgr h onecycle' lv st mgr' :
  0 <= startwith <= DDBYTEMAX ->
  level_setup G L startwith onecycle mgr h = Ret (onecycle', lv, st, mgr') ->
  words_in_range (heap st).
Proof.
  unfold level_setup. intros Hs E.
  destruct (setup_points _ _ _ _ _ _ _) as [[cyc encl]| | |] eqn:Esp; try discriminate.
  cbn [obind] in E. destruct (_ >=? _) eqn:Emax; [discriminate|].
  destruct (_ <? 0) eqn:Eleny; [discriminate|].
  cbn [FreeAll] in E.
  destruct (alloc_rows _ _ _ _ _) as [[[rows mgr2] h2]| | |] eqn:Ear; try discriminate.
  cbn [obind] in E.
  destruct (prime_points _ _ _) as [st1| | |] eqn:Epp; try discriminate.
  cbn [obind] in E. injection E as <- <- <- <-.
  eapply prime_points_range; [|exact Epp]. cbn [heap].
  eapply alloc_rows_range; [|exact Hs|exact Ear].
  intros a v Ha. rewrite lookup_empty in Ha. discriminate.
Qed.

Lemma lor_bit_range w bit :
  0 <= w <= DDBYTEMAX -> 0 <= bit < 32 ->
  0 <= Z.lor w (Z.shiftl 1 bit) <= DDBYTEMAX.
Proof.
  intros Hw Hb.
  assert (H1 : 0 <= Z.shiftl 1 bit) by (apply Z.shiftl_nonneg; lia).
  assert (Hl : 0 <= Z.lor w (Z.shiftl 1 bit)) by (apply Z.lor_nonneg; split; lia).
  split; [exact Hl|].
  assert (Hlt : Z.lor w (Z.shiftl 1 bit) < 2 ^ 32); [|unfold DDBYTEMAX; lia].
  assert (H1pos : 0 < Z.shiftl 1 bit) by (rewrite Z.shiftl_1_l; apply Z.pow_pos_nonneg; lia).
  assert (Hne : Z.lor w (Z.shiftl 1 bit) <> 0)
    by (intros H0; apply Z.lor_eq_0_iff in H0; lia).
  apply Z.log2_lt_pow2; [lia|].
  rewrite Z.log2_lor by lia.
  assert (Hb2 : Z.log2 (Z.shiftl 1 bit) < 32)
    by (rewrite Z.shiftl_1_l, Z.log2_pow2 by lia; lia).
  assert (Hw2 : Z.log2 w < 32).
  { destruct (Z.eq_dec w 0) as [->|Hw0]; [cbn; lia|].
    apply Z.log2_lt_pow2; [lia|]. unfold DDBYTEMAX in Hw. lia. }
  lia.
Qed.

Lemma bit_loop_range lv st m y n : forall k b,
  0 <= k -> k + Z.of_nat n <= 32 -> 0 <= fneu b <= DDBYTEMAX ->
  0 <= fneu (bit_loop G lv st m y n k b) <= DDBYTEMAX.
Proof.
  induction n as [|n IH]; intros k b Hk Hn Hb; [exact Hb|].
  cbn [bit_loop]. apply IH; [lia|lia|]. unfold bit_body.
  destruct (_ =? SQUARE_POTW); [exact Hb|].
  destruct (cell_escapes _ _ _ _ _); [|exact Hb]. cbn [fneu].
  apply lor_bit_range; [exact Hb|lia].
Qed.

Lemma word_body_range lv y m st c g st' c' g' :
  words_in_range (heap st) ->
  word_body G lv y m (st, c, g) = Ret (st', c', g') -> words_in_range (heap st').
Proof.
  intros H. unfold word_body.
  destruct (_ =? ALL32POTW); [intros [= <- <- <-]; exact H|].
  pose proof (bit_loop_range lv st m y 32 0
                {| ff := GET32_MY lv st m y; fneu := GET32_MY lv st m y;
                   fchanged := 0; graythere := g |} ltac:(lia) ltac:(lia)) as Hr.
  remember (bit_loop G lv st m y 32 0
              {| ff := GET32_MY lv st m y; fneu := GET32_MY lv st m y;
                 fchanged := 0; graythere := g |}) as b eqn:Hb.
  clear Hb. destruct (fchanged b >? 0); [|intros [= <- <- <-]; exact H].
  destruct (SET32_MY lv st m y (fneu b)) as [s| | |] eqn:Es; try discriminate.
  cbn [obind]. intros [= <- <- <-].
  eapply SET32_MY_range; [exact H| |exact Es]. apply Hr. cbn [fneu].
  unfold GET32_MY. destruct (_ && _); [|unfold ALL32POTW, DDBYTEMAX; lia].
  destruct (row_ptr lv st y); [|unfold ALL32POTW, DDBYTEMAX; lia].
  destruct (_ && _); [|unfold ALL32POTW, DDBYTEMAX; lia].
  apply load_word_range, H.
Qed.

Lemma row_body_range lv y st c st' c' :
  words_in_range (heap st) ->
  row_body G lv y (st, c) = Ret (st', c') -> words_in_range (heap st').
Proof.
  intros H. unfold row_body. destruct (_ <=? 0); [intros [= <- <-]; exact H|].
  destruct (for_upto _ _ _ _) as [[[st1 c1] g1]| | |] eqn:Ew; try discriminate.
  cbn [obind]. intros [= <- <-].
  assert (H1 : words_in_range (heap st1)).
  { apply (for_upto_keeps (fun s : Store * Z * Z => words_in_range (heap s.1.1))
             (word_body G lv y) (mem0 lv) (mem1 lv) (st, c, 0) (st1, c1, g1)); [|exact H|exact Ew].
    intros j [[s a] b] [[s' a'] b'] Hs Ej. cbn [fst] in *.
    eapply word_body_range; eassumption. }
  destruct (g1 <=? 0); exact H1.
Qed.

Lemma sweep_range lv st st' c' :
  words_in_range (heap st) -> sweep G lv st = Ret (st', c') -> words_in_range (heap st').
Proof.
  intros H E. unfold sweep in E.
  apply (for_upto_keeps (fun s : Store * Z => words_in_range (heap s.1))
           (row_body G lv) (sy0 (enclosementall lv)) (sy1 (enclosementall lv)) (st, 0) (st', c')); [|exact H|exact E].
  intros j [s a] [s' a'] Hs Ej. cbn [fst] in *. eapply row_body_range; eassumption.
Qed.

Lemma while_changed_range lv fuel : forall st st',
  words_in_range (heap st) -> while_changed G fuel lv st = Ret st' ->
  words_in_range (heap st').
Proof.
  induction fuel as [|fuel IH]; intros st st' H E; [discriminate|].
  cbn [while_changed] in E.
  destruct (sweep G lv st) as [[st1 ch]| | |] eqn:Es; try discriminate.
  cbn [obind] in E. pose proof (sweep_range _ _ _ _ H Es) as H1.
  destruct (ch >? 0); [eapply IH; eassumption|]. injection E as <-. exact H1.
Qed.

(** A 32-bit word other than [ALL32POTW] has a GRAY bit. *)
Lemma gray_bit_exists (w : DDBYTE) :
  0 <= w <= DDBYTEMAX -> w <> ALL32POTW ->
  exists bit, 0 <= bit < 32 /\ Z.testbit w bit = false.
Proof.
  intros Hw Hne.
  destruct (existsb (fun bit => negb (Z.testbit w bit)) (seqZ 0 32)) eqn:E.
  - apply existsb_exists in E as (bit & Hin & Hbit).
    apply list_elem_of_In, elem_of_seqZ in Hin.
    exists bit. split; [lia|]. destruct (Z.testbit w bit); [discriminate|reflexivity].
  - exfalso. apply Hne. change ALL32POTW with (Z.ones 32).
    apply Z.bits_inj'. intros n Hn.
    destruct (Z_lt_le_dec n 32) as [Hlt|Hge].
    + rewrite Z.ones_spec_low by lia.
      destruct (Z.testbit w n) eqn:Hb; [reflexivity|].
      assert (Hex : existsb (fun bit => negb (Z.testbit w bit)) (seqZ 0 32) = true).
      { apply existsb_exists. exists n. split; [|rewrite Hb; reflexivity].
        apply list_elem_of_In, elem_of_seqZ. lia. }
      congruence.
    + rewrite Z.ones_spec_high by lia.
      destruct (Z.eq_dec w 0) as [->|Hw0]; [apply Z.bits_0|].
      apply Z.bits_above_log2; [lia|].
      assert (Z.log2 w < 32); [|lia].
      apply Z.log2_lt_pow2; [lia|]. unfold DDBYTEMAX in Hw. lia.
Qed.

Lemma has_gray_word_bit lv st :
  words_in_range (heap st) -> has_gray_word lv st ->
  exists m y bit, 0 <= bit < 32 /\ Z.testbit (GET32_MY lv st m y) bit = false.
Proof.
  intros Hr (y & p & m & Hy & Hrow & Hm & Hw).
  destruct (gray_bit_exists _ (load_word_range _ p m Hr) Hw) as (bit & Hb & Hbit).
  exists (mem0 lv + m), (sy0 (enclosementall lv) + Z.of_nat y), bit.
  split; [exact Hb|]. unfold GET32_MY, row_ptr.
  replace (Z.to_nat (sy0 (enclosementall lv) + Z.of_nat y - sy0 (enclosementall lv)))
    with y by lia.
  rewrite Hrow. cbn [mjoin option_join]. unfold LOCALLENY, LOCALLENX in *.
  replace (_ && _) with true by (symmetry; apply andb_true_intro; split; lia).
  replace (_ && _) with true by (symmetry; apply andb_true_intro; split; lia).
  replace (mem0 lv + m - mem0 lv) with m by lia. exact Hbit.
Qed.

(** The grid of a level at the fixed point of its propagation. *)
Lemma grid_at_trapped fuel L startwith onecycle lv st :
  0 <= startwith <= DDBYTEMAX ->
  grid_at G fuel L startwith onecycle = Ret (lv, st) ->
  words_in_range (heap st) /\ trapped G lv st.
Proof.
  intros Hs E. unfold grid_at in E.
  destruct (level_pass _ _ _ _ _ _ _) as [[[[r1 lv1] st1] m1]| | |] eqn:Ep; try discriminate.
  cbn in E. injection E as -> ->.
  destruct (level_pass_inv G _ _ _ _ _ _ _ _ _ _ Ep) as (st0 & Es & Ew).
  destruct (level_setup_flags G _ _ _ _ _ _ _ _ _ Es) as (Hok & Hfl).
  split.
  - eapply while_changed_range; [|exact Ew]. eapply level_setup_range; eassumption.
  - eapply while_changed_trapped; eassumption.
Qed.

End WordRange.

Section InteriorClaim.
Context {NTYP : Type} {ops : NTYP_ops NTYP}.
Variable G : Globals NTYP.

(** X12: when [cm_local] (called with a 32-bit start value and
    [LEVEL0 > 0]) returns a level [found > 0], the grid of that level at the
    fixed point of its propagation holds at least one GRAY cell, and every
    GRAY cell of it is trapped: [cell_escapes] is false for it, i.e. the
    bounding box of its image lies in [local] and in the COMPLETE square and
    meets no pixel that reads POTW. *)
Theorem cm_local_interior_is_trapped fuel onecycle startwith found onecycle' :
  0 < LEVEL0 G -> 0 <= startwith <= DDBYTEMAX ->
  cm_local G fuel onecycle startwith = Ret (found, onecycle') ->
  0 < found ->
  exists lv st,
    grid_at G fuel found startwith onecycle = Ret (lv, st) /\
    (exists m y bit, 0 <= bit < 32 /\ Z.testbit (GET32_MY lv st m y) bit = false) /\
    (forall m y bit, 0 <= bit < 32 ->
       Z.testbit (GET32_MY lv st m y) bit = false ->
       cell_escapes G lv st (Z.shiftl m SHIFTPERDDBYTE + bit) y = false).
Proof.
  intros H0 Hs E Hfound. unfold cm_local in E.
  destruct (level_loop G fuel _ _ _ _ _ _) as [[[[f r'] m] h]| | |] eqn:El; try discriminate.
  cbn in E. injection E as <- <-.
  assert (Hr : root_equiv (set_interiorfound onecycle 0) onecycle) by (split; reflexivity).
  destruct (level_loop_sound G fuel startwith onecycle _ _ _ _ _ _ _ _ _ Hr eq_refl H0 El)
    as (_ & _ & Hres).
  destruct Hres as [[-> _]|(_ & (lv & st & Eg & Hgray) & _)]; [lia|].
  destruct (grid_at_trapped G _ _ _ _ _ _ Hs Eg) as (Hrange & Htr).
  exists lv, st. split; [exact Eg|]. split; [|exact Htr].
  apply has_gray_word_bit; assumption.
Qed.

End InteriorClaim.

Section InteriorRuns.

Lemma cm_local_interior_is_trapped_example :
  exists res,
    cm_local (basilica_globals 8 9 4) 100 basilica_cycle ALL32POTW = Ret res /\
    exists lv st,
      grid_at (basilica_globals 8 9 4) 100 res.1 ALL32POTW basilica_cycle = Ret (lv, st) /\
      exists m y bit, 0 <= bit < 32 /\ Z.testbit (GET32_MY lv st m y) bit = false.
Proof.
  apply (returns_with_Ret _ (fun res => 0 <? res.1)); [vm_compute; reflexivity|].
  intros [found r] E Hpos. cbn [fst] in *. apply Z.ltb_lt in Hpos.
  destruct (cm_local_interior_is_trapped (basilica_globals 8 9 4) 100 basilica_cycle
              ALL32POTW found r) as (lv & st & Eg & Hex & _).
  - cbn. lia.
  - unfold ALL32POTW, DDBYTEMAX. lia.
  - exact E.
  - exact Hpos.
  - exists lv, st. split; [exact Eg|exact Hex].
Defined.

End InteriorRuns.


Section TrappedRuns.

Lemma gray_cells_are_trapped_example :
  exists res st',
    level_setup (basilica_globals 8 8 3) 8 ALL32POTW basilica_cycle
      ArrayDDByteManager_new ∅ = Ret res /\
    while_changed (basilica_globals 8 8 3) 100 res.1.1.2 res.1.2 = Ret st' /\
    Z.testbit (GET32_MY res.1.1.2 st' 4 128) 0 = false /\
    let bbxfA :=
      getBoundingBoxfA (basilica_globals 8 8 3)
        (cell_rect (basilica_globals 8 8 3) res.1.1.2 (Z.shiftl 4 SHIFTPERDDBYTE + 0) 128) in
    SQUARE_LIES_ENTIRELY_IN_LOCAL (local res.1.1.2) bbxfA = true /\
    SQUARE_LIES_ENTIRELY_IN_COMPLETE (basilica_globals 8 8 3) bbxfA = true /\
    forall bx by_,
      scrcoord_as_lowerleft (basilica_globals 8 8 3) (scalePixelPerRange res.1.1.2) (px0 bbxfA) <= bx
        <= scrcoord_as_lowerleft (basilica_globals 8 8 3) (scalePixelPerRange res.1.1.2) (px1 bbxfA) ->
      scrcoord_as_lowerleft (basilica_globals 8 8 3) (scalePixelPerRange res.1.1.2) (py0 bbxfA) <= by_
        <= scrcoord_as_lowerleft (basilica_globals 8 8 3) (scalePixelPerRange res.1.1.2) (py1 bbxfA) ->
      CELLCOLOR_XY res.1.1.2 st' bx by_ = SQUARE_GRAY.
Proof.
  destruct (returns_with_Ret
              (level_setup (basilica_globals 8 8 3) 8 ALL32POTW basilica_cycle
                 ArrayDDByteManager_new ∅)
              (fun res => returns_with
                 (while_changed (basilica_globals 8 8 3) 100 res.1.1.2 res.1.2)
                 (fun st' => negb (Z.testbit (GET32_MY res.1.1.2 st' 4 128) 0)))
              (fun res => returns_with
                 (while_changed (basilica_globals 8 8 3) 100 res.1.1.2 res.1.2)
                 (fun st' => negb (Z.testbit (GET32_MY res.1.1.2 st' 4 128) 0)) = true))
    as (res & E & Hw); [vm_compute; reflexivity|intros a _ H; exact H|].
  destruct (returns_with_Ret _ _
              (fun st' => Z.testbit (GET32_MY res.1.1.2 st' 4 128) 0 = false) Hw)
    as (st' & Ew & Hbit); [intros a _ H; apply negb_true_iff in H; exact H|].
  exists res, st'. split; [exact E|]. split; [exact Ew|]. split; [exact Hbit|].
  destruct res as [[[r lv] st0] mgr]. cbn [fst snd] in *.
  assert (Hb : 0 <= 0 < 32) by lia.
  exact (gray_cells_are_trapped _ _ _ _ _ _ _ _ _ _ _ _ E Ew 4 128 0 Hb Hbit).
Defined.

End TrappedRuns.


(** ** The fatal exits of the set-up of a level *)

Section SetupExits.
Context {NTYP : Type} {ops : NTYP_ops NTYP}.
Variable G : Globals NTYP.
Implicit Types (lv : Level NTYP) (st : Store).

Lemma getMemory_outcome mgr a :
  (exists res, getMemory mgr a = Ret res) \/ getMemory mgr a = Exit99 ArenaFull.
Proof.
  unfold getMemory. destruct (_ >=? _); [right; reflexivity|]. left.
  destruct (current mgr) as [b|] eqn:Ec.
  - destruct (_ >=? _); cbn [current]; [|rewrite Ec]; eexists; reflexivity.
  - cbn [current]. eexists. reflexivity.
Qed.

Lemma alloc_rows_outcome lenx startwith (yw : list Z) : forall mgr h,
  (exists res, alloc_rows yw lenx startwith mgr h = Ret res) \/
  alloc_rows yw lenx startwith mgr h = Exit99 ArenaFull.
Proof.
  induction yw as [|f yw IH]; intros mgr h; [left; eexists; reflexivity|].
  cbn [alloc_rows]. destruct (f >? 0).
  - destruct (getMemory_outcome mgr lenx) as [([p mgr1] & ->)| ->]; [|right; reflexivity].
    cbn [obind].
    destruct (IH mgr1 (fill_words h p lenx startwith)) as [([[rows m2] h2] & ->)| ->];
      [left; eexists; reflexivity|right; reflexivity].
  - destruct (IH mgr h) as [([[rows m2] h2] & ->)| ->];
      [left; eexists; reflexivity|right; reflexivity].
Qed.

Lemma setup_points_total SW MM spr n : forall cyc encl,
  (forall p, Z.shiftr (sx1 (point_rect G SW spr p)) SHIFTPERDDBYTE < MM) ->
  (n <= length cyc)%nat ->
  exists res, setup_points G SW MM spr n cyc encl = Ret res.
Proof.
  induction n as [|n IH]; intros cyc encl Hmm Hlen; [eexists; reflexivity|].
  destruct cyc as [|p rest]; [cbn in Hlen; lia|].
  cbn [setup_points]. cbn zeta. cbn [pp_mem1].
  replace (_ >=? MM) with false
    by (symmetry; rewrite Z.geb_leb; apply Z.leb_gt; apply Hmm).
  destruct (IH rest (grow_rect encl (point_rect G SW spr p)) Hmm ltac:(cbn in Hlen; lia))
    as ([rest' encl'] & ->).
  cbn [obind]. eexists. reflexivity.
Qed.

Lemma shiftr5_below L x :
  5 <= L -> x <= 2 ^ L - 1 -> Z.shiftr x SHIFTPERDDBYTE < Z.shiftr (2 ^ L) SHIFTPERDDBYTE.
Proof.
  intros HL Hx. unfold SHIFTPERDDBYTE. rewrite !Z.shiftr_div_pow2 by lia.
  replace (2 ^ L) with (2 ^ 5 * 2 ^ (L - 5)) in *
    by (rewrite <- Z.pow_add_r by lia; f_equal; lia).
  rewrite (Z.mul_comm (2 ^ 5)), Z.div_mul by lia.
  apply Z.div_lt_upper_bound; lia.
Qed.

(** The set-up of a level at which the screen is a whole number of words. *)
Lemma level_setup_total L startwith onecycle mgr h :
  5 <= L <= 30 -> 0 <= _ENCLOSEMENTWIDTH G ->
  1 <= cyclelen onecycle ->
  (Z.to_nat (cyclelen onecycle) <= length (cycle onecycle))%nat ->
  (exists res, level_setup G L startwith onecycle mgr h = Ret res) \/
  level_setup G L startwith onecycle mgr h = Exit99 ArenaFull.
Proof.
  intros HL Hencw Hn Hlen. unfold level_setup. cbv zeta.
  rewrite (int32_pow2 L) by lia.
  assert (HSW : 1 <= 2 ^ L) by (pose proof (Z.pow_pos_nonneg 2 L); lia).
  set (SW := 2 ^ L) in *.
  set (spr := ndiv (nofZ SW) _).
  set (MM := Z.shiftr SW SHIFTPERDDBYTE).
  set (n := Z.to_nat (cyclelen onecycle)) in *.
  assert (Hmm : forall p, Z.shiftr (sx1 (point_rect G SW spr p)) SHIFTPERDDBYTE < MM).
  { intros p. apply shiftr5_below; [lia|].
    destruct (point_rect_range G SW spr p HSW) as (_ & H & _). fold SW. lia. }
  destruct (setup_points_total SW MM spr n (cycle onecycle)
              {| sx0 := SW; sx1 := 0; sy0 := SW; sy1 := 0 |} Hmm Hlen)
    as ([cyc encl] & Esp).
  rewrite Esp. cbn [obind].
  destruct (setup_points_spec G _ _ _ _ _ _ _ _ Esp) as (_ & Hcyc & _ & Hpts).
  assert (Hon : on_screen SW encl).
  { eapply setup_points_bounds; [exact HSW| |exact Esp]. unfold on_screen; cbn. lia. }
  destruct Hon as (O1 & O2 & O3 & O4).
  (* the first periodic point lies in the enclosement *)
  destruct (cycle onecycle) as [|p0 rest] eqn:Ecy; [cbn in Hlen; lia|].
  assert (Hp0 : p0 ∈ take n (p0 :: rest)).
  { destruct n as [|n'] eqn:En; [lia|]. cbn. left. }
  destruct (Hpts p0 Hp0) as [(W1 & W2 & W3 & W4) _].
  assert (Hx : sx0 (point_rect G SW spr p0) <= sx1 (point_rect G SW spr p0))
    by (cbn; apply TRIM_mono; lia).
  assert (Hy : sy0 (point_rect G SW spr p0) <= sy1 (point_rect G SW spr p0))
    by (cbn; apply TRIM_mono; lia).
  replace (Z.shiftr (sx1 encl) SHIFTPERDDBYTE >=? MM) with false
    by (symmetry; rewrite Z.geb_leb; apply Z.leb_gt; apply shiftr5_below; [lia|fold SW; lia]).
  set (lv := {| REFINEMENT := L |}).
  assert (Hleny : (LOCALLENY lv <? 0) = false)
    by (apply Z.ltb_ge; unfold LOCALLENY; cbn [enclosementall lv]; lia).
  rewrite Hleny. cbn [FreeAll].
  set (yw := mark_rows _ _ _).
  set (mgr1 := {| current := None |}).
  destruct (alloc_rows_outcome (LOCALLENX lv) startwith yw mgr1 ∅)
    as [([[rows mgr2] h2] & Ear)|Ear]; rewrite Ear; [|right; reflexivity].
  cbn [obind]. left.
  assert (Hlenx : 0 < LOCALLENX lv).
  { unfold LOCALLENX; cbn [mem0 mem1 lv].
    pose proof (shiftr_range (sx0 encl) (sx0 encl) (sx1 encl) SHIFTPERDDBYTE
                  ltac:(unfold SHIFTPERDDBYTE; lia) ltac:(lia)). lia. }
  assert (Hyw : length yw = Z.to_nat (LOCALLENY lv)).
  { subst yw. match goal with |- length (mark_rows ?a ?b ?c) = _ =>
      rewrite (proj1 (mark_rows_spec a b c)) end. apply length_replicate. }
  assert (Hwf : mgr_wf mgr1) by exact I.
  destruct (alloc_rows_spec _ _ _ _ _ _ _ _ Hwf (Z.lt_le_incl _ _ Hlenx) Ear)
    as (_ & Hrows & Halloc & _ & Hdis).
  assert (Hok : store_ok lv {| heap := h2; ispotwY := rows; ywithgray := yw |}).
  { split; cbn [ispotwY ywithgray]; [congruence|exact Hyw|intros _; exact Hdis]. }
  destruct (prime_points_total lv (take n cyc) _ Hok) as (st' & Epp).
  - intros q y m Hq Hqy Hqm.
    rewrite Hcyc in Hq. rewrite take_app_le in Hq by (rewrite length_fmap, length_take; lia).
    rewrite take_ge in Hq by (rewrite length_fmap, length_take; lia).
    apply list_elem_of_fmap in Hq as (p & -> & Hp).
    destruct (Hpts p Hp) as [(V1 & V2 & V3 & V4) _].
    cbn [point_record pp_mem0 pp_mem1 pp_y0 pp_y1] in Hqy, Hqm.
    assert (Hpx : sx0 (point_rect G SW spr p) <= sx1 (point_rect G SW spr p))
      by (cbn; apply TRIM_mono; lia).
    assert (H5 : 0 <= SHIFTPERDDBYTE) by (unfold SHIFTPERDDBYTE; lia).
    assert (T0 : sx0 encl <= sx0 (point_rect G SW spr p) <= sx1 encl)
      by (clear - V1 V2 Hpx; lia).
    assert (T1 : sx0 encl <= sx1 (point_rect G SW spr p) <= sx1 encl)
      by (clear - V1 V2 Hpx; lia).
    pose proof (shiftr_range _ _ _ _ H5 T0) as S0.
    pose proof (shiftr_range _ _ _ _ H5 T1) as S1.
    cbn [mem0 mem1 enclosementall lv].
    split; [lia|]. split; [lia|].
    unfold row_ptr. cbn [ispotwY enclosementall lv].
    apply (Halloc _ 1); [|lia]. subst yw.
    match goal with |- mark_rows ?a ?b ?c !! _ = _ =>
      destruct (mark_rows_spec a b c) as (_ & _ & Hmark) end.
    apply (Hmark (point_record G SW spr p) y).
    + rewrite Hcyc. rewrite take_app_le by (rewrite length_fmap, length_take; lia).
      rewrite take_ge by (rewrite length_fmap, length_take; lia).
      apply list_elem_of_fmap_2. exact Hp.
    + exact Hqy.
    + rewrite length_replicate. unfold LOCALLENY. cbn [enclosementall lv].
      clear - Hqy V3 V4. lia.
  - rewrite Epp. cbn [obind]. eexists. reflexivity.
Qed.

End SetupExits.

Section SetupExitsClaim.
Context {NTYP : Type} {ops : NTYP_ops NTYP}.
Variable G : Globals NTYP.

(** X13: at a level from 5 to 30, with a padding [ENCW >= 0] and a cycle of
    [cyclelen >= 1] points that its array holds, the set-up of the level
    (ranges of the periodic points, allocation of the rows, priming to
    GRAY) returns unless the allocator's table is full: the two "Maxmem
    reached" exits and the exits of [SET32_MY] are not taken. *)
Theorem level_setup_only_exit_is_allocator L startwith onecycle mgr h :
  5 <= L <= 30 -> 0 <= _ENCLOSEMENTWIDTH G ->
  1 <= cyclelen onecycle ->
  (Z.to_nat (cyclelen onecycle) <= length (cycle onecycle))%nat ->
  (exists onecycle' lv st mgr',
     level_setup G L startwith onecycle mgr h = Ret (onecycle', lv, st, mgr') /\
     SCREENWIDTH lv = 2 ^ L /\ 0 < LOCALLENX lv /\ 0 < LOCALLENY lv) \/
  level_setup G L startwith onecycle mgr h = Exit99 ArenaFull.
Proof.
  intros HL Hencw Hn Hlen.
  destruct (level_setup_total G L startwith onecycle mgr h HL Hencw Hn Hlen)
    as [([[[r lv] st] m] & E)|E]; [left|right; exact E].
  exists r, lv, st, m. split; [exact E|].
  destruct (level_setup_spec G _ _ _ _ _ _ _ _ _ E)
    as [_ _ Hw _ Hm0 Hm1 _ _ _ _ _ Hpts _ Hscr].
  rewrite (int32_pow2 L) in Hw by lia. split; [exact Hw|].
  assert (HSW : 1 <= SCREENWIDTH lv)
    by (rewrite Hw; pose proof (Z.pow_pos_nonneg 2 L); lia).
  destruct (cycle onecycle) as [|p0 rest] eqn:Ecy; [cbn in Hlen; lia|].
  assert (Hp0 : p0 ∈ take (Z.to_nat (cyclelen onecycle)) (p0 :: rest)).
  { destruct (Z.to_nat (cyclelen onecycle)) as [|n'] eqn:En; [lia|]. cbn. left. }
  destruct (Hpts p0 Hp0) as [(W1 & W2 & W3 & W4) _].
  assert (Hx : sx0 (point_rect G (SCREENWIDTH lv) (scalePixelPerRange lv) p0)
               <= sx1 (point_rect G (SCREENWIDTH lv) (scalePixelPerRange lv) p0))
    by (cbn; apply TRIM_mono; lia).
  assert (Hy : sy0 (point_rect G (SCREENWIDTH lv) (scalePixelPerRange lv) p0)
               <= sy1 (point_rect G (SCREENWIDTH lv) (scalePixelPerRange lv) p0))
    by (cbn; apply TRIM_mono; lia).
  split.
  - unfold LOCALLENX. rewrite Hm0, Hm1.
    pose proof (shiftr_range (sx0 (enclosementall lv)) (sx0 (enclosementall lv))
                  (sx1 (enclosementall lv)) SHIFTPERDDBYTE
                  ltac:(unfold SHIFTPERDDBYTE; lia) ltac:(lia)). lia.
  - unfold LOCALLENY. lia.
Qed.

End SetupExitsClaim.

Section SetupExitsRuns.

Lemma level_setup_only_exit_is_allocator_example :
  (exists onecycle' lv st mgr',
     level_setup (basilica_globals 8 8 1) 8 ALL32POTW basilica_cycle
       ArrayDDByteManager_new ∅ = Ret (onecycle', lv, st, mgr') /\
     SCREENWIDTH lv = 2 ^ 8 /\ 0 < LOCALLENX lv /\ 0 < LOCALLENY lv) \/
  level_setup (basilica_globals 8 8 1) 8 ALL32POTW basilica_cycle
    ArrayDDByteManager_new ∅ = Exit99 ArenaFull.
Proof.
  apply (level_setup_only_exit_is_allocator (basilica_globals 8 8 1) 8 ALL32POTW
           basilica_cycle ArrayDDByteManager_new ∅).
  - lia.
  - cbn. lia.
  - cbn. lia.
  - cbn. lia.
Defined.

End SetupExitsRuns.


(** ** Pixels and their cells *)

Section PixelCells.
Local Open Scope R_scope.

Lemma floor_spec (x : R) (k : Z) : (up x - 1)%Z = k <-> IZR k <= x < IZR k + 1.
Proof.
  destruct (archimed x) as [H1 H2]. split.
  - intros <-. rewrite minus_IZR. lra.
  - intros [Hk1 Hk2].
    assert (Hup : (k + 1)%Z = up x).
    { apply tech_up; rewrite plus_IZR; lra. }
    lia.
Qed.

Lemma scrcoord_cell_axis (c0 c1 s a : R) (k : Z) :
  c0 < c1 -> 0 < s ->
  (IZR k <= (a - c0) * (s / (c1 - c0)) < IZR k + 1) <->
  (IZR k * ((c1 - c0) / s) + c0 <= a < IZR k * ((c1 - c0) / s) + c0 + (c1 - c0) / s).
Proof.
  intros Hc Hs.
  assert (Hd : 0 < (c1 - c0) / s) by (apply Rdiv_lt_0_compat; lra).
  assert (Hi : 0 < s / (c1 - c0)) by (apply Rdiv_lt_0_compat; lra).
  set (t := (a - c0) * (s / (c1 - c0))).
  assert (Ha : a = t * ((c1 - c0) / s) + c0) by (unfold t; field; lra).
  set (d := (c1 - c0) / s) in *. clearbody t d. subst a. split.
  - intros [H1 H2]. split; nra.
  - intros [H1 H2]. split; nra.
Qed.

(** X14: over the reals, on a screen of positive width over
    [COMPLETE0 < COMPLETE1], [scrcoord_as_lowerleft] returns pixel [xc]
    exactly for the coordinates of the cell of [xc], left edge included and
    right edge excluded, and likewise for [y]: the pixel of a point is the
    one whose cell (as [cm_local] builds it) contains the point, a point on
    an edge belonging to the pixel it bounds on the left or at the
    bottom. *)
Theorem scrcoord_as_lowerleft_cell (G : Globals R) (lv : Level R) (xc y : Z) (a b : R) :
  COMPLETE0 G < COMPLETE1 G -> (0 < SCREENWIDTH lv)%Z ->
  scaleRangePerPixel lv = (COMPLETE1 G - COMPLETE0 G) / IZR (SCREENWIDTH lv) ->
  scalePixelPerRange lv = IZR (SCREENWIDTH lv) / (COMPLETE1 G - COMPLETE0 G) ->
  (scrcoord_as_lowerleft G (scalePixelPerRange lv) a = xc <->
     px0 (cell_rect G lv xc y) <= a < px1 (cell_rect G lv xc y)) /\
  (scrcoord_as_lowerleft G (scalePixelPerRange lv) b = y <->
     py0 (cell_rect G lv xc y) <= b < py1 (cell_rect G lv xc y)).
Proof.
  intros Hc Hs H1 H2.
  assert (Hs' : 0 < IZR (SCREENWIDTH lv)) by (apply IZR_lt; exact Hs).
  unfold scrcoord_as_lowerleft, cell_rect. cbn [px0 px1 py0 py1 nfloor nsub nmul nadd nofZ R_ops].
  rewrite H1, H2. split.
  - rewrite floor_spec. apply scrcoord_cell_axis; assumption.
  - rewrite floor_spec. apply scrcoord_cell_axis; assumption.
Qed.

Lemma scrcoord_as_lowerleft_cell_example :
  scrcoord_as_lowerleft small_globals (scalePixelPerRange small_level) 0 = 2%Z.
Proof.
  apply (scrcoord_as_lowerleft_cell small_globals small_level 2 2 0 0).
  - cbn. lra.
  - cbn. lia.
  - reflexivity.
  - reflexivity.
  - unfold cell_rect. cbn. lra.
Defined.

End PixelCells.


(** ** The overlap warning of main *)

Section OverlapProps.
Local Open Scope R_scope.

Lemma lies_apart_meet (a b : PlaneRect R) :
  rect_ordered a -> rect_ordered b ->
  (lies_apart a b = false <-> rects_meet a b).
Proof.
  intros [Ha1 Ha2] [Hb1 Hb2]. unfold lies_apart, rects_meet, in_rect.
  cbn [nltb R_ops]. split.
  - intros H. apply orb_false_elim in H as [H H4].
    apply orb_false_elim in H as [H H3]. apply orb_false_elim in H as [H1 H2].
    apply Rltb_false in H1, H2, H3, H4.
    exists {| re := Rmax (px0 a) (px0 b); im := Rmax (py0 a) (py0 b) |}. cbn [re im].
    unfold Rmax. destruct (Rle_dec (px0 a) (px0 b)), (Rle_dec (py0 a) (py0 b)); lra.
  - intros (z & (A1 & A2) & (B1 & B2)).
    repeat (apply orb_false_intro); apply Rltb_false; lra.
Qed.

(** X15: over the reals, for a table whose rectangles have their corners
    in order, the overlap check of [main] sets [overlapping] to 1 exactly
    when two different entries, each with a cycle ([cyclelen > 0]) and
    with interior found ([interiorfound > 0]), have rectangles
    [ps_basinrect] that share a point (touching edges count); otherwise it
    leaves 0. *)
Theorem overlapping_iff_two_cycles_meet (zero : list (Root R)) :
  Forall (fun r => rect_ordered (ps_basinrect r)) zero ->
  (overlapping zero = 1%Z <->
     exists i k zi zk, i <> k /\ zero !! i = Some zi /\ zero !! k = Some zk /\
       interior_cycle zi /\ interior_cycle zk /\
       rects_meet (ps_basinrect zi) (ps_basinrect zk)) /\
  (overlapping zero = 0%Z \/ overlapping zero = 1%Z).
Proof.
  intros Hord. rewrite Forall_lookup in Hord.
  unfold overlapping. cbv zeta.
  set (n := Z.of_nat (length zero)).
  set (inner := fun (i : Z) (zi : Root R) (k : Z) =>
         match zero !! Z.to_nat k with
         | Some zk =>
             if ((i =? k) || (cyclelen zk <=? 0) || (interiorfound zk <=? 0))%Z
             then false
             else negb (lies_apart (ps_basinrect zi) (ps_basinrect zk))
         | None => false
         end).
  set (outer := fun i : Z =>
         match zero !! Z.to_nat i with
         | Some zi =>
             if ((cyclelen zi <=? 0) || (interiorfound zi <=? 0))%Z then false
             else any_upto 0 (n - 1) (inner i zi)
         | None => false
         end).
  change (any_upto 0 (n - 1) _) with (any_upto 0 (n - 1) outer).
  split; [|destruct (any_upto 0 (n - 1) outer); auto].
  destruct (any_upto 0 (n - 1) outer) eqn:E.
  - split; [intros _|reflexivity].
    apply any_upto_true in E as (i & Hi & Ei). unfold outer in Ei.
    destruct (zero !! Z.to_nat i) as [zi|] eqn:Ezi; [|discriminate].
    destruct (_ || _)%Z eqn:Eci; [discriminate|].
    apply any_upto_true in Ei as (k & Hk & Ek). unfold inner in Ek.
    destruct (zero !! Z.to_nat k) as [zk|] eqn:Ezk; [|discriminate].
    destruct (_ || _ || _)%Z eqn:Eck; [discriminate|].
    apply negb_true_iff in Ek.
    apply orb_false_elim in Eci as [C1 C2].
    apply orb_false_elim in Eck as [Eck C4]. apply orb_false_elim in Eck as [C0 C3].
    apply Z.leb_gt in C1, C2, C3, C4. apply Z.eqb_neq in C0.
    exists (Z.to_nat i), (Z.to_nat k), zi, zk.
    split; [lia|]. split; [exact Ezi|]. split; [exact Ezk|].
    split; [split; lia|]. split; [split; lia|].
    apply lies_apart_meet; [exact (Hord _ _ Ezi)|exact (Hord _ _ Ezk)|exact Ek].
  - split; [discriminate|]. intros (i & k & zi & zk & Hik & Ezi & Ezk & [I1 I2] & [K1 K2] & Hm).
    exfalso. assert (Ht : any_upto 0 (n - 1) outer = true); [|congruence].
    pose proof (lookup_lt_Some _ _ _ Ezi) as Li.
    pose proof (lookup_lt_Some _ _ _ Ezk) as Lk.
    apply any_upto_true. exists (Z.of_nat i). split; [lia|].
    unfold outer. rewrite Nat2Z.id, Ezi.
    replace ((cyclelen zi <=? 0) || (interiorfound zi <=? 0))%Z with false
      by (symmetry; apply orb_false_intro; apply Z.leb_gt; lia).
    apply any_upto_true. exists (Z.of_nat k). split; [lia|].
    unfold inner. rewrite Nat2Z.id, Ezk.
    replace ((Z.of_nat i =? Z.of_nat k) || (cyclelen zk <=? 0) || (interiorfound zk <=? 0))%Z
      with false
      by (symmetry; repeat (apply orb_false_intro);
          [apply Z.eqb_neq; lia|apply Z.leb_gt; lia|apply Z.leb_gt; lia]).
    apply negb_true_iff.
    apply lies_apart_meet; [exact (Hord _ _ Ezi)|exact (Hord _ _ Ezk)|exact Hm].
Qed.

Lemma overlapping_iff_two_cycles_meet_example :
  overlapping [square_entry 0 2; square_entry 1 3] = 1%Z.
Proof.
  apply (overlapping_iff_two_cycles_meet [square_entry 0 2; square_entry 1 3]).
  - repeat constructor; cbn; lra.
  - exists 0%nat, 1%nat, (square_entry 0 2), (square_entry 1 3).
    split; [lia|]. split; [reflexivity|]. split; [reflexivity|].
    split; [split; cbn; lia|]. split; [split; cbn; lia|].
    exists {| re := 1; im := 1 |}. unfold in_rect; cbn. lra.
Defined.

End OverlapProps.


(** ** Selecting the function by name *)

Section FunctionNameProps.

Lemma upper_loop_spec n : forall s,
  (n <= length s)%nat ->
  upper_loop n s = (upper_char <$> take n s) ++ drop n s.
Proof.
  induction n as [|n IH]; intros s Hn; [rewrite take_0, drop_0; reflexivity|].
  cbn [upper_loop]. rewrite IH by (rewrite length_insert; lia).
  destruct (s !! n) as [c|] eqn:Ec; [|apply lookup_ge_None in Ec; lia].
  cbn [default]. rewrite take_insert_ge by lia. rewrite drop_insert_ge by lia.
  rewrite Nat.sub_diag. rewrite (take_S_r s n c Ec), fmap_app, <- app_assoc.
  rewrite (drop_S s c n Ec). reflexivity.
Qed.

Lemma upper_map s : upper s = upper_char <$> s.
Proof.
  unfold upper. rewrite upper_loop_spec by lia.
  rewrite firstn_all, drop_all, app_nil_r. reflexivity.
Qed.

Lemma upper_char_not_lower c : not_lower (upper_char c).
Proof.
  unfold not_lower, upper_char. cbv zeta.
  destruct (_ && _) eqn:E.
  - apply andb_prop in E as [E1 E2]. apply Z.geb_le in E1. apply Z.leb_le in E2.
    rewrite Ascii.N_ascii_embedding by lia. lia.
  - apply andb_false_iff in E as [E|E];
      [rewrite Z.geb_leb in E; apply Z.leb_gt in E|apply Z.leb_gt in E]; lia.
Qed.

Lemma upper_char_fixed c : not_lower c -> upper_char c = c.
Proof.
  unfold not_lower, upper_char. cbv zeta. intros H.
  destruct (_ && _) eqn:E; [|reflexivity].
  apply andb_prop in E as [E1 E2]. apply Z.geb_le in E1. apply Z.leb_le in E2. lia.
Qed.

Lemma streq_eq a : forall b, streq a b = true <-> a = b.
Proof.
  induction a as [|x a IH]; intros [|y b]; cbn; try (split; [discriminate|congruence]).
  - split; reflexivity.
  - rewrite andb_true_iff, Ascii.eqb_eq, IH. split; [intros [-> ->]; reflexivity|].
    intros [= -> ->]. auto.
Qed.

Lemma getfuncidx_from_spec names : forall i s,
  let r := getfuncidx_from names i s in
  (r = -1 /\ s ∉ names) \/
  (i <= r < i + Z.of_nat (length names) /\ names !! Z.to_nat (r - i) = Some s /\
   forall j, (j < Z.to_nat (r - i))%nat -> names !! j <> Some s).
Proof.
  induction names as [|nm rest IH]; intros i s; cbn zeta.
  - left. split; [reflexivity|]. intros H. inversion H.
  - cbn [getfuncidx_from]. destruct (streq s nm) eqn:E.
    + apply streq_eq in E as ->. right. rewrite Z.sub_diag. cbn.
      split; [lia|]. split; [reflexivity|]. intros j Hj. lia.
    + assert (Hne : s <> nm) by (intros ->; rewrite (proj2 (streq_eq nm nm) eq_refl) in E;
                                 discriminate).
      destruct (IH (i + 1) s) as [[Hr Hnot]|(Hr & Hl & Hfirst)].
      * destruct (Z.eq_dec i (-1)) as [Hi|Hi].
        -- left. split; [exact Hr|]. intros H. apply elem_of_cons in H as [H|H]; auto.
        -- left. split; [exact Hr|]. intros H. apply elem_of_cons in H as [H|H]; auto.
      * right. cbn [length]. split; [lia|].
        replace (Z.to_nat (getfuncidx_from rest (i + 1) s - i))
          with (S (Z.to_nat (getfuncidx_from rest (i + 1) s - (i + 1)))) by lia.
        split; [exact Hl|]. intros [|j] Hj; cbn; [congruence|]. apply Hfirst. lia.
Qed.

End FunctionNameProps.

Section FunctionNameClaim.

(** X16: [upper] replaces every letter ['a'..'z'] of its argument by the
    capital letter, keeps the other characters and the length, and leaves
    a string without such letters as it is.  [getfuncidx] returns the index
    of its argument in [funcname] (the names are distinct), and -1 for a
    string that is no name; with that value [setfunc] takes its [default]
    branch, so a name it does not know selects [z^2+c], and a known name,
    in whatever case it is written, selects the function of that name. *)
Theorem getfuncidx_upper_selects (s : list Ascii.ascii) :
  upper s = upper_char <$> s /\
  Forall not_lower (upper s) /\
  upper (upper s) = upper s /\
  (forall t, getfuncidx t = -1 <-> t ∉ funcname) /\
  (forall f, funcname !! Z.to_nat (func_index f) = Some (upper s) ->
     getfuncidx (upper s) = func_index f /\
     setfunc_case (getfuncidx (upper s)) = f) /\
  (upper s ∉ funcname -> setfunc_case (getfuncidx (upper s)) = FUNC_Z2C).
Proof.
  assert (Hlow : Forall not_lower (upper s)).
  { rewrite upper_map. apply Forall_fmap, Forall_true. intros c. apply upper_char_not_lower. }
  assert (Hidx : forall t, getfuncidx t = -1 <-> t ∉ funcname).
  { intros t. unfold getfuncidx.
    destruct (getfuncidx_from_spec funcname 0 t) as [[Hr Hnot]|(Hr & Hl & _)].
    - split; [intros _; exact Hnot|intros _; exact Hr].
    - split; [lia|]. intros Hnot. exfalso. apply Hnot.
      eapply list_elem_of_lookup_2. exact Hl. }
  split; [apply upper_map|]. split; [exact Hlow|]. split.
  { rewrite (upper_map (upper s)). rewrite <- (list_fmap_id (upper s)) at 2.
    apply Forall_fmap_ext_1. eapply Forall_impl; [exact Hlow|].
    intros c Hc. apply upper_char_fixed, Hc. }
  split; [exact Hidx|]. split.
  - intros f Hf. unfold getfuncidx.
    destruct (getfuncidx_from_spec funcname 0 (upper s)) as [[Hr Hnot]|(Hr & Hl & Hfirst)].
    + exfalso. apply Hnot. eapply list_elem_of_lookup_2. exact Hf.
    + rewrite Z.sub_0_r in Hl, Hfirst.
      assert (Hi : getfuncidx_from funcname 0 (upper s) = func_index f).
      { change (length funcname) with 6%nat in Hr.
        assert (Hnd : NoDup funcname).
        { unfold funcname. cbn.
          repeat (apply NoDup_cons_2;
                  [intros H; repeat (apply elem_of_cons in H as [H|H]; [discriminate H|]);
                   inversion H|]).
          apply NoDup_nil_2. }
        pose proof (NoDup_lookup _ _ _ _ Hnd Hl Hf) as Heq.
        apply Z2Nat.inj in Heq; [exact Heq|lia|destruct f; cbn; lia]. }
      split; [exact Hi|]. rewrite Hi. destruct f; reflexivity.
  - intros Hnot. rewrite (proj2 (Hidx (upper s)) Hnot). reflexivity.
Qed.

Lemma getfuncidx_upper_selects_example :
  getfuncidx (upper name_z3azc) = 2 /\
  setfunc_case (getfuncidx (upper name_z3azc)) = FUNC_Z3AZC.
Proof.
  destruct (getfuncidx_upper_selects name_z3azc) as (_ & _ & _ & _ & H & _).
  apply (H FUNC_Z3AZC). vm_compute. reflexivity.
Defined.

End FunctionNameClaim.


(** ** The evaluators at a point *)

Section PointBoxes.
Local Open Scope R_scope.

Lemma minimumD_same (a : R) : minimumD a a = a.
Proof. unfold minimumD. destruct (nltb a a); reflexivity. Qed.

Lemma maximumD_same (a : R) : maximumD a a = a.
Proof. unfold maximumD. destruct (nltb a a); reflexivity. Qed.

Lemma minimumD4_same (a : R) : minimumD4 a a a a = a.
Proof. unfold minimumD4. cbv zeta. repeat (destruct (nltb a a); try reflexivity). Qed.

Lemma maximumD4_same (a : R) : maximumD4 a a a a = a.
Proof. unfold maximumD4. cbv zeta. repeat (destruct (nltb a a); try reflexivity). Qed.

(** X17: over the reals, with the seed interval reduced to the one parameter
    [c] (as [main] sets it), each of the six evaluators is exact on a
    rectangle that is a single point: the box it returns for [{z}] is the
    single point [p(z)], the value [eval_arg_f] gives for the polynomial
    [setfunc] stores. *)
Theorem bounding_box_of_point (f : FUNC) s cA cC z :
  seeds_exact s cA cC ->
  setfunc_bbox f s (point_box z) = point_box (eval_arg_f (setfunc_fkt f cA cC) z).
Proof.
  intros (H1 & H2 & H3 & H4 & H5 & H6).
  destruct z as [x y], cC as [cr ci], cA as [ar ai], s as [c0r c1r c0i c1i fr fi].
  cbn in H1, H2, H3, H4, H5, H6. subst.
  unfold point_box, eval_arg_f. rewrite setfunc_fkt_grad.
  destruct f; cbn [setfunc_bbox degree_of horner]; unfold coeff_at;
    rewrite !setfunc_fkt_coeff;
    unfold getBoundingBoxfA_z2c, getBoundingBoxfA_z2azc, getBoundingBoxfA_z3azc,
           getBoundingBoxfA_z4azc, getBoundingBoxfA_z5azc, getBoundingBoxfA_z6azc;
    cbn [px0 px1 py0 py1 re im seedC0re seedC1re seedC0im seedC1im FAKTORAre FAKTORAim];
    cbv zeta;
    repeat rewrite ?minimumD_same, ?maximumD_same, ?minimumD4_same, ?maximumD4_same;
    cbn; f_equal; ring.
Qed.

Lemma bounding_box_of_point_example :
  setfunc_bbox FUNC_Z2C
    {| seedC0re := -1; seedC1re := -1; seedC0im := 0; seedC1im := 0;
       FAKTORAre := 0; FAKTORAim := 0 |}
    (point_box {| re := 1; im := 1 |})
  = point_box (eval_arg_f (setfunc_fkt FUNC_Z2C Czero {| re := -1; im := 0 |})
                 {| re := 1; im := 1 |}).
Proof.
  apply bounding_box_of_point. unfold seeds_exact. cbn. repeat split; reflexivity.
Defined.

End PointBoxes.


(** ** The loop over the levels: level 31, and the levels below *)

Section LevelRange.
Context {NTYP : Type} {ops : NTYP_ops NTYP}.
Variable G : Globals NTYP.
Implicit Types (lv : Level NTYP) (st : Store) (r : Root NTYP).

Lemma aborts_bind {A B : Type} (o : outcome A) (f : A -> outcome B) :
  aborts o -> aborts (obind o f).
Proof. intros [->|[->| ->]]; cbn; unfold aborts; auto. Qed.

Lemma aborts_not_Ret {A : Type} (o : outcome A) (a : A) : aborts o -> o <> Ret a.
Proof. intros [->|[->| ->]]; discriminate. Qed.

Lemma grow_rect_sx1 (encl scr : ScreenRect) : sx1 encl <= sx1 (grow_rect encl scr).
Proof. unfold grow_rect; cbn. destruct (sx1 scr >? sx1 encl) eqn:E; lia. Qed.

(** The first loop of the set-up only widens the enclosement, and its
    only exit is the first [Maxmem reached]. *)
Lemma setup_points_exits SW MM spr n : forall (cyc : list (PeriodicPoint NTYP)) encl,
  match setup_points G SW MM spr n cyc encl with
  | Ret res => sx1 encl <= sx1 res.2
  | Exit99 w => w = MaxmemReached
  | Crash => True
  | OutOfFuel => False
  end.
Proof.
  induction n as [|n IH]; intros cyc encl; cbn [setup_points].
  - cbn. lia.
  - destruct cyc as [|p rest]; [exact I|]. cbn zeta.
    destruct (_ >=? MM); [reflexivity|].
    specialize (IH rest (grow_rect encl (point_rect G SW spr p))).
    pose proof (grow_rect_sx1 encl (point_rect G SW spr p)) as Hg.
    destruct (setup_points G SW MM spr n rest _) as [[rest' encl'']| | |]; cbn [obind];
      try exact IH.
    cbn [snd] in IH |- *. lia.
Qed.

(** At level 31 [1 << REFINEMENT] is negative as an [int]: [MAXMEM] is
    negative too, and the set-up of the level never gets past its two
    [Maxmem] tests. *)
Lemma level_setup_level_31 startwith onecycle mgr h :
  aborts (level_setup G 31 startwith onecycle mgr h).
Proof.
  unfold level_setup. cbv zeta.
  change (int32 (Z.shiftl 1 31)) with (-2147483648).
  change (Z.shiftr (-2147483648) SHIFTPERDDBYTE) with (-67108864).
  match goal with |- aborts (obind ?sp _) => pose proof (eq_refl sp) as Hsp;
    set (o := sp) in Hsp at 1 |- * end.
  pose proof (setup_points_exits (-2147483648) (-67108864)
                (ndiv (nofZ (-2147483648)) (nsub (COMPLETE1 G) (COMPLETE0 G)))
                (Z.to_nat (cyclelen onecycle)) (cycle onecycle)
                {| sx0 := -2147483648; sx1 := 0; sy0 := -2147483648; sy1 := 0 |}) as H.
  rewrite <- Hsp in H. clear Hsp.
  destruct o as [[cyc encl]|w| |]; cbn [obind].
  - cbn in H.
    assert (Hm : 0 <= Z.shiftr (sx1 encl) SHIFTPERDDBYTE) by (apply Z.shiftr_nonneg; exact H).
    replace (Z.shiftr (sx1 encl) SHIFTPERDDBYTE >=? -67108864) with true
      by (symmetry; rewrite Z.geb_leb; apply Z.leb_le; lia).
    right; left; reflexivity.
  - left. rewrite H. reflexivity.
  - right; right; reflexivity.
  - destruct H.
Qed.

Lemma level_pass_level_31 fuel startwith onecycle mgr h :
  aborts (level_pass G fuel 31 startwith onecycle mgr h).
Proof. unfold level_pass. apply aborts_bind, level_setup_level_31. Qed.

Lemma grid_at_level_31 fuel startwith onecycle lv st :
  grid_at G fuel 31 startwith onecycle <> Ret (lv, st).
Proof.
  unfold grid_at. apply aborts_not_Ret, aborts_bind, level_pass_level_31.
Qed.

(** When no level below 31 has a GRAY cell left, the loop reaches level
    31 and stops there. *)
Lemma level_loop_abort fuel sw r0 n : forall L r m h,
  root_equiv r r0 -> allocatePerBlock m = allocatePerBlock ArrayDDByteManager_new ->
  L <= 31 < L + Z.of_nat n ->
  (forall k, L <= k < 31 -> no_gray_at G fuel sw r0 k) ->
  aborts (level_loop G fuel n L sw r m h).
Proof.
  induction n as [|n IH]; intros L r m h Hr Ha HL Hno; [lia|].
  cbn [level_loop].
  destruct (Z.eq_dec L 31) as [->|HL31].
  - apply aborts_bind, level_pass_level_31.
  - destruct (Hno L ltac:(lia)) as (lv & st & Eg & Hng).
    pose proof (level_pass_equiv G fuel L sw r r0 m ArrayDDByteManager_new h ∅ Hr Ha) as He.
    unfold grid_at in Eg.
    destruct (level_pass G fuel L sw r0 _ _) as [[[[r0' lv0] st0] m0]| | |];
      try discriminate.
    cbn in Eg. injection Eg as -> ->.
    destruct (level_pass G fuel L sw r m h) as [[[[r1 lv1] st1] m1]| | |] eqn:Ep;
      cbn in He; try contradiction.
    destruct He as (H1 & H2 & _). cbn in H1, H2. subst lv1 st1.
    cbn [obind].
    rewrite (interiorpresentat_none lv st Hng). change (0 >? 0) with false. cbn iota.
    destruct (level_pass_inv G _ _ _ _ _ _ _ _ _ _ Ep) as (st1 & Es & _).
    pose proof (level_setup_spec G _ _ _ _ _ _ _ _ _ Es) as F.
    destruct (setup_facts_frame G _ _ _ _ _ F) as [Hfr _].
    apply IH.
    + eapply root_equiv_trans; [apply root_frame_equiv; exact Hfr|exact Hr].
    + rewrite (level_setup_apb G _ _ _ _ _ _ _ _ _ Es). exact Ha.
    + lia.
    + intros k Hk. apply Hno. lia.
Qed.

(** Fuel that is enough for the propagation of every level of a range
    whose set-up returns. *)
Lemma fuel_bound_returning sw r0 n : forall L,
  exists fuel0, forall fuel k, (fuel0 <= fuel)%nat -> L <= k < L + Z.of_nat n ->
    forall r lv st m,
      level_setup G k sw r0 ArrayDDByteManager_new ∅ = Ret (r, lv, st, m) ->
      (gray_bits lv st < fuel)%nat.
Proof.
  induction n as [|n IH]; intros L.
  - exists 0%nat. intros fuel k _ Hk. lia.
  - destruct (IH (L + 1)) as (f1 & Hf1).
    destruct (level_setup G L sw r0 ArrayDDByteManager_new ∅)
      as [[[[r0' lv0] st0] m0]| | |] eqn:E.
    + exists (Nat.max f1 (S (gray_bits lv0 st0))). intros fuel k Hfuel Hk r lv st m Ek.
      destruct (Z.eq_dec k L) as [->|Hne].
      * rewrite E in Ek. injection Ek as <- <- <- <-. lia.
      * apply (Hf1 fuel k ltac:(lia) ltac:(lia) r lv st m Ek).
    + exists f1. intros fuel k Hfuel Hk r lv st m Ek.
      destruct (Z.eq_dec k L) as [->|Hne]; [congruence|].
      apply (Hf1 fuel k Hfuel ltac:(lia) r lv st m Ek).
    + exists f1. intros fuel k Hfuel Hk r lv st m Ek.
      destruct (Z.eq_dec k L) as [->|Hne]; [congruence|].
      apply (Hf1 fuel k Hfuel ltac:(lia) r lv st m Ek).
    + exists f1. intros fuel k Hfuel Hk r lv st m Ek.
      destruct (Z.eq_dec k L) as [->|Hne]; [congruence|].
      apply (Hf1 fuel k Hfuel ltac:(lia) r lv st m Ek).
Qed.

(** When the set-up of every level of the range returns or finds the
    allocator full, so does the loop. *)
Lemma level_loop_returns_or_full fuel sw r0 n : forall L r m h,
  root_equiv r r0 -> allocatePerBlock m = allocatePerBlock ArrayDDByteManager_new ->
  (forall k, L <= k < L + Z.of_nat n ->
     (exists res, level_setup G k sw r0 ArrayDDByteManager_new ∅ = Ret res) \/
     level_setup G k sw r0 ArrayDDByteManager_new ∅ = Exit99 ArenaFull) ->
  (forall k, L <= k < L + Z.of_nat n -> forall r' lv st m',
     level_setup G k sw r0 ArrayDDByteManager_new ∅ = Ret (r', lv, st, m') ->
     (gray_bits lv st < fuel)%nat) ->
  (exists out, level_loop G fuel n L sw r m h = Ret out) \/
  level_loop G fuel n L sw r m h = Exit99 ArenaFull.
Proof.
  induction n as [|n IH]; intros L r m h Hr Ha Hall Hfuel.
  - cbn. left. eauto.
  - cbn [level_loop].
    pose proof (level_setup_equiv G L sw r r0 m ArrayDDByteManager_new h ∅ Hr Ha) as He.
    destruct (Hall L ltac:(lia)) as [([[[rc lv] st] mc] & Ec)|Ec]; rewrite Ec in He.
    + pose proof (Hfuel L ltac:(lia) rc lv st mc Ec) as Hf.
      destruct (level_setup G L sw r m h) as [[[[r1 lv1] st1] m1]| | |] eqn:Es; cbn in He;
        try contradiction.
      destruct He as (H1 & H2 & _). cbn in H1, H2. subst lv1 st1.
      pose proof (level_setup_spec G _ _ _ _ _ _ _ _ _ Es) as F.
      destruct (sweeps_exist G lv _ st (sf_ok _ _ _ _ _ _ F) (Nat.lt_succ_diag_r _))
        as (tr & st' & Hrun & _ & _ & _ & _ & Hlen).
      pose proof (sweeps_to_while G lv st tr st' Hrun fuel ltac:(lia)) as Ew.
      unfold level_pass. rewrite Es. cbn [obind]. rewrite Ew. cbn [obind].
      destruct (_ >? 0); [left; eauto|].
      apply IH.
      * eapply root_equiv_trans; [|exact Hr].
        apply root_frame_equiv. apply (setup_facts_frame G _ _ _ _ _ F).
      * rewrite (level_setup_apb G _ _ _ _ _ _ _ _ _ Es). exact Ha.
      * intros k Hk. apply Hall. lia.
      * intros k Hk. apply Hfuel. lia.
    + destruct (level_setup G L sw r m h) as [[[[r1 lv1] st1] m1]|w| |] eqn:Es; cbn in He;
        try contradiction.
      subst w. unfold level_pass. rewrite Es. right. reflexivity.
Qed.

(** A pass whose decision scan gives 0 at a level other than 0 leaves no
    word that differs from [ALL32POTW]. *)
Lemma no_gray_at_scan fuel sw r L :
  returns_with (grid_at G fuel L sw r)
    (fun x => (interiorpresentat x.1 x.2 =? 0) && negb (REFINEMENT x.1 =? 0)) = true ->
  no_gray_at G fuel sw r L.
Proof.
  intros H.
  destruct (returns_with_Ret _ _
              (fun x => interiorpresentat x.1 x.2 = 0 /\ REFINEMENT x.1 <> 0) H)
    as ([lv st] & E & Hip & Hne).
  { intros a _ Ha. apply andb_true_iff in Ha as [H1 H2].
    apply Z.eqb_eq in H1. apply negb_true_iff, Z.eqb_neq in H2. auto. }
  exists lv, st. split; [exact E|]. cbn [fst snd] in Hip, Hne.
  destruct (interiorpresentat_cases lv st) as [[_ Hx]|[Hno _]]; [congruence|exact Hno].
Qed.

End LevelRange.


Section SmallestLevelClaim.
Context {NTYP : Type} {ops : NTYP_ops NTYP}.
Variable G : Globals NTYP.

(** C2: for [LEVEL0 > 0] (main raises it to 8 at least).
    (1) Whenever [cm_local] returns, the value it returns is stored in
    [interiorfound] and is the smallest level of [LEVEL0 .. LEVEL1] whose
    grid, at the fixed point of its propagation, has a word with memory
    that differs from [ALL32POTW], and 0 when no level of the range has
    one.
    (2) For [5 <= LEVEL0], [LEVEL1 <= 30], a cycle of [cyclelen >= 1]
    points and an enclosement width that is not negative, [cm_local],
    given enough fuel for the propagation loops, returns, unless the
    allocator is full.
    (3) When 31 is a level of the range, [cm_local] never returns 0: a
    value it returns is a level below 31, and when no level below 31 has
    such a word the run stops in the set-up of level 31, where
    [1 << REFINEMENT] is negative. *)
Theorem cm_local_smallest_level onecycle startwith :
  0 < LEVEL0 G ->
  (forall fuel found onecycle',
     cm_local G fuel onecycle startwith = Ret (found, onecycle') ->
     interiorfound onecycle' = found /\
     ((found = 0 /\
       forall L, LEVEL0 G <= L <= LEVEL1 G -> no_gray_at G fuel startwith onecycle L) \/
      (LEVEL0 G <= found <= LEVEL1 G /\
       gray_at G fuel startwith onecycle found /\
       forall L, LEVEL0 G <= L < found -> no_gray_at G fuel startwith onecycle L))) /\
  (5 <= LEVEL0 G -> LEVEL1 G <= 30 -> 0 <= _ENCLOSEMENTWIDTH G ->
   1 <= cyclelen onecycle ->
   (Z.to_nat (cyclelen onecycle) <= length (cycle onecycle))%nat ->
   exists fuel0, forall fuel, (fuel0 <= fuel)%nat ->
     (exists found onecycle',
        cm_local G fuel onecycle startwith = Ret (found, onecycle')) \/
     cm_local G fuel onecycle startwith = Exit99 ArenaFull) /\
  (LEVEL0 G <= 31 <= LEVEL1 G -> forall fuel,
     (forall found onecycle',
        cm_local G fuel onecycle startwith = Ret (found, onecycle') ->
        LEVEL0 G <= found < 31) /\
     ((forall L, LEVEL0 G <= L < 31 -> no_gray_at G fuel startwith onecycle L) ->
      aborts (cm_local G fuel onecycle startwith))).
Proof.
  intros H0.
  set (n := Z.to_nat (LEVEL1 G - LEVEL0 G + 1)).
  assert (Hr : root_equiv (set_interiorfound onecycle 0) onecycle) by (split; reflexivity).
  assert (Hsound : forall fuel found onecycle',
     cm_local G fuel onecycle startwith = Ret (found, onecycle') ->
     interiorfound onecycle' = found /\
     ((found = 0 /\
       forall L, LEVEL0 G <= L <= LEVEL1 G -> no_gray_at G fuel startwith onecycle L) \/
      (LEVEL0 G <= found <= LEVEL1 G /\
       gray_at G fuel startwith onecycle found /\
       forall L, LEVEL0 G <= L < found -> no_gray_at G fuel startwith onecycle L))).
  { intros fuel found onecycle' E. unfold cm_local in E. fold n in E.
    destruct (level_loop G fuel n _ _ _ _ _) as [[[[f r'] m] h]| | |] eqn:El; try discriminate.
    cbn in E. injection E as <- <-.
    destruct (level_loop_sound G fuel startwith onecycle n _ _ _ _ _ _ _ _ Hr eq_refl H0 El)
      as (_ & _ & Hres).
    split; [reflexivity|].
    destruct Hres as [[-> Hall]|(Hrange & Hgray & Hbefore)].
    + left. split; [reflexivity|]. intros L HL. apply Hall. lia.
    + right. split; [lia|]. split; [exact Hgray|]. intros L HL. apply Hbefore. lia. }
  split; [exact Hsound|]. split.
  - intros H5 H30 Hencw Hlen Harr.
    destruct (fuel_bound_returning G startwith onecycle n (LEVEL0 G)) as (fuel0 & Hfuel0).
    exists fuel0. intros fuel Hfuel.
    destruct (level_loop_returns_or_full G fuel startwith onecycle n (LEVEL0 G)
                (set_interiorfound onecycle 0) ArrayDDByteManager_new ∅ Hr eq_refl)
      as [([[[found r'] m] h] & El)|El].
    + intros k Hk. apply level_setup_total; [lia|exact Hencw|exact Hlen|exact Harr].
    + intros k Hk. apply Hfuel0; assumption.
    + left. exists found, (set_interiorfound r' found).
      unfold cm_local; fold n; rewrite El; reflexivity.
    + right. unfold cm_local; fold n; rewrite El; reflexivity.
  - intros H31 fuel. split.
    + intros found onecycle' E.
      destruct (Hsound fuel found onecycle' E) as (_ & [[-> Hall]|(Hrange & Hgray & Hbefore)]).
      * exfalso. destruct (Hall 31 H31) as (lv & st & Eg & _).
        exact (grid_at_level_31 G _ _ _ _ _ Eg).
      * destruct (Z_lt_ge_dec found 31) as [Hlt|Hge]; [lia|exfalso].
        destruct (Z.eq_dec found 31) as [->|Hne].
        -- destruct Hgray as (lv & st & Eg & _). exact (grid_at_level_31 G _ _ _ _ _ Eg).
        -- destruct (Hbefore 31 ltac:(lia)) as (lv & st & Eg & _).
           exact (grid_at_level_31 G _ _ _ _ _ Eg).
    + intros Hno. unfold cm_local. fold n. apply aborts_bind.
      apply (level_loop_abort G fuel startwith onecycle n); [exact Hr|reflexivity| |exact Hno].
      unfold n. lia.
Qed.

End SmallestLevelClaim.

Section SmallestLevelRuns.

Lemma cm_local_smallest_level_example :
  (exists onecycle',
     cm_local (fixpoint_globals 8 10 7) 300 fixpoint_cycle ALL32POTW = Ret (9, onecycle') /\
     interiorfound onecycle' = 9 /\
     no_gray_at (fixpoint_globals 8 10 7) 300 ALL32POTW fixpoint_cycle 8 /\
     gray_at (fixpoint_globals 8 10 7) 300 ALL32POTW fixpoint_cycle 9) /\
  (exists fuel0, forall fuel, (fuel0 <= fuel)%nat ->
     (exists found onecycle',
        cm_local (fixpoint_globals 8 10 7) fuel fixpoint_cycle ALL32POTW
          = Ret (found, onecycle')) \/
     cm_local (fixpoint_globals 8 10 7) fuel fixpoint_cycle ALL32POTW = Exit99 ArenaFull) /\
  (exists onecycle',
     cm_local (fixpoint_globals 30 30 4) 300 fixpoint_cycle ALL32POTW = Ret (0, onecycle')) /\
  (forall L, LEVEL0 (fixpoint_globals 30 31 4) <= L < 31 ->
     no_gray_at (fixpoint_globals 30 31 4) 300 ALL32POTW fixpoint_cycle L) /\
  aborts (cm_local (fixpoint_globals 30 31 4) 300 fixpoint_cycle ALL32POTW) /\
  cm_local (fixpoint_globals 30 31 4) 300 fixpoint_cycle ALL32POTW = Exit99 MaxmemReached.
Proof.
  assert (H0 : 0 < LEVEL0 (fixpoint_globals 8 10 7)) by (cbn; lia).
  destruct (cm_local_smallest_level (fixpoint_globals 8 10 7) fixpoint_cycle ALL32POTW H0)
    as (Hsound & Htotal & _).
  assert (Hno : forall L, LEVEL0 (fixpoint_globals 30 31 4) <= L < 31 ->
            no_gray_at (fixpoint_globals 30 31 4) 300 ALL32POTW fixpoint_cycle L).
  { intros L HL. cbn in HL. assert (L = 30) as -> by lia.
    apply no_gray_at_scan. vm_compute. reflexivity. }
  split; [|split; [|split; [|split; [|split]]]].
  - destruct (returns_with_Ret
                (cm_local (fixpoint_globals 8 10 7) 300 fixpoint_cycle ALL32POTW)
                (fun res => res.1 =? 9) (fun res => res.1 = 9))
      as ([found r'] & E & Hf); [vm_compute; reflexivity|intros a _ H; apply Z.eqb_eq, H|].
    cbn [fst] in Hf. subst found. exists r'. split; [exact E|].
    destruct (Hsound 300%nat 9 r' E) as (Hif & [[Hz _]|(_ & Hgray & Hbefore)]); [lia|].
    split; [exact Hif|]. split; [|exact Hgray].
    apply Hbefore. cbn. lia.
  - apply Htotal; cbn; lia.
  - destruct (returns_with_Ret
                (cm_local (fixpoint_globals 30 30 4) 300 fixpoint_cycle ALL32POTW)
                (fun res => res.1 =? 0) (fun res => res.1 = 0))
      as ([found r'] & E & Hf); [vm_compute; reflexivity|intros a _ H; apply Z.eqb_eq, H|].
    cbn [fst] in Hf. subst found. exists r'. exact E.
  - exact Hno.
  - assert (H0' : 0 < LEVEL0 (fixpoint_globals 30 31 4)) by (cbn; lia).
    assert (H31 : LEVEL0 (fixpoint_globals 30 31 4) <= 31
                  <= LEVEL1 (fixpoint_globals 30 31 4)) by (cbn; lia).
    destruct (cm_local_smallest_level (fixpoint_globals 30 31 4) fixpoint_cycle
                ALL32POTW H0') as (_ & _ & Hlast).
    exact (proj2 (Hlast H31 300%nat) Hno).
  - vm_compute. reflexivity.
Defined.

End SmallestLevelRuns.
